(** * Lighter gateway: scaled decimals, stream reconciliation, rate limiting

    A shallow embedding of the parts of [src/exchanges/lighter/gateway.ts]
    (with the decimal helpers it imports from [./decimal]) and of
    [src/core/lib/rate-limit.ts] that the specification makes statements
    about, followed by the statements themselves.

    Conventions.
    - A JavaScript string is a sequence of code units; the embedding keeps
      the code units below 256 ([ascii]).  Strings that are only stored and
      compared are [string]; strings that are cut, padded or parsed are
      handled as [list ascii].
    - A [bigint] is a [Z]; a non-negative one an [N].
    - [Date.now()] is an argument [now : Z] of whatever reads the clock.
    - A function that can [throw] returns a [result]. *)

From Stdlib Require Import ZArith NArith List String Ascii Bool Lia.
From Stdlib Require Import QArith Qabs.
From Stdlib Require Import DecimalString DecimalFacts DecimalN DecimalPos.
From Stdlib Require Import Sorted Permutation.
Import ListNotations.

Close Scope Q_scope.

Set Implicit Arguments.

(** ** Exceptions *)

Inductive JsError : Type :=
| InvalidDecimalInput      (* "Invalid decimal input: ..." *)
| EmptyDecimalInput        (* "Decimal input cannot be empty" *)
| InvalidDecimalFormat     (* "Invalid decimal format: ..." *)
| NegativeDecimals         (* "Decimals must be non-negative" *)
| InvalidScaledNumber      (* "Invalid scaled number: ..." *)
| InvalidScaledString      (* "Invalid scaled string: ..." *)
| BigIntSyntaxError        (* SyntaxError raised by BigInt(string) *)
| BigIntRangeError         (* RangeError raised by BigInt(number) *)
| ExternalFailure (tag : string).  (* an Error with this message: one the
                                     gateway throws, or the rejection of an
                                     awaited collaborator *)

Inductive result (A : Type) : Type :=
| Ok (a : A)
| Throw (e : JsError).

Arguments Ok {A} a.
Arguments Throw {A} e.

Definition bind {A B : Type} (r : result A) (k : A -> result B) : result B :=
  match r with
  | Ok a => k a
  | Throw e => Throw e
  end.

Notation "'let*' x ':=' r 'in' k" := (bind r (fun x => k))
  (at level 10, x pattern, r at level 100, k at level 200).

(** ** JavaScript strings *)

Module JsString.

Open Scope char_scope.

Definition chars := list ascii.

Definition of_string (s : string) : chars := list_ascii_of_string s.
Definition to_string (s : chars) : string := string_of_list_ascii s.

(** [\d] of a regular expression without the unicode flag: [0-9]. *)
Definition is_digit (c : ascii) : bool :=
  let n := nat_of_ascii c in (48 <=? n)%nat && (n <=? 57)%nat.

Definition is_zero_char (c : ascii) : bool := Ascii.eqb c "0".

(** WhiteSpace and LineTerminator code units below 256, the ones
    [String.prototype.trim] and [Number(string)] skip: TAB, LF, VT, FF, CR,
    SP and NBSP. *)
Definition is_space (c : ascii) : bool :=
  let n := nat_of_ascii c in
  ((9 <=? n)%nat && (n <=? 13)%nat) || (n =? 32)%nat || (n =? 160)%nat.

Fixpoint dropWhile (p : ascii -> bool) (s : chars) : chars :=
  match s with
  | [] => []
  | c :: r => if p c then dropWhile p r else s
  end.

Fixpoint takeWhile (p : ascii -> bool) (s : chars) : chars :=
  match s with
  | [] => []
  | c :: r => if p c then c :: takeWhile p r else []
  end.

Definition trimStart (s : chars) : chars := dropWhile is_space s.
Definition trimEnd (s : chars) : chars := rev (dropWhile is_space (rev s)).
Definition trim (s : chars) : chars := trimEnd (trimStart s).

(** [s.slice(b, e)] and [s.slice(b)]: a negative index counts from the end,
    and both are clamped to the string. *)
Definition clamp_index (len i : Z) : Z :=
  if (i <? 0)%Z then Z.max 0 (len + i) else Z.min i len.

Definition slice (s : chars) (b e : Z) : chars :=
  let len := Z.of_nat (List.length s) in
  let from := clamp_index len b in
  let to := clamp_index len e in
  firstn (Z.to_nat (to - from)) (skipn (Z.to_nat from) s).

Definition slice_from (s : chars) (b : Z) : chars :=
  slice s b (Z.of_nat (List.length s)).

(** [s.padEnd(n, zero)] and [s.padStart(n, zero)] for the one-character
    filler [0]. *)
Definition padEnd0 (s : chars) (target : Z) : chars :=
  s ++ repeat "0" (Z.to_nat (target - Z.of_nat (List.length s))).

Definition padStart0 (s : chars) (target : Z) : chars :=
  repeat "0" (Z.to_nat (target - Z.of_nat (List.length s))) ++ s.

(** [s.split(".")]. *)
Fixpoint split_dot_aux (cur : chars) (s : chars) : list chars :=
  match s with
  | [] => [rev cur]
  | c :: r =>
      if Ascii.eqb c "." then rev cur :: split_dot_aux [] r
      else split_dot_aux (c :: cur) r
  end.

Definition split_dot (s : chars) : list chars := split_dot_aux [] s.

(** The test of [normalizeDecimalInput]: digits, then optionally a point
    and digits; nothing else, and every part may be empty. *)
Definition test_decimal (s : chars) : bool :=
  match dropWhile is_digit s with
  | [] => true
  | c :: r => Ascii.eqb c "." && forallb is_digit r
  end.

(** The test of [scaledToDecimalString]: an optional minus sign and at
    least one digit. *)
Definition test_integer (s : chars) : bool :=
  let body := match s with
              | c :: r => if Ascii.eqb c "-" then r else s
              | [] => s
              end in
  match body with
  | [] => false
  | _ => forallb is_digit body
  end.

(** Removing the match of [^0+(?=\d)]: the longest run of leading zeros
    that is still followed by a digit is removed. *)
Fixpoint replace_leading_zeros (s : chars) : chars :=
  match s with
  | c :: r =>
      if is_zero_char c then
        match r with
        | c' :: _ =>
            if is_digit c' then
              if is_zero_char c' then replace_leading_zeros r else r
            else s
        | [] => s
        end
      else s
  | [] => []
  end.

(** Removing the match of [0+$]: the trailing zeros. *)
Definition replace_trailing_zeros (s : chars) : chars :=
  rev (dropWhile is_zero_char (rev s)).

(** Removing the match of [\.0+$]: the leftmost point that is followed by
    nothing but zeros (at least one) is removed together with them. *)
Fixpoint replace_dot_zeros (s : chars) : chars :=
  match s with
  | [] => []
  | c :: r =>
      if Ascii.eqb c "." && negb (Nat.eqb (List.length r) 0) && forallb is_zero_char r
      then []
      else c :: replace_dot_zeros r
  end.

(** Removing the match of [\.$]: a point that ends the string. *)
Fixpoint replace_final_dot (s : chars) : chars :=
  match s with
  | [] => []
  | c :: r =>
      match r with
      | [] => if Ascii.eqb c "." then [] else [c]
      | _ => c :: replace_final_dot r
      end
  end.

(** [s.toLowerCase()] on the letters A-Z; other code units are kept. *)
Definition lower_char (c : ascii) : ascii :=
  let n := nat_of_ascii c in
  if (65 <=? n)%nat && (n <=? 90)%nat then ascii_of_nat (n + 32) else c.

Definition toLowerCase (s : chars) : chars := map lower_char s.

End JsString.

(** ** Big integers and their decimal notation *)

Module JsBigInt.

Import JsString.
Open Scope N_scope.

Definition digit_value (c : ascii) : N := N_of_ascii c - 48.

Definition of_digits (s : chars) : N :=
  fold_left (fun acc c => 10 * acc + digit_value c) s 0.

(** [BigInt(s)] for a string of decimal digits (the empty string reads as
    zero); anything else is a SyntaxError. *)
Definition BigInt (s : chars) : result N :=
  if forallb is_digit s then Ok (of_digits s) else Throw BigIntSyntaxError.

(** [n.toString()] for [n >= 0n]. *)
Definition toString (n : N) : chars :=
  list_ascii_of_string (NilZero.string_of_uint (N.to_uint n)).

(** The value of a digit of a binary, octal or hexadecimal literal:
    [0-9], [a-f], [A-F]. *)
Definition radix_digit (c : ascii) : option N :=
  let n := N_of_ascii c in
  if (48 <=? n) && (n <=? 57) then Some (n - 48)
  else if (97 <=? n) && (n <=? 102) then Some (n - 87)
  else if (65 <=? n) && (n <=? 70) then Some (n - 55)
  else None.

Fixpoint of_radix_digits (radix acc : N) (s : chars) : option N :=
  match s with
  | [] => Some acc
  | c :: r =>
      match radix_digit c with
      | Some v => if v <? radix then of_radix_digits radix (radix * acc + v) r else None
      | None => None
      end
  end.

(** The radix a prefix [0b], [0o] or [0x] (in either case) announces. *)
Definition radix_of (c : ascii) : option N :=
  if Ascii.eqb c "b" || Ascii.eqb c "B" then Some 2
  else if Ascii.eqb c "o" || Ascii.eqb c "O" then Some 8
  else if Ascii.eqb c "x" || Ascii.eqb c "X" then Some 16
  else None.

(** [BigInt(text)], that is StringToBigInt (ECMA-262, 7.1.14): white space
    around the literal is skipped and the empty text reads as zero; the
    literal is a run of decimal digits with an optional sign, or a run of
    binary, octal or hexadecimal digits after its prefix, without a sign;
    every other text is a SyntaxError. *)
Definition StringToBigInt (s : chars) : result Z :=
  let decimal (negative : bool) (digits : chars) : result Z :=
    match digits with
    | [] => Throw BigIntSyntaxError
    | _ =>
        if forallb is_digit digits
        then Ok (if negative then (- Z.of_N (of_digits digits))%Z
                 else Z.of_N (of_digits digits))
        else Throw BigIntSyntaxError
    end in
  match trim s with
  | [] => Ok 0%Z
  | c :: r =>
      if Ascii.eqb c "-" then decimal true r
      else if Ascii.eqb c "+" then decimal false r
      else
        match (if Ascii.eqb c "0"
               then match r with
                    | p :: digits =>
                        match radix_of p with
                        | Some radix => Some (radix, digits)
                        | None => None
                        end
                    | [] => None
                    end
               else None) with
        | Some (radix, digits) =>
            match digits with
            | [] => Throw BigIntSyntaxError
            | _ =>
                match of_radix_digits radix 0 digits with
                | Some n => Ok (Z.of_N n)
                | None => Throw BigIntSyntaxError
                end
            end
        | None => decimal false (c :: r)
        end
  end.

End JsBigInt.

(** ** Numbers

    A JavaScript number reaches the decimal helpers only through
    [Number.isFinite], [value.toString()] and comparisons with zero, so a
    finite nonzero number is represented by what [Number::toString] starts
    from: its sign, the digits [s] of its shortest round-trip decimal
    notation and the decimal exponent [n], the value being the binary64
    nearest to [s * 10^(n - k)] for [k] the number of digits of [s]. *)

Module JsNumber.

Import JsString.

Inductive number : Type :=
| NaN
| Infinity (negative : bool)
| Zero
| Finite (negative : bool) (s : positive) (n : Z).

Definition isFinite (x : number) : bool :=
  match x with
  | NaN | Infinity _ => false
  | Zero | Finite _ _ _ => true
  end.

(** [Number::toString(x)], radix 10 (ECMA-262, 6.1.6.1.20): plain notation
    when [-6 < n <= 21], exponent notation otherwise. *)
Definition toString (x : number) : chars :=
  match x with
  | NaN => of_string "NaN"
  | Infinity neg => (if neg then ["-"%char] else []) ++ of_string "Infinity"
  | Zero => ["0"%char]
  | Finite neg s n =>
      let ds := JsBigInt.toString (Npos s) in
      let k := Z.of_nat (List.length ds) in
      let body :=
        if ((-6 <? n) && (n <=? 21))%Z then
          if (k <=? n)%Z then ds ++ repeat "0"%char (Z.to_nat (n - k))
          else if (0 <? n)%Z then
            firstn (Z.to_nat n) ds ++ ["."%char] ++ skipn (Z.to_nat n) ds
          else of_string "0." ++ repeat "0"%char (Z.to_nat (- n)) ++ ds
        else
          let e := (n - 1)%Z in
          let esign := if (0 <? e)%Z then "+"%char else "-"%char in
          let edigits := JsBigInt.toString (Z.abs_N e) in
          match ds with
          | [d] => [d] ++ ["e"%char; esign] ++ edigits
          | d :: rest => [d] ++ ["."%char] ++ rest ++ ["e"%char; esign] ++ edigits
          | [] => []
          end
      in (if neg then ["-"%char] else []) ++ body
  end.

(** The binary64 nearest to the integer [v], ties to even: [v] itself
    below [2^53]; above, [v] rounded to 53 significant bits. *)
Definition nearest (v : N) : N :=
  if (v <? 2 ^ 53)%N then v
  else
    let e := (N.log2 v - 52)%N in
    let q := (v / 2 ^ e)%N in
    let r := (v mod 2 ^ e)%N in
    let half := (2 ^ (e - 1))%N in
    let q' := if (r <? half)%N then q
              else if (half <? r)%N then (q + 1)%N
                   else if N.even q then q else (q + 1)%N in
    (q' * 2 ^ e)%N.

(** [Math.trunc(x)] of a finite number, as an integer.  A number with
    digits after the decimal point lies below [2^53], where its integer
    part is the one of its notation; a number without is the binary64
    nearest to what its notation says, which above [2^53] need not be that
    integer itself ([1e23] is 99999999999999991611392). *)
Definition trunc (x : number) : option Z :=
  match x with
  | NaN | Infinity _ => None
  | Zero => Some 0%Z
  | Finite neg s n =>
      let k := Z.of_nat (List.length (JsBigInt.toString (Npos s))) in
      let magnitude :=
        if (k <=? n)%Z then Z.of_N (nearest (Npos s * 10 ^ Z.to_N (n - k)))
        else (Zpos s / 10 ^ (k - n))%Z in
      Some (if neg then (- magnitude)%Z else magnitude)
  end.

(** Whether a number is an integer: finite, with nothing but zeros after
    the decimal point. *)
Definition isInteger (x : number) : bool :=
  match x with
  | NaN | Infinity _ => false
  | Zero => true
  | Finite _ s n =>
      let k := Z.of_nat (List.length (JsBigInt.toString (Npos s))) in
      ((k <=? n) || (Zpos s mod 10 ^ (k - n) =? 0))%Z
  end.

(** [BigInt(x)] for a number: a RangeError unless it is an integer. *)
Definition toBigInt (x : number) : result Z :=
  if isInteger x then
    match trunc x with
    | Some z => Ok z
    | None => Throw BigIntRangeError
    end
  else Throw BigIntRangeError.

(** What the decimal helpers ask of a number: whether it is finite, whether
    it is zero, and its sign. *)
Inductive numclass : Type :=
| IsNaN
| IsInfinite (negative : bool)
| IsZero
| IsNonzero (negative : bool).

Definition classify (x : number) : numclass :=
  match x with
  | NaN => IsNaN
  | Infinity neg => IsInfinite neg
  | Zero => IsZero
  | Finite neg _ _ => IsNonzero neg
  end.

Definition class_isFinite (c : numclass) : bool :=
  match c with
  | IsZero | IsNonzero _ => true
  | _ => false
  end.

Definition class_isZero (c : numclass) : bool :=
  match c with IsZero => true | _ => false end.

Definition class_isNegative (c : numclass) : bool :=
  match c with
  | IsInfinite neg | IsNonzero neg => neg
  | _ => false
  end.

(** Rounding to binary64, ties to even: a magnitude [m / 10^f] becomes zero
    when it is at most [2^-1075] (half the least subnormal) and infinite
    when it is at least [2^1024 - 2^970] (half an ulp above the greatest
    finite value). *)
Definition round_class (neg : bool) (m : N) (f : nat) : numclass :=
  if (m =? 0)%N then IsZero
  else if (m * 2 ^ 1075 <=? 10 ^ N.of_nat f)%N then IsZero
  else if ((2 ^ 1024 - 2 ^ 970) * 10 ^ N.of_nat f <=? m)%N then IsInfinite neg
  else IsNonzero neg.

(** [Number(z)] for a bigint. *)
Definition of_bigint (z : Z) : numclass :=
  round_class (z <? 0)%Z (Z.abs_N z) 0.

(** [Number(s)] for a string, on the decimal literals without exponent:
    optional white space around an optional sign, digits, and optionally a
    point and digits, with at least one digit; the empty string reads as
    zero.  The other numeric literals (exponent part, [Infinity], radix
    prefixes) are outside this model and read as [NaN] here; the decimal
    helpers reject them before [Number] is consulted. *)
Definition of_text (s : chars) : numclass :=
  let t := trim s in
  match t with
  | [] => IsZero
  | c :: r =>
      let neg := Ascii.eqb c "-" in
      let u := if Ascii.eqb c "-" || Ascii.eqb c "+" then r else t in
      let ip := takeWhile is_digit u in
      let fp := match dropWhile is_digit u with
                | d :: w => if Ascii.eqb d "." then Some w else None
                | [] => Some []
                end in
      match fp with
      | Some fp =>
          if forallb is_digit fp && negb (Nat.eqb (List.length (ip ++ fp)) 0)
          then round_class neg (JsBigInt.of_digits (ip ++ fp)) (List.length fp)
          else IsNaN
      | None => IsNaN
      end
  end.

End JsNumber.

(** ** [./decimal]: scaled decimals *)

Module Decimal.

Import JsString.

Inductive DecimalInput : Type :=
| VString (s : string)
| VNumber (x : JsNumber.number)
| VBigint (z : Z).

Record Normalized : Type := {
  sign : Z;               (* 1 or -1 *)
  digits : chars;
  fractionLength : Z
}.

Definition zero_normalized : Normalized :=
  {| sign := 1; digits := ["0"%char]; fractionLength := 0 |}.

Definition is_empty (s : chars) : bool :=
  match s with [] => true | _ => false end.

Definition chars_eqb (a b : chars) : bool :=
  String.eqb (to_string a) (to_string b).

(** [normalizeDecimalInput] from the point where [value] is a string. *)
Definition normalizeText (value : chars) : result Normalized :=
  let trimmed := trim value in
  if is_empty trimmed then Throw EmptyDecimalInput else
  let sign : Z :=
    match trimmed with
    | c :: _ => if Ascii.eqb c "-" then (-1)%Z else 1%Z
    | [] => 1%Z
    end in
  let unsigned := if (sign =? -1)%Z then slice_from trimmed 1 else trimmed in
  if negb (test_decimal unsigned) then Throw InvalidDecimalFormat else
  if is_empty unsigned || chars_eqb unsigned ["."%char] then Ok zero_normalized else
  let parts := split_dot unsigned in
  let integerPartRaw := nth 0 parts [] in
  let fractionRaw := nth 1 parts [] in
  let integerPart := replace_leading_zeros integerPartRaw in
  let fractionPart := replace_trailing_zeros fractionRaw in
  if is_empty integerPart && is_empty fractionPart then Ok zero_normalized else
  let digits := (if is_empty integerPart then ["0"%char] else integerPart) ++ fractionPart in
  Ok {| sign := sign; digits := digits;
        fractionLength := Z.of_nat (List.length fractionPart) |}.

Definition normalizeDecimalInput (value : DecimalInput) : result Normalized :=
  match value with
  | VBigint z =>
      Ok {| sign := if (z <? 0)%Z then (-1)%Z else 1%Z;
            digits := JsBigInt.toString (Z.abs_N z);
            fractionLength := 0 |}
  | VNumber x =>
      if negb (JsNumber.isFinite x) then Throw InvalidDecimalInput
      else normalizeText (JsNumber.toString x)
  | VString s => normalizeText (of_string s)
  end.

Definition signed (sign : Z) (result : N) : Z :=
  if (sign =? -1)%Z then (- Z.of_N result)%Z else Z.of_N result.

Definition decimalToScaled (value : DecimalInput) (decimals : Z) : result Z :=
  if (decimals <? 0)%Z then Throw NegativeDecimals else
  let* nrm := normalizeDecimalInput value in
  let len := Z.of_nat (List.length (digits nrm)) in
  if (decimals <? fractionLength nrm)%Z then
    let trimLength := (fractionLength nrm - decimals)%Z in
    let cut := slice (digits nrm) 0 (len - trimLength) in
    let truncated := if is_empty cut then ["0"%char] else cut in
    let* result := JsBigInt.BigInt truncated in
    Ok (signed (sign nrm) result)
  else
    let padded := padEnd0 (digits nrm) (len + (decimals - fractionLength nrm)) in
    let* result := JsBigInt.BigInt padded in
    Ok (signed (sign nrm) result).

(** [Number(value)] as [scaleQuantityWithMinimum] takes it. *)
Definition Number_of (value : DecimalInput) : JsNumber.numclass :=
  match value with
  | VBigint z => JsNumber.of_bigint z
  | VNumber x => JsNumber.classify x
  | VString s => JsNumber.of_text (of_string s)
  end.

Definition scaleQuantityWithMinimum (value : DecimalInput) (decimals : Z) : result Z :=
  let* scaled := decimalToScaled value decimals in
  if negb (scaled =? 0)%Z then Ok scaled else
  let numeric := Number_of value in
  if negb (JsNumber.class_isFinite numeric) || JsNumber.class_isZero numeric
  then Ok scaled
  else Ok (if JsNumber.class_isNegative numeric then (-1)%Z else 1%Z).

(** The scaled value handed to [scaledToDecimalString]: a bigint or the
    text of one.  (The third form of the source, a number sent through
    [Math.trunc], needs the binary64 value itself and is not part of the
    embedding; no caller in the gateway uses it.) *)
Inductive ScaledInput : Type :=
| SBigint (z : Z)
| SString (s : string).

Definition BigInt_signed (s : chars) : result Z :=
  match s with
  | c :: r =>
      if Ascii.eqb c "-" then
        let* n := JsBigInt.BigInt r in Ok (- Z.of_N n)%Z
      else let* n := JsBigInt.BigInt s in Ok (Z.of_N n)
  | [] => Ok 0%Z
  end.

Definition scaledToDecimalString (value : ScaledInput) (decimals : Z) : result string :=
  let* value :=
    match value with
    | SString s =>
        if negb (test_integer (trim (of_string s))) then Throw InvalidScaledString
        else BigInt_signed (trim (of_string s))
    | SBigint z => Ok z
    end in
  let negative := (value <? 0)%Z in
  let abs := Z.abs_N value in
  let digits := JsBigInt.toString abs in
  if (decimals =? 0)%Z then
    Ok (to_string (if negative then "-"%char :: digits else digits))
  else
    let digits :=
      if (Z.of_nat (List.length digits) <=? decimals)%Z
      then padStart0 digits (decimals + 1) else digits in
    let splitIndex := (Z.of_nat (List.length digits) - decimals)%Z in
    let integerPart :=
      let p := slice digits 0 splitIndex in
      if is_empty p then ["0"%char] else p in
    let fractionPart := slice_from digits splitIndex in
    let result :=
      replace_final_dot (replace_dot_zeros (integerPart ++ ["."%char] ++ fractionPart)) in
    Ok (to_string (if negative then "-"%char :: result else result)).

End Decimal.

(** ** JavaScript [Map]: keys in insertion order *)

Module JsMap.

Section WithKeys.

Variables (K V : Type) (eqb : K -> K -> bool).

Definition t : Type := list (K * V).

Definition empty : t := [].

Fixpoint get (k : K) (m : t) : option V :=
    match m with
    | [] => None
    | (k', v) :: r => if eqb k k' then Some v else get k r
    end.

Definition has (k : K) (m : t) : bool :=
    match get k m with Some _ => true | None => false end.

  (** [m.set(k, v)]: a key already present keeps its place. *)
Fixpoint set (k : K) (v : V) (m : t) : t :=
    match m with
    | [] => [(k, v)]
    | (k', v') :: r => if eqb k k' then (k', v) :: r else (k', v') :: set k v r
    end.

  (** [m.delete(k)] *)
Definition delete (k : K) (m : t) : t :=
    filter (fun e => negb (eqb k (fst e))) m.

Definition keys (m : t) : list K := map fst m.
Definition values (m : t) : list V := map snd m.
Definition entries (m : t) : list (K * V) := m.

End WithKeys.

End JsMap.

(** ** Values of numbers, for comparisons

    [Number(text)] of a price, a size or a position is only compared, so it
    is kept as its exact value. *)

Module JsValue.

Inductive num : Type :=
| VNaN
| VInf (negative : bool)
| VFin (q : Q).

Definition isFinite (x : num) : bool :=
  match x with VFin _ => true | _ => false end.

(** [x <= 0] *)
Definition le_zero (x : num) : bool :=
  match x with
  | VNaN => false
  | VInf neg => neg
  | VFin q => Qle_bool q 0%Q
  end.

(** [x === 0] *)
Definition is_zero (x : num) : bool :=
  match x with
  | VFin q => Qeq_bool q 0%Q
  | _ => false
  end.

(** [Math.abs(x) < y] for a finite positive constant [y] *)
Definition abs_lt (x : num) (y : Q) : bool :=
  match x with
  | VFin q => negb (Qle_bool y (Qabs q))
  | _ => false
  end.

End JsValue.


(** ** Conversions between bigints and numbers

    [clampToInt64], [toInt64], [safeNumberToUint32] and [toSafeNumber] of
    the decimal helpers.  A number is kept as its exact value
    ([JsValue.num]); [Number(value)] of a bigint is the binary64 nearest
    to it, ties to even, or an infinity. *)

Module Integers.

Local Open Scope Z_scope.

Inductive RangeFailure : Type :=
| ExceedsInt64            (* "Value exceeds int64 bounds" *)
| OutOfUint32             (* "Value ... is out of uint32 range" *)
| ExceedsSafeInteger.     (* "Value ... exceeds safe integer range" *)

Inductive outcome (A : Type) : Type :=
| Returned (a : A)
| Thrown (e : RangeFailure).

Arguments Returned {A} a.
Arguments Thrown {A} e.

Inductive NumberOrBigint : Type :=
| OfBigint (z : Z)
| OfNumber (x : JsValue.num).

(** The magnitude of [Number(value)] for a bigint of magnitude [n]: [n]
    itself below [2^53]; above, [n] rounded to 53 significant bits. *)
Definition round53 (n : N) : N :=
  if (n <? 2 ^ 53)%N then n
  else
    let e := (N.log2 n - 52)%N in
    let q := (n / 2 ^ e)%N in
    let r := (n mod 2 ^ e)%N in
    let half := (2 ^ (e - 1))%N in
    let q' := if (r <? half)%N then q
              else if (half <? r)%N then (q + 1)%N
                   else if N.even q then q else (q + 1)%N in
    (q' * 2 ^ e)%N.

Definition Number_of_bigint (z : Z) : JsValue.num :=
  let m := round53 (Z.abs_N z) in
  if (2 ^ 1024 <=? m)%N then JsValue.VInf (z <? 0)
  else JsValue.VFin (inject_Z (if z <? 0 then - Z.of_N m else Z.of_N m)).

Definition toNumber (value : NumberOrBigint) : JsValue.num :=
  match value with
  | OfBigint z => Number_of_bigint z
  | OfNumber x => x
  end.

(** [Math.trunc] *)
Definition trunc (x : JsValue.num) : JsValue.num :=
  match x with
  | JsValue.VFin q => JsValue.VFin (inject_Z (Z.quot (Qnum q) (Zpos (Qden q))))
  | _ => x
  end.

(** [Number.isSafeInteger] *)
Definition isSafeInteger (x : JsValue.num) : bool :=
  match x with
  | JsValue.VFin q =>
      (Z.rem (Qnum q) (Zpos (Qden q)) =? 0)
      && Qle_bool (Qabs q) (inject_Z (2 ^ 53 - 1))
  | _ => false
  end.

(** [val < 0] and [val > 0xffffffff] *)
Definition negative (x : JsValue.num) : bool :=
  match x with
  | JsValue.VFin q => negb (Qle_bool 0 q)
  | JsValue.VInf neg => neg
  | JsValue.VNaN => false
  end.

Definition above (x : JsValue.num) (bound : Z) : bool :=
  match x with
  | JsValue.VFin q => negb (Qle_bool q (inject_Z bound))
  | JsValue.VInf neg => negb neg
  | JsValue.VNaN => false
  end.

Definition clampToInt64 (value : Z) : outcome Z :=
  let max := Z.shiftl 1 63 - 1 in
  let min := - Z.shiftl 1 63 in
  if (max <? value) || (value <? min) then Thrown ExceedsInt64
  else Returned value.

Definition toInt64 (value : Z) : outcome JsValue.num :=
  match clampToInt64 value with
  | Returned bounded => Returned (Number_of_bigint bounded)
  | Thrown e => Thrown e
  end.

Definition safeNumberToUint32 (value : NumberOrBigint) : outcome JsValue.num :=
  let val := toNumber value in
  if negb (JsValue.isFinite val) || negative val || above val 4294967295
  then Thrown OutOfUint32
  else Returned (trunc val).

Definition toSafeNumber (value : NumberOrBigint) : outcome JsValue.num :=
  let numeric := toNumber value in
  if negb (isSafeInteger numeric) then Thrown ExceedsSafeInteger
  else Returned numeric.

End Integers.


(** ** Events

    [createEvent]: a set of listeners, in order of insertion, and [emit],
    which calls the listeners it finds at its start one after the other
    and reports what a listener throws on the console. *)

Module Event.

Section WithHandlers.

  (** The listeners (functions, told apart by identity), the values
      emitted, and what the listeners act on. *)
Variables (Handler Value Store : Type).
Variable same : Handler -> Handler -> bool.

  (** A call of a listener: it returns or throws, and it may change the
      store and, through [add] and [remove], the set of listeners. *)
Variable call : Handler -> Value -> list Handler * Store
                  -> result unit * (list Handler * Store).

  (** [listeners.add(handler)] *)
Definition add (handler : Handler) (listeners : list Handler) : list Handler :=
    if existsb (same handler) listeners then listeners else listeners ++ [handler].

  (** [listeners.delete(handler)] *)
Definition remove (handler : Handler) (listeners : list Handler) : list Handler :=
    filter (fun h => negb (same handler h)) listeners.

Definition listenerCount (listeners : list Handler) : nat := List.length listeners.

  (** A call [emit] made, and whether it threw. *)
Record Delivery : Type := { to : Handler; threw : option JsError }.

  (** The loop of [emit] over [Array.from(listeners)]. *)
Fixpoint deliver (snapshot : list Handler) (value : Value)
           (st : list Handler * Store) : list Delivery * (list Handler * Store) :=
    match snapshot with
    | [] => ([], st)
    | handler :: rest =>
        let '(outcome, st') := call handler value st in
        let report := match outcome with Ok _ => None | Throw e => Some e end in
        let '(ds, st'') := deliver rest value st' in
        ({| to := handler; threw := report |} :: ds, st'')
    end.

Definition emit (value : Value) (st : list Handler * Store)
    : list Delivery * (list Handler * Store) :=
    deliver (fst st) value st.

  (** [add] and [remove], as a listener or its owner call them. *)
Inductive Change : Type :=
  | Add (handler : Handler)
  | Remove (handler : Handler).

Definition change (listeners : list Handler) (c : Change) : list Handler :=
    match c with
    | Add handler => add handler listeners
    | Remove handler => remove handler listeners
    end.

End WithHandlers.

End Event.

(** ** The gateway: state and stream messages *)

Module Gateway.

Import JsString.
Local Open Scope Z_scope.

Record LighterOrderBookLevel : Type := {
  price : string;
  size : string
}.

Record LighterOrderBookSnapshot : Type := {
  market_id : Z;
  offset : Z;
  bids : list LighterOrderBookLevel;
  asks : list LighterOrderBookLevel
}.

(** A position as the handlers read it: [Number(p.market_id)] when that is
    finite (market ids are integers), [Number(p.sign ?? 0)] and
    [Number(p.position ?? 0)]; the other fields travel in [p_rest]. *)
Record LighterPosition : Type := {
  p_market_id : option Z;
  p_sign : JsValue.num;
  p_position : JsValue.num;
  p_rest : string
}.

(** An order as [handleAccountOrders] reads it: the identifier fields that
    are not nullish, each as [String(...)] renders it, and the status. *)
Record LighterOrder : Type := {
  order_index : option string;
  order_id : option string;
  client_order_index : option string;
  status : option string;
  o_rest : string
}.

Definition OrderMap : Type := JsMap.t string LighterOrder.

Record State : Type := {
  marketId : option Z;
  accountDetails : bool;      (* whether [this.accountDetails] is set *)
  positions : list LighterPosition;
  orders : list LighterOrder;
  orderMap : OrderMap;
  orderBook : option LighterOrderBookSnapshot;
  lastOrderBookOffset : Z;
  lastOrderBookTimestamp : Z
}.

(** The state the constructor leaves. *)
Definition initial (marketId : option Z) : State :=
  {| marketId := marketId; accountDetails := false; positions := [];
     orders := []; orderMap := JsMap.empty string LighterOrder;
     orderBook := None; lastOrderBookOffset := 0; lastOrderBookTimestamp := 0 |}.

(** What a handler hands to the listeners (before the mappers of
    [./mappers] reshape it). *)
Inductive Emitted : Type :=
| EmitDepth (book : LighterOrderBookSnapshot)
| EmitAccount (ps : list LighterPosition)
| EmitOrders (os : list LighterOrder).

(** A level of a message: a pair [[price, size]] or an object with these
    fields; the components are kept as [String(...)] renders them. *)
Inductive RawLevel : Type :=
| RawPair (p s : string)
| RawObject (p s : string).

Record OrderBookPayload : Type := {
  ob_offset : option Z;
  ob_bids : option (list RawLevel);   (* [None]: absent, null or no array *)
  ob_asks : option (list RawLevel)
}.

Record OrderBookMessage : Type := {
  m_offset : option Z;
  m_timestamp : option Z;
  m_order_book : option OrderBookPayload
}.

Record AccountAllMessage : Type := {
  (* [None]: the message has no own property [positions] *)
  a_positions : option (list LighterPosition)
}.

Record AccountMarketMessage : Type := {
  am_position : option LighterPosition
}.

(** A value of [message.orders].  In [UnreadableAfter os] the array
    holds, after the orders [os], an entry that the loop of
    [handleAccountOrders] cannot read: [null], or an order whose status is
    neither a string nor nullish.  Reading it throws a TypeError, so what
    follows it is never read. *)
Inductive OrderBucket : Type :=
| NotAnArray
| OrderArray (os : list LighterOrder)
| UnreadableAfter (os : list LighterOrder).

Record AccountOrdersMessage : Type := {
  ao_orders : list OrderBucket      (* [Object.values(message.orders ?? {})] *)
}.

(** The parsed message, by its [type]. *)
Inductive Message : Type :=
| Connected
| SubscribedOrderBook (m : OrderBookMessage)
| UpdateOrderBook (m : OrderBookMessage)
| AccountAll (m : AccountAllMessage)
| AccountMarket (m : AccountMarketMessage)
| AccountOrders (m : AccountOrdersMessage)
| OtherMessage.

Inductive Side : Type := bid | ask.

Definition DEFAULT_DEPTH_LIMIT : Z := 200.

(** The literal [1e-12] as binary64 reads it. *)
Definition POSITION_EPSILON : Q := (4951760157141521 # (2 ^ 92))%Q.

Definition terminalStatuses : list string :=
  ["filled"; "canceled"; "cancelled"; "expired"]%string.

Definition set_has (s : list string) (x : string) : bool :=
  existsb (String.eqb x) s.

(** [Array.prototype.sort] with a comparison function: the sort is stable,
    and for a consistent comparison its result is the one of any stable
    sort; here by insertion.  [cmp a b = Gt] stands for a positive result
    ([a] after [b]), [Lt] for a negative one, [Eq] for zero. *)
Section Sort.

Variable (A : Type) (cmp : A -> A -> comparison).

Fixpoint insert (x : A) (l : list A) : list A :=
    match l with
    | [] => [x]
    | y :: r =>
        match cmp x y with
        | Gt => y :: insert x r
        | _ => x :: l
        end
    end.

Definition sort (l : list A) : list A := fold_right insert [] l.

End Sort.

Section WithNumber.

  (** [Number(text)] on the texts of prices and sizes. *)
Variable Number : string -> JsValue.num.

  (** The bodies of the two loops of [mergeLevels] and of its final map. *)
Definition setLevel (m : JsMap.t string string) (level : LighterOrderBookLevel)
    : JsMap.t string string :=
    JsMap.set String.eqb (price level) (size level) m.

Definition applyLevel (m : JsMap.t string string) (update : LighterOrderBookLevel)
    : JsMap.t string string :=
    if JsValue.le_zero (Number (size update))
    then JsMap.delete String.eqb (price update) m
    else JsMap.set String.eqb (price update) (size update) m.

Definition toLevel (e : string * string) : LighterOrderBookLevel :=
    {| price := fst e; size := snd e |}.

Definition mergeLevels (existing updates : list LighterOrderBookLevel)
    : list LighterOrderBookLevel :=
    let map0 := fold_left setLevel existing (JsMap.empty string string) in
    let map1 := fold_left applyLevel updates map0 in
    map toLevel (JsMap.entries map1).

Definition normalizeLevels (raw : list RawLevel) : list LighterOrderBookLevel :=
    map (fun entry =>
           match entry with
           | RawPair p s => {| price := p; size := s |}
           | RawObject p s => {| price := p; size := s |}
           end) raw.

  (** The comparison function of [sortAndTrimLevels]. *)
Definition compareLevels (side : Side) (a b : LighterOrderBookLevel) : comparison :=
    match Number (price a), Number (price b) with
    | JsValue.VFin pa, JsValue.VFin pb =>
        match side with
        | bid => Qcompare pb pa
        | ask => Qcompare pa pb
        end
    | _, _ => Eq
    end.

Definition sortAndTrimLevels (levels : list LighterOrderBookLevel) (side : Side)
             (limit : Z) : list LighterOrderBookLevel :=
    firstn (Z.to_nat (Z.max 1 limit)) (sort (compareLevels side) levels).

Definition emitDepth (g : State) : list Emitted :=
    match orderBook g, marketId g with
    | Some book, Some _ => [EmitDepth book]
    | _, _ => []
    end.

Definition emitAccount (g : State) : list Emitted :=
    if accountDetails g then [EmitAccount (positions g)] else [].

Definition emitOrders (g : State) : list Emitted := [EmitOrders (orders g)].

Definition or_else {A : Type} (x : option A) (d : A) : A :=
    match x with Some a => a | None => d end.

  (** [Number(message.offset ?? message.order_book?.offset ?? 0)] *)
Definition incomingOffset (m : OrderBookMessage) : Z :=
    match m_offset m with
    | Some o => o
    | None =>
        match m_order_book m with
        | Some ob => or_else (ob_offset ob) 0
        | None => 0
        end
    end.

  (** [Number(message.timestamp ?? 0)] *)
Definition incomingTs (m : OrderBookMessage) : Z := or_else (m_timestamp m) 0.

Definition truthy (z : Z) : bool := negb (z =? 0)%Z.

  (** The two guards that the snapshot and the update handler share. *)
Definition staleOffset (g : State) (m : OrderBookMessage) : bool :=
    truthy (lastOrderBookOffset g) && truthy (incomingOffset m)
    && (incomingOffset m <? lastOrderBookOffset g)%Z.

Definition staleTimestamp (g : State) (m : OrderBookMessage) : bool :=
    (incomingOffset m =? lastOrderBookOffset g)%Z && truthy (incomingTs m)
    && (incomingTs m <=? lastOrderBookTimestamp g)%Z.

Definition set_book (g : State) (book : LighterOrderBookSnapshot) (now : Z)
             (m : OrderBookMessage) : State :=
    {| marketId := marketId g; accountDetails := accountDetails g;
       positions := positions g; orders := orders g; orderMap := orderMap g;
       orderBook := Some book;
       lastOrderBookOffset := offset book;
       lastOrderBookTimestamp := if truthy (incomingTs m) then incomingTs m else now |}.

Definition handleOrderBookSnapshot (now : Z) (m : OrderBookMessage) (g : State)
    : State * list Emitted :=
    match m_order_book m with
    | None => (g, [])
    | Some ob =>
        if staleOffset g m then (g, [])
        else if staleTimestamp g m then (g, [])
        else
          let snapshot :=
            {| market_id := or_else (marketId g) 0;
               offset := or_else (ob_offset ob) now;
               bids := sortAndTrimLevels (normalizeLevels (or_else (ob_bids ob) []))
                                         bid DEFAULT_DEPTH_LIMIT;
               asks := sortAndTrimLevels (normalizeLevels (or_else (ob_asks ob) []))
                                         ask DEFAULT_DEPTH_LIMIT |} in
          let g' := set_book g snapshot now m in
          (g', emitDepth g')
    end.

Definition handleOrderBookUpdate (now : Z) (m : OrderBookMessage) (g : State)
    : State * list Emitted :=
    match orderBook g with
    | None => (g, [])
    | Some book =>
        if staleOffset g m then (g, [])
        else if staleTimestamp g m then (g, [])
        else
          match m_order_book m with
          | None => (g, [])
          | Some update =>
              let asks' :=
                match ob_asks update with
                | Some raw => sortAndTrimLevels (mergeLevels (asks book) (normalizeLevels raw))
                                                ask DEFAULT_DEPTH_LIMIT
                | None => asks book
                end in
              let bids' :=
                match ob_bids update with
                | Some raw => sortAndTrimLevels (mergeLevels (bids book) (normalizeLevels raw))
                                                bid DEFAULT_DEPTH_LIMIT
                | None => bids book
                end in
              let book' :=
                {| market_id := market_id book;
                   offset := or_else (ob_offset update) (offset book);
                   bids := bids'; asks := asks' |} in
              let g' := set_book g book' now m in
              (g', emitDepth g')
          end
    end.

End WithNumber.

Definition set_positions (g : State) (ps : list LighterPosition) : State :=
  {| marketId := marketId g; accountDetails := accountDetails g;
     positions := ps; orders := orders g; orderMap := orderMap g;
     orderBook := orderBook g;
     lastOrderBookOffset := lastOrderBookOffset g;
     lastOrderBookTimestamp := lastOrderBookTimestamp g |}.

Definition set_orders (g : State) (m : OrderMap) : State :=
  {| marketId := marketId g; accountDetails := accountDetails g;
     positions := positions g; orders := JsMap.values m; orderMap := m;
     orderBook := orderBook g;
     lastOrderBookOffset := lastOrderBookOffset g;
     lastOrderBookTimestamp := lastOrderBookTimestamp g |}.

Definition set_orderMap (g : State) (m : OrderMap) : State :=
  {| marketId := marketId g; accountDetails := accountDetails g;
     positions := positions g; orders := orders g; orderMap := m;
     orderBook := orderBook g;
     lastOrderBookOffset := lastOrderBookOffset g;
     lastOrderBookTimestamp := lastOrderBookTimestamp g |}.

Definition set_marketId (g : State) (mid : Z) : State :=
  {| marketId := Some mid; accountDetails := accountDetails g;
     positions := positions g; orders := orders g; orderMap := orderMap g;
     orderBook := orderBook g;
     lastOrderBookOffset := lastOrderBookOffset g;
     lastOrderBookTimestamp := lastOrderBookTimestamp g |}.

Definition set_accountDetails (g : State) : State :=
  {| marketId := marketId g; accountDetails := true;
     positions := positions g; orders := orders g; orderMap := orderMap g;
     orderBook := orderBook g;
     lastOrderBookOffset := lastOrderBookOffset g;
     lastOrderBookTimestamp := lastOrderBookTimestamp g |}.

(** [sign === 0 || Math.abs(size) < 1e-12] *)
Definition shouldRemove (p : LighterPosition) : bool :=
  JsValue.is_zero (p_sign p) || JsValue.abs_lt (p_position p) POSITION_EPSILON.

Definition PositionMap : Type := JsMap.t Z LighterPosition.

(** The body of the first loop of [handleAccountAll], over the positions
    held so far. *)
Definition indexPosition (acc : PositionMap) (p : LighterPosition) : PositionMap :=
  match p_market_id p with
  | Some mid => JsMap.set Z.eqb mid p acc
  | None => acc
  end.

(** The body of its second loop, over the positions of the message. *)
Definition mergePosition (acc : PositionMap) (p : LighterPosition) : PositionMap :=
  match p_market_id p with
  | None => acc
  | Some mid =>
      if shouldRemove p then JsMap.delete Z.eqb mid acc
      else JsMap.set Z.eqb mid p acc
  end.

Definition handleAccountAll (m : AccountAllMessage) (g : State) : State * list Emitted :=
  let g' :=
    match a_positions m with
    | None => g
    | Some incoming =>
        let byMarket :=
          fold_left indexPosition (positions g) (JsMap.empty Z LighterPosition) in
        let byMarket := fold_left mergePosition incoming byMarket in
        set_positions g (JsMap.values byMarket)
    end in
  (g', emitAccount g').

Definition same_market (marketId : Z) (p : LighterPosition) : bool :=
  match p_market_id p with
  | Some mid => (mid =? marketId)%Z
  | None => false
  end.

Definition handleAccountMarket (m : AccountMarketMessage) (g : State)
  : State * list Emitted :=
  match am_position m with
  | None => (g, [])
  | Some position =>
      match p_market_id position with
      | None => (g, [])
      | Some marketId =>
          let ps :=
            if shouldRemove position then
              filter (fun p => negb (same_market marketId p)) (positions g)
            else
              let updated := existsb (same_market marketId) (positions g) in
              let mapped :=
                map (fun p => if same_market marketId p then position else p)
                    (positions g) in
              if updated then mapped else mapped ++ [position] in
          let g' := set_positions g ps in
          (g', emitAccount g')
      end
  end.

(** [String(order.order_index ?? order.order_id ?? order.client_order_index ?? empty)] *)
Definition order_key (order : LighterOrder) : string :=
  match order_index order with
  | Some k => k
  | None =>
      match order_id order with
      | Some k => k
      | None =>
          match client_order_index order with
          | Some k => k
          | None => EmptyString
          end
      end
  end.

Definition order_status (order : LighterOrder) : string :=
  to_string (toLowerCase (of_string (match status order with
                                     | Some s => s
                                     | None => EmptyString
                                     end))).

(** The entries of [allOrders] that the loop reads, and whether it then
    meets one it cannot read. *)
Fixpoint readOrders (buckets : list OrderBucket) : list LighterOrder * bool :=
  match buckets with
  | [] => ([], false)
  | NotAnArray :: rest => readOrders rest
  | OrderArray os :: rest =>
      let '(more, thrown) := readOrders rest in (os ++ more, thrown)
  | UnreadableAfter os :: _ => (os, true)
  end.

(** [allOrders], up to its first unreadable entry. *)
Definition allOrders (m : AccountOrdersMessage) : list LighterOrder :=
  fst (readOrders (ao_orders m)).

(** The loop throws a TypeError. *)
Definition unreadable (m : AccountOrdersMessage) : bool :=
  snd (readOrders (ao_orders m)).

Definition mergeOrder (acc : OrderMap) (order : LighterOrder) : OrderMap :=
  let key := order_key order in
  let status := order_status order in
  if String.eqb key EmptyString then acc
  else if set_has terminalStatuses status then JsMap.delete String.eqb key acc
  else JsMap.set String.eqb key order acc.

(** The map is changed in place, order by order.  When the loop throws,
    [handleMessage] catches the error: the orders read so far are in the
    map, while [this.orders] is not assigned and nothing is emitted. *)
Definition handleAccountOrders (m : AccountOrdersMessage) (g : State)
  : State * list Emitted :=
  let map' := fold_left mergeOrder (allOrders m) (orderMap g) in
  if unreadable m then (set_orderMap g map', [])
  else
    let g' := set_orders g map' in
    (g', [EmitOrders (orders g')]).

Definition handleMessage (Number : string -> JsValue.num) (now : Z)
           (message : Message) (g : State) : State * list Emitted :=
  match message with
  | Connected => (g, [])
  | SubscribedOrderBook m => handleOrderBookSnapshot Number now m g
  | UpdateOrderBook m => handleOrderBookUpdate Number now m g
  | AccountAll m => handleAccountAll m g
  | AccountMarket m => handleAccountMarket m g
  | AccountOrders m => handleAccountOrders m g
  | OtherMessage => (g, [])
  end.

(** The state after a run of messages, each with the clock at its arrival. *)
Definition receive (Number : string -> JsValue.num) (g : State)
           (inbox : list (Z * Message)) : State :=
  fold_left (fun g nm => fst (handleMessage Number (fst nm) (snd nm) g)) inbox g.

(** An element of the array [getBestPrice] is given: an array, of which
    [Number(level[0])] counts, or a level, of which [Number(level.price)]
    counts. *)
Inductive PricedEntry : Type :=
| EntryArray (first : JsValue.num)
| EntryLevel (level : LighterOrderBookLevel).

Definition entryPrice (Number : string -> JsValue.num) (e : PricedEntry) : JsValue.num :=
  match e with
  | EntryArray first => first
  | EntryLevel level => Number (price level)
  end.

(** [.filter((price) => Number.isFinite(price))] *)
Definition finiteOnly (xs : list JsValue.num) : list Q :=
  flat_map (fun x => match x with JsValue.VFin q => [q] | _ => [] end) xs.

(** [Math.max(x, ...xs)] and [Math.min(x, ...xs)] on finite numbers. *)
Definition maxOf (x : Q) (xs : list Q) : Q :=
  fold_left (fun m y => if Qle_bool m y then y else m) xs x.

Definition minOf (x : Q) (xs : list Q) : Q :=
  fold_left (fun m y => if Qle_bool y m then y else m) xs x.

(** [levels] is [None] when it is undefined. *)
Definition getBestPrice (Number : string -> JsValue.num)
           (levels : option (list PricedEntry)) (side : Side) : option Q :=
  match levels with
  | None => None
  | Some [] => None
  | Some entries =>
      match finiteOnly (map (entryPrice Number) entries) with
      | [] => None
      | x :: xs =>
          Some (match side with
                | bid => maxOf x xs
                | ask => minOf x xs
                end)
      end
  end.

(** The two prices [emitSyntheticTicker] starts from. *)
Definition bestPrices (Number : string -> JsValue.num) (g : State)
  : option (option Q * option Q) :=
  match orderBook g with
  | None => None
  | Some book =>
      Some (getBestPrice Number (Some (map EntryLevel (bids book))) bid,
            getBestPrice Number (Some (map EntryLevel (asks book))) ask)
  end.

(** The side of an order. *)
Inductive OrderSide : Type := BUY | SELL.

(** The sign of [x - y] as [Array.prototype.sort] reads the result of a
    comparison function: a [NaN] counts as zero.  Two finite numbers differ
    by zero only when they are equal; two infinities of one sign differ by
    [NaN]. *)
Definition differenceSign (x y : JsValue.num) : comparison :=
  match x, y with
  | JsValue.VFin a, JsValue.VFin b => Qcompare a b
  | JsValue.VNaN, _ => Eq
  | _, JsValue.VNaN => Eq
  | JsValue.VInf n, JsValue.VInf m =>
      if Bool.eqb n m then Eq else if n then Lt else Gt
  | JsValue.VInf n, JsValue.VFin _ => if n then Lt else Gt
  | JsValue.VFin _, JsValue.VInf m => if m then Gt else Lt
  end.

(** The comparison function of [estimateMarketPrice]. *)
Definition comparePrices (Number : string -> JsValue.num) (side : OrderSide)
           (a b : LighterOrderBookLevel) : comparison :=
  let aPrice := Number (price a) in
  let bPrice := Number (price b) in
  match side with
  | SELL => differenceSign bPrice aPrice
  | BUY => differenceSign aPrice bPrice
  end.

(** What [estimateMarketPrice] ends with: a price, or the error
    [Unable to determine market price for order]. *)
Inductive Estimate : Type :=
| Estimated (price : JsValue.num)
| NoMarketPrice.

(** [ticker] is the text of [this.ticker.last_trade_price], [None] when
    [this.ticker] is [null]. *)
Definition estimateMarketPrice (Number : string -> JsValue.num) (side : OrderSide)
           (orderBook : option LighterOrderBookSnapshot) (ticker : option string)
  : Estimate :=
  let fromTicker :=
    match ticker with
    | Some last_trade_price => Estimated (Number last_trade_price)
    | None => NoMarketPrice
    end in
  match orderBook with
  | Some book =>
      let levels := match side with SELL => bids book | BUY => asks book end in
      match levels with
      | [] => fromTicker
      | _ :: _ =>
          match sort (comparePrices Number side) levels with
          | level :: _ => Estimated (Number (price level))
          | [] => fromTicker
          end
      end
  | None => fromTicker
  end.

End Gateway.

(** ** The gateway: the polling timers

    [startPolling] and [watchKlines], with the fields they use: the handles
    of the pollers, the cache of klines and the kline listeners.  A timer
    handle is an object, always truthy; here it is the number of timers
    made before it. *)

Module Polling.

(** What an interval timer polls: [refreshTicker], or [refreshKlines] of an
    interval. *)
Inductive Target : Type :=
| TickerPoll
| KlinesPoll (interval : string).

Section WithHandlers.

Variables (Handler Kline : Type).
Variable same : Handler -> Handler -> bool.

  (** A call [handler(klines)] of a kline listener: it returns or throws. *)
Variable call : Handler -> list Kline -> result unit.

Record Pollers : Type := {
    ticker : option nat;
    klines : JsMap.t string nat
  }.

  (** [timers] are the timers [setInterval] has made (the gateway clears
      none of them), [polled] the polls made at once, outside a timer. *)
Record World : Type := {
    pollers : Pollers;
    klineCache : JsMap.t string (list Kline);
    klinesEvent : list Handler;
    timers : list (nat * Target);
    polled : list Target
  }.

Definition initial : World :=
    {| pollers := {| ticker := None; klines := JsMap.empty string nat |};
       klineCache := JsMap.empty string (list Kline);
       klinesEvent := [];
       timers := [];
       polled := [] |}.

Definition setInterval (target : Target) (w : World) : nat * World :=
    let timer := List.length (timers w) in
    (timer,
     {| pollers := pollers w; klineCache := klineCache w; klinesEvent := klinesEvent w;
        timers := timers w ++ [(timer, target)];
        polled := polled w |}).

Definition poll (target : Target) (w : World) : World :=
    {| pollers := pollers w; klineCache := klineCache w; klinesEvent := klinesEvent w;
       timers := timers w;
       polled := polled w ++ [target] |}.

Definition with_pollers (p : Pollers) (w : World) : World :=
    {| pollers := p; klineCache := klineCache w; klinesEvent := klinesEvent w;
       timers := timers w; polled := polled w |}.

Definition startPolling (w : World) : World :=
    match ticker (pollers w) with
    | Some _ => w
    | None =>
        let '(timer, w1) := setInterval TickerPoll w in
        poll TickerPoll
             (with_pollers {| ticker := Some timer; klines := klines (pollers w1) |} w1)
    end.

Definition watchKlines (interval : string) (handler : Handler) (w : World)
    : result unit * World :=
    let w1 := {| pollers := pollers w; klineCache := klineCache w;
                 klinesEvent := Event.add same handler (klinesEvent w);
                 timers := timers w; polled := polled w |} in
    let shown := match JsMap.get String.eqb interval (klineCache w1) with
                 | Some cached => call handler cached
                 | None => Ok tt
                 end in
    match shown with
    | Throw e => (Throw e, w1)
    | Ok _ =>
        match JsMap.get String.eqb interval (klines (pollers w1)) with
        | Some _ => (Ok tt, w1)
        | None =>
            let '(timer, w2) := setInterval (KlinesPoll interval) w1 in
            (Ok tt,
             poll (KlinesPoll interval)
                  (with_pollers
                     {| ticker := ticker (pollers w2);
                        klines := JsMap.set String.eqb interval timer (klines (pollers w2)) |}
                     w2))
        end
    end.

  (** [this.klineCache.set(interval, mapped)] of [refreshKlines]. *)
Definition cacheKlines (interval : string) (mapped : list Kline) (w : World) : World :=
    {| pollers := pollers w;
       klineCache := JsMap.set String.eqb interval mapped (klineCache w);
       klinesEvent := klinesEvent w; timers := timers w; polled := polled w |}.

  (** What happens to these fields, one after the other. *)
Inductive Call : Type :=
  | StartPolling
  | WatchKlines (interval : string) (handler : Handler)
  | CacheKlines (interval : string) (mapped : list Kline).

Definition step (w : World) (c : Call) : World :=
    match c with
    | StartPolling => startPolling w
    | WatchKlines interval handler => snd (watchKlines interval handler w)
    | CacheKlines interval mapped => cacheKlines interval mapped w
    end.

Definition run (w : World) (calls : list Call) : World := fold_left step calls w.

End WithHandlers.

End Polling.

(** ** [rate-limit.ts]: the rate-limit controller *)

Module RateLimit.

Local Open Scope Z_scope.

Inductive RateLimitState : Type := normal | degraded | paused.

Inductive RateLimitDecision : Type := run | skip | stay_paused.   (* "paused" *)

Definition DEFAULT_PAUSE_MS : Z := 30000.
Definition DEFAULT_RECOVERY_MS : Z := 60000.

(** A call of the log handler: its level and the key of its text. *)
Definition LogEntry : Type := (string * string)%type.

Record RateLimitController : Type := {
  state : RateLimitState;
  pausedUntil : option Z;
  lastCycleAt : Z;
  lastRateLimitAt : Z;
  pauseMs : Z;
  recoveryMs : Z;
  entriesSuppressed : bool;
  baseInterval : Z;
  logged : list LogEntry
}.

Definition make (baseInterval : Z) (optPauseMs optRecoveryMs : option Z)
  : RateLimitController :=
  {| state := normal; pausedUntil := None; lastCycleAt := 0; lastRateLimitAt := 0;
     pauseMs := match optPauseMs with Some p => p | None => DEFAULT_PAUSE_MS end;
     recoveryMs := match optRecoveryMs with Some r => r | None => DEFAULT_RECOVERY_MS end;
     entriesSuppressed := false; baseInterval := baseInterval; logged := [] |}.

Definition is_paused (s : RateLimitState) : bool :=
  match s with paused => true | _ => false end.

Definition shouldBlockEntries (c : RateLimitController) : bool :=
  entriesSuppressed c || is_paused (state c).

Definition log (level key : string) (c : RateLimitController) : RateLimitController :=
  {| state := state c; pausedUntil := pausedUntil c; lastCycleAt := lastCycleAt c;
     lastRateLimitAt := lastRateLimitAt c; pauseMs := pauseMs c;
     recoveryMs := recoveryMs c; entriesSuppressed := entriesSuppressed c;
     baseInterval := baseInterval c; logged := logged c ++ [(level, key)] |}.

Definition set_entriesSuppressed (b : bool) (c : RateLimitController) : RateLimitController :=
  {| state := state c; pausedUntil := pausedUntil c; lastCycleAt := lastCycleAt c;
     lastRateLimitAt := lastRateLimitAt c; pauseMs := pauseMs c;
     recoveryMs := recoveryMs c; entriesSuppressed := b;
     baseInterval := baseInterval c; logged := logged c |}.

Definition set_state (s : RateLimitState) (c : RateLimitController) : RateLimitController :=
  {| state := s; pausedUntil := pausedUntil c; lastCycleAt := lastCycleAt c;
     lastRateLimitAt := lastRateLimitAt c; pauseMs := pauseMs c;
     recoveryMs := recoveryMs c; entriesSuppressed := entriesSuppressed c;
     baseInterval := baseInterval c; logged := logged c |}.

Definition set_pausedUntil (p : option Z) (c : RateLimitController) : RateLimitController :=
  {| state := state c; pausedUntil := p; lastCycleAt := lastCycleAt c;
     lastRateLimitAt := lastRateLimitAt c; pauseMs := pauseMs c;
     recoveryMs := recoveryMs c; entriesSuppressed := entriesSuppressed c;
     baseInterval := baseInterval c; logged := logged c |}.

Definition set_lastCycleAt (t : Z) (c : RateLimitController) : RateLimitController :=
  {| state := state c; pausedUntil := pausedUntil c; lastCycleAt := t;
     lastRateLimitAt := lastRateLimitAt c; pauseMs := pauseMs c;
     recoveryMs := recoveryMs c; entriesSuppressed := entriesSuppressed c;
     baseInterval := baseInterval c; logged := logged c |}.

Definition set_lastRateLimitAt (t : Z) (c : RateLimitController) : RateLimitController :=
  {| state := state c; pausedUntil := pausedUntil c; lastCycleAt := lastCycleAt c;
     lastRateLimitAt := t; pauseMs := pauseMs c;
     recoveryMs := recoveryMs c; entriesSuppressed := entriesSuppressed c;
     baseInterval := baseInterval c; logged := logged c |}.

Definition suppressEntries (c : RateLimitController) : RateLimitController :=
  if entriesSuppressed c then c
  else log "info" "rate.limit.suppress" (set_entriesSuppressed true c).

Definition allowEntries (c : RateLimitController) : RateLimitController :=
  if negb (entriesSuppressed c) then c
  else log "info" "rate.limit.resumeEntries" (set_entriesSuppressed false c).

Definition currentInterval (c : RateLimitController) : Z :=
  match state c with
  | degraded => baseInterval c * 2
  | paused => baseInterval c * 2
  | normal => baseInterval c
  end.

Definition checkInterval (now : Z) (c : RateLimitController)
  : RateLimitDecision * RateLimitController :=
  let interval := currentInterval c in
  if now - lastCycleAt c <? interval then (skip, c)
  else (run, set_lastCycleAt now c).

Definition beforeCycle (now : Z) (c : RateLimitController)
  : RateLimitDecision * RateLimitController :=
  match state c with
  | paused =>
      match pausedUntil c with
      | Some deadline =>
          if deadline <=? now then
            checkInterval now
              (log "info" "rate.limit.pausedEnd"
                   (set_pausedUntil None (set_state degraded c)))
          else (stay_paused, set_lastCycleAt now c)
      | None => (stay_paused, set_lastCycleAt now c)
      end
  | _ => checkInterval now c
  end.

Definition registerRateLimit (now : Z) (c : RateLimitController) : RateLimitController :=
  let c := set_lastRateLimitAt now c in
  match state c with
  | normal =>
      let c := set_state degraded c in
      let c := log "warn" "rate.limit.hit" c in
      let c := set_lastCycleAt now c in
      suppressEntries c
  | degraded =>
      let c := set_state paused c in
      let c := set_pausedUntil (Some (now + pauseMs c)) c in
      let c := log "warn" "rate.limit.consecutive" c in
      suppressEntries c
  | paused =>
      let c := set_pausedUntil (Some (now + pauseMs c)) c in
      let c := log "warn" "rate.limit.still" c in
      suppressEntries c
  end.

Definition is_normal (s : RateLimitState) : bool :=
  match s with normal => true | _ => false end.

Definition is_degraded (s : RateLimitState) : bool :=
  match s with degraded => true | _ => false end.

Definition onCycleComplete (now : Z) (hadRateLimit : bool) (c : RateLimitController)
  : RateLimitController :=
  if hadRateLimit then c else
  let c :=
    if is_degraded (state c) && (0 <? lastRateLimitAt c) then
      if recoveryMs c <=? now - lastRateLimitAt c then
        let c := set_state normal c in
        let c := log "info" "rate.limit.reset" c in
        let c := allowEntries c in
        set_lastRateLimitAt 0 c
      else c
    else c in
  if is_normal (state c) && entriesSuppressed c && (lastRateLimitAt c =? 0)
  then allowEntries c else c.

End RateLimit.

(** ** The three mutating operations of the gateway

    [createOrder], [cancelOrder] and [cancelAllOrders] as one invocation
    each, run to completion, with the initialisation that the first
    invocation runs ([ensureInitialized], [initialize] and what it calls).
    Every [await] is a call of a collaborator whose outcome (a value or a
    rejection) is given by the environment.  The nonce manager, the
    signer, the HTTP client, the socket and the mappers are imported by
    the gateway and are parameters here; so are the conversion of the
    order parameters, which precedes the nonce, the constant
    [DEFAULT_AUTH_TOKEN_BUFFER_MS] and the setting [LIGHTER_DEBUG] of the
    process environment. *)

Module Facade.

Local Open Scope Z_scope.

Record SignedTx : Type := { txType : Z; txInfo : string }.

(** [params.orderId]: a text or a number. *)
Inductive OrderId : Type :=
| IdString (s : string)
| IdNumber (x : JsNumber.number).

Record CancelOrderParams : Type := {
  co_marketIndex : option Z;
  co_orderId : OrderId
}.

Record CancelAllParams : Type := {
  ca_timeInForce : option Z;
  ca_scheduleMs : option JsNumber.number
}.

(** An entry of the answer of [http.getOrderBooks()], as [loadMetadata]
    reads it: [String(book.symbol)] when [book.symbol] is truthy,
    [Number(book.market_id)] and the two decimal counts. *)
Record OrderBookMetadata : Type := {
  book_symbol : option string;
  book_market_id : Z;
  supported_price_decimals : Z;
  supported_size_decimals : Z
}.

(** [ws.readyState] *)
Inductive ReadyState : Type := CONNECTING | OPEN | CLOSING | CLOSED.

(** What the socket that [openWebSocket] makes does first: it opens, it
    reports an error, or it closes; [detail] is the code and the reason of
    the closing as the error message prints them between its brackets. *)
Inductive SocketFate : Type :=
| Opens
| Errors (error : JsError)
| ClosesEarly (detail : string).

(** The channels [subscribeChannels] asks for. *)
Inductive Channel : Type :=
| OrderBookChannel (marketId : Z)
| AccountAllChannel
| AccountMarketChannel (marketId : Z)
| AccountAllOrdersChannel.

Inductive Timer : Type := HeartbeatTimer | TickerTimer.

Section WithCollaborators.

Variables (CreateOrderParams Conversion AsterOrder NonceState : Type).

Inductive SignRequest : Type :=
  | SignCreateOrder (c : Conversion) (apiKeyIndex nonce : Z)
  | SignCancelOrder (marketIndex orderIndex nonce apiKeyIndex : Z)
  | SignCancelAll (timeInForce scheduledTime nonce apiKeyIndex : Z).

  (** The calls an invocation makes, in order. *)
Inductive Call : Type :=
  | CallNext (answer : result (Z * Z))          (* nonceManager.next() *)
  | CallAcknowledgeFailure (apiKeyIndex : Z)    (* nonceManager.acknowledgeFailure(k) *)
  | CallSign (req : SignRequest)
  | CallCreateAuthToken (deadline : Z)
  | CallSendTransaction (tx : SignedTx) (auth : string)
  | CallLogger (context : string)
  | CallInit (answer : result unit)             (* nonceManager.init(true) *)
  | CallGetOrderBooks                           (* http.getOrderBooks() *)
  | CallGetAccountDetails (byAddress : bool) (auth : string)
  | CallGetExchangeStats                        (* http.getExchangeStats() *)
  | CallWebSocket                               (* new WebSocket(this.wsUrl) *)
  | CallSend (channel : Channel) (auth : option string)   (* ws.send(...) *)
  | CallRemoveAllListeners                      (* ws.removeAllListeners() *)
  | CallSetInterval (timer : Timer)
  | CallClearInterval (timer : Timer).

  (** The fields of the gateway that an invocation reads or writes, with
      the state of the nonce manager, the calls made so far and what was
      handed to the listeners so far.  [connectPromise] is [None] for
      [null] and otherwise the outcome the promise settles with (when it
      rejects, its handler has set the field to [null] by the time the
      invocation that awaits it goes on); [ws]
      is [None] for [null] and otherwise the state of the socket;
      [heartbeatTimer] and [tickerPoller] tell whether the timer is set. *)
Record World : Type := {
    nonces : NonceState;
    auth_token : option string;
    auth_expiresAt : Z;
    gateway : Gateway.State;
    loggedCreateOrderPayload : bool;
    calls : list Call;
    emitted : list Gateway.Emitted;
    initialized : bool;
    connectPromise : option (result unit);
    priceDecimals : option Z;
    sizeDecimals : option Z;
    ws : option ReadyState;
    heartbeatTimer : bool;
    lastMessageAt : Z;
    tickerPoller : bool
  }.

  (** The nonce manager: [next()] gives a key and a nonce or throws,
      [init(true)] resolves or rejects, [acknowledgeFailure(k)] returns. *)
Variable nonce_next : NonceState -> result (Z * Z) * NonceState.
Variable nonce_acknowledgeFailure : Z -> NonceState -> NonceState.
Variable nonce_init : NonceState -> result unit * NonceState.

  (** The other collaborators, by their outcomes: the answers of the
      exchange to [getOrderBooks] and [getAccountDetails] (whether it has
      details for the account), what the socket does first, the signer and
      the submission.  [mapCreateOrderParams] reads the clock and the
      fields of the gateway. *)
Variable getOrderBooks : result (list OrderBookMetadata).
Variable getAccountDetails : bool -> string -> result bool.
Variable connect : SocketFate.
Variable mapCreateOrderParams : Z -> World -> CreateOrderParams -> result Conversion.
Variable sign : SignRequest -> result SignedTx.
Variable createAuthToken : Z -> result string.
Variable sendTransaction : SignedTx -> string -> result string.
Variable lighterOrderToAster : Conversion -> Z -> result AsterOrder.
Variable DEFAULT_AUTH_TOKEN_BUFFER_MS : Z.

  (** [String.prototype.toUpperCase], and the options [marketSymbol] (in
      upper case) and [l1Address] of the gateway. *)
Variable toUpperCase : string -> string.
Variable marketSymbol : string.
Variable l1Address : option string.

  (** Whether [process.env.LIGHTER_DEBUG] is [1] or [true]. *)
Variable LIGHTER_DEBUG : bool.

  (** State and exceptions: what a step returns or throws, and the world it
      leaves.  An awaited call has completed when the step goes on; what
      other tasks do meanwhile (stream messages, timers, other invocations)
      is not part of an invocation. *)
Definition M (A : Type) : Type := World -> result A * World.

Definition ret {A : Type} (a : A) : M A := fun w => (Ok a, w).

Definition throw {A : Type} (e : JsError) : M A := fun w => (Throw e, w).

Definition lift {A : Type} (r : result A) : M A := fun w => (r, w).

Definition mbind {A B : Type} (m : M A) (k : A -> M B) : M B :=
    fun w =>
      match m w with
      | (Ok a, w') => k a w'
      | (Throw e, w') => (Throw e, w')
      end.

Definition try_catch {A : Type} (body : M A) (handler : JsError -> M A) : M A :=
    fun w =>
      match body w with
      | (Ok a, w') => (Ok a, w')
      | (Throw e, w') => handler e w'
      end.

Notation "x <- m ;; k" := (mbind m (fun x => k))
    (at level 61, m at next level, right associativity).
Notation "m ;;; k" := (mbind m (fun _ => k))
    (at level 61, right associativity).

Definition record (c : Call) (w : World) : World :=
    {| nonces := nonces w; auth_token := auth_token w;
       auth_expiresAt := auth_expiresAt w; gateway := gateway w;
       loggedCreateOrderPayload := loggedCreateOrderPayload w;
       calls := calls w ++ [c]; emitted := emitted w; initialized := initialized w;
       connectPromise := connectPromise w; priceDecimals := priceDecimals w;
       sizeDecimals := sizeDecimals w; ws := ws w;
       heartbeatTimer := heartbeatTimer w; lastMessageAt := lastMessageAt w;
       tickerPoller := tickerPoller w |}.

Definition with_nonces (n : NonceState) (w : World) : World :=
    {| nonces := n; auth_token := auth_token w; auth_expiresAt := auth_expiresAt w;
       gateway := gateway w; loggedCreateOrderPayload := loggedCreateOrderPayload w;
       calls := calls w; emitted := emitted w; initialized := initialized w;
       connectPromise := connectPromise w; priceDecimals := priceDecimals w;
       sizeDecimals := sizeDecimals w; ws := ws w;
       heartbeatTimer := heartbeatTimer w; lastMessageAt := lastMessageAt w;
       tickerPoller := tickerPoller w |}.

Definition with_auth (token : string) (expiresAt : Z) (w : World) : World :=
    {| nonces := nonces w; auth_token := Some token; auth_expiresAt := expiresAt;
       gateway := gateway w; loggedCreateOrderPayload := loggedCreateOrderPayload w;
       calls := calls w; emitted := emitted w; initialized := initialized w;
       connectPromise := connectPromise w; priceDecimals := priceDecimals w;
       sizeDecimals := sizeDecimals w; ws := ws w;
       heartbeatTimer := heartbeatTimer w; lastMessageAt := lastMessageAt w;
       tickerPoller := tickerPoller w |}.

Definition with_gateway (g : Gateway.State) (es : list Gateway.Emitted) (w : World) : World :=
    {| nonces := nonces w; auth_token := auth_token w;
       auth_expiresAt := auth_expiresAt w; gateway := g;
       loggedCreateOrderPayload := loggedCreateOrderPayload w; calls := calls w;
       emitted := emitted w ++ es; initialized := initialized w;
       connectPromise := connectPromise w; priceDecimals := priceDecimals w;
       sizeDecimals := sizeDecimals w; ws := ws w;
       heartbeatTimer := heartbeatTimer w; lastMessageAt := lastMessageAt w;
       tickerPoller := tickerPoller w |}.

Definition with_state (g : Gateway.State) (w : World) : World :=
    {| nonces := nonces w; auth_token := auth_token w;
       auth_expiresAt := auth_expiresAt w; gateway := g;
       loggedCreateOrderPayload := loggedCreateOrderPayload w; calls := calls w;
       emitted := emitted w; initialized := initialized w;
       connectPromise := connectPromise w; priceDecimals := priceDecimals w;
       sizeDecimals := sizeDecimals w; ws := ws w;
       heartbeatTimer := heartbeatTimer w; lastMessageAt := lastMessageAt w;
       tickerPoller := tickerPoller w |}.

Definition with_logged (w : World) : World :=
    {| nonces := nonces w; auth_token := auth_token w;
       auth_expiresAt := auth_expiresAt w; gateway := gateway w;
       loggedCreateOrderPayload := true; calls := calls w; emitted := emitted w;
       initialized := initialized w; connectPromise := connectPromise w;
       priceDecimals := priceDecimals w; sizeDecimals := sizeDecimals w; ws := ws w;
       heartbeatTimer := heartbeatTimer w; lastMessageAt := lastMessageAt w;
       tickerPoller := tickerPoller w |}.

Definition with_initialized (w : World) : World :=
    {| nonces := nonces w; auth_token := auth_token w;
       auth_expiresAt := auth_expiresAt w; gateway := gateway w;
       loggedCreateOrderPayload := loggedCreateOrderPayload w; calls := calls w;
       emitted := emitted w; initialized := true;
       connectPromise := connectPromise w; priceDecimals := priceDecimals w;
       sizeDecimals := sizeDecimals w; ws := ws w;
       heartbeatTimer := heartbeatTimer w; lastMessageAt := lastMessageAt w;
       tickerPoller := tickerPoller w |}.

Definition with_connectPromise (p : option (result unit)) (w : World) : World :=
    {| nonces := nonces w; auth_token := auth_token w;
       auth_expiresAt := auth_expiresAt w; gateway := gateway w;
       loggedCreateOrderPayload := loggedCreateOrderPayload w; calls := calls w;
       emitted := emitted w; initialized := initialized w; connectPromise := p;
       priceDecimals := priceDecimals w; sizeDecimals := sizeDecimals w; ws := ws w;
       heartbeatTimer := heartbeatTimer w; lastMessageAt := lastMessageAt w;
       tickerPoller := tickerPoller w |}.

Definition with_decimals (price size : option Z) (w : World) : World :=
    {| nonces := nonces w; auth_token := auth_token w;
       auth_expiresAt := auth_expiresAt w; gateway := gateway w;
       loggedCreateOrderPayload := loggedCreateOrderPayload w; calls := calls w;
       emitted := emitted w; initialized := initialized w;
       connectPromise := connectPromise w; priceDecimals := price;
       sizeDecimals := size; ws := ws w; heartbeatTimer := heartbeatTimer w;
       lastMessageAt := lastMessageAt w; tickerPoller := tickerPoller w |}.

Definition with_ws (socket : option ReadyState) (w : World) : World :=
    {| nonces := nonces w; auth_token := auth_token w;
       auth_expiresAt := auth_expiresAt w; gateway := gateway w;
       loggedCreateOrderPayload := loggedCreateOrderPayload w; calls := calls w;
       emitted := emitted w; initialized := initialized w;
       connectPromise := connectPromise w; priceDecimals := priceDecimals w;
       sizeDecimals := sizeDecimals w; ws := socket;
       heartbeatTimer := heartbeatTimer w; lastMessageAt := lastMessageAt w;
       tickerPoller := tickerPoller w |}.

Definition with_heartbeatTimer (set : bool) (w : World) : World :=
    {| nonces := nonces w; auth_token := auth_token w;
       auth_expiresAt := auth_expiresAt w; gateway := gateway w;
       loggedCreateOrderPayload := loggedCreateOrderPayload w; calls := calls w;
       emitted := emitted w; initialized := initialized w;
       connectPromise := connectPromise w; priceDecimals := priceDecimals w;
       sizeDecimals := sizeDecimals w; ws := ws w; heartbeatTimer := set;
       lastMessageAt := lastMessageAt w; tickerPoller := tickerPoller w |}.

Definition with_lastMessageAt (t : Z) (w : World) : World :=
    {| nonces := nonces w; auth_token := auth_token w;
       auth_expiresAt := auth_expiresAt w; gateway := gateway w;
       loggedCreateOrderPayload := loggedCreateOrderPayload w; calls := calls w;
       emitted := emitted w; initialized := initialized w;
       connectPromise := connectPromise w; priceDecimals := priceDecimals w;
       sizeDecimals := sizeDecimals w; ws := ws w;
       heartbeatTimer := heartbeatTimer w; lastMessageAt := t;
       tickerPoller := tickerPoller w |}.

Definition with_tickerPoller (w : World) : World :=
    {| nonces := nonces w; auth_token := auth_token w;
       auth_expiresAt := auth_expiresAt w; gateway := gateway w;
       loggedCreateOrderPayload := loggedCreateOrderPayload w; calls := calls w;
       emitted := emitted w; initialized := initialized w;
       connectPromise := connectPromise w; priceDecimals := priceDecimals w;
       sizeDecimals := sizeDecimals w; ws := ws w;
       heartbeatTimer := heartbeatTimer w; lastMessageAt := lastMessageAt w;
       tickerPoller := true |}.

Definition nonceManager_next : M (Z * Z) :=
    fun w =>
      let '(answer, n) := nonce_next (nonces w) in
      (answer, record (CallNext answer) (with_nonces n w)).

Definition nonceManager_acknowledgeFailure (apiKeyIndex : Z) : M unit :=
    fun w =>
      (Ok tt, record (CallAcknowledgeFailure apiKeyIndex)
                     (with_nonces (nonce_acknowledgeFailure apiKeyIndex (nonces w)) w)).

Definition nonceManager_init : M unit :=
    fun w =>
      let '(answer, n) := nonce_init (nonces w) in
      (answer, record (CallInit answer) (with_nonces n w)).

Definition signer_sign (req : SignRequest) : M SignedTx :=
    fun w => (sign req, record (CallSign req) w).

Definition http_sendTransaction (tx : SignedTx) (auth : string) : M string :=
    fun w => (sendTransaction tx auth, record (CallSendTransaction tx auth) w).

Definition http_getOrderBooks : M (list OrderBookMetadata) :=
    fun w => (getOrderBooks, record CallGetOrderBooks w).

Definition http_getAccountDetails (byAddress : bool) (auth : string) : M bool :=
    fun w => (getAccountDetails byAddress auth,
              record (CallGetAccountDetails byAddress auth) w).

  (** [ws.send(...)] on the open socket, and [this.logger(context, ...)]:
      both return. *)
Definition ws_send (channel : Channel) (auth : option string) : M unit :=
    fun w => (Ok tt, record (CallSend channel auth) w).

Definition logger (context : string) : M unit :=
    fun w => (Ok tt, record (CallLogger context) w).

  (** The debug output of [createOrder]: the signed payload, once. *)
Definition logPayloadOnce : M unit :=
    fun w =>
      if negb (loggedCreateOrderPayload w) then
        (Ok tt, with_logged (if LIGHTER_DEBUG then record (CallLogger "createOrder.txInfo") w
                             else w))
      else (Ok tt, w).

  (** The debug output of [createOrder]: the answer to the submission. *)
Definition logResponse : M unit :=
    if LIGHTER_DEBUG then logger "createOrder.sendTx.response" else ret tt.

Definition nonempty (s : string) : bool :=
    match s with EmptyString => false | _ => true end.

Definition ensureAuthToken (now : Z) : M string :=
    fun w =>
      match auth_token w with
      | Some token =>
          if nonempty token && (now <? auth_expiresAt w - DEFAULT_AUTH_TOKEN_BUFFER_MS)
          then (Ok token, w)
          else
            let deadline := now + 10 * 60 * 1000 in
            match createAuthToken deadline with
            | Ok token' => (Ok token', with_auth token' deadline (record (CallCreateAuthToken deadline) w))
            | Throw e => (Throw e, record (CallCreateAuthToken deadline) w)
            end
      | None =>
          let deadline := now + 10 * 60 * 1000 in
          match createAuthToken deadline with
          | Ok token' => (Ok token', with_auth token' deadline (record (CallCreateAuthToken deadline) w))
          | Throw e => (Throw e, record (CallCreateAuthToken deadline) w)
          end
      end.

  (** *** Initialisation *)

Definition is_set {A : Type} (o : option A) : bool :=
    match o with Some _ => true | None => false end.

  (** [this.marketId != null && this.priceDecimals != null &&
      this.sizeDecimals != null] *)
Definition metadataKnown (w : World) : bool :=
    is_set (Gateway.marketId (gateway w)) && is_set (priceDecimals w)
    && is_set (sizeDecimals w).

  (** [book.symbol ? String(book.symbol).toUpperCase() : empty] *)
Definition symbolOf (book : OrderBookMetadata) : string :=
    match book_symbol book with
    | Some s => toUpperCase s
    | None => EmptyString
    end.

Definition findTarget (books : list OrderBookMetadata) (w : World)
    : option OrderBookMetadata :=
    match find (fun book => String.eqb (symbolOf book) marketSymbol) books with
    | Some target => Some target
    | None =>
        match Gateway.marketId (gateway w) with
        | Some marketId => find (fun book => book_market_id book =? marketId) books
        | None => None
        end
    end.

Definition loadMetadata : M unit :=
    fun w =>
      if metadataKnown w then (Ok tt, w)
      else
        (books <- http_getOrderBooks ;;
         fun w =>
           match findTarget books w with
           | None =>
               if metadataKnown w then (Ok tt, w)
               else (Throw (ExternalFailure
                              ("Symbol " ++ marketSymbol
                               ++ " not listed on Lighter order books")%string), w)
           | Some target =>
               (Ok tt,
                with_decimals
                  (match priceDecimals w with
                   | Some d => Some d
                   | None => Some (supported_price_decimals target)
                   end)
                  (match sizeDecimals w with
                   | Some d => Some d
                   | None => Some (supported_size_decimals target)
                   end)
                  (with_state (Gateway.set_marketId (gateway w) (book_market_id target)) w))
           end) w.

  (** [this.accountDetails = ...; this.emitAccount()], with
      [this.positions = []] before the emission when the exchange has no
      details and the empty account stands in. *)
Definition storeAccount (standIn : bool) : M unit :=
    fun w =>
      let g := Gateway.set_accountDetails (gateway w) in
      let g := if standIn then Gateway.set_positions g [] else g in
      (Ok tt, with_gateway g (Gateway.emitAccount g) w).

Definition refreshAccountSnapshot (now : Z) : M unit :=
    try_catch
      (auth <- ensureAuthToken now ;;
       byAddress <- (match l1Address with
                     | Some address =>
                         if nonempty address then http_getAccountDetails true auth
                         else ret false
                     | None => ret false
                     end) ;;
       details <- (if byAddress then ret true else http_getAccountDetails false auth) ;;
       storeAccount (negb details))
      (fun error => logger "refreshAccount").

Definition startHeartbeat : M unit :=
    fun w =>
      if heartbeatTimer w then (Ok tt, w)
      else (Ok tt, with_heartbeatTimer true (record (CallSetInterval HeartbeatTimer) w)).

Definition stopHeartbeat : M unit :=
    fun w =>
      if heartbeatTimer w
      then (Ok tt, with_heartbeatTimer false (record (CallClearInterval HeartbeatTimer) w))
      else (Ok tt, w).

  (** [cleanup] of [openWebSocket], for the socket it has just stored. *)
Definition cleanup : M unit :=
    (fun w => (Ok tt, record CallRemoveAllListeners w)) ;;;
    stopHeartbeat ;;;
    (fun w => (Ok tt, with_ws None w)).

Definition subscribeChannels (now : Z) : M unit :=
    fun w =>
      match ws w with
      | Some OPEN =>
          match Gateway.marketId (gateway w) with
          | None => (Throw (ExternalFailure "Market ID unknown"), w)
          | Some marketId =>
              (ws_send (OrderBookChannel marketId) None ;;;
               ws_send AccountAllChannel None ;;;
               auth <- ensureAuthToken now ;;
               ws_send (AccountMarketChannel marketId) (Some auth) ;;;
               ws_send AccountAllOrdersChannel (Some auth)) w
          end
      | _ => (Ok tt, w)
      end.

  (** The promise of [openWebSocket] settles with the first thing the new
      socket does: when it opens, after the handler of [open] has
      subscribed; when it reports an error or closes, at once. *)
Definition openWebSocket (now : Z) : M unit :=
    fun w =>
      match ws w with
      | Some OPEN | Some CONNECTING => (Ok tt, w)
      | _ =>
          let w := with_ws (Some CONNECTING) (record CallWebSocket w) in
          match connect with
          | Opens =>
              try_catch
                (startHeartbeat ;;; subscribeChannels now)
                (fun error => cleanup ;;; throw error)
                (with_lastMessageAt now (with_ws (Some OPEN) w))
          | Errors error =>
              (logger "ws:error" ;;; cleanup ;;; throw error) w
          | ClosesEarly detail =>
              (cleanup ;;;
               throw (ExternalFailure
                        ("WebSocket closed before ready (" ++ detail ++ ")")%string)) w
          end
      end.

Definition emitOrders : M unit :=
    fun w => (Ok tt, with_gateway (gateway w) (Gateway.emitOrders (gateway w)) w).

  (** [startPolling]: the timer, and the request that [refreshTicker]
      makes at once; what follows the answer is a task of its own. *)
Definition startPolling : M unit :=
    fun w =>
      if tickerPoller w then (Ok tt, w)
      else (Ok tt, record CallGetExchangeStats
                          (with_tickerPoller (record (CallSetInterval TickerTimer) w))).

Definition initialize (now : Z) : M unit :=
    loadMetadata ;;;
    nonceManager_init ;;;
    refreshAccountSnapshot now ;;;
    openWebSocket now ;;;
    emitOrders ;;;
    startPolling.

Definition ensureInitialized (now : Z) : M unit :=
    fun w =>
      if initialized w then (Ok tt, w)
      else
        let '(settled, w1) :=
          match connectPromise w with
          | Some (Ok _) => (Ok tt, w)
          | Some (Throw error) => (Throw error, with_connectPromise None w)
          | None =>
              match initialize now w with
              | (Ok _, w') => (Ok tt, with_connectPromise (Some (Ok tt)) w')
              | (Throw error, w') => (Throw error, with_connectPromise None w')
              end
          end in
        match settled with
        | Ok _ => (Ok tt, with_initialized w1)
        | Throw error => (Throw error, w1)
        end.

  (** *** The three operations *)

Definition convert (now : Z) (params : CreateOrderParams) : M Conversion :=
    fun w => (mapCreateOrderParams now w params, w).

  (** [createOrder] after [await this.ensureInitialized()]. *)
Definition createOrder_body (now : Z) (params : CreateOrderParams) : M AsterOrder :=
    conversion <- convert now params ;;
    key_nonce <- nonceManager_next ;;
    let apiKeyIndex := fst key_nonce in
    let nonce := snd key_nonce in
    try_catch
      (signed <- signer_sign (SignCreateOrder conversion apiKeyIndex nonce) ;;
       logPayloadOnce ;;;
       auth <- ensureAuthToken now ;;
       http_sendTransaction signed auth ;;;
       logResponse ;;;
       lift (lighterOrderToAster conversion now))
      (fun error =>
         nonceManager_acknowledgeFailure apiKeyIndex ;;;
         logger "createOrder" ;;;
         throw error).

Definition createOrder (now : Z) (params : CreateOrderParams) : M AsterOrder :=
    ensureInitialized now ;;; createOrder_body now params.

  (** [BigInt(params.orderId)] for a text, [BigInt(Math.trunc(params.orderId))]
      for a number. *)
Definition orderIndexValue (id : OrderId) : result Z :=
    match id with
    | IdString s => JsBigInt.StringToBigInt (JsString.of_string s)
    | IdNumber x =>
        match JsNumber.trunc x with
        | Some z => Ok z
        | None => Throw BigIntRangeError
        end
    end.

  (** [String(params.orderId)] *)
Definition orderIdKey (id : OrderId) : string :=
    match id with
    | IdString s => s
    | IdNumber x => JsString.to_string (JsNumber.toString x)
    end.

Definition removeOrderLocally (key : string) : M unit :=
    fun w =>
      let g := Gateway.set_orders (gateway w)
                 (JsMap.delete String.eqb key (Gateway.orderMap (gateway w))) in
      (Ok tt, with_gateway g (Gateway.emitOrders g) w).

Definition marketIdOf : M (option Z) :=
    fun w => (Ok (Gateway.marketId (gateway w)), w).

  (** [cancelOrder] after [await this.ensureInitialized()]. *)
Definition cancelOrder_body (now : Z) (params : CancelOrderParams) : M unit :=
    known <- marketIdOf ;;
    match (match co_marketIndex params with Some i => Some i | None => known end) with
    | None => throw (ExternalFailure "Market index unknown")
    | Some marketIndex =>
        indexValue <- lift (orderIndexValue (co_orderId params)) ;;
        key_nonce <- nonceManager_next ;;
        let apiKeyIndex := fst key_nonce in
        let nonce := snd key_nonce in
        try_catch
          (signed <- signer_sign (SignCancelOrder marketIndex indexValue nonce apiKeyIndex) ;;
           auth <- ensureAuthToken now ;;
           http_sendTransaction signed auth ;;;
           removeOrderLocally (orderIdKey (co_orderId params)))
          (fun error =>
             nonceManager_acknowledgeFailure apiKeyIndex ;;;
             throw error)
    end.

Definition cancelOrder (now : Z) (params : CancelOrderParams) : M unit :=
    ensureInitialized now ;;; cancelOrder_body now params.

  (** [params?.scheduleMs != null ? BigInt(params.scheduleMs) : 0n] *)
Definition scheduledTime (params : option CancelAllParams) : result Z :=
    match params with
    | Some p =>
        match ca_scheduleMs p with
        | Some scheduleMs => JsNumber.toBigInt scheduleMs
        | None => Ok 0
        end
    | None => Ok 0
    end.

  (** [cancelAllOrders] after [await this.ensureInitialized()]. *)
Definition cancelAllOrders_body (now : Z) (params : option CancelAllParams) : M unit :=
    let timeInForce :=
      match params with
      | Some p => match ca_timeInForce p with Some t => t | None => 0 end
      | None => 0
      end in
    time <- lift (scheduledTime params) ;;
    key_nonce <- nonceManager_next ;;
    let apiKeyIndex := fst key_nonce in
    let nonce := snd key_nonce in
    try_catch
      (signed <- signer_sign (SignCancelAll timeInForce time nonce apiKeyIndex) ;;
       auth <- ensureAuthToken now ;;
       http_sendTransaction signed auth ;;;
       ret tt)
      (fun error =>
         nonceManager_acknowledgeFailure apiKeyIndex ;;;
         throw error).

Definition cancelAllOrders (now : Z) (params : option CancelAllParams) : M unit :=
    ensureInitialized now ;;; cancelAllOrders_body now params.

  (** The three operations under one name. *)
Inductive Operation : Type :=
  | OpCreateOrder (params : CreateOrderParams)
  | OpCancelOrder (params : CancelOrderParams)
  | OpCancelAllOrders (params : option CancelAllParams).

  (** An invocation: its outcome (the value is dropped) and the world after it. *)
Definition invoke (now : Z) (op : Operation) (w : World) : result unit * World :=
    match op with
    | OpCreateOrder params =>
        match createOrder now params w with
        | (Ok _, w') => (Ok tt, w')
        | (Throw e, w') => (Throw e, w')
        end
    | OpCancelOrder params => cancelOrder now params w
    | OpCancelAllOrders params => cancelAllOrders now params w
    end.

  (** The invocation after [await this.ensureInitialized()]. *)
Definition proceed (now : Z) (op : Operation) (w : World) : result unit * World :=
    match op with
    | OpCreateOrder params =>
        match createOrder_body now params w with
        | (Ok _, w') => (Ok tt, w')
        | (Throw e, w') => (Throw e, w')
        end
    | OpCancelOrder params => cancelOrder_body now params w
    | OpCancelAllOrders params => cancelAllOrders_body now params w
    end.

  (** The calls of the invocation itself. *)
Definition new_calls (w w' : World) : list Call :=
    skipn (List.length (calls w)) (calls w').

Definition is_next (c : Call) : bool :=
    match c with CallNext _ => true | _ => false end.

Definition is_acknowledge (c : Call) : bool :=
    match c with CallAcknowledgeFailure _ => true | _ => false end.

Definition is_logger (c : Call) : bool :=
    match c with CallLogger _ => true | _ => false end.

  (** A call of the guarded block: signing, the auth token, the
      submission, debug output. *)
Definition is_submission_step (c : Call) : bool :=
    match c with
    | CallSign _ | CallCreateAuthToken _ | CallSendTransaction _ _
    | CallLogger _ => true
    | _ => false
    end.

  (** A call of the initialisation: anything but the nonce step, giving a
      nonce back, signing and the submission. *)
Definition is_initialisation_step (c : Call) : bool :=
    match c with
    | CallNext _ | CallAcknowledgeFailure _ | CallSign _ | CallSendTransaction _ _ => false
    | _ => true
    end.

End WithCollaborators.

End Facade.

(** ** The nonce manager

    [./nonce-manager] is imported by the gateway and its source is not part
    of what is verified here. *)

Module NonceManager.

Local Open Scope Z_scope.

(** Modelled from the spec: the state of the nonce manager, which the
    gateway imports from [./nonce-manager]: one counter per signing key
    and the position of the round-robin key selection. *)
Record NonceState : Type := {
  counters : list (Z * Z);     (* signing key, next nonce *)
  cursor : nat
}.

(** Modelled from the spec: [next()] of the nonce manager returns the pair
    of a key and its nonce and advances the counter of that key
    unconditionally; keys are taken round-robin. *)
Definition next (s : NonceState) : result (Z * Z) * NonceState :=
  match nth_error (counters s) (cursor s mod List.length (counters s))%nat with
  | Some (key, nonce) =>
      (Ok (key, nonce),
       {| counters := map (fun kn => if (fst kn =? key) then (fst kn, snd kn + 1) else kn)
                          (counters s);
          cursor := S (cursor s) |})
  | None => (Throw (ExternalFailure "No API keys"), s)
  end.

(** Modelled from the spec: [acknowledgeFailure(key)] of the nonce manager
    decrements the counter of the key, so that the nonce can be reused. *)
Definition acknowledgeFailure (key : Z) (s : NonceState) : NonceState :=
  {| counters := map (fun kn => if (fst kn =? key) then (fst kn, snd kn - 1) else kn)
                     (counters s);
     cursor := cursor s |}.

End NonceManager.

(** * Statements

    The predicates the theorems below are phrased with. *)

Module RateLimitProps.

Import RateLimit.
Local Open Scope Z_scope.

(** What [beforeCycle] at time [t] enforces in the states [degraded] and
    [paused]: a cycle runs only when twice the base interval has passed
    since the last one, and a paused controller stays paused until its
    deadline. *)
Definition enforced_interval (t : Z) (k : RateLimitController) : Prop :=
  match state k, fst (beforeCycle t k) with
  | normal, _ => True
  | degraded, run => baseInterval k * 2 <= t - lastCycleAt k
  | degraded, skip => t - lastCycleAt k < baseInterval k * 2
  | degraded, stay_paused => False
  | paused, run =>
      baseInterval k * 2 <= t - lastCycleAt k
      /\ exists deadline, pausedUntil k = Some deadline /\ deadline <= t
  | paused, skip =>
      t - lastCycleAt k < baseInterval k * 2
      /\ exists deadline, pausedUntil k = Some deadline /\ deadline <= t
  | paused, stay_paused =>
      match pausedUntil k with Some deadline => t < deadline | None => True end
  end.

(** What a call of [beforeCycle] at time [t] does to the pacing.  A cycle
    that runs is recorded as the last one: until the interval then in
    force has passed (the base interval in the state [normal], twice the
    base interval otherwise), every further call answers [skip] and
    changes nothing.  A cycle that is skipped is not recorded.  A
    controller that stays paused records the call. *)
Definition paces (t : Z) (k : RateLimitController) : Prop :=
  let k' := snd (beforeCycle t k) in
  match fst (beforeCycle t k) with
  | run =>
      lastCycleAt k' = t
      /\ currentInterval k'
         = match state k' with
           | normal => baseInterval k
           | _ => baseInterval k * 2
           end
      /\ forall t', t' - t < currentInterval k' -> beforeCycle t' k' = (skip, k')
  | skip => lastCycleAt k' = lastCycleAt k
  | stay_paused => lastCycleAt k' = t /\ state k' = paused
  end.

(** A use of the controller by the engine that owns it, with the clock at
    the call. *)
Inductive Use : Type :=
| UseBeforeCycle (now : Z)
| UseRegisterRateLimit (now : Z)
| UseOnCycleComplete (now : Z) (hadRateLimit : bool).

Definition use (c : RateLimitController) (u : Use) : RateLimitController :=
  match u with
  | UseBeforeCycle now => snd (beforeCycle now c)
  | UseRegisterRateLimit now => registerRateLimit now c
  | UseOnCycleComplete now hadRateLimit => onCycleComplete now hadRateLimit c
  end.

(** The controller after a run of calls, from the constructor on. *)
Definition after (baseInterval : Z) (optPauseMs optRecoveryMs : option Z)
           (uses : list Use) : RateLimitController :=
  fold_left use uses (make baseInterval optPauseMs optRecoveryMs).

(** The fields agree: a deadline is set exactly in the state [paused], and
    entries are suppressed exactly outside the state [normal]. *)
Definition coherent (c : RateLimitController) : Prop :=
  (state c = paused <-> pausedUntil c <> None)
  /\ (entriesSuppressed c = true <-> state c <> normal).

End RateLimitProps.

Module GatewayProps.

Import Gateway.
Local Open Scope Z_scope.

(** *** Orders *)

(** The most recent update for the order [key] among [os]. *)
Definition last_update (key : string) (os : list LighterOrder) : option LighterOrder :=
  find (fun o => String.eqb (order_key o) key) (rev os).

(** The order updates of a run of messages, in order of arrival. *)
Definition order_updates (inbox : list (Z * Message)) : list LighterOrder :=
  flat_map (fun nm => match snd nm with
                      | AccountOrders m => allOrders m
                      | _ => []
                      end) inbox.

(** The statuses the specification calls terminal. *)
Definition spec_terminal (status : string) : bool :=
  set_has ["filled"; "canceled"; "rejected"; "expired"]%string status.

(** The statuses [handleAccountOrders] treats as terminal. *)
Definition code_terminal (status : string) : bool :=
  set_has terminalStatuses status.

(** *** Order book *)

(** The stale messages: an offset below the last applied one, both being
    set (nonzero); or the same offset with a timestamp that is set and not
    after the last applied one. *)
Definition stale (g : State) (m : OrderBookMessage) : Prop :=
  (lastOrderBookOffset g <> 0 /\ incomingOffset m <> 0
   /\ incomingOffset m < lastOrderBookOffset g)
  \/ (incomingOffset m = lastOrderBookOffset g /\ incomingTs m <> 0
      /\ incomingTs m <= lastOrderBookTimestamp g).

Definition depth_within (limit : nat) (book : LighterOrderBookSnapshot) : Prop :=
  (List.length (bids book) <= limit)%nat /\ (List.length (asks book) <= limit)%nat.

Definition book_depth_within (limit : nat) (g : State) : Prop :=
  match orderBook g with
  | Some book => depth_within limit book
  | None => True
  end.

(** [a] may stand before [b] on the given side: both prices are finite
    numbers, and the price of [a] is not lower (bids) or not higher (asks)
    than the price of [b]. *)
Definition stands_before (Number : string -> JsValue.num) (side : Side)
           (a b : LighterOrderBookLevel) : Prop :=
  match Number (price a), Number (price b) with
  | JsValue.VFin pa, JsValue.VFin pb =>
      match side with
      | bid => (pb <= pa)%Q
      | ask => (pa <= pb)%Q
      end
  | _, _ => False
  end.

(** The side of the book an order of the given side trades against. *)
Definition bookSide (side : OrderSide) : Side :=
  match side with SELL => bid | BUY => ask end.

(** Bids in descending, asks in ascending order of price. *)
Definition side_sorted (Number : string -> JsValue.num) (side : Side)
           (levels : list LighterOrderBookLevel) : Prop :=
  StronglySorted (stands_before Number side) levels.

Definition finite_prices (Number : string -> JsValue.num)
           (levels : list LighterOrderBookLevel) : Prop :=
  Forall (fun l => JsValue.isFinite (Number (price l)) = true) levels.

(** The prices of an order-book message read as finite numbers. *)
Definition finite_message (Number : string -> JsValue.num) (msg : Message) : Prop :=
  match msg with
  | SubscribedOrderBook m | UpdateOrderBook m =>
      match m_order_book m with
      | Some ob =>
          finite_prices Number (normalizeLevels (or_else (ob_bids ob) []))
          /\ finite_prices Number (normalizeLevels (or_else (ob_asks ob) []))
      | None => True
      end
  | _ => True
  end.

(** [kept] is what sorting and trimming to [limit] leaves of [levels]:
    it is in the order of its side; with the levels dropped it makes up
    the levels given, each as often as it was given; as many levels are
    kept as the limit allows; and every level kept may stand before every
    level dropped. *)
Definition best_of (Number : string -> JsValue.num) (side : Side) (limit : nat)
           (levels kept : list LighterOrderBookLevel) : Prop :=
  side_sorted Number side kept
  /\ exists dropped,
       Permutation levels (kept ++ dropped)
       /\ List.length kept = Nat.min limit (List.length levels)
       /\ forall a b, In a kept -> In b dropped -> stands_before Number side a b.

Definition book_sorted (Number : string -> JsValue.num) (g : State) : Prop :=
  match orderBook g with
  | Some book =>
      side_sorted Number bid (bids book) /\ side_sorted Number ask (asks book)
  | None => True
  end.

Definition book_finite (Number : string -> JsValue.num) (g : State) : Prop :=
  match orderBook g with
  | Some book => finite_prices Number (bids book) /\ finite_prices Number (asks book)
  | None => True
  end.

(** A size strictly greater than zero. *)
Definition size_positive (Number : string -> JsValue.num) (l : LighterOrderBookLevel) : Prop :=
  match Number (size l) with
  | JsValue.VFin q => (0 < q)%Q
  | JsValue.VInf negative => negative = false
  | JsValue.VNaN => False
  end.

(** No two levels of a side have the same price. *)
Definition distinct_prices (levels : list LighterOrderBookLevel) : Prop :=
  NoDup (map price levels).

(** The invariant the specification gives for an order book. *)
Definition spec_book_invariant (Number : string -> JsValue.num)
           (book : LighterOrderBookSnapshot) : Prop :=
  side_sorted Number bid (bids book) /\ side_sorted Number ask (asks book)
  /\ distinct_prices (bids book) /\ distinct_prices (asks book)
  /\ Forall (size_positive Number) (bids book)
  /\ Forall (size_positive Number) (asks book).

(** A level as an entry of the map [mergeLevels] builds. *)
Definition pairOf (l : LighterOrderBookLevel) : string * string := (price l, size l).

(** An entry of a delta that sets a price the map does not hold yet. *)
Definition isNew (Number : string -> JsValue.num) (held : list string)
           (u : LighterOrderBookLevel) : bool :=
  negb (JsValue.le_zero (Number (size u))) && negb (existsb (String.eqb (price u)) held).

(** What a delta leaves on a side it updates: distinct prices, and levels
    that were in the book or that the delta sets with a size that is not
    zero or negative. *)
Definition delta_side_rule (Number : string -> JsValue.num)
           (old : list LighterOrderBookLevel) (raw : list RawLevel)
           (new : list LighterOrderBookLevel) : Prop :=
  distinct_prices new
  /\ forall l, In l new ->
               In l old
               \/ (In l (normalizeLevels raw)
                   /\ JsValue.le_zero (Number (size l)) = false).

(** The most recent entry of a delta for the price [k]. *)
Definition last_level (k : string) (updates : list LighterOrderBookLevel)
  : option LighterOrderBookLevel :=
  find (fun u => String.eqb (price u) k) (rev updates).

(** The price and the size of an entry of a message, as texts. *)
Definition raw_price (entry : RawLevel) : string :=
  match entry with RawPair p _ | RawObject p _ => p end.

Definition raw_size (entry : RawLevel) : string :=
  match entry with RawPair _ s | RawObject _ s => s end.

(** The levels are the entries as sent: as many, in the same order, each
    with the price and the size of its entry. *)
Definition as_sent (raw : list RawLevel) (levels : list LighterOrderBookLevel) : Prop :=
  Forall2 (fun entry l => price l = raw_price entry /\ size l = raw_size entry)
          raw levels.

(** The levels of the merge of a delta into the levels of the book: for
    each price the last entry of the delta decides (it sets the level,
    unless its size is zero or negative), and a price the delta does not
    list keeps the size the book had for it. *)
Definition merge_of (Number : string -> JsValue.num)
           (existing updates merged : list LighterOrderBookLevel) : Prop :=
  forall l,
    In l merged
    <-> match last_level (price l) updates with
        | Some u => JsValue.le_zero (Number (size u)) = false /\ size u = size l
        | None =>
            match last_level (price l) existing with
            | Some l0 => size l0 = size l
            | None => False
            end
        end.

(** A delta lists a price at most once on each side. *)
Definition lists_each_price_once (m : OrderBookMessage) : Prop :=
  match m_order_book m with
  | Some ob =>
      distinct_prices (normalizeLevels (or_else (ob_bids ob) []))
      /\ distinct_prices (normalizeLevels (or_else (ob_asks ob) []))
  | None => True
  end.

(** *** Positions *)






(** The position map of [handleAccountAll]: keys are distinct and every
    position sits under its own market. *)
Definition well_keyed (m : PositionMap) : Prop :=
  NoDup (JsMap.keys m) /\ forall k p, In (k, p) m -> p_market_id p = Some k.

(** *** Runs of messages *)

(** Everything the handlers hand to the listeners during a run of
    messages, in order. *)
Fixpoint emissions (Number : string -> JsValue.num) (g : State)
         (inbox : list (Z * Message)) : list Emitted :=
  match inbox with
  | [] => []
  | (now, msg) :: rest =>
      snd (handleMessage Number now msg g)
      ++ emissions Number (fst (handleMessage Number now msg g)) rest
  end.

(** A snapshot message that carries an order book. *)
Definition carries_snapshot (msg : Message) : bool :=
  match msg with
  | SubscribedOrderBook m =>
      match m_order_book m with Some _ => true | None => false end
  | _ => false
  end.

Definition is_depth (e : Emitted) : bool :=
  match e with EmitDepth _ => true | _ => false end.

Definition is_account (e : Emitted) : bool :=
  match e with EmitAccount _ => true | _ => false end.

(** The entries of the order map are in order: no key is held twice;
    every order sits under its own key, which is not empty, and has none
    of the statuses the handler treats as terminal. *)
Definition entries_in_order (m : OrderMap) : Prop :=
  NoDup (JsMap.keys m)
  /\ forall k o, In (k, o) m ->
                 order_key o = k /\ k <> EmptyString
                 /\ code_terminal (order_status o) = false.

(** The live orders are in order: the list is the one of the map; every
    order sits under its own key, which is not empty; no key is held
    twice; no order has one of the statuses the handler treats as
    terminal. *)
Definition live_orders_in_order (g : State) : Prop :=
  orders g = JsMap.values (orderMap g)
  /\ NoDup (JsMap.keys (orderMap g))
  /\ forall k o, In (k, o) (orderMap g) ->
                 order_key o = k /\ k <> EmptyString
                 /\ code_terminal (order_status o) = false.

(** The order list is the list of the values of a map whose entries are
    in order: the order map itself or an earlier state of it. *)
Definition orders_shown_in_order (g : State) : Prop :=
  exists shown, entries_in_order shown /\ orders g = JsMap.values shown.

(** An orders message whose entries can all be read. *)
Definition readable (msg : Message) : Prop :=
  match msg with
  | AccountOrders m => unreadable m = false
  | _ => True
  end.

(** At most one position per market, each with a market. *)
Definition one_per_market (ps : list LighterPosition) : Prop :=
  NoDup (map p_market_id ps) /\ Forall (fun p => p_market_id p <> None) ps.

(** An order-book message states its offset in the book it carries, as a
    positive number, and nowhere else. *)
Definition states_book_offset (msg : Message) : Prop :=
  match msg with
  | SubscribedOrderBook m | UpdateOrderBook m =>
      m_offset m = None
      /\ match m_order_book m with
         | Some ob => exists o, ob_offset ob = Some o /\ 0 < o
         | None => True
         end
  | _ => True
  end.

End GatewayProps.

(** ** Decimal texts and their value *)

Module DecimalProps.

Import JsString Decimal.
Local Open Scope char_scope.

(** A digit string without its leading zeros, and at least one digit. *)
Definition strip0 (ds : chars) : chars :=
  match dropWhile is_zero_char ds with
  | [] => ["0"]
  | r => r
  end.

(** One step of reading a digit string. *)
Definition step (acc : N) (c : ascii) : N := (10 * acc + JsBigInt.digit_value c)%N.

(** Digit strings as the decimal numbers of the standard library. *)
Definition digit_uint (c : ascii) (u : Decimal.uint) : Decimal.uint :=
  match c with
  | "0" => Decimal.D0 u | "1" => Decimal.D1 u | "2" => Decimal.D2 u
  | "3" => Decimal.D3 u | "4" => Decimal.D4 u | "5" => Decimal.D5 u
  | "6" => Decimal.D6 u | "7" => Decimal.D7 u | "8" => Decimal.D8 u
  | "9" => Decimal.D9 u
  | _ => Decimal.Nil
  end.

Fixpoint uint_of_digits (ds : chars) : Decimal.uint :=
  match ds with
  | [] => Decimal.Nil
  | c :: r => digit_uint c (uint_of_digits r)
  end.

Definition chars_of_uint (u : Decimal.uint) : chars :=
  list_ascii_of_string (NilEmpty.string_of_uint u).

(** The reading of a decimal text: white space around it aside, an
    optional minus sign, the digits before the point and, after an
    optional point, the digits of the fraction; each run of digits may be
    empty.  [None] for every other text and for the empty one. *)
Definition decimal_parts (s : chars) : option (bool * chars * chars) :=
  match trim s with
  | [] => None
  | c :: r =>
      let neg := Ascii.eqb c "-" in
      let u := if neg then r else c :: r in
      let ip := takeWhile is_digit u in
      match dropWhile is_digit u with
      | [] => Some (neg, ip, [])
      | d :: fp =>
          if Ascii.eqb d "." && forallb is_digit fp then Some (neg, ip, fp) else None
      end
  end.

(** The fraction cut or filled with zeros to exactly [d] digits. *)
Definition fraction_to (d : nat) (fp : chars) : chars := firstn d (fp ++ repeat "0" d).

(** The value of [ip.fp], cut after [d] fractional digits, in units of
    [10^-d]. *)
Definition truncated_units (ip fp : chars) (d : nat) : N :=
  JsBigInt.of_digits (ip ++ fraction_to d fp).

(** The text [ip.fp] with sign, truncated to [d] fractional digits, in
    fixed notation: the integer part without leading zeros, then the point
    and exactly [d] fractional digits unless these are all zero; a minus
    sign when the truncated value is negative. *)
Definition fixed_notation (neg : bool) (ip fp : chars) (d : nat) : chars :=
  let frac := fraction_to d fp in
  let body := if forallb is_zero_char frac then strip0 ip
              else strip0 ip ++ ["."] ++ frac in
  if neg && negb (forallb is_zero_char (ip ++ frac)) then "-" :: body else body.

(** The canonical form of the text truncated to [d] fractional digits:
    every trailing zero of the fraction is stripped, and the point with
    them when no fractional digit is left. *)
Definition canonical_notation (neg : bool) (ip fp : chars) (d : nat) : chars :=
  let frac := replace_trailing_zeros (firstn d fp) in
  let body := match frac with
              | [] => strip0 ip
              | _ => strip0 ip ++ ["."] ++ frac
              end in
  if neg && negb (forallb is_zero_char (ip ++ frac)) then "-" :: body else body.

(** The digits [normalizeDecimalInput] keeps of the two parts of a text,
    and the record it returns for them. *)
Definition kept_integer (ip : chars) : chars :=
  if is_empty (replace_leading_zeros ip) then ["0"] else replace_leading_zeros ip.

Definition normal_form (neg : bool) (ip fp : chars) : Normalized :=
  if is_empty (replace_leading_zeros ip) && is_empty (replace_trailing_zeros fp)
  then zero_normalized
  else {| sign := if neg then (-1)%Z else 1%Z;
          digits := kept_integer ip ++ replace_trailing_zeros fp;
          fractionLength := Z.of_nat (List.length (replace_trailing_zeros fp)) |}.

(** A number of units with the sign of the text. *)
Definition with_sign (neg : bool) (n : N) : Z :=
  if neg then (- Z.of_N n)%Z else Z.of_N n.

(** [scaledToDecimalString(decimalToScaled(s, d), d)] *)
Definition roundtrip (s : string) (d : Z) : result string :=
  let* scaled := decimalToScaled (VString s) d in
  scaledToDecimalString (SBigint scaled) d.

(** The sign of an input: of the number, of the bigint, of the value of
    the decimal text. *)
Definition input_sign (x : DecimalInput) : Z :=
  match x with
  | VBigint z => Z.sgn z
  | VNumber JsNumber.NaN => 0
  | VNumber JsNumber.Zero => 0
  | VNumber (JsNumber.Infinity neg) => if neg then (-1) else 1
  | VNumber (JsNumber.Finite neg _ _) => if neg then (-1) else 1
  | VString s =>
      match decimal_parts (of_string s) with
      | Some (neg, ip, fp) =>
          if forallb is_zero_char (ip ++ fp) then 0
          else if neg then (-1) else 1
      | None => 0
      end
  end.

(** The inputs [scaleQuantityWithMinimum] is stated for: a bigint; zero or
    a number that [toString] prints without exponent, which is one of
    magnitude from [1e-6] up to, but not including, [1e21]; a decimal text
    whose value is zero or above [2^-1075] in magnitude, where [Number]
    does not round it to zero. *)
Definition accepted (x : DecimalInput) : Prop :=
  match x with
  | VBigint _ => True
  | VNumber JsNumber.Zero => True
  | VNumber (JsNumber.Finite _ _ n) => (-6 < n <= 21)%Z
  | VNumber _ => False
  | VString s =>
      match decimal_parts (of_string s) with
      | Some (_, ip, fp) =>
          forallb is_zero_char (ip ++ fp) = true
          \/ (10 ^ N.of_nat (List.length fp)
              < JsBigInt.of_digits (ip ++ fp) * 2 ^ 1075)%N
      | None => False
      end
  end.

End DecimalProps.

(** * What is said about events *)

Module EventProps.

Section Registered.

Variables (Handler : Type) (same : Handler -> Handler -> bool).

(** Whether [handler] is registered after the changes: the last change
    that concerns it is an [add]. *)
Definition registered (handler : Handler) (changes : list (Event.Change Handler)) : bool :=
  fold_left (fun was c =>
               match c with
               | Event.Add h => if same handler h then true else was
               | Event.Remove h => if same handler h then false else was
               end) changes false.

End Registered.

End EventProps.

(** * What is said about the polling timers *)

Module PollingProps.

Import Polling.

(** No two timers poll the same thing; the handles the pollers hold are
    those of the timers made, a timer for the ticker under [ticker] and a
    timer for an interval under that interval; and each timer was started
    together with one poll made at once. *)
Definition one_per_target (Handler Kline : Type) (w : World Handler Kline) : Prop :=
  NoDup (map snd (timers w))
  /\ polled w = map snd (timers w)
  /\ (forall timer, ticker (pollers w) = Some timer <-> In (timer, TickerPoll) (timers w))
  /\ (forall interval timer,
        JsMap.get String.eqb interval (klines (pollers w)) = Some timer
        <-> In (timer, KlinesPoll interval) (timers w)).

End PollingProps.

(** * What the claims about the trading operations say *)

Module FacadeProps.

Import Facade.

Definition is_ok {A : Type} (r : result A) : bool :=
  match r with Ok _ => true | Throw _ => false end.

Definition is_some {A : Type} (o : option A) : bool :=
  match o with Some _ => true | None => false end.

(** The result without its value. *)
Definition void {A : Type} (r : result A) : result unit :=
  match r with Ok _ => Ok tt | Throw e => Throw e end.

Section Shapes.

Variables (CreateOrderParams Conversion AsterOrder NonceState : Type).
Variable nonce_next : NonceState -> result (Z * Z) * NonceState.
Variable nonce_acknowledgeFailure : Z -> NonceState -> NonceState.
Variable mapCreateOrderParams :
  Z -> World Conversion NonceState -> CreateOrderParams -> result Conversion.

(** The arguments are taken, on the gateway as initialisation has left
    it: the order converts; the market index is given or known and the
    order id reads as a bigint; the schedule is an integer. *)
Definition takes_arguments (now : Z) (op : Operation CreateOrderParams)
           (w : World Conversion NonceState) : bool :=
  match op with
  | OpCreateOrder params => is_ok (mapCreateOrderParams now w params)
  | OpCancelOrder _ params =>
      (is_some (co_marketIndex params) || is_some (Gateway.marketId (gateway w)))
      && is_ok (orderIndexValue (co_orderId params))
  | OpCancelAllOrders _ params => is_ok (scheduledTime params)
  end.

(** The invocation gets as far as [nonceManager.next()]: initialisation
    has returned and the arguments are taken. *)
Definition passes_checks (now : Z) (op : Operation CreateOrderParams)
           (ready : result unit * World Conversion NonceState) : bool :=
  is_ok (fst ready) && takes_arguments now op (snd ready).

(** What [ensureInitialized] does to a world [w]: it makes calls of the
    initialisation only, it leaves an initialised gateway as it is, and
    when it returns the gateway is initialised. *)
Definition initialisation_only (w : World Conversion NonceState)
           (ready : result unit * World Conversion NonceState) : Prop :=
  (exists inits,
      calls (snd ready) = calls w ++ inits
      /\ forallb (@is_initialisation_step Conversion) inits = true)
  /\ (if initialized w then ready = (Ok tt, w)
      else if is_ok (fst ready) then initialized (snd ready) = true
      else initialized (snd ready) = false).

(** How often [nonceManager.next()] is called. *)
Definition nonces_asked (cs : list (Call Conversion)) : nat :=
  List.length (filter (@is_next Conversion) cs).

(** How often [nonceManager.acknowledgeFailure] is called. *)
Definition failures_acknowledged (cs : list (Call Conversion)) : nat :=
  List.length (filter (@is_acknowledge Conversion) cs).

(** From the world [w] on the invocation throws without asking for a
    nonce: it calls nothing more and leaves the nonce manager alone. *)
Definition rejected_before_nonce (w : World Conversion NonceState)
           (r : result unit) (w' : World Conversion NonceState) : Prop :=
  calls w' = calls w /\ nonces w' = nonces w /\ exists e, r = Throw e.

(** [next()] throws: that is the only call, and its error is the
    invocation's. *)
Definition nonce_refused (w : World Conversion NonceState)
           (r : result unit) (w' : World Conversion NonceState) : Prop :=
  exists e,
    fst (nonce_next (nonces w)) = Throw e
    /\ calls w' = calls w ++ [CallNext Conversion (Throw e)]
    /\ r = Throw e
    /\ nonces w' = snd (nonce_next (nonces w)).

(** [next()] gives [(k, n)] and the invocation returns: after the nonce
    come steps of the guarded block only, and the nonce stays used. *)
Definition nonce_used (w : World Conversion NonceState)
           (r : result unit) (w' : World Conversion NonceState) : Prop :=
  exists k n steps,
    fst (nonce_next (nonces w)) = Ok (k, n)
    /\ forallb (@is_submission_step Conversion) steps = true
    /\ calls w' = calls w ++ CallNext Conversion (Ok (k, n)) :: steps
    /\ r = Ok tt
    /\ nonces w' = snd (nonce_next (nonces w)).

(** [next()] gives [(k, n)] and the guarded block throws [e]: after the
    steps of the block comes [acknowledgeFailure(k)], for the key of the
    nonce, then at most logging, and the invocation throws [e]. *)
Definition nonce_returned (w : World Conversion NonceState)
           (r : result unit) (w' : World Conversion NonceState) : Prop :=
  exists k n steps logs e,
    fst (nonce_next (nonces w)) = Ok (k, n)
    /\ forallb (@is_submission_step Conversion) steps = true
    /\ forallb (@is_logger Conversion) logs = true
    /\ calls w' = calls w ++ CallNext Conversion (Ok (k, n)) :: steps
                  ++ CallAcknowledgeFailure Conversion k :: logs
    /\ r = Throw e
    /\ nonces w' = nonce_acknowledgeFailure k (snd (nonce_next (nonces w))).

(** A step of the guarded block: it makes calls of the block only and
    leaves the nonce manager alone. *)
Definition quiet {A : Type} (m : M Conversion NonceState A) : Prop :=
  forall w : World Conversion NonceState,
    exists steps,
      calls (snd (m w)) = calls w ++ steps
      /\ forallb (@is_submission_step Conversion) steps = true
      /\ nonces (snd (m w)) = nonces w.

(** A handler that gives the nonce of key [k] back and throws again. *)
Definition acks {A : Type} (k : Z) (h : JsError -> M Conversion NonceState A) : Prop :=
  forall (e : JsError) (w : World Conversion NonceState),
    exists logs,
      fst (h e w) = Throw e
      /\ calls (snd (h e w)) = calls w ++ CallAcknowledgeFailure Conversion k :: logs
      /\ forallb (@is_logger Conversion) logs = true
      /\ nonces (snd (h e w)) = nonce_acknowledgeFailure k (nonces w).

(** A step of the initialisation: it makes calls of the initialisation
    only, and it leaves the flag [initialized], the order map and the
    order list as they are. *)
Definition starts_up {A : Type} (m : M Conversion NonceState A) : Prop :=
  forall w : World Conversion NonceState,
    (exists inits,
        calls (snd (m w)) = calls w ++ inits
        /\ forallb (@is_initialisation_step Conversion) inits = true)
    /\ initialized (snd (m w)) = initialized w
    /\ Gateway.orderMap (gateway (snd (m w))) = Gateway.orderMap (gateway w)
    /\ Gateway.orders (gateway (snd (m w))) = Gateway.orders (gateway w).

End Shapes.

(** The key and the nonce a signing request carries. *)
Definition signed_with (Conversion : Type) (k n : Z) (req : SignRequest Conversion) : Prop :=
  match req with
  | SignCreateOrder _ apiKeyIndex nonce => apiKeyIndex = k /\ nonce = n
  | SignCancelOrder _ _ _ nonce apiKeyIndex => apiKeyIndex = k /\ nonce = n
  | SignCancelAll _ _ _ nonce apiKeyIndex => apiKeyIndex = k /\ nonce = n
  end.

Definition is_send (Conversion : Type) (c : Call Conversion) : bool :=
  match c with CallSendTransaction _ _ _ => true | _ => false end.

End FacadeProps.


(** ** Sample data for the examples *)

Module Samples.

Import Gateway.
Local Open Scope Z_scope.
Local Open Scope string_scope.

(** [Number(text)] on plain decimal texts (an optional minus sign, digits,
    optionally a point and digits), by exact value; every other text reads
    as [NaN].  It stands in for [Number] in the examples, which use short
    texts such as [100] and [100.0], where it gives what [Number] gives. *)
Definition Number (text : string) : JsValue.num :=
  let t := JsString.of_string text in
  let neg := match t with c :: _ => Ascii.eqb c "-" | [] => false end in
  let u := if neg then tl t else t in
  let ip := JsString.takeWhile JsString.is_digit u in
  let fp := match JsString.dropWhile JsString.is_digit u with
            | d :: w => if Ascii.eqb d "." then Some w else None
            | [] => Some []
            end in
  match fp with
  | Some fp =>
      if forallb JsString.is_digit fp && negb (Nat.eqb (List.length (ip ++ fp)%list) 0)
      then
        let m := Z.of_N (JsBigInt.of_digits (ip ++ fp)%list) in
        JsValue.VFin (Qmake (if neg then - m else m)
                            (Z.to_pos (10 ^ Z.of_nat (List.length fp))))
      else JsValue.VNaN
  | None => JsValue.VNaN
  end.

Definition level (p s : string) : LighterOrderBookLevel := {| price := p; size := s |}.

(** A first snapshot: offset 5, timestamp 100, one bid. *)
Definition snapshot5 : OrderBookMessage :=
  {| m_offset := None; m_timestamp := Some 100;
     m_order_book := Some {| ob_offset := Some 5;
                             ob_bids := Some [RawPair "100" "5"];
                             ob_asks := Some [] |} |}.

(** The gateway after that snapshot. *)
Definition after_snapshot5 : State :=
  receive Number (initial (Some 1)) [(1000, SubscribedOrderBook snapshot5)].


(** A delta with the offset of the book and no timestamp, removing the bid. *)
Definition delta_no_timestamp : OrderBookMessage :=
  {| m_offset := Some 5; m_timestamp := None;
     m_order_book := Some {| ob_offset := Some 5;
                             ob_bids := Some [RawPair "100" "0"];
                             ob_asks := None |} |}.

(** A snapshot with a price listed twice and a level of size zero. *)
Definition snapshot_unfiltered : OrderBookMessage :=
  {| m_offset := None; m_timestamp := Some 100;
     m_order_book := Some {| ob_offset := Some 5;
                             ob_bids := Some [RawPair "100" "3"; RawPair "100" "5"];
                             ob_asks := Some [RawPair "101" "0"] |} |}.

(** A delta without offset and timestamp that removes the price [100],
    sets it again and sets [100.0], the same number under another text. *)
Definition delta_repeated_price : OrderBookMessage :=
  {| m_offset := None; m_timestamp := None;
     m_order_book := Some {| ob_offset := None;
                             ob_bids := Some [RawPair "100" "0"; RawPair "100" "5";
                                              RawPair "100.0" "7"];
                             ob_asks := None |} |}.

(** A gateway whose book is empty. *)
Definition snapshot_empty : OrderBookMessage :=
  {| m_offset := None; m_timestamp := Some 100;
     m_order_book := Some {| ob_offset := Some 5; ob_bids := Some []; ob_asks := Some [] |} |}.

Definition after_snapshot_empty : State :=
  receive Number (initial (Some 1)) [(1000, SubscribedOrderBook snapshot_empty)].





(** A gateway with one signing key, 0, whose next nonce is 7, and
    collaborators that sign and convert everything; the submission is
    given.  [world7] is the gateway after its initialisation, [fresh7] the
    gateway as its constructor leaves it. *)
Definition nonces7 : NonceManager.NonceState :=
  {| NonceManager.counters := [(0, 7)]; NonceManager.cursor := 0 |}.

Definition world7 : Facade.World unit NonceManager.NonceState :=
  {| Facade.nonces := nonces7; Facade.auth_token := None;
     Facade.auth_expiresAt := 0; Facade.gateway := Gateway.initial (Some 1);
     Facade.loggedCreateOrderPayload := false;
     Facade.calls := []; Facade.emitted := [];
     Facade.initialized := true; Facade.connectPromise := Some (Ok tt);
     Facade.priceDecimals := Some 2; Facade.sizeDecimals := Some 4;
     Facade.ws := Some Facade.OPEN; Facade.heartbeatTimer := true;
     Facade.lastMessageAt := 900; Facade.tickerPoller := true |}.

Definition fresh7 : Facade.World unit NonceManager.NonceState :=
  {| Facade.nonces := nonces7; Facade.auth_token := None;
     Facade.auth_expiresAt := 0; Facade.gateway := Gateway.initial None;
     Facade.loggedCreateOrderPayload := false;
     Facade.calls := []; Facade.emitted := [];
     Facade.initialized := false; Facade.connectPromise := None;
     Facade.priceDecimals := None; Facade.sizeDecimals := None;
     Facade.ws := None; Facade.heartbeatTimer := false;
     Facade.lastMessageAt := 0; Facade.tickerPoller := false |}.

Definition signed7 : Facade.SignedTx :=
  {| Facade.txType := 14; Facade.txInfo := "tx" |}.

(** The market BTC, with the id 1, as the exchange lists it. *)
Definition books7 : list Facade.OrderBookMetadata :=
  [{| Facade.book_symbol := Some "BTC"; Facade.book_market_id := 1;
      Facade.supported_price_decimals := 2; Facade.supported_size_decimals := 4 |}].

(** The exchange lists the market and knows the account, the socket
    opens, and the nonce manager finds its counters in order. *)
Definition invoke7 (sendTransaction : Facade.SignedTx -> string -> result string)
           (op : Facade.Operation unit) (w : Facade.World unit NonceManager.NonceState)
  : result unit * Facade.World unit NonceManager.NonceState :=
  @Facade.invoke unit unit unit NonceManager.NonceState
    NonceManager.next NonceManager.acknowledgeFailure (fun s => (Ok tt, s))
    (Ok books7) (fun _ _ => Ok true) Facade.Opens
    (fun _ _ _ => Ok tt) (fun _ => Ok signed7) (fun _ => Ok "auth"%string)
    sendTransaction (fun _ _ => Ok tt) 0 (fun s => s) "BTC" None false 1000 op w.

Definition send_fails (tx : Facade.SignedTx) (auth : string) : result string :=
  Throw (ExternalFailure "network").

Definition send_succeeds (tx : Facade.SignedTx) (auth : string) : result string :=
  Ok "ok"%string.

End Samples.

Unset Implicit Arguments.

(** * The rate-limit controller *)

Section RateLimitFacts.

Import RateLimit RateLimitProps.
Local Open Scope Z_scope.

Lemma suppressEntries_fields (c : RateLimitController) :
  entriesSuppressed (suppressEntries c) = true
  /\ state (suppressEntries c) = state c
  /\ pausedUntil (suppressEntries c) = pausedUntil c
  /\ baseInterval (suppressEntries c) = baseInterval c
  /\ pauseMs (suppressEntries c) = pauseMs c
  /\ recoveryMs (suppressEntries c) = recoveryMs c
  /\ lastCycleAt (suppressEntries c) = lastCycleAt c
  /\ lastRateLimitAt (suppressEntries c) = lastRateLimitAt c.
Proof.
  unfold suppressEntries.
  destruct (entriesSuppressed c) eqn:E; simpl; repeat split; auto.
Qed.

Lemma beforeCycle_enforces (t : Z) (k : RateLimitController) : enforced_interval t k.
Proof.
  unfold enforced_interval, beforeCycle, checkInterval, currentInterval.
  destruct (state k) eqn:Hk; simpl; auto.
  - destruct (Z.ltb_spec (t - lastCycleAt k) (baseInterval k * 2)); simpl; lia.
  - destruct (pausedUntil k) as [d|] eqn:Hp; simpl; auto.
    destruct (Z.leb_spec d t); simpl; try lia.
    destruct (Z.ltb_spec (t - lastCycleAt k) (baseInterval k * 2)); simpl;
      (split; [lia | exists d; split; [reflexivity | lia]]).
Qed.

Lemma beforeCycle_paces (t : Z) (k : RateLimitController) : paces t k.
Proof.
  unfold paces, beforeCycle, checkInterval, currentInterval.
  destruct (state k) eqn:Hk; cbn [fst snd].
  - destruct (Z.ltb_spec (t - lastCycleAt k) (baseInterval k)); cbn; [reflexivity|].
    rewrite Hk. repeat split. intros t' H'. apply Z.ltb_lt in H'. now rewrite H'.
  - destruct (Z.ltb_spec (t - lastCycleAt k) (baseInterval k * 2)); cbn; [reflexivity|].
    rewrite Hk. repeat split. intros t' H'. apply Z.ltb_lt in H'. now rewrite H'.
  - destruct (pausedUntil k) as [d|] eqn:Hp; cbn; [|now rewrite Hk].
    destruct (Z.leb_spec d t); cbn; [|now rewrite Hk].
    destruct (Z.ltb_spec (t - lastCycleAt k) (baseInterval k * 2)); cbn; [reflexivity|].
    repeat split. intros t' H'. apply Z.ltb_lt in H'. now rewrite H'.
Qed.

(** C9. Every call of [registerRateLimit] at time [now]: from [normal] the
    controller becomes [degraded]; from [degraded] it becomes [paused] with
    the deadline [now + pauseMs]; when already [paused] the deadline is
    moved to [now + pauseMs]; in each case new entries are suppressed
    afterwards and the call is recorded as the last rate limit.  A call in
    the state [normal] also restarts the cycle clock at [now]; the other
    calls leave it.  The interval in force after the call is twice the
    base interval, and in the states [degraded] and [paused] that doubled
    interval is what [beforeCycle] enforces: it lets a cycle run only when
    twice the base interval has passed since the last recorded one, and it
    records every cycle it lets run, so that until the interval in force
    has passed again (twice the base interval unless the state is
    [normal]) every further call answers [skip]. *)
Theorem registerRateLimit_transitions (now : Z) (c : RateLimitController) :
  let c' := registerRateLimit now c in
  match state c with
  | normal =>
      state c' = degraded /\ pausedUntil c' = pausedUntil c /\ lastCycleAt c' = now
  | degraded =>
      state c' = paused /\ pausedUntil c' = Some (now + pauseMs c)
      /\ lastCycleAt c' = lastCycleAt c
  | paused =>
      state c' = paused /\ pausedUntil c' = Some (now + pauseMs c)
      /\ lastCycleAt c' = lastCycleAt c
  end
  /\ lastRateLimitAt c' = now
  /\ entriesSuppressed c' = true
  /\ shouldBlockEntries c' = true
  /\ pauseMs c' = pauseMs c
  /\ recoveryMs c' = recoveryMs c
  /\ baseInterval c' = baseInterval c
  /\ currentInterval c' = baseInterval c * 2
  /\ (forall (t : Z) (k : RateLimitController), enforced_interval t k)
  /\ (forall (t : Z) (k : RateLimitController), paces t k).
Proof.
  intros c'. subst c'. unfold registerRateLimit.
  destruct (state c) eqn:Hs; simpl; rewrite Hs; simpl;
    match goal with
    | |- context [suppressEntries ?x] =>
        destruct (suppressEntries_fields x) as (H1 & H2 & H3 & H4 & H5 & H6 & H7 & H8)
    end; unfold shouldBlockEntries, currentInterval;
    rewrite ?H1, ?H2, ?H3, ?H4, ?H5, ?H6, ?H7, ?H8; simpl.
  all: repeat split; rewrite ?Hs; auto using beforeCycle_enforces, beforeCycle_paces.
Qed.

(** The pause length is the configured one, thirty seconds by default. *)
Lemma make_pauseMs (base : Z) (p r : option Z) :
  pauseMs (make base p r) = match p with Some x => x | None => 30000 end
  /\ state (make base p r) = normal.
Proof. destruct p; split; reflexivity. Qed.

(** Scenario D of the specification: two hits in a row pause the
    controller; once the pause is over a cycle runs again, and entries
    resume after the recovery window. *)
Example scenario_D :
  let c0 := make 1000 None None in
  let c1 := registerRateLimit 5000 c0 in
  let c2 := registerRateLimit 6000 c1 in
  let '(r3, c3) := beforeCycle 20000 c2 in
  let '(r4, c4) := beforeCycle 36000 c3 in
  let c5 := onCycleComplete 36500 false c4 in
  let '(r6, c6) := beforeCycle 66000 c5 in
  let c7 := onCycleComplete 66500 false c6 in
  state c1 = degraded /\ state c2 = paused /\ pausedUntil c2 = Some 36000
  /\ r3 = stay_paused /\ r4 = run /\ state c4 = degraded
  /\ shouldBlockEntries c5 = true
  /\ r6 = run /\ state c7 = normal /\ shouldBlockEntries c7 = false.
Proof. vm_compute. repeat split; reflexivity. Qed.

End RateLimitFacts.

(** * The insertion-ordered map *)

Section JsMapFacts.

Variables (K V : Type) (eqb : K -> K -> bool).
Hypothesis eqb_spec : forall a b, reflect (a = b) (eqb a b).

Lemma eqb_refl (k : K) : eqb k k = true.
Proof. destruct (eqb_spec k k); congruence. Qed.

Lemma eqb_neq (a b : K) : a <> b -> eqb a b = false.
Proof. destruct (eqb_spec a b); congruence. Qed.

Lemma get_set_same (k : K) (v : V) (m : JsMap.t K V) :
    JsMap.get eqb k (JsMap.set eqb k v m) = Some v.
Proof.
    induction m as [|[k' v'] m IH]; simpl.
    - now rewrite eqb_refl.
    - destruct (eqb_spec k k') as [->|Hn]; simpl.
      + now rewrite eqb_refl.
      + now rewrite (eqb_neq _ _ Hn).
Qed.

Lemma get_set_other (k k' : K) (v : V) (m : JsMap.t K V) :
    k <> k' -> JsMap.get eqb k (JsMap.set eqb k' v m) = JsMap.get eqb k m.
Proof.
    intros Hn. induction m as [|[k0 v0] m IH]; simpl.
    - now rewrite (eqb_neq _ _ Hn).
    - destruct (eqb_spec k' k0) as [->|Hn0]; simpl.
      + now rewrite (eqb_neq _ _ Hn).
      + destruct (eqb k k0); auto.
Qed.

Lemma get_delete_same (k : K) (m : JsMap.t K V) :
    JsMap.get eqb k (JsMap.delete eqb k m) = None.
Proof.
    induction m as [|[k' v'] m IH]; simpl; auto.
    destruct (eqb_spec k k') as [->|Hn]; simpl; auto.
    now rewrite (eqb_neq _ _ Hn).
Qed.

Lemma get_delete_other (k k' : K) (m : JsMap.t K V) :
    k <> k' -> JsMap.get eqb k (JsMap.delete eqb k' m) = JsMap.get eqb k m.
Proof.
    intros Hn. induction m as [|[k0 v0] m IH]; simpl; auto.
    destruct (eqb_spec k' k0) as [->|Hn0]; simpl.
    - now rewrite (eqb_neq _ _ Hn).
    - destruct (eqb k k0); auto.
Qed.

Lemma get_In (k : K) (v : V) (m : JsMap.t K V) :
    JsMap.get eqb k m = Some v -> In (k, v) m.
Proof.
    induction m as [|[k' v'] m IH]; simpl; [discriminate|].
    destruct (eqb_spec k k') as [->|Hn]; intros H.
    - left. congruence.
    - right. auto.
Qed.

Lemma get_None_keys (k : K) (m : JsMap.t K V) :
    JsMap.get eqb k m = None <-> ~ In k (JsMap.keys m).
Proof.
    induction m as [|[k' v'] m IH]; simpl.
    - tauto.
    - destruct (eqb_spec k k') as [->|Hn].
      + split; [discriminate | intros H; exfalso; apply H; now left].
      + rewrite IH. split; intros H.
        * intros [E|E]; [congruence | auto].
        * intros E. apply H. now right.
Qed.

Lemma In_set (k k' : K) (v v' : V) (m : JsMap.t K V) :
    In (k', v') (JsMap.set eqb k v m) -> (k' = k /\ v' = v) \/ In (k', v') m.
Proof.
    induction m as [|[k0 v0] m IH]; simpl.
    - intros [E|[]]. left. split; congruence.
    - destruct (eqb_spec k k0) as [->|Hn]; simpl.
      + intros [E|H]; [left; split; congruence | right; now right].
      + intros [E|H]; [right; now left|].
        destruct (IH H) as [L|R]; [now left | right; now right].
Qed.

Lemma In_delete (k : K) (e : K * V) (m : JsMap.t K V) :
    In e (JsMap.delete eqb k m) <-> In e m /\ fst e <> k.
Proof.
    unfold JsMap.delete. rewrite filter_In, negb_true_iff.
    destruct (eqb_spec k (fst e)); intuition congruence.
Qed.

Lemma keys_set (k : K) (v : V) (m : JsMap.t K V) :
    forall x, In x (JsMap.keys (JsMap.set eqb k v m)) <-> x = k \/ In x (JsMap.keys m).
Proof.
    intros x. induction m as [|[k0 v0] m IH]; simpl.
    - intuition.
    - destruct (eqb_spec k k0) as [->|Hn]; simpl.
      + intuition.
      + rewrite IH. intuition.
Qed.

Lemma NoDup_set (k : K) (v : V) (m : JsMap.t K V) :
    NoDup (JsMap.keys m) -> NoDup (JsMap.keys (JsMap.set eqb k v m)).
Proof.
    induction m as [|[k0 v0] m IH]; simpl; intros Hnd.
    - constructor; [tauto | constructor].
    - inversion Hnd as [|? ? Hnotin Hrest]; subst.
      destruct (eqb_spec k k0) as [->|Hn]; simpl.
      + constructor; assumption.
      + constructor; [|now apply IH].
        fold (JsMap.keys (JsMap.set eqb k v m)). rewrite keys_set.
        intros [E|E]; [congruence | contradiction].
Qed.

Lemma NoDup_delete (k : K) (m : JsMap.t K V) :
    NoDup (JsMap.keys m) -> NoDup (JsMap.keys (JsMap.delete eqb k m)).
Proof.
    induction m as [|[k0 v0] m IH]; simpl; intros Hnd; [constructor|].
    inversion Hnd as [|? ? Hnotin Hrest]; subst.
    destruct (eqb k k0); simpl; [now apply IH|].
    constructor; [|now apply IH].
    intros Hin. apply Hnotin. unfold JsMap.keys, JsMap.delete in Hin.
    apply in_map_iff in Hin. destruct Hin as [e [E Hin]].
    apply filter_In in Hin. apply in_map_iff. exists e. tauto.
Qed.

Lemma In_get (k : K) (v : V) (m : JsMap.t K V) :
    NoDup (JsMap.keys m) -> In (k, v) m -> JsMap.get eqb k m = Some v.
Proof.
    induction m as [|[k0 v0] m IH]; simpl; intros Hnd Hin; [contradiction|].
    inversion Hnd as [|? ? Hnotin Hrest]; subst.
    destruct Hin as [E|Hin].
    - inversion E; subst. now rewrite eqb_refl.
    - destruct (eqb_spec k k0) as [->|Hn]; [|now apply IH].
      exfalso. apply Hnotin. apply in_map_iff. exists (k0, v). auto.
Qed.

End JsMapFacts.

(** * Orders *)

Section OrderFacts.

Import Gateway GatewayProps.

Lemma string_eqb_spec (a b : string) : reflect (a = b) (String.eqb a b).
Proof. apply String.eqb_spec. Qed.

Lemma mergeOrder_other (acc : OrderMap) (o : LighterOrder) (key : string) :
  order_key o <> key ->
  JsMap.get String.eqb key (mergeOrder acc o) = JsMap.get String.eqb key acc.
Proof.
  intros Hn. unfold mergeOrder.
  destruct (String.eqb (order_key o) EmptyString); auto.
  destruct (set_has terminalStatuses (order_status o)).
  - apply (get_delete_other _ _ String.eqb string_eqb_spec). congruence.
  - apply (get_set_other _ _ String.eqb string_eqb_spec). congruence.
Qed.

Lemma mergeOrder_same (acc : OrderMap) (o : LighterOrder) :
  order_key o <> EmptyString ->
  JsMap.get String.eqb (order_key o) (mergeOrder acc o)
  = if code_terminal (order_status o) then None else Some o.
Proof.
  intros Hn. unfold mergeOrder, code_terminal.
  destruct (string_eqb_spec (order_key o) EmptyString) as [E|_]; [congruence|].
  destruct (set_has terminalStatuses (order_status o)).
  - apply (get_delete_same _ _ String.eqb string_eqb_spec).
  - apply (get_set_same _ _ String.eqb string_eqb_spec).
Qed.

(** Last write wins: after a run of updates the map holds, for each key,
    what the most recent update for that key says. *)
Lemma merge_last_update (os : list LighterOrder) (acc : OrderMap) (key : string) :
  key <> EmptyString ->
  JsMap.get String.eqb key (fold_left mergeOrder os acc)
  = match last_update key os with
    | Some o => if code_terminal (order_status o) then None else Some o
    | None => JsMap.get String.eqb key acc
    end.
Proof.
  intros Hk. revert acc.
  induction os as [|o os IH] using rev_ind; intros acc.
  - reflexivity.
  - rewrite fold_left_app. simpl. unfold last_update. rewrite rev_app_distr. simpl.
    destruct (string_eqb_spec (order_key o) key) as [E|Hn].
    + subst key. now apply mergeOrder_same.
    + rewrite mergeOrder_other by exact Hn. apply IH.
Qed.

Lemma receive_orderMap (Number : string -> JsValue.num) (inbox : list (Z * Message))
      (g : State) :
  orderMap (receive Number g inbox)
  = fold_left mergeOrder (order_updates inbox) (orderMap g).
Proof.
  revert g. induction inbox as [|[now msg] inbox IH]; intros g; [reflexivity|].
  unfold receive, order_updates in *. simpl. rewrite fold_left_app, IH. f_equal.
  destruct msg as [|m|m|m|m|m|]; simpl; auto.
  - unfold handleOrderBookSnapshot.
    destruct (m_order_book m); auto.
    destruct (staleOffset g m); auto. destruct (staleTimestamp g m); auto.
  - unfold handleOrderBookUpdate.
    destruct (orderBook g); auto.
    destruct (staleOffset g m); auto. destruct (staleTimestamp g m); auto.
    destruct (m_order_book m); auto.
  - unfold handleAccountAll. destruct (a_positions m); auto.
  - unfold handleAccountMarket. destruct (am_position m) as [p|]; auto.
    destruct (p_market_id p); auto.
  - unfold handleAccountOrders. destruct (unreadable m); reflexivity.
Qed.

(** What [handleAccountOrders] guarantees for the statuses it knows as
    terminal ([filled], [canceled], [cancelled], [expired], in any letter
    case): over any run of messages, an order whose most recent update
    carries one of them is not in the live-order map, whatever came
    before. *)
Lemma known_terminal_order_absent (Number : string -> JsValue.num)
      (inbox : list (Z * Message)) (g : State) (key : string) (o : LighterOrder) :
  key <> EmptyString ->
  last_update key (order_updates inbox) = Some o ->
  code_terminal (order_status o) = true ->
  JsMap.get String.eqb key (orderMap (receive Number g inbox)) = None.
Proof.
  intros Hk Hl Ht. rewrite receive_orderMap, merge_last_update by exact Hk. rewrite Hl, Ht.
  reflexivity.
Qed.

(** C2, at the failing input.  An update with status [rejected], a
    terminal status of the specification, is the only and so the most
    recent update for order 7; after [handleAccountOrders] the order is in
    the live-order map and in the list handed to the listeners. *)
Theorem rejected_order_stays_live :
  let order := {| order_index := Some "7"%string; order_id := None;
                  client_order_index := None; status := Some "rejected"%string;
                  o_rest := EmptyString |} in
  let message := {| ao_orders := [OrderArray [order]] |} in
  let result := handleAccountOrders message (initial (Some 1%Z)) in
  spec_terminal (order_status order) = true
  /\ last_update "7"%string (allOrders message) = Some order
  /\ JsMap.get String.eqb "7"%string (orderMap (fst result)) = Some order
  /\ snd result = [EmitOrders [order]].
Proof. vm_compute. repeat split; reflexivity. Qed.

End OrderFacts.

(** * Order book: stale messages and depth *)

Section OrderBookFacts.

Import Gateway GatewayProps.
Local Open Scope Z_scope.

Variable Number : string -> JsValue.num.

Lemma stale_guards (g : State) (m : OrderBookMessage) :
  stale g m <-> staleOffset g m || staleTimestamp g m = true.
Proof.
  unfold stale, staleOffset, staleTimestamp, truthy.
  rewrite orb_true_iff, !andb_true_iff, !negb_true_iff, !Z.eqb_neq,
    Z.ltb_lt, Z.leb_le, Z.eqb_eq.
  tauto.
Qed.

Lemma sortAndTrimLevels_length (levels : list LighterOrderBookLevel) (side : Side) :
  (List.length (sortAndTrimLevels Number levels side DEFAULT_DEPTH_LIMIT) <= 200)%nat.
Proof.
  unfold sortAndTrimLevels, DEFAULT_DEPTH_LIMIT.
  rewrite length_firstn. change (Z.to_nat (Z.max 1 200)) with 200%nat. lia.
Qed.

Lemma handleOrderBookSnapshot_depth (now : Z) (m : OrderBookMessage) (g : State) :
  book_depth_within 200 g ->
  book_depth_within 200 (fst (handleOrderBookSnapshot Number now m g)).
Proof.
  intros Hg. unfold handleOrderBookSnapshot.
  destruct (m_order_book m) as [ob|]; auto.
  destruct (staleOffset g m); auto. destruct (staleTimestamp g m); auto.
  simpl. split; apply sortAndTrimLevels_length.
Qed.

Lemma handleOrderBookUpdate_depth (now : Z) (m : OrderBookMessage) (g : State) :
  book_depth_within 200 g ->
  book_depth_within 200 (fst (handleOrderBookUpdate Number now m g)).
Proof.
  intros Hg. unfold handleOrderBookUpdate.
  destruct (orderBook g) as [book|] eqn:Hb; auto.
  destruct (staleOffset g m); auto. destruct (staleTimestamp g m); auto.
  destruct (m_order_book m) as [ob|]; auto.
  unfold book_depth_within in Hg. rewrite Hb in Hg. destruct Hg as [Hbids Hasks].
  simpl. split; simpl.
  - destruct (ob_bids ob); auto using sortAndTrimLevels_length.
  - destruct (ob_asks ob); auto using sortAndTrimLevels_length.
Qed.

Lemma handleMessage_orderBook_other (now : Z) (msg : Message) (g : State) :
  match msg with
  | SubscribedOrderBook _ | UpdateOrderBook _ => True
  | _ => orderBook (fst (handleMessage Number now msg g)) = orderBook g
  end.
Proof.
  destruct msg as [|m|m|m|m|m|]; simpl; auto.
  - unfold handleAccountAll. destruct (a_positions m); auto.
  - unfold handleAccountMarket. destruct (am_position m) as [p|]; auto.
    destruct (p_market_id p); auto.
  - unfold handleAccountOrders. destruct (unreadable m); reflexivity.
Qed.

Lemma handleMessage_depth (now : Z) (msg : Message) (g : State) :
  book_depth_within 200 g ->
  book_depth_within 200 (fst (handleMessage Number now msg g)).
Proof.
  intros Hg.
  pose proof (handleMessage_orderBook_other now msg g) as Ho.
  destruct msg as [|m|m|m|m|m|];
    try (unfold book_depth_within in *; rewrite Ho; exact Hg).
  - now apply handleOrderBookSnapshot_depth.
  - now apply handleOrderBookUpdate_depth.
Qed.

(** What is handed to the depth listeners is the stored book. *)
Lemma handleMessage_emits_stored (now : Z) (msg : Message) (g : State)
      (book : LighterOrderBookSnapshot) :
  In (EmitDepth book) (snd (handleMessage Number now msg g)) ->
  orderBook (fst (handleMessage Number now msg g)) = Some book.
Proof.
  destruct msg as [|m|m|m|m|m|]; simpl; try tauto.
  - unfold handleOrderBookSnapshot.
    destruct (m_order_book m) as [ob|]; simpl; try tauto.
    destruct (staleOffset g m); simpl; try tauto.
    destruct (staleTimestamp g m); simpl; try tauto.
    unfold emitDepth. simpl. destruct (marketId g); simpl; [|tauto].
    intros [E|[]]. congruence.
  - unfold handleOrderBookUpdate.
    destruct (orderBook g) as [b|]; simpl; try tauto.
    destruct (staleOffset g m); simpl; try tauto.
    destruct (staleTimestamp g m); simpl; try tauto.
    destruct (m_order_book m) as [ob|]; simpl; try tauto.
    unfold emitDepth. simpl. destruct (marketId g); simpl; [|tauto].
    intros [E|[]]. congruence.
  - unfold handleAccountAll, emitAccount.
    destruct (a_positions m); simpl;
      match goal with |- context [if ?b then _ else _] => destruct b end;
      simpl; intuition discriminate.
  - unfold handleAccountMarket, emitAccount.
    destruct (am_position m) as [p|]; simpl; try tauto.
    destruct (p_market_id p); simpl; try tauto.
    destruct (accountDetails g); simpl; intuition discriminate.
  - unfold handleAccountOrders. destruct (unreadable m); simpl; intuition discriminate.
Qed.

Lemma receive_app (g : State) (inbox inbox' : list (Z * Message)) :
  receive Number g (inbox ++ inbox') = receive Number (receive Number g inbox) inbox'.
Proof. unfold receive. apply fold_left_app. Qed.

Lemma receive_depth (g : State) (inbox : list (Z * Message)) :
  book_depth_within 200 g -> book_depth_within 200 (receive Number g inbox).
Proof.
  revert g. induction inbox as [|[now msg] inbox IH]; intros g Hg; auto.
  apply IH. now apply handleMessage_depth.
Qed.


End OrderBookFacts.

(** C10.  From the state the constructor leaves, after every run of stream
    messages each side of the stored order book has at most 200 levels,
    and so has every book a further message hands to the depth
    listeners. *)
Theorem book_depth_at_most_200 (Number : string -> JsValue.num) (marketId : option Z)
        (inbox : list (Z * Gateway.Message)) (now : Z) (msg : Gateway.Message) :
  let g := Gateway.receive Number (Gateway.initial marketId) inbox in
  GatewayProps.book_depth_within 200 g
  /\ forall book, In (Gateway.EmitDepth book)
                     (snd (Gateway.handleMessage Number now msg g)) ->
                  GatewayProps.depth_within 200 book.
Proof.
  intros g.
  assert (Hg : GatewayProps.book_depth_within 200 g).
  { apply receive_depth. exact I. }
  split; [exact Hg|].
  intros book Hin. apply handleMessage_emits_stored in Hin.
  pose proof (handleMessage_depth Number now msg g Hg) as Hd.
  unfold GatewayProps.book_depth_within in Hd. now rewrite Hin in Hd.
Qed.



(** * Positions *)

Section PositionFacts.

Import Gateway GatewayProps.
Local Open Scope Z_scope.

Lemma Z_eqb_spec (a b : Z) : reflect (a = b) (Z.eqb a b).
Proof. apply Z.eqb_spec. Qed.


Lemma same_market_iff (k : Z) (q : LighterPosition) :
  same_market k q = true <-> p_market_id q = Some k.
Proof.
  unfold same_market. destruct (p_market_id q) as [mid|].
  - rewrite Z.eqb_eq. split; congruence.
  - split; discriminate.
Qed.

Lemma well_keyed_set (k : Z) (p : LighterPosition) (m : PositionMap) :
  p_market_id p = Some k -> well_keyed m -> well_keyed (JsMap.set Z.eqb k p m).
Proof.
  intros Hk [Hnd Hkey]. split.
  - now apply (NoDup_set _ _ Z.eqb Z_eqb_spec).
  - intros k' p' Hin. apply (In_set _ _ Z.eqb Z_eqb_spec) in Hin.
    destruct Hin as [[-> ->]|Hin]; auto.
Qed.

Lemma well_keyed_delete (k : Z) (m : PositionMap) :
  well_keyed m -> well_keyed (JsMap.delete Z.eqb k m).
Proof.
  intros [Hnd Hkey]. split.
  - now apply NoDup_delete.
  - intros k' p' Hin. apply (In_delete _ _ Z.eqb Z_eqb_spec) in Hin. apply Hkey, Hin.
Qed.

Lemma well_keyed_index (ps : list LighterPosition) (m : PositionMap) :
  well_keyed m -> well_keyed (fold_left indexPosition ps m).
Proof.
  revert m. induction ps as [|p ps IH]; intros m Hm; simpl; auto.
  apply IH. unfold indexPosition. destruct (p_market_id p) eqn:E; auto.
  now apply well_keyed_set.
Qed.

Lemma well_keyed_merge (ps : list LighterPosition) (m : PositionMap) :
  well_keyed m -> well_keyed (fold_left mergePosition ps m).
Proof.
  revert m. induction ps as [|p ps IH]; intros m Hm; simpl; auto.
  apply IH. unfold mergePosition. destruct (p_market_id p) eqn:E; auto.
  destruct (shouldRemove p).
  - now apply well_keyed_delete.
  - now apply well_keyed_set.
Qed.





Lemma well_keyed_empty : well_keyed (JsMap.empty Z LighterPosition).
Proof. split; [constructor | intros k p []]. Qed.






End PositionFacts.



(** * Lists *)

Section ListFacts.

Variable A : Type.

Lemma firstn_incl (n : nat) (l : list A) (x : A) : In x (firstn n l) -> In x l.
Proof.
  intros H. rewrite <- (firstn_skipn n l). apply in_or_app. now left.
Qed.

Lemma skipn_incl (n : nat) (l : list A) (x : A) : In x (skipn n l) -> In x l.
Proof.
  intros H. rewrite <- (firstn_skipn n l). apply in_or_app. now right.
Qed.

Lemma NoDup_map_eq (B : Type) (f : A -> B) (l : list A) (x y : A) :
  NoDup (map f l) -> In x l -> In y l -> f x = f y -> x = y.
Proof.
  induction l as [|a l IH]; simpl; intros Hnd Hx Hy E; [contradiction|].
  inversion Hnd as [|? ? Hnotin Hrest]; subst.
  destruct Hx as [->|Hx]; destruct Hy as [->|Hy]; auto.
  - exfalso. apply Hnotin. rewrite E. now apply in_map.
  - exfalso. apply Hnotin. rewrite <- E. now apply in_map.
Qed.

End ListFacts.

(** * Sorting the levels *)

Section SortFacts.

Import Gateway GatewayProps.

Variable Number : string -> JsValue.num.
Variable side : Side.

Let cmp := compareLevels Number side.
Let before := stands_before Number side.

Lemma insert_In (x a : LighterOrderBookLevel) (l : list LighterOrderBookLevel) :
  In x (insert cmp a l) <-> x = a \/ In x l.
Proof.
  induction l as [|y l IH]; simpl; [intuition|].
  destruct (cmp a y); simpl; try rewrite IH; intuition.
Qed.

Lemma insert_perm (a : LighterOrderBookLevel) (l : list LighterOrderBookLevel) :
  Permutation (insert cmp a l) (a :: l).
Proof.
  induction l as [|y l IH]; simpl; auto.
  destruct (cmp a y); auto.
  rewrite IH. apply perm_swap.
Qed.

Lemma sort_perm (l : list LighterOrderBookLevel) : Permutation (sort cmp l) l.
Proof.
  induction l as [|a l IH]; simpl; auto.
  rewrite insert_perm. now constructor.
Qed.

Lemma sort_In (x : LighterOrderBookLevel) (l : list LighterOrderBookLevel) :
  In x (sort cmp l) <-> In x l.
Proof.
  split; apply Permutation_in; [|symmetry]; apply sort_perm.
Qed.

Lemma finite_price (a : LighterOrderBookLevel) :
  JsValue.isFinite (Number (price a)) = true -> exists q, Number (price a) = JsValue.VFin q.
Proof. destruct (Number (price a)); try discriminate. eauto. Qed.

(** On finite prices the comparison function and the order agree. *)
Lemma before_cmp (a b : LighterOrderBookLevel) :
  JsValue.isFinite (Number (price a)) = true ->
  JsValue.isFinite (Number (price b)) = true ->
  (before a b <-> cmp a b <> Gt).
Proof.
  intros Ha Hb. destruct (finite_price a Ha) as [pa Ea]. destruct (finite_price b Hb) as [pb Eb].
  unfold before, stands_before, cmp, compareLevels. rewrite Ea, Eb.
  destruct side; rewrite Qle_alt; tauto.
Qed.

Lemma before_total (a b : LighterOrderBookLevel) :
  JsValue.isFinite (Number (price a)) = true ->
  JsValue.isFinite (Number (price b)) = true ->
  cmp a b = Gt -> before b a.
Proof.
  intros Ha Hb. destruct (finite_price a Ha) as [pa Ea]. destruct (finite_price b Hb) as [pb Eb].
  unfold before, stands_before, cmp, compareLevels. rewrite Ea, Eb.
  destruct side; intros H; apply Qlt_le_weak; now rewrite Qgt_alt.
Qed.

Lemma before_trans (a b c : LighterOrderBookLevel) :
  before a b -> before b c -> before a c.
Proof.
  unfold before, stands_before.
  destruct (Number (price a)); try tauto.
  destruct (Number (price b)); try tauto.
  destruct (Number (price c)); try tauto.
  destruct side; intros H1 H2; eapply Qle_trans; eassumption.
Qed.

Lemma insert_sorted (a : LighterOrderBookLevel) (l : list LighterOrderBookLevel) :
  JsValue.isFinite (Number (price a)) = true ->
  finite_prices Number l ->
  StronglySorted before l -> StronglySorted before (insert cmp a l).
Proof.
  intros Ha Hf Hs. induction Hs as [|y l Hs IH Hall]; simpl.
  - repeat constructor.
  - inversion Hf as [|? ? Hy Hf']; subst.
    destruct (cmp a y) eqn:E.
    + constructor; [now constructor|].
      assert (Hay : before a y) by (apply before_cmp; auto; congruence).
      constructor; auto.
      eapply Forall_impl; [|exact Hall]. intros z Hz. eapply before_trans; eassumption.
    + constructor; [now constructor|].
      assert (Hay : before a y) by (apply before_cmp; auto; congruence).
      constructor; auto.
      eapply Forall_impl; [|exact Hall]. intros z Hz. eapply before_trans; eassumption.
    + constructor; [now apply IH|].
      apply Forall_forall. intros z Hz. apply insert_In in Hz.
      destruct Hz as [->|Hz]; [now apply before_total|].
      rewrite Forall_forall in Hall. now apply Hall.
Qed.

Lemma sort_finite (l : list LighterOrderBookLevel) :
  finite_prices Number l -> finite_prices Number (sort cmp l).
Proof.
  unfold finite_prices. rewrite !Forall_forall. intros H x Hx. apply H. now apply sort_In.
Qed.

Lemma sort_sorted (l : list LighterOrderBookLevel) :
  finite_prices Number l -> StronglySorted before (sort cmp l).
Proof.
  induction l as [|a l IH]; intros Hf; simpl; [constructor|].
  inversion Hf; subst. apply insert_sorted; auto. now apply sort_finite.
Qed.

Lemma firstn_sorted (n : nat) (l : list LighterOrderBookLevel) :
  StronglySorted before l -> StronglySorted before (firstn n l).
Proof.
  revert n. induction l as [|a l IH]; intros [|n] Hs; simpl; try constructor.
  - inversion Hs; subst. now apply IH.
  - inversion Hs as [|? ? ? Hall]; subst. rewrite Forall_forall in *.
    intros x Hx. apply Hall. eapply firstn_incl; eauto.
Qed.

Lemma firstn_finite (n : nat) (l : list LighterOrderBookLevel) :
  finite_prices Number l -> finite_prices Number (firstn n l).
Proof.
  unfold finite_prices. rewrite !Forall_forall. intros H x Hx. apply H.
  eapply firstn_incl; eauto.
Qed.

Lemma sortAndTrimLevels_sorted (l : list LighterOrderBookLevel) (limit : Z) :
  finite_prices Number l ->
  side_sorted Number side (sortAndTrimLevels Number l side limit).
Proof.
  intros Hf. unfold side_sorted, sortAndTrimLevels. now apply firstn_sorted, sort_sorted.
Qed.

Lemma sortAndTrimLevels_finite (l : list LighterOrderBookLevel) (limit : Z) :
  finite_prices Number l ->
  finite_prices Number (sortAndTrimLevels Number l side limit).
Proof.
  intros Hf. unfold sortAndTrimLevels. now apply firstn_finite, sort_finite.
Qed.

Lemma sortAndTrimLevels_In (x : LighterOrderBookLevel) (l : list LighterOrderBookLevel)
      (limit : Z) :
  In x (sortAndTrimLevels Number l side limit) -> In x l.
Proof.
  unfold sortAndTrimLevels. intros H. apply sort_In. eapply firstn_incl; eauto.
Qed.

(** A sorted list is left as it is. *)
Lemma insert_head (a : LighterOrderBookLevel) (l : list LighterOrderBookLevel) :
  match l with [] => True | y :: _ => cmp a y <> Gt end ->
  insert cmp a l = a :: l.
Proof.
  destruct l as [|y l]; simpl; auto.
  destruct (cmp a y); congruence.
Qed.

(** Sorting a sorted list followed by elements that may all stand after it
    keeps the sorted list in front. *)
Lemma sort_app_sorted (s r : list LighterOrderBookLevel) :
  finite_prices Number s -> finite_prices Number r ->
  StronglySorted before s ->
  (forall x y, In x s -> In y r -> before x y) ->
  sort cmp (s ++ r) = s ++ sort cmp r.
Proof.
  intros Hfs Hfr Hs Hsr. induction s as [|a s IH]; simpl; auto.
  inversion Hs as [|? ? Hs' Hall]; subst. inversion Hfs as [|? ? Ha Hfs']; subst.
  rewrite IH; auto; [|intros x y Hx Hy; apply Hsr; [now right | assumption]].
  apply insert_head.
  destruct s as [|y s]; simpl.
  - destruct (sort cmp r) as [|z r'] eqn:E; auto.
    assert (Hz : In z r) by (apply sort_In; rewrite E; now left).
    apply before_cmp; auto.
    + unfold finite_prices in Hfr. rewrite Forall_forall in Hfr. now apply Hfr.
    + apply Hsr; [now left | assumption].
  - inversion Hfs'; subst. inversion Hall; subst. apply before_cmp; auto.
Qed.

End SortFacts.

(** * Merging a delta into a side *)

Section MergeFacts.

Import Gateway GatewayProps.

Variable Number : string -> JsValue.num.

Lemma toLevel_pairOf (l : LighterOrderBookLevel) : toLevel (pairOf l) = l.
Proof. now destruct l. Qed.

Lemma pairOf_toLevel (e : string * string) : pairOf (toLevel e) = e.
Proof. now destruct e. Qed.

Lemma map_toLevel_pairOf (l : list LighterOrderBookLevel) : map toLevel (map pairOf l) = l.
Proof.
  rewrite map_map. rewrite <- (map_id l) at 2. apply map_ext. apply toLevel_pairOf.
Qed.

Lemma keys_toLevel (m : JsMap.t string string) : map price (map toLevel m) = JsMap.keys m.
Proof. unfold JsMap.keys. rewrite map_map. reflexivity. Qed.

Lemma keys_pairOf (l : list LighterOrderBookLevel) : JsMap.keys (map pairOf l) = map price l.
Proof. unfold JsMap.keys. rewrite map_map. reflexivity. Qed.

Lemma In_toLevel (l : LighterOrderBookLevel) (m : JsMap.t string string) :
  In l (map toLevel m) <-> In (pairOf l) m.
Proof.
  rewrite in_map_iff. split.
  - intros [e [E H]]. subst l. now rewrite pairOf_toLevel.
  - intros H. exists (pairOf l). split; [apply toLevel_pairOf | assumption].
Qed.

Lemma NoDup_setLevel (ls : list LighterOrderBookLevel) (m : JsMap.t string string) :
  NoDup (JsMap.keys m) -> NoDup (JsMap.keys (fold_left (setLevel) ls m)).
Proof.
  revert m. induction ls as [|l ls IH]; intros m Hm; simpl; auto.
  apply IH. now apply (NoDup_set _ _ String.eqb string_eqb_spec).
Qed.

Lemma NoDup_applyLevel (us : list LighterOrderBookLevel) (m : JsMap.t string string) :
  NoDup (JsMap.keys m) -> NoDup (JsMap.keys (fold_left (applyLevel Number) us m)).
Proof.
  revert m. induction us as [|u us IH]; intros m Hm; simpl; auto.
  apply IH. unfold applyLevel. destruct (JsValue.le_zero (Number (size u))).
  - now apply NoDup_delete.
  - now apply (NoDup_set _ _ String.eqb string_eqb_spec).
Qed.

Lemma mergeLevels_distinct (existing updates : list LighterOrderBookLevel) :
  distinct_prices (mergeLevels Number existing updates).
Proof.
  unfold distinct_prices, mergeLevels, JsMap.entries. rewrite keys_toLevel.
  apply NoDup_applyLevel, NoDup_setLevel. constructor.
Qed.

Lemma setLevel_get (ls : list LighterOrderBookLevel) (m : JsMap.t string string) (k : string) :
  JsMap.get String.eqb k (fold_left setLevel ls m)
  = match last_level k ls with
    | Some l => Some (size l)
    | None => JsMap.get String.eqb k m
    end.
Proof.
  revert m. induction ls as [|l ls IH] using rev_ind; intros m; [reflexivity|].
  rewrite fold_left_app. simpl. unfold last_level. rewrite rev_app_distr. simpl.
  unfold setLevel at 1.
  destruct (string_eqb_spec (price l) k) as [<-|Hn].
  - apply (get_set_same _ _ String.eqb string_eqb_spec).
  - rewrite (get_set_other _ _ String.eqb string_eqb_spec) by congruence. apply IH.
Qed.

Lemma applyLevel_get (us : list LighterOrderBookLevel) (m : JsMap.t string string) (k : string) :
  JsMap.get String.eqb k (fold_left (applyLevel Number) us m)
  = match last_level k us with
    | Some u => if JsValue.le_zero (Number (size u)) then None else Some (size u)
    | None => JsMap.get String.eqb k m
    end.
Proof.
  revert m. induction us as [|u us IH] using rev_ind; intros m; [reflexivity|].
  rewrite fold_left_app. simpl. unfold last_level. rewrite rev_app_distr. simpl.
  unfold applyLevel at 1.
  destruct (string_eqb_spec (price u) k) as [<-|Hn].
  - destruct (JsValue.le_zero (Number (size u))).
    + apply (get_delete_same _ _ String.eqb string_eqb_spec).
    + apply (get_set_same _ _ String.eqb string_eqb_spec).
  - destruct (JsValue.le_zero (Number (size u))).
    + rewrite (get_delete_other _ _ String.eqb string_eqb_spec) by congruence. apply IH.
    + rewrite (get_set_other _ _ String.eqb string_eqb_spec) by congruence. apply IH.
Qed.

Lemma last_level_some (k : string) (ls : list LighterOrderBookLevel) (l : LighterOrderBookLevel) :
  last_level k ls = Some l -> In l ls /\ price l = k.
Proof.
  unfold last_level. intros H. apply find_some in H. destruct H as [Hin E].
  split; [now apply in_rev | now apply String.eqb_eq].
Qed.

Lemma last_level_distinct (ls : list LighterOrderBookLevel) (l : LighterOrderBookLevel) :
  distinct_prices ls -> In l ls -> last_level (price l) ls = Some l.
Proof.
  intros Hd Hin. unfold last_level.
  destruct (find (fun u => String.eqb (price u) (price l)) (rev ls)) as [u|] eqn:E.
  - apply find_some in E. destruct E as [Hu Ep]. apply String.eqb_eq in Ep.
    f_equal. apply (NoDup_map_eq _ _ price ls); auto. now apply in_rev.
  - pose proof (find_none _ _ E l (proj1 (in_rev _ _) Hin)) as Hf. simpl in Hf.
    rewrite String.eqb_refl in Hf. discriminate.
Qed.

Lemma last_level_none (k : string) (ls : list LighterOrderBookLevel) :
  last_level k ls = None -> ~ In k (map price ls).
Proof.
  unfold last_level. intros H Hin. apply in_map_iff in Hin. destruct Hin as [l [E Hin]].
  pose proof (find_none _ _ H l (proj1 (in_rev _ _) Hin)) as Hf. simpl in Hf.
  rewrite E, String.eqb_refl in Hf. discriminate.
Qed.

(** The levels of a merge: for each price the last entry of the delta
    decides, and a price the delta does not list keeps what the book had. *)
Lemma mergeLevels_In (existing updates : list LighterOrderBookLevel)
      (l : LighterOrderBookLevel) :
  In l (mergeLevels Number existing updates)
  <-> match last_level (price l) updates with
      | Some u => JsValue.le_zero (Number (size u)) = false /\ size u = size l
      | None =>
          match last_level (price l) existing with
          | Some l0 => size l0 = size l
          | None => False
          end
      end.
Proof.
  unfold mergeLevels, JsMap.entries. rewrite In_toLevel.
  set (map0 := fold_left setLevel existing (JsMap.empty string string)).
  set (map1 := fold_left (applyLevel Number) updates map0).
  assert (Hnd : NoDup (JsMap.keys map1)).
  { apply NoDup_applyLevel, NoDup_setLevel. constructor. }
  assert (Hget : In (pairOf l) map1 <-> JsMap.get String.eqb (price l) map1 = Some (size l)).
  { split; [now apply (In_get _ _ String.eqb string_eqb_spec)
           | apply (get_In _ _ String.eqb string_eqb_spec)]. }
  rewrite Hget. unfold map1. rewrite applyLevel_get.
  destruct (last_level (price l) updates) as [u|].
  - destruct (JsValue.le_zero (Number (size u))).
    + split; [discriminate | intros [H _]; discriminate].
    + split; [intros H; split; congruence | intros [_ H]; congruence].
  - unfold map0. rewrite setLevel_get.
    destruct (last_level (price l) existing) as [l0|]; simpl.
    + split; congruence.
    + split; [discriminate | tauto].
Qed.

Lemma level_eq (a b : LighterOrderBookLevel) :
  price a = price b -> size a = size b -> a = b.
Proof. destruct a, b; simpl; congruence. Qed.

Lemma mergeLevels_origin (existing updates : list LighterOrderBookLevel)
      (l : LighterOrderBookLevel) :
  In l (mergeLevels Number existing updates) ->
  In l existing \/ (In l updates /\ JsValue.le_zero (Number (size l)) = false).
Proof.
  rewrite mergeLevels_In.
  destruct (last_level (price l) updates) as [u|] eqn:Eu.
  - intros [Hz Hs]. apply last_level_some in Eu. destruct Eu as [Hin Hp].
    assert (u = l) by now apply level_eq. subst u. now right.
  - destruct (last_level (price l) existing) as [l0|] eqn:El; [|tauto].
    intros Hs. apply last_level_some in El. destruct El as [Hin Hp].
    assert (l0 = l) by now apply level_eq. subst l0. now left.
Qed.

(** The merge rule: the last entry of the delta for a price removes the
    level when its size is zero or negative, and otherwise is the one
    level of that price. *)
Lemma mergeLevels_rule (existing updates : list LighterOrderBookLevel) (k : string)
      (u : LighterOrderBookLevel) :
  last_level k updates = Some u ->
  let merged := mergeLevels Number existing updates in
  if JsValue.le_zero (Number (size u))
  then forall l, In l merged -> price l <> k
  else In u merged /\ forall l, In l merged -> price l = k -> l = u.
Proof.
  intros Hl merged. subst merged.
  destruct (last_level_some _ _ _ Hl) as [Hin Hp].
  destruct (JsValue.le_zero (Number (size u))) eqn:Hz.
  - intros l Hl' E. apply mergeLevels_In in Hl'. rewrite E, Hl in Hl'.
    destruct Hl'; congruence.
  - split.
    + apply mergeLevels_In. rewrite Hp, Hl. auto.
    + intros l Hl' E. apply mergeLevels_In in Hl'. rewrite E, Hl in Hl'.
      symmetry. apply level_eq; [congruence | tauto].
Qed.

End MergeFacts.

Section JsMapMore.

Variables (K V : Type) (eqb : K -> K -> bool).
Hypothesis eqb_spec : forall a b, reflect (a = b) (eqb a b).

Lemma set_absent (k : K) (v : V) (m : JsMap.t K V) :
  ~ In k (JsMap.keys m) -> JsMap.set eqb k v m = m ++ [(k, v)].
Proof.
  induction m as [|[k0 v0] m IH]; simpl; intros Hn; auto.
  destruct (eqb_spec k k0) as [->|Hne]; [exfalso; apply Hn; now left|].
  f_equal. apply IH. intros H. apply Hn. now right.
Qed.

Lemma delete_absent (k : K) (m : JsMap.t K V) :
  ~ In k (JsMap.keys m) -> JsMap.delete eqb k m = m.
Proof.
  induction m as [|[k0 v0] m IH]; simpl; intros Hn; auto.
  destruct (eqb_spec k k0) as [->|Hne]; [exfalso; apply Hn; now left|].
  simpl. f_equal. apply IH. intros H. apply Hn. now right.
Qed.

Lemma set_present (k : K) (v : V) (m : JsMap.t K V) :
  JsMap.get eqb k m = Some v -> JsMap.set eqb k v m = m.
Proof.
  induction m as [|[k0 v0] m IH]; simpl; [discriminate|].
  destruct (eqb_spec k k0) as [->|Hne]; intros H.
  - congruence.
  - f_equal. now apply IH.
Qed.

Lemma get_app_l (k : K) (a b : JsMap.t K V) :
  In k (JsMap.keys a) -> JsMap.get eqb k (a ++ b) = JsMap.get eqb k a.
Proof.
  induction a as [|[k0 v0] a IH]; simpl; [tauto|].
  destruct (eqb_spec k k0) as [->|Hne]; auto.
  intros [E|H]; [congruence | now apply IH].
Qed.

Lemma keys_app (a b : JsMap.t K V) : JsMap.keys (a ++ b) = JsMap.keys a ++ JsMap.keys b.
Proof. apply map_app. Qed.

End JsMapMore.

Section MergeAgain.

Import Gateway GatewayProps.

Variable Number : string -> JsValue.num.

Lemma existsb_eqb (k : string) (l : list string) : existsb (String.eqb k) l = true <-> In k l.
Proof.
  rewrite existsb_exists. split.
  - intros [x [Hin E]]. apply String.eqb_eq in E. now subst.
  - intros H. exists k. split; auto. apply String.eqb_refl.
Qed.

Lemma setLevel_distinct (s : list LighterOrderBookLevel) (m : JsMap.t string string) :
  NoDup (JsMap.keys m ++ map price s) ->
  fold_left setLevel s m = m ++ map pairOf s.
Proof.
  revert m. induction s as [|a s IH]; intros m Hnd; simpl.
  - now rewrite List.app_nil_r.
  - unfold setLevel at 2.
    rewrite (set_absent _ _ String.eqb string_eqb_spec).
    + rewrite IH.
      * now rewrite <- app_assoc.
      * rewrite keys_app. simpl. rewrite <- app_assoc. exact Hnd.
    + simpl in Hnd. apply NoDup_remove_2 in Hnd. intros H. apply Hnd.
      apply in_or_app. now left.
Qed.

Lemma applyLevel_again (a : JsMap.t string string) (us : list LighterOrderBookLevel) :
  forall b : JsMap.t string string,
  distinct_prices us ->
  (forall u, In u us -> ~ In (price u) (JsMap.keys b)) ->
  (forall u, In u us ->
             if JsValue.le_zero (Number (size u))
             then ~ In (price u) (JsMap.keys a)
             else In (price u) (JsMap.keys a) ->
                  JsMap.get String.eqb (price u) a = Some (size u)) ->
  fold_left (applyLevel Number) us (a ++ b)
  = a ++ b ++ map pairOf (filter (isNew Number (JsMap.keys a)) us).
Proof.
  induction us as [|u us IH]; intros b Hd Hb Ha; simpl.
  - now rewrite List.app_nil_r.
  - inversion Hd as [|? ? Hnotin Hd']; subst.
    assert (Hb' : forall u', In u' us -> ~ In (price u') (JsMap.keys b))
      by (intros; apply Hb; now right).
    assert (Ha' : forall u', In u' us ->
               if JsValue.le_zero (Number (size u'))
               then ~ In (price u') (JsMap.keys a)
               else In (price u') (JsMap.keys a) ->
                    JsMap.get String.eqb (price u') a = Some (size u'))
      by (intros; apply Ha; now right).
    pose proof (Ha u (or_introl eq_refl)) as Hu.
    pose proof (Hb u (or_introl eq_refl)) as Hub.
    unfold applyLevel at 2. unfold isNew at 1.
    destruct (JsValue.le_zero (Number (size u))) eqn:Hz; simpl.
    + rewrite (delete_absent _ _ String.eqb string_eqb_spec).
      * now apply IH.
      * rewrite keys_app. intros H. apply in_app_or in H. tauto.
    + destruct (existsb (String.eqb (price u)) (JsMap.keys a)) eqn:He; simpl.
      * apply existsb_eqb in He.
        rewrite (set_present _ _ String.eqb string_eqb_spec).
        -- now apply IH.
        -- rewrite (get_app_l _ _ String.eqb string_eqb_spec); auto.
      * assert (Hna : ~ In (price u) (JsMap.keys a)).
        { intros H. apply existsb_eqb in H. congruence. }
        rewrite (set_absent _ _ String.eqb string_eqb_spec).
        -- rewrite <- app_assoc. rewrite IH; auto.
           ++ now rewrite <- app_assoc.
           ++ intros u' Hin. rewrite keys_app. simpl. intros H.
              apply in_app_or in H. destruct H as [H|[H|[]]].
              ** now apply (Hb' u').
              ** apply Hnotin. rewrite H. now apply in_map.
        -- rewrite keys_app. intros H. apply in_app_or in H. tauto.
Qed.

Lemma NoDup_firstn (A : Type) (n : nat) (l : list A) : NoDup l -> NoDup (firstn n l).
Proof.
  intros H. rewrite <- (firstn_skipn n l) in H. now apply NoDup_app_remove_r in H.
Qed.

Lemma StronglySorted_cross (A : Type) (R : A -> A -> Prop) (l1 l2 : list A) :
  StronglySorted R (l1 ++ l2) -> forall x y, In x l1 -> In y l2 -> R x y.
Proof.
  induction l1 as [|a l1 IH]; simpl; intros Hs x y Hx Hy; [contradiction|].
  inversion Hs as [|? ? Hs' Hall]; subst. destruct Hx as [->|Hx].
  - rewrite Forall_forall in Hall. apply Hall. apply in_or_app. now right.
  - now apply IH.
Qed.

Lemma mergeLevels_finite (existing updates : list LighterOrderBookLevel) :
  finite_prices Number existing -> finite_prices Number updates ->
  finite_prices Number (mergeLevels Number existing updates).
Proof.
  unfold finite_prices. rewrite !Forall_forall. intros He Hu l Hl.
  apply mergeLevels_origin in Hl. destruct Hl as [H|[H _]]; auto.
Qed.

Variable side : Side.

Lemma merge_again (existing updates : list LighterOrderBookLevel) :
  finite_prices Number existing -> finite_prices Number updates ->
  distinct_prices updates ->
  let stored := sortAndTrimLevels Number (mergeLevels Number existing updates)
                                  side DEFAULT_DEPTH_LIMIT in
  sortAndTrimLevels Number (mergeLevels Number stored updates) side DEFAULT_DEPTH_LIMIT
  = stored.
Proof.
  intros Hfe Hfu Hdu stored.
  set (merged := mergeLevels Number existing updates) in *.
  set (sorted := sort (compareLevels Number side) merged).
  assert (Hstored : stored = firstn 200 sorted) by reflexivity.
  assert (Hfm : finite_prices Number merged) by now apply mergeLevels_finite.
  assert (Hfsorted : finite_prices Number sorted) by now apply sort_finite.
  assert (Hss : StronglySorted (stands_before Number side) sorted) by now apply sort_sorted.
  assert (Hdm : distinct_prices merged) by apply mergeLevels_distinct.
  assert (Hdsorted : distinct_prices sorted).
  { unfold distinct_prices in *. eapply Permutation_NoDup; [|exact Hdm].
    apply Permutation_map. symmetry. apply sort_perm. }
  assert (Hds : distinct_prices stored).
  { unfold distinct_prices. rewrite Hstored, <- firstn_map. now apply NoDup_firstn. }
  assert (Hsub : forall l, In l stored -> In l merged).
  { intros l Hl. rewrite Hstored in Hl. apply firstn_incl in Hl. now apply sort_In in Hl. }
  (* what the delta says about the levels kept *)
  assert (Hu_in : forall u, In u updates -> JsValue.le_zero (Number (size u)) = false ->
                            In u merged).
  { intros u Hu Hz. apply mergeLevels_In. rewrite (last_level_distinct _ _ Hdu Hu). auto. }
  assert (Hu_out : forall u, In u updates -> JsValue.le_zero (Number (size u)) = true ->
                             ~ In (price u) (map price merged)).
  { intros u Hu Hz Hin. apply in_map_iff in Hin. destruct Hin as [l [E Hl]].
    apply mergeLevels_In in Hl. rewrite E, (last_level_distinct _ _ Hdu Hu) in Hl.
    destruct Hl; congruence. }
  (* the map built from the stored side *)
  assert (Hmap0 : fold_left setLevel stored (JsMap.empty string string) = map pairOf stored).
  { rewrite setLevel_distinct; [reflexivity | exact Hds]. }
  set (kept := filter (isNew Number (JsMap.keys (map pairOf stored))) updates).
  assert (Hmap1 : fold_left (applyLevel Number) updates (map pairOf stored)
                  = map pairOf stored ++ map pairOf kept).
  { pose proof (applyLevel_again (map pairOf stored) updates [] Hdu) as H.
    rewrite List.app_nil_r in H. apply H.
    - intros u _ [].
    - intros u Hu. rewrite keys_pairOf.
      destruct (JsValue.le_zero (Number (size u))) eqn:Hz.
      + intros Hin. apply (Hu_out u Hu Hz). apply in_map_iff in Hin.
        destruct Hin as [l [E Hl]]. apply in_map_iff. exists l. auto.
      + intros Hin. apply in_map_iff in Hin. destruct Hin as [l [E Hl]].
        assert (l = u).
        { apply (NoDup_map_eq _ _ price merged); auto. }
        subst l. apply (In_get _ _ String.eqb string_eqb_spec).
        * now rewrite keys_pairOf.
        * apply in_map_iff. exists u. auto. }
  assert (Hagain : mergeLevels Number stored updates = stored ++ kept).
  { unfold mergeLevels, JsMap.entries. rewrite Hmap0, Hmap1, map_app, !map_toLevel_pairOf.
    reflexivity. }
  assert (Hkept : forall r, In r kept -> In r (skipn 200 sorted)).
  { intros r Hr. unfold kept in Hr. apply filter_In in Hr. destruct Hr as [Hr Hnew].
    unfold isNew in Hnew. apply andb_true_iff in Hnew. destruct Hnew as [Hz Hnot].
    apply negb_true_iff in Hz, Hnot.
    assert (Hin : In r sorted) by (apply sort_In; auto).
    rewrite <- (firstn_skipn 200 sorted) in Hin. apply in_app_or in Hin.
    destruct Hin as [Hin|Hin]; auto.
    exfalso. apply not_true_iff_false in Hnot. apply Hnot. apply existsb_eqb.
    rewrite keys_pairOf, Hstored. now apply in_map. }
  unfold sortAndTrimLevels at 1. rewrite Hagain.
  change (Z.to_nat (Z.max 1 DEFAULT_DEPTH_LIMIT)) with 200%nat.
  rewrite sort_app_sorted.
  - destruct kept as [|r kept'] eqn:Ek.
    + change (sort (compareLevels Number side) []) with (@nil LighterOrderBookLevel).
      rewrite List.app_nil_r. apply firstn_all2. rewrite Hstored, length_firstn. lia.
    + assert (Hlen : List.length stored = 200%nat).
      { rewrite Hstored, length_firstn.
        assert (Hr : In r (skipn 200 sorted)) by (apply Hkept; now left).
        destruct (Nat.le_gt_cases (List.length sorted) 200) as [Hle|Hgt]; [|lia].
        rewrite (skipn_all2 _ Hle) in Hr. contradiction. }
      rewrite firstn_app, Hlen, Nat.sub_diag, firstn_0, List.app_nil_r.
      apply firstn_all2. lia.
  - rewrite Hstored. now apply firstn_finite.
  - unfold finite_prices in *. rewrite Forall_forall in *. intros r Hr. apply Hfu.
    unfold kept in Hr. apply filter_In in Hr. tauto.
  - rewrite Hstored. now apply firstn_sorted.
  - intros x y Hx Hy. rewrite Hstored in Hx.
    apply (StronglySorted_cross _ (stands_before Number side)
             (firstn 200 sorted) (skipn 200 sorted)); auto.
    now rewrite firstn_skipn.
Qed.

End MergeAgain.

(** * The order book after a message *)

Section BookFacts.

Import Gateway GatewayProps.
Local Open Scope Z_scope.

Variable Number : string -> JsValue.num.

Lemma handleOrderBookUpdate_applied (now : Z) (m : OrderBookMessage) (g : State)
      (book : LighterOrderBookSnapshot) (ob : OrderBookPayload) :
  orderBook g = Some book -> m_order_book m = Some ob ->
  staleOffset g m = false -> staleTimestamp g m = false ->
  orderBook (fst (handleOrderBookUpdate Number now m g))
  = Some {| market_id := market_id book;
            offset := or_else (ob_offset ob) (offset book);
            bids := match ob_bids ob with
                    | Some raw => sortAndTrimLevels Number
                                    (mergeLevels Number (bids book) (normalizeLevels raw))
                                    bid DEFAULT_DEPTH_LIMIT
                    | None => bids book
                    end;
            asks := match ob_asks ob with
                    | Some raw => sortAndTrimLevels Number
                                    (mergeLevels Number (asks book) (normalizeLevels raw))
                                    ask DEFAULT_DEPTH_LIMIT
                    | None => asks book
                    end |}.
Proof.
  intros Hb Ho H1 H2. unfold handleOrderBookUpdate. rewrite Hb, H1, H2, Ho. reflexivity.
Qed.

Lemma handleOrderBookUpdate_dropped (now : Z) (m : OrderBookMessage) (g : State) :
  orderBook g = None \/ m_order_book m = None
  \/ staleOffset g m = true \/ staleTimestamp g m = true ->
  fst (handleOrderBookUpdate Number now m g) = g.
Proof.
  unfold handleOrderBookUpdate. intros H.
  destruct (orderBook g); auto.
  destruct (staleOffset g m); auto. destruct (staleTimestamp g m); auto.
  destruct (m_order_book m); auto.
  destruct H as [H|[H|[H|H]]]; discriminate.
Qed.

Lemma update_cases (m : OrderBookMessage) (g : State) :
  (orderBook g = None \/ m_order_book m = None
   \/ staleOffset g m = true \/ staleTimestamp g m = true)
  \/ exists book ob, orderBook g = Some book /\ m_order_book m = Some ob
                     /\ staleOffset g m = false /\ staleTimestamp g m = false.
Proof.
  destruct (orderBook g) as [book|]; [|now left; left].
  destruct (m_order_book m) as [ob|]; [|now left; right; left].
  destruct (staleOffset g m); [now left; right; right; left|].
  destruct (staleTimestamp g m); [now left; right; right; right|].
  right. exists book, ob. auto.
Qed.

Lemma sortAndTrimLevels_distinct (side : Side) (l : list LighterOrderBookLevel) (limit : Z) :
  distinct_prices l -> distinct_prices (sortAndTrimLevels Number l side limit).
Proof.
  unfold distinct_prices, sortAndTrimLevels. intros H.
  rewrite <- firstn_map. apply NoDup_firstn.
  eapply Permutation_NoDup; [|exact H]. apply Permutation_map. symmetry. apply sort_perm.
Qed.

Lemma delta_side (side : Side) (old : list LighterOrderBookLevel) (raw : list RawLevel) :
  delta_side_rule Number old raw
    (sortAndTrimLevels Number (mergeLevels Number old (normalizeLevels raw))
                       side DEFAULT_DEPTH_LIMIT).
Proof.
  split.
  - apply sortAndTrimLevels_distinct, mergeLevels_distinct.
  - intros l Hl. apply sortAndTrimLevels_In in Hl. now apply mergeLevels_origin in Hl.
Qed.

(** Applying an accepted delta a second time. *)
Lemma handleOrderBookUpdate_twice (now1 now2 : Z) (m : OrderBookMessage) (g : State) :
  lists_each_price_once m ->
  finite_message Number (UpdateOrderBook m) ->
  book_finite Number g ->
  let g1 := fst (handleOrderBookUpdate Number now1 m g) in
  let g2 := fst (handleOrderBookUpdate Number now2 m g1) in
  option_map bids (orderBook g2) = option_map bids (orderBook g1)
  /\ option_map asks (orderBook g2) = option_map asks (orderBook g1).
Proof.
  intros Honce Hfin Hbook g1 g2.
  destruct (update_cases m g1) as [Hd|[book1 [ob [Hb1 [Ho [H1 H2]]]]]].
  - subst g2. rewrite (handleOrderBookUpdate_dropped now2 m g1 Hd). auto.
  - destruct (update_cases m g) as [Hd|[book [ob' [Hb [Ho' [H1' H2']]]]]].
    + assert (E : g1 = g) by (apply handleOrderBookUpdate_dropped; exact Hd).
      assert (E2 : g2 = g1).
      { subst g2. rewrite E. apply handleOrderBookUpdate_dropped. exact Hd. }
      rewrite E2. auto.
    + assert (ob' = ob) by congruence. subst ob'.
      pose proof (handleOrderBookUpdate_applied now1 m g book ob Hb Ho H1' H2') as Hg1.
      fold g1 in Hg1. rewrite Hb1 in Hg1. inversion Hg1 as [Hbook1]. clear Hg1.
      pose proof (handleOrderBookUpdate_applied now2 m g1 book1 ob Hb1 Ho H1 H2) as Hg2.
      fold g2 in Hg2. rewrite Hg2, Hb1. simpl.
      unfold lists_each_price_once in Honce. rewrite Ho in Honce.
      unfold finite_message in Hfin. rewrite Ho in Hfin.
      unfold book_finite in Hbook. rewrite Hb in Hbook.
      destruct Honce as [Hob Hoa]. destruct Hfin as [Hfb Hfa]. destruct Hbook as [Hgb Hga].
      split; f_equal.
      * destruct (ob_bids ob) as [raw|] eqn:Er; auto.
        rewrite Hbook1 at 1. simpl. rewrite Hbook1. simpl. simpl in Hob, Hfb.
        now apply merge_again.
      * destruct (ob_asks ob) as [raw|] eqn:Er; auto.
        rewrite Hbook1 at 1. simpl. rewrite Hbook1. simpl. simpl in Hoa, Hfa.
        now apply merge_again.
Qed.

Lemma normalizeLevels_nil : normalizeLevels [] = [].
Proof. reflexivity. Qed.

Lemma handleMessage_sorted (now : Z) (msg : Message) (g : State) :
  finite_message Number msg ->
  book_sorted Number g /\ book_finite Number g ->
  book_sorted Number (fst (handleMessage Number now msg g))
  /\ book_finite Number (fst (handleMessage Number now msg g)).
Proof.
  intros Hm [Hs Hf].
  pose proof (handleMessage_orderBook_other Number now msg g) as Ho.
  destruct msg as [|m|m|m|m|m|];
    try (unfold book_sorted, book_finite in *; rewrite Ho; split; assumption).
  - cbn [handleMessage]. unfold handleOrderBookSnapshot.
    simpl in Hm. destruct (m_order_book m) as [ob|]; [|split; assumption].
    destruct (staleOffset g m); [split; assumption|].
    destruct (staleTimestamp g m); [split; assumption|].
    destruct Hm as [Hb Ha]. unfold book_sorted, book_finite. simpl. split; split.
    + now apply sortAndTrimLevels_sorted.
    + now apply sortAndTrimLevels_sorted.
    + now apply sortAndTrimLevels_finite.
    + now apply sortAndTrimLevels_finite.
  - cbn [handleMessage].
    destruct (update_cases m g) as [Hd|[book [ob [Hb [Hob [H1 H2]]]]]].
    + rewrite (handleOrderBookUpdate_dropped now m g Hd). split; assumption.
    + pose proof (handleOrderBookUpdate_applied now m g book ob Hb Hob H1 H2) as Hg.
      unfold book_sorted, book_finite in *. rewrite Hg. rewrite Hb in Hs, Hf. simpl.
      simpl in Hm. rewrite Hob in Hm. destruct Hm as [Hmb Hma].
      destruct Hs as [Hsb Hsa]. destruct Hf as [Hfb Hfa].
      destruct (ob_bids ob) as [rb|]; destruct (ob_asks ob) as [ra|]; simpl in *;
        repeat split;
        auto using sortAndTrimLevels_sorted, sortAndTrimLevels_finite, mergeLevels_finite.
Qed.

Lemma sortAndTrimLevels_best (side : Side) (levels : list LighterOrderBookLevel) :
  finite_prices Number levels ->
  best_of Number side 200 levels
          (sortAndTrimLevels Number levels side DEFAULT_DEPTH_LIMIT).
Proof.
  intros Hf. split; [now apply sortAndTrimLevels_sorted|].
  unfold sortAndTrimLevels. change (Z.to_nat (Z.max 1 DEFAULT_DEPTH_LIMIT)) with 200%nat.
  set (sorted := sort (compareLevels Number side) levels).
  exists (skipn 200 sorted). repeat split.
  - rewrite firstn_skipn. symmetry. apply sort_perm.
  - rewrite length_firstn. f_equal. unfold sorted.
    apply Permutation_length, sort_perm.
  - apply StronglySorted_cross. rewrite firstn_skipn. now apply sort_sorted.
Qed.

Lemma handleOrderBookSnapshot_applied (now : Z) (m : OrderBookMessage) (g : State)
      (ob : OrderBookPayload) :
  m_order_book m = Some ob ->
  staleOffset g m = false -> staleTimestamp g m = false ->
  orderBook (fst (handleOrderBookSnapshot Number now m g))
  = Some {| market_id := or_else (marketId g) 0;
            offset := or_else (ob_offset ob) now;
            bids := sortAndTrimLevels Number (normalizeLevels (or_else (ob_bids ob) []))
                                      bid DEFAULT_DEPTH_LIMIT;
            asks := sortAndTrimLevels Number (normalizeLevels (or_else (ob_asks ob) []))
                                      ask DEFAULT_DEPTH_LIMIT |}.
Proof.
  intros Ho H1 H2. unfold handleOrderBookSnapshot. rewrite Ho, H1, H2. reflexivity.
Qed.

Lemma receive_sorted (inbox : list (Z * Message)) (g : State) :
  Forall (fun nm => finite_message Number (snd nm)) inbox ->
  book_sorted Number g /\ book_finite Number g ->
  book_sorted Number (receive Number g inbox)
  /\ book_finite Number (receive Number g inbox).
Proof.
  revert g. induction inbox as [|[now msg] inbox IH]; intros g Hin Hg; auto.
  inversion Hin; subst. apply IH; auto. now apply handleMessage_sorted.
Qed.

End BookFacts.

(** C5 as amended.  From the state the constructor leaves, after every run
    of stream messages whose prices read as finite numbers the bids of the
    stored book are in descending and its asks in ascending order of
    price.  A delta that is applied leaves, on each side it updates, no two
    levels with the same price text, and only levels that were in the book
    or that the delta sets with a size that is not zero or negative; with
    finite prices that side is the merge of the stored levels and the
    delta, sorted and trimmed to its 200 best levels.  A snapshot that is
    applied is stored as sent, each side sorted and trimmed to its 200
    best levels: levels with the same price or with a size of zero are not
    removed from it.  Here the levels of a message are its entries, each
    with its price and size and none left out, and in a merge the last
    entry of the delta for a price decides, while a price the delta does
    not list keeps the size the book had for it. *)
Theorem book_sorted_after_every_message (Number : string -> JsValue.num) :
  (forall (marketId : option Z) (inbox : list (Z * Gateway.Message)),
      Forall (fun nm => GatewayProps.finite_message Number (snd nm)) inbox ->
      GatewayProps.book_sorted Number
        (Gateway.receive Number (Gateway.initial marketId) inbox))
  /\ (forall (now : Z) (m : Gateway.OrderBookMessage) (g : Gateway.State)
             (book : Gateway.LighterOrderBookSnapshot) (ob : Gateway.OrderBookPayload),
         Gateway.orderBook g = Some book ->
         Gateway.m_order_book m = Some ob ->
         ~ GatewayProps.stale g m ->
         exists book',
           Gateway.orderBook (fst (Gateway.handleOrderBookUpdate Number now m g)) = Some book'
           /\ (forall raw, Gateway.ob_bids ob = Some raw ->
                  GatewayProps.delta_side_rule Number (Gateway.bids book) raw
                                               (Gateway.bids book')
                  /\ (GatewayProps.finite_prices Number (Gateway.bids book) ->
                      GatewayProps.finite_prices Number (Gateway.normalizeLevels raw) ->
                      GatewayProps.best_of Number Gateway.bid 200
                        (Gateway.mergeLevels Number (Gateway.bids book)
                                             (Gateway.normalizeLevels raw))
                        (Gateway.bids book')))
           /\ (forall raw, Gateway.ob_asks ob = Some raw ->
                  GatewayProps.delta_side_rule Number (Gateway.asks book) raw
                                               (Gateway.asks book')
                  /\ (GatewayProps.finite_prices Number (Gateway.asks book) ->
                      GatewayProps.finite_prices Number (Gateway.normalizeLevels raw) ->
                      GatewayProps.best_of Number Gateway.ask 200
                        (Gateway.mergeLevels Number (Gateway.asks book)
                                             (Gateway.normalizeLevels raw))
                        (Gateway.asks book'))))
  /\ (forall (now : Z) (m : Gateway.OrderBookMessage) (g : Gateway.State)
             (ob : Gateway.OrderBookPayload),
         Gateway.m_order_book m = Some ob ->
         ~ GatewayProps.stale g m ->
         GatewayProps.finite_message Number (Gateway.SubscribedOrderBook m) ->
         exists book',
           Gateway.orderBook (fst (Gateway.handleOrderBookSnapshot Number now m g))
           = Some book'
           /\ GatewayProps.best_of Number Gateway.bid 200
                (Gateway.normalizeLevels (Gateway.or_else (Gateway.ob_bids ob) []))
                (Gateway.bids book')
           /\ GatewayProps.best_of Number Gateway.ask 200
                (Gateway.normalizeLevels (Gateway.or_else (Gateway.ob_asks ob) []))
                (Gateway.asks book'))
  /\ (forall raw : list Gateway.RawLevel,
         GatewayProps.as_sent raw (Gateway.normalizeLevels raw))
  /\ (forall existing updates : list Gateway.LighterOrderBookLevel,
         GatewayProps.merge_of Number existing updates
           (Gateway.mergeLevels Number existing updates)).
Proof.
  split; [|split; [|split; [|split]]].
  - intros marketId inbox Hin.
    apply (receive_sorted Number inbox (Gateway.initial marketId) Hin).
    split; exact I.
  - intros now m g book ob Hb Ho Hs.
    rewrite stale_guards in Hs. apply not_true_is_false in Hs.
    apply orb_false_iff in Hs. destruct Hs as [H1 H2].
    eexists. split; [apply handleOrderBookUpdate_applied; eassumption|].
    simpl. split; intros raw Hr; rewrite Hr; (split; [apply delta_side|]);
      intros Hf1 Hf2; apply sortAndTrimLevels_best; now apply mergeLevels_finite.
  - intros now m g ob Ho Hs Hm.
    rewrite stale_guards in Hs. apply not_true_is_false in Hs.
    apply orb_false_iff in Hs. destruct Hs as [H1 H2].
    simpl in Hm. rewrite Ho in Hm. destruct Hm as [Hb Ha].
    eexists. split; [apply handleOrderBookSnapshot_applied; eassumption|].
    simpl. split; now apply sortAndTrimLevels_best.
  - intros raw. unfold GatewayProps.as_sent.
    induction raw as [|[p s|p s] raw IH]; constructor; auto.
  - intros existing updates l. apply mergeLevels_In.
Qed.

(** C6 as amended.  For a delta that lists no price twice on a side, with
    prices that read as finite numbers in the delta and in the book,
    handling the delta twice in succession leaves the bids and the asks
    that handling it once leaves.  In the level merge the last entry for a
    price removes the level when its size is zero or negative, and
    otherwise is the one level of that price. *)
Theorem delta_twice_as_once (Number : string -> JsValue.num) :
  (forall (now1 now2 : Z) (m : Gateway.OrderBookMessage) (g : Gateway.State),
      GatewayProps.lists_each_price_once m ->
      GatewayProps.finite_message Number (Gateway.UpdateOrderBook m) ->
      GatewayProps.book_finite Number g ->
      let g1 := fst (Gateway.handleOrderBookUpdate Number now1 m g) in
      let g2 := fst (Gateway.handleOrderBookUpdate Number now2 m g1) in
      option_map Gateway.bids (Gateway.orderBook g2)
      = option_map Gateway.bids (Gateway.orderBook g1)
      /\ option_map Gateway.asks (Gateway.orderBook g2)
         = option_map Gateway.asks (Gateway.orderBook g1))
  /\ (forall (existing updates : list Gateway.LighterOrderBookLevel) (k : string)
             (u : Gateway.LighterOrderBookLevel),
         GatewayProps.last_level k updates = Some u ->
         let merged := Gateway.mergeLevels Number existing updates in
         if JsValue.le_zero (Number (Gateway.size u))
         then forall l, In l merged -> Gateway.price l <> k
         else In u merged /\ forall l, In l merged -> Gateway.price l = k -> l = u).
Proof.
  split.
  - intros now1 now2 m g H1 H2 H3. now apply handleOrderBookUpdate_twice.
  - intros existing updates k u Hl. now apply mergeLevels_rule.
Qed.

(** C5, counterexample.  A first snapshot that lists the bid price 100
    twice and an ask of size 0 is stored with both bids and with the
    empty ask. *)
Lemma snapshot_keeps_duplicates_and_zero_sizes :
  exists book,
    Gateway.orderBook
      (Gateway.receive Samples.Number (Gateway.initial (Some 1%Z))
         [(1000%Z, Gateway.SubscribedOrderBook Samples.snapshot_unfiltered)]) = Some book
    /\ ~ GatewayProps.distinct_prices (Gateway.bids book)
    /\ ~ Forall (GatewayProps.size_positive Samples.Number) (Gateway.asks book)
    /\ ~ GatewayProps.spec_book_invariant Samples.Number book.
Proof.
  eexists. split; [vm_compute; reflexivity|].
  assert (Hd : ~ GatewayProps.distinct_prices
                   [Samples.level "100" "3"; Samples.level "100" "5"]).
  { intros H. inversion H as [|? ? Hn _]. apply Hn. now left. }
  assert (Hz : ~ Forall (GatewayProps.size_positive Samples.Number)
                   [Samples.level "101" "0"]).
  { intros H. inversion H as [|? ? Hp _]. vm_compute in Hp. discriminate. }
  split; [exact Hd|]. split; [exact Hz|].
  intros (_ & _ & H & _). exact (Hd H).
Qed.

(** C6, counterexample.  On an empty book the delta that removes the bid
    price [100], sets it to 5 and sets [100.0] to 7 is applied; it carries
    no offset and no timestamp, so it is applied again when it is handled
    a second time, and then leaves the two bids in the other order. *)
Lemma repeated_price_delta_not_idempotent :
  let g := Samples.after_snapshot_empty in
  let m := Samples.delta_repeated_price in
  let g1 := fst (Gateway.handleOrderBookUpdate Samples.Number 2000 m g) in
  let g2 := fst (Gateway.handleOrderBookUpdate Samples.Number 3000 m g1) in
  option_map Gateway.bids (Gateway.orderBook g) = Some []
  /\ option_map Gateway.bids (Gateway.orderBook g1)
     = Some [Samples.level "100" "5"; Samples.level "100.0" "7"]
  /\ option_map Gateway.bids (Gateway.orderBook g2)
     = Some [Samples.level "100.0" "7"; Samples.level "100" "5"]
  /\ option_map Gateway.bids (Gateway.orderBook g2)
     <> option_map Gateway.bids (Gateway.orderBook g1).
Proof.
  vm_compute. repeat split; try reflexivity. discriminate.
Qed.

(** Scenario B of the specification: the book has the bid level 100.00 of
    size 5, a delta sets 100.00 to 0, and the book has no bid at 100.00. *)
Example scenario_B :
  let first := {| Gateway.m_offset := None; Gateway.m_timestamp := Some 100%Z;
                  Gateway.m_order_book :=
                    Some {| Gateway.ob_offset := Some 5%Z;
                            Gateway.ob_bids := Some [Gateway.RawPair "100.00" "5"];
                            Gateway.ob_asks := Some [] |} |} in
  let delta := {| Gateway.m_offset := None; Gateway.m_timestamp := Some 200%Z;
                  Gateway.m_order_book :=
                    Some {| Gateway.ob_offset := Some 6%Z;
                            Gateway.ob_bids := Some [Gateway.RawPair "100.00" "0"];
                            Gateway.ob_asks := None |} |} in
  let g := Gateway.receive Samples.Number (Gateway.initial (Some 1%Z))
             [(1000%Z, Gateway.SubscribedOrderBook first);
              (2000%Z, Gateway.UpdateOrderBook delta)] in
  option_map Gateway.bids (Gateway.orderBook g) = Some [].
Proof. vm_compute. reflexivity. Qed.

Lemma book_sorted_after_every_message_witness :
  GatewayProps.book_sorted Samples.Number Samples.after_snapshot5
  /\ (exists book',
        Gateway.orderBook
          (fst (Gateway.handleOrderBookUpdate Samples.Number 2000
                  Samples.delta_no_timestamp Samples.after_snapshot5)) = Some book'
        /\ GatewayProps.delta_side_rule Samples.Number
             [Samples.level "100" "5"] [Gateway.RawPair "100" "0"] (Gateway.bids book'))
  /\ (exists book',
        Gateway.orderBook
          (fst (Gateway.handleOrderBookSnapshot Samples.Number 1000
                  Samples.snapshot_unfiltered (Gateway.initial (Some 1%Z)))) = Some book'
        /\ GatewayProps.best_of Samples.Number Gateway.bid 200
             [Samples.level "100" "3"; Samples.level "100" "5"] (Gateway.bids book')).
Proof.
  destruct (book_sorted_after_every_message Samples.Number)
    as [Hsorted [Hdelta [Hsnap _]]].
  split; [|split].
  - apply (Hsorted (Some 1%Z) [(1000%Z, Gateway.SubscribedOrderBook Samples.snapshot5)]).
    repeat constructor.
  - assert (Hs : ~ GatewayProps.stale Samples.after_snapshot5 Samples.delta_no_timestamp).
    { intros [(_ & _ & H)|(_ & H & _)]; vm_compute in H; [discriminate | now apply H]. }
    destruct (Hdelta 2000%Z Samples.delta_no_timestamp Samples.after_snapshot5 _ _
                     eq_refl eq_refl Hs) as [book' [Hb [Hbids _]]].
    exists book'. split; [exact Hb|]. apply Hbids. reflexivity.
  - assert (Hs : ~ GatewayProps.stale (Gateway.initial (Some 1%Z))
                   Samples.snapshot_unfiltered).
    { intros [(H & _)|(H & _)]; vm_compute in H; [now apply H | discriminate]. }
    destruct (Hsnap 1000%Z Samples.snapshot_unfiltered (Gateway.initial (Some 1%Z)) _
                    eq_refl Hs) as [book' [Hb [Hbids _]]].
    { split; repeat constructor. }
    exists book'. split; [exact Hb | exact Hbids].
Defined.

Lemma delta_twice_as_once_witness :
  let g1 := fst (Gateway.handleOrderBookUpdate Samples.Number 2000
                   Samples.delta_no_timestamp Samples.after_snapshot5) in
  let g2 := fst (Gateway.handleOrderBookUpdate Samples.Number 3000
                   Samples.delta_no_timestamp g1) in
  (option_map Gateway.bids (Gateway.orderBook g2)
   = option_map Gateway.bids (Gateway.orderBook g1)
   /\ option_map Gateway.asks (Gateway.orderBook g2)
      = option_map Gateway.asks (Gateway.orderBook g1))
  /\ forall l, In l (Gateway.mergeLevels Samples.Number [Samples.level "100" "5"]
                                         [Samples.level "100" "0"]) ->
               Gateway.price l <> "100"%string.
Proof.
  destruct (delta_twice_as_once Samples.Number) as [Htwice Hrule].
  split.
  - apply Htwice.
    + split; repeat constructor; simpl; tauto.
    + split; repeat constructor.
    + split; repeat constructor.
  - exact (Hrule [Samples.level "100" "5"] [Samples.level "100" "0"] "100"%string
                 (Samples.level "100" "0") eq_refl).
Defined.


(** * Digit strings *)

Section DigitFacts.

Import JsString JsBigInt DecimalProps.
Local Open Scope N_scope.
Local Open Scope char_scope.

Lemma digit_cases (c : ascii) :
  is_digit c = true ->
  c = "0" \/ c = "1" \/ c = "2" \/ c = "3" \/ c = "4" \/ c = "5" \/ c = "6" \/ c = "7" \/ c = "8" \/ c = "9".
Proof.
  destruct c as [[] [] [] [] [] [] [] []]; vm_compute; intros H; try discriminate H; tauto.
Qed.

Lemma digit_value_bound (c : ascii) : is_digit c = true -> digit_value c < 10.
Proof.
  intros H. destruct (digit_cases c H) as [E|[E|[E|[E|[E|[E|[E|[E|[E|E]]]]]]]]];
    subst c; vm_compute; reflexivity.
Qed.

Lemma of_digits_app (a b : chars) :
  of_digits (a ++ b) = fold_left step b (of_digits a).
Proof. unfold of_digits. apply fold_left_app. Qed.

Lemma fold_step_shift (b : chars) (x : N) :
  fold_left step b x = x * 10 ^ N.of_nat (List.length b) + fold_left step b 0.
Proof.
  revert x. induction b as [|c b IH]; intros x.
  - simpl. lia.
  - cbn [fold_left List.length]. rewrite IH, (IH (step 0 c)).
    rewrite Nat2N.inj_succ, N.pow_succ_r'. unfold step. lia.
Qed.

Lemma of_digits_app_value (a b : chars) :
  of_digits (a ++ b) = of_digits a * 10 ^ N.of_nat (List.length b) + of_digits b.
Proof. rewrite of_digits_app. apply fold_step_shift. Qed.

Lemma of_digits_cons (c : ascii) (b : chars) :
  of_digits (c :: b) = digit_value c * 10 ^ N.of_nat (List.length b) + of_digits b.
Proof.
  change (c :: b) with ([c] ++ b). rewrite of_digits_app_value. f_equal.
Qed.

Lemma of_digits_bound (ds : chars) :
  forallb is_digit ds = true -> of_digits ds < 10 ^ N.of_nat (List.length ds).
Proof.
  induction ds as [|c ds IH]; intros H.
  - vm_compute. reflexivity.
  - simpl in H. apply andb_true_iff in H. destruct H as [Hc Hds].
    rewrite of_digits_cons. cbn [List.length]. rewrite Nat2N.inj_succ, N.pow_succ_r'.
    pose proof (digit_value_bound c Hc). specialize (IH Hds). nia.
Qed.

Lemma of_digits_zeros (n : nat) : of_digits (repeat "0" n) = 0.
Proof.
  induction n as [|n IH]; [reflexivity|].
  cbn [repeat]. rewrite of_digits_cons, IH. reflexivity.
Qed.

Lemma is_zero_char_iff (c : ascii) : is_zero_char c = true <-> c = "0".
Proof. unfold is_zero_char. apply Ascii.eqb_eq. Qed.

Lemma digit_value_zero (c : ascii) :
  is_digit c = true -> (digit_value c = 0 <-> c = "0").
Proof.
  intros H. destruct (digit_cases c H) as [E|[E|[E|[E|[E|[E|[E|[E|[E|E]]]]]]]]];
    subst c; vm_compute; split; intros H0; try discriminate H0; reflexivity.
Qed.

Lemma of_digits_zero_iff (ds : chars) :
  forallb is_digit ds = true ->
  (of_digits ds = 0 <-> forallb is_zero_char ds = true).
Proof.
  induction ds as [|c ds IH]; intros H.
  - split; reflexivity.
  - simpl in H. apply andb_true_iff in H. destruct H as [Hc Hds].
    rewrite of_digits_cons. cbn [forallb]. rewrite andb_true_iff, <- (IH Hds).
    assert (Hp : 0 < 10 ^ N.of_nat (List.length ds)) by (apply N.neq_0_lt_0, N.pow_nonzero; lia).
    rewrite is_zero_char_iff, <- (digit_value_zero c Hc).
    split; [intros H0; split; nia | intros [E0 H0]; rewrite E0, H0; reflexivity].
Qed.


Lemma chars_of_uint_of_digits (ds : chars) :
  forallb is_digit ds = true -> chars_of_uint (uint_of_digits ds) = ds.
Proof.
  induction ds as [|c ds IH]; intros H; [reflexivity|].
  simpl in H. apply andb_true_iff in H. destruct H as [Hc Hds]. specialize (IH Hds).
  unfold chars_of_uint in *.
  destruct (digit_cases c Hc) as [E|[E|[E|[E|[E|[E|[E|[E|[E|E]]]]]]]]]; subst c;
    simpl; now rewrite IH.
Qed.

Lemma uint_of_chars (u : Decimal.uint) :
  uint_of_digits (chars_of_uint u) = u /\ forallb is_digit (chars_of_uint u) = true.
Proof.
  unfold chars_of_uint. induction u; simpl; try (destruct IHu as [-> ->]); auto.
Qed.

Lemma of_uint_acc_digits (ds : chars) (acc : positive) :
  forallb is_digit ds = true ->
  Npos (Pos.of_uint_acc (uint_of_digits ds) acc) = fold_left step ds (Npos acc).
Proof.
  revert acc. induction ds as [|c ds IH]; intros acc H; [reflexivity|].
  simpl in H. apply andb_true_iff in H. destruct H as [Hc Hds].
  destruct (digit_cases c Hc) as [E|[E|[E|[E|[E|[E|[E|[E|[E|E]]]]]]]]]; subst c;
    cbn [uint_of_digits digit_uint Pos.of_uint_acc fold_left]; rewrite IH by assumption;
    f_equal; unfold step; vm_compute digit_value; lia.
Qed.

Lemma of_uint_digits (ds : chars) :
  forallb is_digit ds = true -> N.of_uint (uint_of_digits ds) = of_digits ds.
Proof.
  unfold N.of_uint, of_digits. fold step.
  induction ds as [|c ds IH]; intros H; [reflexivity|].
  simpl in H. apply andb_true_iff in H. destruct H as [Hc Hds].
  destruct (digit_cases c Hc) as [E|[E|[E|[E|[E|[E|[E|[E|[E|E]]]]]]]]]; subst c;
    cbn [uint_of_digits digit_uint Pos.of_uint fold_left];
    try (now apply IH);
    rewrite of_uint_acc_digits by assumption; reflexivity.
Qed.

Lemma chars_nzhead (ds : chars) :
  forallb is_digit ds = true ->
  chars_of_uint (Decimal.nzhead (uint_of_digits ds)) = dropWhile is_zero_char ds.
Proof.
  induction ds as [|c ds IH]; intros H; [reflexivity|].
  pose proof (chars_of_uint_of_digits (c :: ds) H) as Hfull.
  simpl in H. apply andb_true_iff in H. destruct H as [Hc Hds].
  destruct (digit_cases c Hc) as [E|[E|[E|[E|[E|[E|[E|[E|[E|E]]]]]]]]]; subst c;
    cbn [uint_of_digits digit_uint Decimal.nzhead dropWhile is_zero_char Ascii.eqb Bool.eqb];
    try (now apply IH); exact Hfull.
Qed.

Lemma toString_chars (n : N) : toString n = chars_of_uint (N.to_uint n).
Proof.
  unfold toString, chars_of_uint, NilZero.string_of_uint.
  destruct (N.to_uint n) eqn:E; try reflexivity.
  destruct n; simpl in E; [discriminate|].
  exfalso. exact (DecimalPos.Unsigned.to_uint_nonnil _ E).
Qed.

(** The decimal notation of the number a digit string reads as: the string
    without its leading zeros. *)
Lemma toString_of_digits (ds : chars) :
  forallb is_digit ds = true -> toString (of_digits ds) = strip0 ds.
Proof.
  intros H. rewrite toString_chars, <- (of_uint_digits ds H), DecimalN.Unsigned.to_of.
  unfold strip0. rewrite <- (chars_nzhead ds H). unfold Decimal.unorm.
  destruct (Decimal.nzhead (uint_of_digits ds)); reflexivity.
Qed.

Lemma toString_digits (n : N) : forallb is_digit (toString n) = true.
Proof. rewrite toString_chars. apply uint_of_chars. Qed.

Lemma of_digits_toString (n : N) : of_digits (toString n) = n.
Proof.
  rewrite <- of_uint_digits by apply toString_digits.
  rewrite toString_chars. destruct (uint_of_chars (N.to_uint n)) as [-> _].
  apply DecimalN.Unsigned.of_to.
Qed.

End DigitFacts.

(** * Decimal texts *)

Section TextFacts.

Import JsString JsBigInt Decimal DecimalProps.
Local Open Scope char_scope.

Lemma take_drop (p : ascii -> bool) (s : chars) : takeWhile p s ++ dropWhile p s = s.
Proof.
  induction s as [|c s IH]; simpl; auto. destruct (p c); simpl; congruence.
Qed.

Lemma takeWhile_all (p : ascii -> bool) (s : chars) : forallb p (takeWhile p s) = true.
Proof.
  induction s as [|c s IH]; simpl; auto. destruct (p c) eqn:E; simpl; auto.
  now rewrite E.
Qed.

Lemma dropWhile_all (p : ascii -> bool) (s : chars) :
  forallb p s = true -> dropWhile p s = [].
Proof.
  induction s as [|c s IH]; simpl; auto. destruct (p c); simpl; auto. discriminate.
Qed.

Lemma dropWhile_head (p : ascii -> bool) (s : chars) (c : ascii) (r : chars) :
  dropWhile p s = c :: r -> p c = false.
Proof.
  induction s as [|a s IH]; simpl; [discriminate|].
  destruct (p a) eqn:E; auto. intros H. inversion H; subst. exact E.
Qed.

Lemma chars_eqb_eq (a b : chars) : chars_eqb a b = true <-> a = b.
Proof.
  unfold chars_eqb, to_string. rewrite String.eqb_eq. split; [|congruence].
  intros H. apply (f_equal list_ascii_of_string) in H.
  now rewrite !list_ascii_of_string_of_list_ascii in H.
Qed.

Lemma slice_prefix (s : chars) (n : nat) :
  (n <= List.length s)%nat -> slice s 0 (Z.of_nat n) = firstn n s.
Proof.
  intros H. unfold slice, clamp_index.
  replace (0 <? 0)%Z with false by reflexivity.
  destruct (Z.ltb_spec (Z.of_nat n) 0); [lia|].
  rewrite Z.min_l by lia. rewrite Z.min_l by lia.
  simpl. rewrite Z.sub_0_r, Nat2Z.id. reflexivity.
Qed.

Lemma slice_from_suffix (s : chars) (n : nat) :
  (n <= List.length s)%nat -> slice_from s (Z.of_nat n) = skipn n s.
Proof.
  intros H. unfold slice_from, slice, clamp_index.
  destruct (Z.ltb_spec (Z.of_nat n) 0); [lia|].
  destruct (Z.ltb_spec (Z.of_nat (List.length s)) 0); [lia|].
  rewrite Z.min_l by lia. rewrite Z.min_l by lia. rewrite Nat2Z.id.
  apply firstn_all2. rewrite length_skipn. lia.
Qed.

Lemma digit_not_dot (c : ascii) : is_digit c = true -> Ascii.eqb c "." = false.
Proof.
  destruct c as [[] [] [] [] [] [] [] []]; vm_compute; intros H; try discriminate H; reflexivity.
Qed.

Lemma split_dot_aux_digits (ds cur rest : chars) :
  forallb is_digit ds = true ->
  split_dot_aux cur (ds ++ rest) = split_dot_aux (rev ds ++ cur) rest.
Proof.
  revert cur. induction ds as [|c ds IH]; intros cur H; [reflexivity|].
  simpl in H. apply andb_true_iff in H. destruct H as [Hc Hds].
  simpl. rewrite (digit_not_dot c Hc), IH by assumption. now rewrite <- app_assoc.
Qed.

Lemma split_dot_digits (ds : chars) :
  forallb is_digit ds = true -> split_dot ds = [ds].
Proof.
  intros H. unfold split_dot. rewrite <- (List.app_nil_r ds) at 1.
  rewrite split_dot_aux_digits by assumption. simpl. now rewrite List.app_nil_r, rev_involutive.
Qed.

Lemma split_dot_point (ip fp : chars) :
  forallb is_digit ip = true -> forallb is_digit fp = true ->
  split_dot (ip ++ "." :: fp) = [ip; fp].
Proof.
  intros Hi Hf. unfold split_dot. rewrite split_dot_aux_digits by assumption.
  simpl. rewrite List.app_nil_r, rev_involutive. f_equal. now apply split_dot_digits.
Qed.

Lemma normalizeText_parts (s : chars) (neg : bool) (ip fp : chars) :
  decimal_parts s = Some (neg, ip, fp) ->
  normalizeText s = Ok (normal_form neg ip fp)
  /\ forallb is_digit ip = true /\ forallb is_digit fp = true.
Proof.
  unfold decimal_parts, normalizeText.
  destruct (trim s) as [|c r] eqn:Et; [discriminate|].
  cbn [is_empty].
  set (u := if Ascii.eqb c "-" then r else c :: r).
  assert (Hu : (if ((if Ascii.eqb c "-" then (-1)%Z else 1%Z) =? -1)%Z
                then slice_from (c :: r) 1 else c :: r) = u).
  { unfold u. destruct (Ascii.eqb c "-"); [|reflexivity].
    change (slice_from (c :: r) 1) with (slice_from (c :: r) (Z.of_nat 1)).
    rewrite slice_from_suffix by (simpl; lia). reflexivity. }
  rewrite Hu. unfold test_decimal.
  pose proof (take_drop is_digit u) as Htd.
  pose proof (takeWhile_all is_digit u) as Hip.
  remember (takeWhile is_digit u) as ip0 eqn:Eip0.
  destruct (dropWhile is_digit u) as [|d w] eqn:Ed.
  - intros H. inversion H; subst neg ip fp. clear H.
    rewrite List.app_nil_r in Htd. subst ip0. rewrite Htd in *.
    split; [|split; auto]. cbn [negb].
    unfold normal_form, kept_integer.
    destruct u as [|a u'] eqn:Eu.
    + reflexivity.
    + cbn [is_empty orb].
      assert (Hne : chars_eqb (a :: u') ["."] = false).
      { apply not_true_iff_false. rewrite chars_eqb_eq. intros E. inversion E; subst.
        simpl in Hip. discriminate. }
      rewrite Hne. rewrite split_dot_digits by assumption.
      cbn [nth]. change (replace_trailing_zeros []) with (@nil ascii).
      cbn [is_empty]. rewrite andb_true_r.
      destruct (is_empty (replace_leading_zeros (a :: u'))); rewrite ?List.app_nil_r;
        reflexivity.
  - destruct (Ascii.eqb d "." && forallb is_digit w) eqn:Edw; [|discriminate].
    intros H. inversion H; subst neg ip fp. clear H.
    apply andb_true_iff in Edw. destruct Edw as [Edot Hw]. apply Ascii.eqb_eq in Edot. subst d.
    split; [|split; auto]. cbn [negb].
    unfold normal_form, kept_integer.
    rewrite <- Htd. clear Htd Hu Ed Eip0.
    destruct ip0 as [|a ip']; [destruct w as [|b w']|].
    + reflexivity.
    + assert (Hne : chars_eqb ([] ++ "." :: b :: w') ["."] = false).
      { apply not_true_iff_false. rewrite chars_eqb_eq. discriminate. }
      rewrite Hne, (split_dot_point [] (b :: w')) by assumption.
      cbn [app is_empty orb nth].
      destruct (is_empty (replace_leading_zeros [])
                && is_empty (replace_trailing_zeros (b :: w'))); reflexivity.
    + assert (Hne : chars_eqb ((a :: ip') ++ "." :: w) ["."] = false).
      { apply not_true_iff_false. rewrite chars_eqb_eq. intros E. inversion E as [[E1 E2]].
        destruct ip'; discriminate. }
      rewrite Hne, (split_dot_point (a :: ip') w) by assumption.
      cbn [app is_empty orb nth].
      destruct (is_empty (replace_leading_zeros (a :: ip'))
                && is_empty (replace_trailing_zeros w)); reflexivity.
Qed.

End TextFacts.

Section ZeroFacts.

Import JsString JsBigInt Decimal DecimalProps.
Local Open Scope char_scope.

Lemma all_zero_digits (s : chars) :
  forallb is_zero_char s = true -> forallb is_digit s = true.
Proof.
  induction s as [|c s IH]; simpl; auto. intros H. apply andb_true_iff in H.
  destruct H as [Hc Hs]. apply is_zero_char_iff in Hc. subst c. simpl. auto.
Qed.

Lemma all_zero_repeat (s : chars) :
  forallb is_zero_char s = true -> s = repeat "0" (List.length s).
Proof.
  induction s as [|c s IH]; simpl; auto. intros H. apply andb_true_iff in H.
  destruct H as [Hc Hs]. apply is_zero_char_iff in Hc. subst c. f_equal. auto.
Qed.

Lemma repeat_all_zero (n : nat) : forallb is_zero_char (repeat "0" n) = true.
Proof. induction n; simpl; auto. Qed.

Lemma rev_repeat (A : Type) (x : A) (n : nat) : rev (repeat x n) = repeat x n.
Proof.
  induction n as [|n IH]; simpl; auto. rewrite IH.
  change [x] with (repeat x 1). rewrite <- repeat_app. now rewrite Nat.add_1_r.
Qed.

Lemma firstn_repeat (A : Type) (x : A) (n m : nat) :
  firstn n (repeat x m) = repeat x (Nat.min n m).
Proof.
  revert m. induction n as [|n IH]; intros [|m]; simpl; auto. now rewrite IH.
Qed.

Lemma dropWhile_app (p : ascii -> bool) (a b : chars) :
  dropWhile p (a ++ b) = if forallb p a then dropWhile p b else dropWhile p a ++ b.
Proof.
  induction a as [|c a IH]; simpl; auto. destruct (p c); simpl; auto.
Qed.

(** A fraction is its kept digits followed by zeros. *)
Lemma trailing_zeros_split (fp : chars) :
  exists k, fp = replace_trailing_zeros fp ++ repeat "0" k.
Proof.
  unfold replace_trailing_zeros.
  exists (List.length (takeWhile is_zero_char (rev fp))).
  rewrite <- (rev_involutive fp) at 1. rewrite <- (take_drop is_zero_char (rev fp)) at 1.
  rewrite rev_app_distr. f_equal.
  rewrite (all_zero_repeat _ (takeWhile_all is_zero_char (rev fp))) at 1.
  apply rev_repeat.
Qed.

Lemma forallb_rev (p : ascii -> bool) (s : chars) : forallb p (rev s) = forallb p s.
Proof.
  induction s as [|c s IH]; simpl; auto.
  rewrite forallb_app, IH. simpl. rewrite andb_true_r. apply andb_comm.
Qed.

Lemma dropWhile_forallb (p q : ascii -> bool) (s : chars) :
  forallb q s = true -> forallb q (dropWhile p s) = true.
Proof.
  induction s as [|c s IH]; simpl; auto. intros H. apply andb_true_iff in H.
  destruct H as [Hc Hs]. destruct (p c); simpl; auto. now rewrite Hc, Hs.
Qed.

Lemma trailing_zeros_digits (fp : chars) :
  forallb is_digit fp = true -> forallb is_digit (replace_trailing_zeros fp) = true.
Proof.
  intros H. unfold replace_trailing_zeros. rewrite forallb_rev.
  apply dropWhile_forallb. now rewrite forallb_rev.
Qed.

Lemma trailing_zeros_empty (fp : chars) :
  is_empty (replace_trailing_zeros fp) = true -> forallb is_zero_char fp = true.
Proof.
  intros H. destruct (trailing_zeros_split fp) as [k Hk].
  destruct (replace_trailing_zeros fp); [|discriminate].
  rewrite Hk. apply repeat_all_zero.
Qed.

(** On digits, [replace_leading_zeros] keeps one zero of a string of
    zeros and otherwise removes the leading zeros. *)
Lemma leading_zeros_digits (ip : chars) :
  forallb is_digit ip = true ->
  replace_leading_zeros ip
  = match dropWhile is_zero_char ip with
    | [] => match ip with [] => [] | _ => ["0"] end
    | t => t
    end.
Proof.
  induction ip as [|c ip IH]; intros H; [reflexivity|].
  simpl in H. apply andb_true_iff in H. destruct H as [Hc Hds]. specialize (IH Hds).
  cbn [replace_leading_zeros dropWhile].
  destruct (is_zero_char c) eqn:Ec; [|reflexivity].
  apply is_zero_char_iff in Ec. subst c.
  destruct ip as [|c' ip']; [reflexivity|].
  simpl in Hds. apply andb_true_iff in Hds. destruct Hds as [Hc' _]. rewrite Hc'.
  destruct (is_zero_char c') eqn:Ec'.
  - rewrite IH. cbn [dropWhile]. rewrite Ec'.
    destruct (dropWhile is_zero_char ip'); reflexivity.
  - cbn [dropWhile]. now rewrite Ec'.
Qed.

Lemma kept_integer_strip0 (ip : chars) :
  forallb is_digit ip = true -> kept_integer ip = strip0 ip.
Proof.
  intros H. unfold kept_integer, strip0. rewrite (leading_zeros_digits ip H).
  destruct (dropWhile is_zero_char ip) as [|a t]; [|reflexivity].
  destruct ip; reflexivity.
Qed.

Lemma leading_zeros_empty (ip : chars) :
  forallb is_digit ip = true ->
  is_empty (replace_leading_zeros ip) = is_empty ip.
Proof.
  intros H. rewrite (leading_zeros_digits ip H).
  destruct (dropWhile is_zero_char ip) as [|a t] eqn:E.
  - destruct ip; reflexivity.
  - destruct ip; [discriminate | reflexivity].
Qed.

Lemma strip0_digits (ds : chars) :
  forallb is_digit ds = true -> forallb is_digit (strip0 ds) = true.
Proof.
  intros H. unfold strip0.
  pose proof (dropWhile_forallb is_zero_char is_digit ds H) as Hd.
  destruct (dropWhile is_zero_char ds); [reflexivity | exact Hd].
Qed.

Lemma strip0_value (ds : chars) :
  forallb is_digit ds = true -> of_digits (strip0 ds) = of_digits ds.
Proof.
  intros H. rewrite <- (toString_of_digits ds H). apply of_digits_toString.
Qed.

Lemma strip0_nonempty (ds : chars) : strip0 ds <> [].
Proof. unfold strip0. destruct (dropWhile is_zero_char ds); discriminate. Qed.

Lemma of_digits_app_strip0 (ip g : chars) :
  forallb is_digit ip = true ->
  of_digits (strip0 ip ++ g) = of_digits (ip ++ g).
Proof.
  intros H. rewrite !of_digits_app_value, strip0_value by assumption. reflexivity.
Qed.

Lemma fraction_to_length (d : nat) (fp : chars) : List.length (fraction_to d fp) = d.
Proof.
  unfold fraction_to. rewrite length_firstn, length_app, repeat_length. lia.
Qed.

Lemma fraction_to_digits (d : nat) (fp : chars) :
  forallb is_digit fp = true -> forallb is_digit (fraction_to d fp) = true.
Proof.
  intros H. unfold fraction_to.
  assert (Hall : forallb is_digit (fp ++ repeat "0" d) = true).
  { rewrite forallb_app, H. apply all_zero_digits, repeat_all_zero. }
  rewrite forallb_forall in *. intros x Hx. apply Hall. eapply firstn_incl; eauto.
Qed.

(** The fraction to [d] digits, from the digits [normalizeDecimalInput]
    keeps. *)
Lemma fraction_to_kept (d : nat) (fp : chars) :
  fraction_to d fp
  = if (d <? List.length (replace_trailing_zeros fp))%nat
    then firstn d (replace_trailing_zeros fp)
    else replace_trailing_zeros fp
         ++ repeat "0" (d - List.length (replace_trailing_zeros fp)).
Proof.
  destruct (trailing_zeros_split fp) as [k Hk].
  set (F := replace_trailing_zeros fp) in *.
  unfold fraction_to. rewrite Hk at 1. rewrite <- app_assoc, <- repeat_app, firstn_app.
  rewrite firstn_repeat.
  destruct (Nat.ltb_spec d (List.length F)).
  - replace (d - List.length F)%nat with 0%nat by lia. simpl. apply List.app_nil_r.
  - rewrite firstn_all2 by lia. f_equal. f_equal. lia.
Qed.

End ZeroFacts.

Section ScaledFacts.

Import JsString JsBigInt Decimal DecimalProps.
Local Open Scope char_scope.

Lemma BigInt_digits (ds : chars) :
  forallb is_digit ds = true -> BigInt ds = Ok (of_digits ds).
Proof. intros H. unfold BigInt. now rewrite H. Qed.

Lemma signed_with_sign (neg : bool) (n : N) :
  signed (if neg then (-1)%Z else 1%Z) n = with_sign neg n.
Proof. destruct neg; reflexivity. Qed.

Lemma with_sign_zero (neg : bool) : with_sign neg 0 = 0%Z.
Proof. destruct neg; reflexivity. Qed.

(** What [decimalToScaled] returns for a normal form. *)
Lemma scaled_of_normal_form (neg : bool) (ip fp : chars) (d : nat) :
  forallb is_digit ip = true -> forallb is_digit fp = true ->
  (let nrm := normal_form neg ip fp in
   let len := Z.of_nat (List.length (digits nrm)) in
   if (Z.of_nat d <? fractionLength nrm)%Z then
     let trimLength := (fractionLength nrm - Z.of_nat d)%Z in
     let cut := slice (digits nrm) 0 (len - trimLength) in
     let truncated := if is_empty cut then ["0"] else cut in
     let* result := BigInt truncated in
     Ok (signed (sign nrm) result)
   else
     let padded := padEnd0 (digits nrm) (len + (Z.of_nat d - fractionLength nrm)) in
     let* result := BigInt padded in
     Ok (signed (sign nrm) result))
  = Ok (with_sign neg (truncated_units ip fp d)).
Proof.
  intros Hip Hfp. unfold normal_form, truncated_units.
  set (F := replace_trailing_zeros fp).
  assert (HF : forallb is_digit F = true) by now apply trailing_zeros_digits.
  destruct (is_empty (replace_leading_zeros ip) && is_empty F) eqn:Ez.
  - (* the text reads as zero *)
    apply andb_true_iff in Ez. destruct Ez as [Ei Ef].
    rewrite leading_zeros_empty in Ei by assumption.
    destruct ip; [|discriminate]. apply trailing_zeros_empty in Ef.
    cbn [zero_normalized digits fractionLength sign List.length app].
    replace (Z.of_nat d <? 0)%Z with false by (symmetry; apply Z.ltb_ge; lia).
    unfold padEnd0. cbn [List.length].
    replace (Z.to_nat (Z.of_nat 1 + (Z.of_nat d - 0) - Z.of_nat 1)) with d by lia.
    rewrite BigInt_digits by (simpl; apply all_zero_digits, repeat_all_zero).
    cbn [bind]. change (["0"] ++ repeat "0" d) with (repeat "0" (S d)).
    rewrite of_digits_zeros.
    assert (Hz : of_digits (fraction_to d fp) = 0%N).
    { apply of_digits_zero_iff.
      - apply fraction_to_digits. now apply all_zero_digits.
      - unfold fraction_to. rewrite forallb_forall. intros x Hx. apply firstn_incl in Hx.
        assert (Hall : forallb is_zero_char (fp ++ repeat "0" d) = true)
          by (rewrite forallb_app, Ef; apply repeat_all_zero).
        rewrite forallb_forall in Hall. now apply Hall. }
    rewrite Hz. now rewrite with_sign_zero.
  - cbn [digits fractionLength sign].
    rewrite (kept_integer_strip0 ip Hip), length_app.
    rewrite (fraction_to_kept d fp). fold F.
    assert (Hk : forallb is_digit (strip0 ip) = true) by now apply strip0_digits.
    destruct (Nat.ltb_spec d (List.length F)) as [Hlt|Hge].
    + replace (Z.of_nat d <? Z.of_nat (List.length F))%Z with true
        by (symmetry; apply Z.ltb_lt; lia).
      replace (Z.of_nat (List.length (strip0 ip) + List.length F)
               - (Z.of_nat (List.length F) - Z.of_nat d))%Z
        with (Z.of_nat (List.length (strip0 ip) + d)) by lia.
      rewrite slice_prefix by (rewrite length_app; lia).
      rewrite firstn_app, firstn_all2 by lia.
      replace (List.length (strip0 ip) + d - List.length (strip0 ip))%nat with d by lia.
      assert (Hne : is_empty (strip0 ip ++ firstn d F) = false).
      { pose proof (strip0_nonempty ip). destruct (strip0 ip); [congruence | reflexivity]. }
      rewrite Hne, BigInt_digits.
      * cbn [bind]. rewrite signed_with_sign, of_digits_app_strip0 by assumption. reflexivity.
      * rewrite forallb_app, Hk. simpl. rewrite forallb_forall in *.
        intros x Hx. apply HF. eapply firstn_incl; eauto.
    + replace (Z.of_nat d <? Z.of_nat (List.length F))%Z with false
        by (symmetry; apply Z.ltb_ge; lia).
      unfold padEnd0. rewrite length_app.
      replace (Z.to_nat (Z.of_nat (List.length (strip0 ip) + List.length F)
                         + (Z.of_nat d - Z.of_nat (List.length F))
                         - Z.of_nat (List.length (strip0 ip) + List.length F)))
        with (d - List.length F)%nat by lia.
      rewrite BigInt_digits.
      * cbn [bind]. rewrite signed_with_sign, <- app_assoc, of_digits_app_strip0 by assumption.
        reflexivity.
      * rewrite !forallb_app, Hk, HF. apply all_zero_digits, repeat_all_zero.
Qed.

(** [decimalToScaled] on a decimal text: its value cut after [d]
    fractional digits, in units of [10^-d], with its sign. *)
Lemma decimalToScaled_text (s : chars) (neg : bool) (ip fp : chars) (d : Z) :
  (0 <= d)%Z -> decimal_parts s = Some (neg, ip, fp) ->
  (if (d <? 0)%Z then Throw NegativeDecimals else
     let* nrm := normalizeText s in
     let len := Z.of_nat (List.length (digits nrm)) in
     if (d <? fractionLength nrm)%Z then
       let trimLength := (fractionLength nrm - d)%Z in
       let cut := slice (digits nrm) 0 (len - trimLength) in
       let truncated := if is_empty cut then ["0"] else cut in
       let* result := BigInt truncated in
       Ok (signed (sign nrm) result)
     else
       let padded := padEnd0 (digits nrm) (len + (d - fractionLength nrm)) in
       let* result := BigInt padded in
       Ok (signed (sign nrm) result))
  = Ok (with_sign neg (truncated_units ip fp (Z.to_nat d))).
Proof.
  intros Hd Hp. destruct (normalizeText_parts s neg ip fp Hp) as (Hn & Hip & Hfp).
  replace (d <? 0)%Z with false by (symmetry; apply Z.ltb_ge; lia).
  rewrite Hn. cbn [bind].
  pose proof (scaled_of_normal_form neg ip fp (Z.to_nat d) Hip Hfp) as H.
  rewrite Z2Nat.id in H by assumption. exact H.
Qed.

Lemma decimalToScaled_string (s : string) (neg : bool) (ip fp : chars) (d : Z) :
  (0 <= d)%Z -> decimal_parts (of_string s) = Some (neg, ip, fp) ->
  decimalToScaled (VString s) d = Ok (with_sign neg (truncated_units ip fp (Z.to_nat d))).
Proof. intros Hd Hp. now apply decimalToScaled_text. Qed.

End ScaledFacts.

Section RenderFacts.

Import JsString JsBigInt Decimal DecimalProps.
Local Open Scope char_scope.

Lemma with_sign_negative (neg : bool) (n : N) :
  (with_sign neg n <? 0)%Z = neg && negb (n =? 0)%N.
Proof.
  destruct neg; simpl.
  - destruct (N.eqb_spec n 0); simpl; [subst; reflexivity|]. apply Z.ltb_lt. lia.
  - apply Z.ltb_ge. lia.
Qed.

Lemma with_sign_abs (neg : bool) (n : N) : Z.abs_N (with_sign neg n) = n.
Proof. destruct neg; simpl; lia. Qed.

Lemma of_digits_eqb_zero (ds : chars) :
  forallb is_digit ds = true -> (of_digits ds =? 0)%N = forallb is_zero_char ds.
Proof.
  intros H. pose proof (of_digits_zero_iff ds H) as Hz.
  destruct (N.eqb_spec (of_digits ds) 0) as [E|E];
    destruct (forallb is_zero_char ds); auto.
  - symmetry. now apply Hz.
  - exfalso. apply E. now apply Hz.
Qed.

Lemma replace_dot_zeros_digits (g : chars) :
  forallb is_digit g = true -> replace_dot_zeros g = g.
Proof.
  induction g as [|c g IH]; intros H; [reflexivity|].
  simpl in H. apply andb_true_iff in H. destruct H as [Hc Hg].
  cbn [replace_dot_zeros]. rewrite (digit_not_dot c Hc). simpl. now rewrite IH.
Qed.

Lemma replace_dot_zeros_point (k g : chars) :
  forallb is_digit k = true -> forallb is_digit g = true ->
  replace_dot_zeros (k ++ "." :: g)
  = if negb (Nat.eqb (List.length g) 0) && forallb is_zero_char g then k
    else k ++ "." :: g.
Proof.
  intros Hk Hg. induction k as [|c k IH].
  - cbn [app replace_dot_zeros]. change (Ascii.eqb "." ".") with true. cbn [andb].
    destruct (negb (Nat.eqb (List.length g) 0) && forallb is_zero_char g); [reflexivity|].
    now rewrite replace_dot_zeros_digits.
  - simpl in Hk. apply andb_true_iff in Hk. destruct Hk as [Hc Hk'].
    cbn [app replace_dot_zeros]. rewrite (digit_not_dot c Hc). cbn [andb].
    rewrite (IH Hk').
    destruct (negb (Nat.eqb (List.length g) 0) && forallb is_zero_char g); reflexivity.
Qed.

Lemma replace_final_dot_last (s : chars) (c : ascii) :
  Ascii.eqb c "." = false -> replace_final_dot (s ++ [c]) = s ++ [c].
Proof.
  intros Hc. induction s as [|a s IH]; cbn [app replace_final_dot].
  - now rewrite Hc.
  - rewrite IH. destruct (s ++ [c]) eqn:E; [|reflexivity].
    destruct s; discriminate.
Qed.

Lemma replace_final_dot_digits_end (s g : chars) :
  g <> [] -> forallb is_digit g = true -> replace_final_dot (s ++ g) = s ++ g.
Proof.
  intros Hne Hg. destruct (exists_last Hne) as [g' [c E]]. subst g.
  rewrite forallb_app in Hg. apply andb_true_iff in Hg. destruct Hg as [_ Hc].
  simpl in Hc. rewrite andb_true_r in Hc.
  rewrite app_assoc. apply replace_final_dot_last. now apply digit_not_dot.
Qed.

Lemma strip0_length (g : chars) : g <> [] -> (List.length (strip0 g) <= List.length g)%nat.
Proof.
  intros Hne. unfold strip0.
  assert (Hd : (List.length (dropWhile is_zero_char g) <= List.length g)%nat).
  { rewrite <- (take_drop is_zero_char g) at 2. rewrite length_app. lia. }
  destruct (dropWhile is_zero_char g); [|exact Hd].
  destruct g; [congruence | simpl; lia].
Qed.

Lemma pad_strip0 (g : chars) :
  g <> [] ->
  repeat "0" (S (List.length g) - List.length (strip0 g)) ++ strip0 g = "0" :: g.
Proof.
  intros Hne. unfold strip0.
  pose proof (take_drop is_zero_char g) as Htd.
  pose proof (all_zero_repeat _ (takeWhile_all is_zero_char g)) as Hz.
  remember (takeWhile is_zero_char g) as z eqn:Ez.
  remember (dropWhile is_zero_char g) as r eqn:Er.
  clear Ez Er. subst g. set (n := List.length z) in *. clearbody n. subst z.
  rewrite length_app, repeat_length.
  destruct r as [|a t].
  - cbn [List.length]. replace (S (n + 0) - 1)%nat with n by lia.
    rewrite List.app_nil_r. symmetry. apply repeat_cons.
  - replace (S (n + List.length (a :: t)) - List.length (a :: t))%nat with (S n) by lia.
    reflexivity.
Qed.

Lemma strip0_zeros (ip : chars) : forallb is_zero_char ip = true -> strip0 ip = ["0"].
Proof. intros H. unfold strip0. now rewrite (dropWhile_all _ _ H). Qed.

Lemma strip0_app (ip g : chars) :
  strip0 (ip ++ g) = if forallb is_zero_char ip then strip0 g else strip0 ip ++ g.
Proof.
  unfold strip0. rewrite dropWhile_app.
  destruct (forallb is_zero_char ip) eqn:Ez; [reflexivity|].
  destruct (dropWhile is_zero_char ip) as [|a t] eqn:E; [|reflexivity].
  rewrite <- (take_drop is_zero_char ip), E, List.app_nil_r, takeWhile_all in Ez.
  discriminate.
Qed.

(** The text [scaledToDecimalString] gives for the units of a text cut
    after [d] fractional digits. *)
Lemma scaledToDecimalString_units (neg : bool) (ip g : chars) :
  forallb is_digit ip = true -> forallb is_digit g = true ->
  scaledToDecimalString (SBigint (with_sign neg (of_digits (ip ++ g))))
                        (Z.of_nat (List.length g))
  = Ok (to_string
          (let body := if forallb is_zero_char g then strip0 ip
                       else strip0 ip ++ ["."] ++ g in
           if neg && negb (forallb is_zero_char (ip ++ g)) then "-" :: body else body)).
Proof.
  intros Hip Hg.
  assert (Hall : forallb is_digit (ip ++ g) = true) by now rewrite forallb_app, Hip, Hg.
  unfold scaledToDecimalString. cbn [bind].
  rewrite with_sign_negative, with_sign_abs, (of_digits_eqb_zero _ Hall),
    (toString_of_digits _ Hall).
  set (negative := neg && negb (forallb is_zero_char (ip ++ g))).
  destruct g as [|c g'] eqn:Eg.
  - (* no fractional digits *)
    cbn [List.length forallb]. change (Z.of_nat 0 =? 0)%Z with true. cbv iota.
    rewrite List.app_nil_r. reflexivity.
  - rewrite <- Eg in *. set (d := List.length g).
    assert (Hne : g <> []) by (rewrite Eg; discriminate).
    assert (Hd : (1 <= d)%nat) by (unfold d; rewrite Eg; simpl; lia).
    replace (Z.of_nat d =? 0)%Z with false by (symmetry; apply Z.eqb_neq; lia).
    cbv iota.
    (* the digits that are split *)
    assert (Hsplit :
      (if (Z.of_nat (List.length (strip0 (ip ++ g))) <=? Z.of_nat d)%Z
       then padStart0 (strip0 (ip ++ g)) (Z.of_nat d + 1)
       else strip0 (ip ++ g)) = strip0 ip ++ g).
    { rewrite strip0_app.
      destruct (forallb is_zero_char ip) eqn:Ez.
      - (* the integer part is zero *)
        rewrite (strip0_zeros ip Ez).
        pose proof (strip0_length g Hne) as Hl. fold d in Hl.
        replace (Z.of_nat (List.length (strip0 g)) <=? Z.of_nat d)%Z with true
          by (symmetry; apply Z.leb_le; lia).
        unfold padStart0.
        replace (Z.to_nat (Z.of_nat d + 1 - Z.of_nat (List.length (strip0 g))))
          with (S (List.length g) - List.length (strip0 g))%nat by (fold d; lia).
        now rewrite pad_strip0.
      - rewrite length_app. fold d.
        pose proof (strip0_nonempty ip) as Hn0.
        destruct (strip0 ip) as [|a t]; [congruence|].
        replace (Z.of_nat (List.length (a :: t) + d) <=? Z.of_nat d)%Z with false
          by (symmetry; apply Z.leb_gt; simpl; lia).
        reflexivity. }
    rewrite Hsplit. clear Hsplit.
    pose proof (strip0_nonempty ip) as Hkne.
    pose proof (strip0_digits ip Hip) as Hk.
    set (k := strip0 ip) in *.
    rewrite length_app. fold d.
    replace (Z.of_nat (List.length k + d) - Z.of_nat d)%Z with (Z.of_nat (List.length k)) by lia.
    rewrite slice_prefix by (rewrite length_app; lia).
    rewrite slice_from_suffix by (rewrite length_app; lia).
    rewrite firstn_app, firstn_all, Nat.sub_diag, firstn_0, List.app_nil_r.
    rewrite skipn_app, skipn_all, Nat.sub_diag, skipn_0. cbn [app].
    assert (Hke : is_empty k = false) by (destruct k; [congruence | reflexivity]).
    rewrite Hke. change (k ++ "." :: g) with (k ++ "." :: g).
    rewrite (replace_dot_zeros_point k g Hk Hg).
    replace (Nat.eqb (List.length g) 0) with false
      by (symmetry; apply Nat.eqb_neq; fold d; lia).
    cbn [negb andb].
    destruct (forallb is_zero_char g) eqn:Ezg.
    + assert (Hfk : replace_final_dot k = k)
        by exact (replace_final_dot_digits_end [] k Hkne Hk).
      rewrite Hfk. reflexivity.
    + change (k ++ "." :: g) with (k ++ ["."] ++ g).
      rewrite app_assoc, (replace_final_dot_digits_end (k ++ ["."]) g Hne Hg).
      reflexivity.
Qed.

End RenderFacts.

(** C1 as amended.  For every decimal text [s] (white space aside: an
    optional minus sign, digits, optionally a point and digits) and every
    count [d >= 0], [scaledToDecimalString(decimalToScaled(s, d), d)] is
    [s] truncated to [d] fractional digits in fixed notation: the integer
    part without leading zeros, and then either nothing, when all [d]
    fractional digits are zero, or the point and all [d] fractional
    digits, trailing zeros included; a minus sign stands in front when the
    truncated value is negative. *)
Theorem roundtrip_fixed_notation (s : string) (d : Z) (neg : bool)
        (ip fp : JsString.chars) :
  (0 <= d)%Z ->
  DecimalProps.decimal_parts (JsString.of_string s) = Some (neg, ip, fp) ->
  DecimalProps.roundtrip s d
  = Ok (JsString.to_string (DecimalProps.fixed_notation neg ip fp (Z.to_nat d))).
Proof.
  intros Hd Hp. unfold DecimalProps.roundtrip.
  rewrite (decimalToScaled_string s neg ip fp d Hd Hp). cbn [bind].
  destruct (normalizeText_parts _ _ _ _ Hp) as (_ & Hip & Hfp).
  unfold DecimalProps.truncated_units.
  pose proof (scaledToDecimalString_units neg ip
                (DecimalProps.fraction_to (Z.to_nat d) fp) Hip
                (fraction_to_digits (Z.to_nat d) fp Hfp)) as H.
  rewrite fraction_to_length, Z2Nat.id in H by assumption. exact H.
Qed.

Lemma roundtrip_fixed_notation_witness :
  (0 <= 1)%Z
  /\ DecimalProps.roundtrip " -007.2500 " 1 = Ok "-7.2"%string
  /\ DecimalProps.roundtrip "12.000" 3 = Ok "12"%string.
Proof.
  split; [lia|]. split.
  - exact (roundtrip_fixed_notation " -007.2500 " 1 true
             (JsString.of_string "007") (JsString.of_string "2500")
             ltac:(lia) eq_refl).
  - exact (roundtrip_fixed_notation "12.000" 3 false
             (JsString.of_string "12") (JsString.of_string "000")
             ltac:(lia) eq_refl).
Defined.

(** C1, counterexample.  The text [1.5] with two decimals comes back as
    [1.50]; its canonical form, with the trailing zero stripped, is
    [1.5]. *)
Lemma trailing_zero_is_kept :
  DecimalProps.decimal_parts (JsString.of_string "1.5")
  = Some (false, JsString.of_string "1", JsString.of_string "5")
  /\ DecimalProps.roundtrip "1.5" 2 = Ok "1.50"%string
  /\ JsString.to_string
       (DecimalProps.canonical_notation false (JsString.of_string "1")
          (JsString.of_string "5") 2) = "1.5"%string
  /\ DecimalProps.roundtrip "1.5" 2
     <> Ok (JsString.to_string
              (DecimalProps.canonical_notation false (JsString.of_string "1")
                 (JsString.of_string "5") 2)).
Proof.
  vm_compute. repeat split; try reflexivity. discriminate.
Qed.

Section MinimumFacts.

Import JsString JsBigInt Decimal DecimalProps.
Local Open Scope char_scope.

Lemma digit_not_minus (c : ascii) : is_digit c = true -> Ascii.eqb c "-" = false.
Proof.
  destruct c as [[] [] [] [] [] [] [] []]; vm_compute; intros H; try discriminate H; reflexivity.
Qed.

Lemma digit_not_plus (c : ascii) : is_digit c = true -> Ascii.eqb c "+" = false.
Proof.
  destruct c as [[] [] [] [] [] [] [] []]; vm_compute; intros H; try discriminate H; reflexivity.
Qed.

Lemma digit_not_space (c : ascii) : is_digit c = true -> is_space c = false.
Proof.
  destruct c as [[] [] [] [] [] [] [] []]; vm_compute; intros H; try discriminate H; reflexivity.
Qed.

(** [Number(s)] on a decimal text. *)
Lemma of_text_parts (s : chars) (neg : bool) (ip fp : chars) :
  decimal_parts s = Some (neg, ip, fp) ->
  JsNumber.of_text s
  = if Nat.eqb (List.length (ip ++ fp)) 0 then JsNumber.IsNaN
    else JsNumber.round_class neg (of_digits (ip ++ fp)) (List.length fp).
Proof.
  unfold decimal_parts, JsNumber.of_text.
  destruct (trim s) as [|c r]; [discriminate|].
  destruct (Ascii.eqb c "-") eqn:Em; cbn [orb].
  - destruct (dropWhile is_digit r) as [|d w] eqn:Ed.
    + intros H. inversion H; subst. cbn [forallb andb].
      destruct (Nat.eqb (List.length (takeWhile is_digit r ++ [])) 0); reflexivity.
    + destruct (Ascii.eqb d "."); cbn [andb]; [|discriminate].
      destruct (forallb is_digit w) eqn:Ew; [|discriminate].
      intros H. inversion H; subst. cbn [andb].
      destruct (Nat.eqb (List.length (takeWhile is_digit r ++ fp)) 0); reflexivity.
  - destruct (Ascii.eqb c "+") eqn:Ep.
    + apply Ascii.eqb_eq in Ep. subst c. cbn [dropWhile]. 
      change (is_digit "+") with false. cbv iota.
      change (Ascii.eqb "+" ".") with false. cbn [andb]. discriminate.
    + remember (c :: r) as u eqn:Eu. clear Eu.
      destruct (dropWhile is_digit u) as [|d w] eqn:Ed.
      * intros H. inversion H; subst. cbn [forallb andb].
        destruct (Nat.eqb (List.length (takeWhile is_digit u ++ [])) 0); reflexivity.
      * destruct (Ascii.eqb d "."); cbn [andb]; [|discriminate].
        destruct (forallb is_digit w) eqn:Ew; [|discriminate].
        intros H. inversion H; subst. cbn [andb].
        destruct (Nat.eqb (List.length (takeWhile is_digit u ++ fp)) 0); reflexivity.
Qed.

Lemma fraction_to_zero (d : nat) (fp : chars) :
  forallb is_zero_char fp = true -> forallb is_zero_char (fraction_to d fp) = true.
Proof.
  intros H. unfold fraction_to. rewrite forallb_forall. intros x Hx.
  apply firstn_incl in Hx.
  assert (Hall : forallb is_zero_char (fp ++ repeat "0" d) = true)
    by (rewrite forallb_app, H; apply repeat_all_zero).
  rewrite forallb_forall in Hall. now apply Hall.
Qed.

Lemma sgn_with_sign (neg : bool) (n : N) :
  n <> 0%N -> Z.sgn (with_sign neg n) = if neg then (-1)%Z else 1%Z.
Proof. intros H. destruct neg; simpl; lia. Qed.

Lemma overflow_bound : (1 <= 2 ^ 1024 - 2 ^ 970)%N.
Proof. apply N.leb_le. vm_compute. reflexivity. Qed.

(** [scaleQuantityWithMinimum] on a decimal text. *)
Lemma scaleQuantityWithMinimum_text (s : string) (d : Z) :
  (0 <= d)%Z -> accepted (VString s) ->
  exists r, scaleQuantityWithMinimum (VString s) d = Ok r
            /\ Z.sgn r = input_sign (VString s).
Proof.
  intros Hd Ha. unfold accepted, input_sign in *.
  destruct (decimal_parts (of_string s)) as [[[neg ip] fp]|] eqn:Hp; [|contradiction].
  destruct (normalizeText_parts _ _ _ _ Hp) as (_ & Hip & Hfp).
  assert (Hall : forallb is_digit (ip ++ fp) = true) by now rewrite forallb_app, Hip, Hfp.
  unfold scaleQuantityWithMinimum.
  rewrite (decimalToScaled_string s neg ip fp d Hd Hp). cbn [bind].
  set (units := truncated_units ip fp (Z.to_nat d)).
  assert (Hunits : units <> 0%N -> forallb is_zero_char (ip ++ fp) = false).
  { intros Hn. apply not_true_iff_false. intros Hz. apply Hn.
    rewrite forallb_app in Hz. apply andb_true_iff in Hz. destruct Hz as [Hzi Hzf].
    unfold units, truncated_units. apply of_digits_zero_iff.
    - rewrite forallb_app, Hip. now apply fraction_to_digits.
    - rewrite forallb_app, Hzi. now apply fraction_to_zero. }
  destruct (N.eq_dec units 0) as [Hz|Hnz].
  - (* the scaled value is zero: Number(value) decides *)
    rewrite Hz, with_sign_zero. change (negb (0 =? 0)%Z) with false. cbv iota.
    unfold Number_of. rewrite (of_text_parts _ _ _ _ Hp).
    destruct (Nat.eqb (List.length (ip ++ fp)) 0) eqn:El.
    + apply Nat.eqb_eq in El. destruct (ip ++ fp); [|discriminate].
      exists 0%Z. split; reflexivity.
    + unfold JsNumber.round_class.
      destruct (N.eqb_spec (of_digits (ip ++ fp)) 0) as [Em|Em].
      * exists 0%Z. split; [reflexivity|].
        apply (of_digits_zero_iff _ Hall) in Em. now rewrite Em.
      * assert (Enz : forallb is_zero_char (ip ++ fp) = false).
        { apply not_true_iff_false. intros E. apply Em. now apply of_digits_zero_iff. }
        rewrite Enz in *. destruct Ha as [Ha|Ha]; [discriminate|].
        replace (of_digits (ip ++ fp) * 2 ^ 1075 <=? 10 ^ N.of_nat (List.length fp))%N
          with false by (symmetry; apply N.leb_gt; exact Ha).
        assert (Hsmall : (of_digits (ip ++ fp) < 10 ^ N.of_nat (List.length fp))%N).
        { unfold units, truncated_units in Hz.
          apply of_digits_zero_iff in Hz;
            [|rewrite forallb_app, Hip; now apply fraction_to_digits].
          rewrite forallb_app in Hz. apply andb_true_iff in Hz. destruct Hz as [Hzi _].
          rewrite of_digits_app_value.
          assert (E0 : of_digits ip = 0%N) by now apply of_digits_zero_iff.
          rewrite E0. simpl. now apply of_digits_bound. }
        replace ((2 ^ 1024 - 2 ^ 970) * 10 ^ N.of_nat (List.length fp)
                 <=? of_digits (ip ++ fp))%N with false.
        -- cbn [JsNumber.class_isFinite JsNumber.class_isZero JsNumber.class_isNegative
                negb orb].
           exists (if neg then (-1)%Z else 1%Z). split; [reflexivity|].
           destruct neg; reflexivity.
        -- symmetry. apply N.leb_gt. pose proof overflow_bound.
           set (B := (2 ^ 1024 - 2 ^ 970)%N) in *. clearbody B. nia.
  - replace (negb (with_sign neg units =? 0)%Z) with true.
    + exists (with_sign neg units). split; [reflexivity|].
      rewrite (Hunits Hnz). now apply sgn_with_sign.
    + symmetry. apply negb_true_iff, Z.eqb_neq. destruct neg; simpl; lia.
Qed.

(** ... on a bigint. *)
Lemma scaleQuantityWithMinimum_bigint (z : Z) (d : Z) :
  (0 <= d)%Z ->
  exists r, scaleQuantityWithMinimum (VBigint z) d = Ok r /\ Z.sgn r = Z.sgn z.
Proof.
  intros Hd. unfold scaleQuantityWithMinimum, decimalToScaled.
  replace (d <? 0)%Z with false by (symmetry; apply Z.ltb_ge; lia).
  cbn [normalizeDecimalInput bind digits fractionLength sign].
  replace (d <? 0)%Z with false by (symmetry; apply Z.ltb_ge; lia).
  unfold padEnd0.
  set (ds := toString (Z.abs_N z)).
  replace (Z.to_nat (Z.of_nat (List.length ds) + (d - 0) - Z.of_nat (List.length ds)))
    with (Z.to_nat d) by lia.
  rewrite BigInt_digits
    by (rewrite forallb_app; unfold ds; rewrite toString_digits;
        apply all_zero_digits, repeat_all_zero).
  cbn [bind]. rewrite of_digits_app_value, of_digits_zeros, repeat_length. unfold ds.
  rewrite of_digits_toString, N.add_0_r.
  set (p := (10 ^ N.of_nat (Z.to_nat d))%N).
  assert (Hp : (0 < p)%N) by (apply N.neq_0_lt_0, N.pow_nonzero; lia).
  destruct (Z.eq_dec z 0) as [->|Hz].
  - exists 0%Z. split; reflexivity.
  - assert (Hm : (Z.abs_N z * p <> 0)%N) by (apply N.neq_mul_0; split; lia).
    set (m := (Z.abs_N z * p)%N) in *.
    assert (Hs : signed (if (z <? 0)%Z then (-1)%Z else 1%Z) m <> 0%Z).
    { clearbody m. unfold signed. destruct (z <? 0)%Z; simpl; lia. }
    replace (negb (signed (if (z <? 0)%Z then (-1)%Z else 1%Z) m =? 0)%Z) with true
      by (symmetry; apply negb_true_iff, Z.eqb_neq; exact Hs).
    eexists. split; [reflexivity|].
    assert (Hm0 : (0 < m)%N) by lia. clearbody m. unfold signed.
    destruct (Z.ltb_spec z 0); simpl; lia.
Qed.


Lemma trim_id (t : chars) :
  match t with c :: _ => is_space c = false | [] => True end ->
  match rev t with c :: _ => is_space c = false | [] => True end ->
  trim t = t.
Proof.
  intros Hh Hl. unfold trim, trimStart, trimEnd.
  assert (E1 : dropWhile is_space t = t).
  { destruct t as [|c t']; [reflexivity|]. simpl. now rewrite Hh. }
  rewrite E1.
  assert (E2 : dropWhile is_space (rev t) = rev t).
  { destruct (rev t) as [|c t']; [reflexivity|]. simpl. now rewrite Hl. }
  rewrite E2. apply rev_involutive.
Qed.

Lemma take_drop_app (p : ascii -> bool) (a b : chars) :
  forallb p a = true ->
  match b with c :: _ => p c = false | [] => True end ->
  takeWhile p (a ++ b) = a /\ dropWhile p (a ++ b) = b.
Proof.
  intros Ha Hb. induction a as [|c a IH]; simpl.
  - destruct b as [|c b']; [auto|]. simpl. rewrite Hb. auto.
  - simpl in Ha. apply andb_true_iff in Ha. destruct Ha as [Hc Ha].
    rewrite Hc. destruct (IH Ha) as [-> ->]. auto.
Qed.

Lemma last_digit_not_space (pre g : chars) :
  g <> [] -> forallb is_digit g = true ->
  match rev (pre ++ g) with c :: _ => is_space c = false | [] => True end.
Proof.
  intros Hne Hg. destruct (exists_last Hne) as [g' [c E]]. subst g.
  rewrite forallb_app in Hg. apply andb_true_iff in Hg. destruct Hg as [_ Hc].
  simpl in Hc. rewrite andb_true_r in Hc.
  rewrite app_assoc, rev_app_distr. simpl. now apply digit_not_space.
Qed.

(** The reading of a text that is a sign, digits and, possibly, a point
    and digits. *)
Lemma decimal_parts_plain (neg : bool) (ip fp : chars) (pointed : bool) :
  ip <> [] -> forallb is_digit ip = true ->
  (if pointed then fp <> [] else fp = []) -> forallb is_digit fp = true ->
  decimal_parts ((if neg then ["-"] else []) ++ ip
                 ++ (if pointed then "." :: fp else []))
  = Some (neg, ip, fp).
Proof.
  intros Hne Hip Hp Hfp.
  set (rest := if pointed then "." :: fp else []).
  assert (Hrest : match rest with c :: _ => is_digit c = false | [] => True end).
  { unfold rest. destruct pointed; [reflexivity | exact I]. }
  destruct (take_drop_app is_digit ip rest Hip Hrest) as [Ht Hd].
  assert (Hlast : forall pre,
             match rev (pre ++ ip ++ rest) with
             | c :: _ => is_space c = false | [] => True end).
  { intros pre. unfold rest. destruct pointed.
    - replace (pre ++ ip ++ "." :: fp) with ((pre ++ ip ++ ["."]) ++ fp)
        by (rewrite <- !app_assoc; reflexivity).
      now apply last_digit_not_space.
    - rewrite List.app_nil_r. now apply last_digit_not_space. }
  unfold decimal_parts.
  destruct neg.
  - rewrite trim_id; [| reflexivity | apply (Hlast ["-"])].
    cbn [app]. change (Ascii.eqb "-" "-") with true. cbv iota.
    rewrite Ht, Hd. unfold rest. destruct pointed.
    + change (Ascii.eqb "." ".") with true. now rewrite Hfp.
    + now rewrite Hp.
  - cbn [app].
    assert (Hhead : match ip ++ rest with
                    | c :: _ => is_digit c = true | [] => False end).
    { destruct ip as [|a ip']; [congruence|]. simpl in Hip.
      apply andb_true_iff in Hip. now cbn [app]. }
    rewrite trim_id; [| | apply (Hlast [])].
    + destruct (ip ++ rest) as [|c r] eqn:E; [contradiction|].
      rewrite (digit_not_minus c Hhead). cbv zeta iota.
      rewrite Ht, Hd. unfold rest. destruct pointed.
      * change (Ascii.eqb "." ".") with true. now rewrite Hfp.
      * now rewrite Hp.
    + destruct (ip ++ rest) as [|c r]; [exact I|]. now apply digit_not_space.
Qed.

Lemma toString_nonempty (n : N) : toString n <> [].
Proof.
  rewrite <- (of_digits_toString n) at 1.
  rewrite toString_of_digits by apply toString_digits. apply strip0_nonempty.
Qed.

(** The text of a number that is printed without exponent reads as the
    number: same sign, digits and point only. *)
Lemma number_text_parts (neg : bool) (s : positive) (n : Z) :
  (-6 < n <= 21)%Z ->
  exists ip fp,
    decimal_parts (JsNumber.toString (JsNumber.Finite neg s n)) = Some (neg, ip, fp).
Proof.
  intros Hn. unfold JsNumber.toString.
  set (ds := toString (Npos s)).
  assert (Hds : forallb is_digit ds = true) by apply toString_digits.
  assert (Hne : ds <> []) by apply toString_nonempty.
  replace ((-6 <? n) && (n <=? 21))%Z with true
    by (symmetry; apply andb_true_iff; split; [apply Z.ltb_lt | apply Z.leb_le]; lia).
  cbv iota.
  assert (Hzeros : forall m, forallb is_digit (repeat "0" m) = true)
    by (intros m; apply all_zero_digits, repeat_all_zero).
  destruct (Z.leb_spec (Z.of_nat (List.length ds)) n) as [Hk|Hk].
  - exists (ds ++ repeat "0" (Z.to_nat (n - Z.of_nat (List.length ds)))), [].
    rewrite <- (List.app_nil_r (ds ++ repeat "0" _)) at 1.
    apply (decimal_parts_plain neg _ [] false); auto.
    + destruct ds; [congruence | discriminate].
    + now rewrite forallb_app, Hds, Hzeros.
  - destruct (Z.ltb_spec 0 n) as [Hpos|Hnonpos].
    + exists (firstn (Z.to_nat n) ds), (skipn (Z.to_nat n) ds).
      assert (Hsplit : forallb is_digit (firstn (Z.to_nat n) ds) = true
                       /\ forallb is_digit (skipn (Z.to_nat n) ds) = true).
      { rewrite <- (firstn_skipn (Z.to_nat n) ds), forallb_app in Hds.
        now apply andb_true_iff in Hds. }
      apply (decimal_parts_plain neg _ _ true); try tauto.
      * intros E. apply (f_equal (@List.length ascii)) in E.
        rewrite length_firstn in E. simpl in E. lia.
      * intros E. apply (f_equal (@List.length ascii)) in E.
        rewrite length_skipn in E. simpl in E. lia.
    + exists ["0"], (repeat "0" (Z.to_nat (- n)) ++ ds).
      change (of_string "0." ++ repeat "0" (Z.to_nat (- n)) ++ ds)
        with (["0"] ++ "." :: repeat "0" (Z.to_nat (- n)) ++ ds).
      apply (decimal_parts_plain neg ["0"] _ true); auto.
      * discriminate.
      * destruct (repeat "0" (Z.to_nat (- n))); simpl; [exact Hne | discriminate].
      * now rewrite forallb_app, Hzeros, Hds.
Qed.

Lemma decimalToScaled_number (x : JsNumber.number) (neg : bool) (ip fp : chars) (d : Z) :
  (0 <= d)%Z -> JsNumber.isFinite x = true ->
  decimal_parts (JsNumber.toString x) = Some (neg, ip, fp) ->
  decimalToScaled (VNumber x) d = Ok (with_sign neg (truncated_units ip fp (Z.to_nat d))).
Proof.
  intros Hd Hf Hp. unfold decimalToScaled, normalizeDecimalInput.
  rewrite Hf. cbn [negb]. now apply decimalToScaled_text.
Qed.

Lemma scaleQuantityWithMinimum_number (x : JsNumber.number) (d : Z) :
  (0 <= d)%Z -> accepted (VNumber x) ->
  exists r, scaleQuantityWithMinimum (VNumber x) d = Ok r
            /\ Z.sgn r = input_sign (VNumber x).
Proof.
  intros Hd Ha. destruct x as [| |  |neg s n]; try contradiction.
  - (* zero *)
    unfold scaleQuantityWithMinimum.
    rewrite (decimalToScaled_number JsNumber.Zero false ["0"] [] d Hd eq_refl eq_refl).
    cbn [bind].
    assert (Hz : truncated_units ["0"] [] (Z.to_nat d) = 0%N).
    { unfold truncated_units, fraction_to. cbn [app].
      rewrite firstn_all2 by (rewrite repeat_length; lia).
      change ("0" :: repeat "0" (Z.to_nat d)) with (repeat "0" (S (Z.to_nat d))).
      apply of_digits_zeros. }
    rewrite Hz. exists 0%Z. split; reflexivity.
  - simpl in Ha. destruct (number_text_parts neg s n Ha) as [ip [fp Hp]].
    unfold scaleQuantityWithMinimum.
    rewrite (decimalToScaled_number (JsNumber.Finite neg s n) neg ip fp d Hd eq_refl Hp). cbn [bind].
    set (units := truncated_units ip fp (Z.to_nat d)).
    destruct (N.eq_dec units 0) as [Hz|Hnz].
    + rewrite Hz, with_sign_zero. change (negb (0 =? 0)%Z) with false. cbv iota.
      cbn [Number_of JsNumber.classify JsNumber.class_isFinite JsNumber.class_isZero
           JsNumber.class_isNegative negb orb input_sign].
      exists (if neg then (-1)%Z else 1%Z). split; [reflexivity|].
      destruct neg; reflexivity.
    + replace (negb (with_sign neg units =? 0)%Z) with true
        by (symmetry; apply negb_true_iff, Z.eqb_neq; destruct neg; simpl; lia).
      exists (with_sign neg units). split; [reflexivity|].
      cbn [input_sign]. now apply sgn_with_sign.
Qed.

End MinimumFacts.

(** The minimum step on the inputs the parser takes.  For a count
    [d >= 0] and an input that [decimalToScaled] accepts and that [Number]
    does not round to zero (any bigint; a zero or a finite number printed
    without exponent; a decimal text that is zero or larger in magnitude
    than [2^-1075]), [scaleQuantityWithMinimum] returns an integer with the
    sign of the input, so a nonzero one for a nonzero input, also where
    [decimalToScaled] gives 0.  In particular the text [0.00001] with 4
    decimals scales to 0 and, with the minimum, to 1. *)
Theorem scaleQuantityWithMinimum_sign (x : Decimal.DecimalInput) (d : Z) :
  (0 <= d)%Z -> DecimalProps.accepted x ->
  (exists r, Decimal.scaleQuantityWithMinimum x d = Ok r
             /\ Z.sgn r = DecimalProps.input_sign x)
  /\ Decimal.decimalToScaled (Decimal.VString "0.00001") 4 = Ok 0%Z
  /\ Decimal.scaleQuantityWithMinimum (Decimal.VString "0.00001") 4 = Ok 1%Z.
Proof.
  intros Hd Ha. split; [| split; vm_compute; reflexivity].
  destruct x as [s|x|z].
  - now apply scaleQuantityWithMinimum_text.
  - now apply scaleQuantityWithMinimum_number.
  - now apply scaleQuantityWithMinimum_bigint.
Qed.

Lemma scaleQuantityWithMinimum_sign_witness :
  (0 <= 4)%Z
  /\ DecimalProps.accepted (Decimal.VNumber (JsNumber.Finite true 1 (-4)))
  /\ exists r,
       Decimal.scaleQuantityWithMinimum
         (Decimal.VNumber (JsNumber.Finite true 1 (-4))) 4 = Ok r
       /\ Z.sgn r = (-1)%Z.
Proof.
  split; [lia|]. split; [simpl; lia|].
  exact (proj1 (scaleQuantityWithMinimum_sign
                  (Decimal.VNumber (JsNumber.Finite true 1 (-4))) 4
                  ltac:(lia) ltac:(simpl; lia))).
Defined.

(** C4, at the failing input.  The number [1e-7] is positive, not zero,
    and [scaleQuantityWithMinimum(1e-7, 4)] returns no integer: a number
    is read from its [toString()], which is [1e-7] here, and the format
    guard of [normalizeDecimalInput] throws "Invalid decimal format" on
    it.  The claim, and the unit test that raises tiny positive quantities
    to the minimum step, call for 1 scaled unit, which is what the same
    quantity gets when it is passed as the string [0.0000001]. *)
Theorem exponent_notation_is_rejected :
  let tiny := Decimal.VNumber (JsNumber.Finite false 1 (-6)) in
  JsString.to_string (JsNumber.toString (JsNumber.Finite false 1 (-6)))
  = "1e-7"%string
  /\ DecimalProps.input_sign tiny = 1%Z
  /\ Decimal.scaleQuantityWithMinimum tiny 4 = Throw InvalidDecimalFormat
  /\ Decimal.scaleQuantityWithMinimum (Decimal.VString "0.0000001") 4 = Ok 1%Z.
Proof. repeat split; vm_compute; reflexivity. Qed.

(** A decimal text below [2^-1075]: it scales to 0, [Number] reads it as
    0, and the result stays 0 although the text is not zero. *)
Example tiny_text_stays_zero :
  let s := JsString.to_string
             (JsString.of_string "0." ++ repeat "0"%char 323
              ++ JsString.of_string "1")%list in
  DecimalProps.input_sign (Decimal.VString s) = 1%Z
  /\ Decimal.scaleQuantityWithMinimum (Decimal.VString s) 4 = Ok 0%Z.
Proof. split; vm_compute; reflexivity. Qed.

(** The cases of the unit tests: the numbers 0.00001, -0.00001, 0 and
    0.0002 with 4 decimals. *)
Example scaleQuantityWithMinimum_tests :
  Decimal.scaleQuantityWithMinimum (Decimal.VNumber (JsNumber.Finite false 1 (-4))) 4
  = Ok 1%Z
  /\ Decimal.scaledToDecimalString (Decimal.SBigint 1) 4 = Ok "0.0001"%string
  /\ Decimal.scaleQuantityWithMinimum (Decimal.VNumber (JsNumber.Finite true 1 (-4))) 4
     = Ok (-1)%Z
  /\ Decimal.scaledToDecimalString (Decimal.SBigint (-1)) 4 = Ok "-0.0001"%string
  /\ Decimal.scaleQuantityWithMinimum (Decimal.VNumber JsNumber.Zero) 4 = Ok 0%Z
  /\ Decimal.scaleQuantityWithMinimum (Decimal.VNumber (JsNumber.Finite false 2 (-3))) 4
     = Decimal.decimalToScaled (Decimal.VNumber (JsNumber.Finite false 2 (-3))) 4.
Proof. repeat split; vm_compute; reflexivity. Qed.

(** * The three operations *)

Section FacadeFacts.

Import Facade FacadeProps.

Variables (CreateOrderParams Conversion AsterOrder NonceState : Type).
Variable nonce_next : NonceState -> result (Z * Z) * NonceState.
Variable nonce_acknowledgeFailure : Z -> NonceState -> NonceState.
Variable nonce_init : NonceState -> result unit * NonceState.
Variable getOrderBooks : result (list OrderBookMetadata).
Variable getAccountDetails : bool -> string -> result bool.
Variable connect : SocketFate.
Variable mapCreateOrderParams :
  Z -> World Conversion NonceState -> CreateOrderParams -> result Conversion.
Variable sign : SignRequest Conversion -> result SignedTx.
Variable createAuthToken : Z -> result string.
Variable sendTransaction : SignedTx -> string -> result string.
Variable lighterOrderToAster : Conversion -> Z -> result AsterOrder.
Variable DEFAULT_AUTH_TOKEN_BUFFER_MS : Z.
Variable toUpperCase : string -> string.
Variable marketSymbol : string.
Variable l1Address : option string.
Variable LIGHTER_DEBUG : bool.

Local Abbreviation W := (World Conversion NonceState).
Local Abbreviation Step := (M Conversion NonceState).
Local Abbreviation authToken :=
  (ensureAuthToken (Conversion := Conversion) (NonceState := NonceState)
     createAuthToken DEFAULT_AUTH_TOKEN_BUFFER_MS).
Local Abbreviation initialised :=
  (ensureInitialized (Conversion := Conversion) (NonceState := NonceState)
     nonce_init getOrderBooks getAccountDetails connect createAuthToken
     DEFAULT_AUTH_TOKEN_BUFFER_MS toUpperCase marketSymbol l1Address).
Local Abbreviation invoked :=
  (invoke nonce_next nonce_acknowledgeFailure nonce_init getOrderBooks
     getAccountDetails connect mapCreateOrderParams sign createAuthToken
     sendTransaction lighterOrderToAster DEFAULT_AUTH_TOKEN_BUFFER_MS toUpperCase
     marketSymbol l1Address LIGHTER_DEBUG).
Local Abbreviation proceeded :=
  (proceed nonce_next nonce_acknowledgeFailure mapCreateOrderParams sign
     createAuthToken sendTransaction lighterOrderToAster
     DEFAULT_AUTH_TOKEN_BUFFER_MS LIGHTER_DEBUG).

Lemma new_calls_app (w w' : W) (cs : list (Call Conversion)) :
  calls w' = calls w ++ cs -> new_calls w w' = cs.
Proof.
  intros E. unfold new_calls. rewrite E.
  rewrite skipn_app, skipn_all, Nat.sub_diag. reflexivity.
Qed.

(** ** The guarded block *)

Lemma quiet_same {A : Type} (m : Step A) :
  (forall w, snd (m w) = w) -> quiet m.
Proof.
  intros H w. exists []. rewrite H, List.app_nil_r. auto.
Qed.

Lemma quiet_one {A : Type} (m : Step A) (c : Call Conversion) :
  is_submission_step c = true ->
  (forall w, snd (m w) = record c w) -> quiet m.
Proof.
  intros Hc H w. exists [c]. rewrite H. simpl. rewrite Hc. auto.
Qed.

Lemma quiet_bind {A B : Type} (m : Step A) (k : A -> Step B) :
  quiet m -> (forall a, quiet (k a)) -> quiet (mbind m k).
Proof.
  intros Hm Hk w. unfold mbind.
  destruct (Hm w) as (s1 & E1 & F1 & N1).
  destruct (m w) as [[a|e] w1]; simpl in *.
  - destruct (Hk a w1) as (s2 & E2 & F2 & N2).
    exists (s1 ++ s2). rewrite E2, E1, N2, N1, app_assoc, forallb_app, F1, F2. auto.
  - exists s1. auto.
Qed.

Lemma quiet_ensureAuthToken (now : Z) : quiet (authToken now).
Proof.
  intros w. unfold ensureAuthToken.
  destruct (auth_token w) as [token|];
    [destruct (nonempty token && _)|];
    try destruct (createAuthToken _);
    simpl;
    first [ exists []; rewrite List.app_nil_r; now auto
          | eexists [_]; simpl; now auto ].
Qed.

Lemma quiet_logPayloadOnce :
  quiet (logPayloadOnce (NonceState := NonceState) (Conversion := Conversion) LIGHTER_DEBUG).
Proof.
  intros w. unfold logPayloadOnce.
  destruct (negb (loggedCreateOrderPayload w)); [destruct LIGHTER_DEBUG|]; simpl;
    first [ exists []; rewrite List.app_nil_r; now auto
          | eexists [_]; simpl; now auto ].
Qed.

Lemma quiet_logResponse :
  quiet (logResponse (NonceState := NonceState) (Conversion := Conversion) LIGHTER_DEBUG).
Proof.
  unfold logResponse. destruct LIGHTER_DEBUG.
  - now apply quiet_one with (c := CallLogger Conversion "createOrder.sendTx.response").
  - now apply quiet_same.
Qed.

Lemma quiet_signer_sign (req : SignRequest Conversion) :
  quiet (signer_sign (NonceState := NonceState) sign req).
Proof. now apply quiet_one with (c := CallSign req). Qed.

Lemma quiet_sendTransaction (tx : SignedTx) (auth : string) :
  quiet (http_sendTransaction (NonceState := NonceState) (Conversion := Conversion)
           sendTransaction tx auth).
Proof. now apply quiet_one with (c := CallSendTransaction Conversion tx auth). Qed.

Lemma quiet_removeOrderLocally (key : string) :
  quiet (removeOrderLocally (NonceState := NonceState) (Conversion := Conversion) key).
Proof. intros w. exists []. rewrite List.app_nil_r. simpl. auto. Qed.

Lemma quiet_lift {A : Type} (r : result A) :
  quiet (lift (NonceState := NonceState) (Conversion := Conversion) r).
Proof. now apply quiet_same. Qed.

Lemma quiet_ret {A : Type} (a : A) :
  quiet (ret (NonceState := NonceState) (Conversion := Conversion) a).
Proof. now apply quiet_same. Qed.

(** The nonce step and the guarded block after it. *)
Lemma guarded_shape {A : Type} (body : Z * Z -> Step A)
      (handler : Z -> JsError -> Step A) (w : W) :
  (forall kn, quiet (body kn)) ->
  (forall k, acks nonce_acknowledgeFailure k (handler k)) ->
  let out := mbind (nonceManager_next nonce_next)
                   (fun kn => try_catch (body kn) (handler (fst kn))) w in
  nonce_refused nonce_next w (void (fst out)) (snd out)
  \/ nonce_used nonce_next w (void (fst out)) (snd out)
  \/ nonce_returned nonce_next nonce_acknowledgeFailure w (void (fst out)) (snd out).
Proof.
  intros Hb Hh. unfold mbind, nonceManager_next, try_catch.
  destruct (nonce_next (nonces w)) as [[[k n]|e] ns] eqn:En.
  - set (w1 := record (CallNext Conversion (Ok (k, n))) (with_nonces ns w)).
    destruct (Hb (k, n) w1) as (steps & E1 & F1 & N1).
    destruct (body (k, n) w1) as [[a|e] w2] eqn:Eb; cbn [fst snd] in *.
    + right; left. exists k, n, steps. rewrite En. cbn [fst snd].
      repeat split; auto.
      rewrite E1. unfold w1. simpl. now rewrite <- app_assoc.
    + right; right. destruct (Hh k e w2) as (logs & R & E2 & F2 & N2).
      exists k, n, steps, logs, e. rewrite En. cbn [fst snd].
      repeat split; auto.
      * rewrite E2, E1. unfold w1. simpl. now rewrite <- !app_assoc.
      * now rewrite R.
      * rewrite N2, N1. reflexivity.
  - left. exists e. rewrite En. cbn [fst snd void]. repeat split; auto.
Qed.

Lemma acks_plain {A : Type} (k : Z) :
  acks (Conversion := Conversion) nonce_acknowledgeFailure k
       (fun error : JsError =>
          mbind (nonceManager_acknowledgeFailure nonce_acknowledgeFailure k)
                (fun _ => throw (A := A) error)).
Proof. intros e w. exists []. simpl. auto. Qed.

Lemma acks_logged {A : Type} (k : Z) (context : string) :
  acks (Conversion := Conversion) nonce_acknowledgeFailure k
       (fun error : JsError =>
          mbind (nonceManager_acknowledgeFailure nonce_acknowledgeFailure k)
                (fun _ => mbind (logger context) (fun _ => throw (A := A) error))).
Proof.
  intros e w. exists [CallLogger Conversion context]. simpl.
  rewrite <- app_assoc. auto.
Qed.

Lemma steps_ask_nothing (steps : list (Call Conversion)) :
  forallb (@is_submission_step Conversion) steps = true ->
  filter (@is_next Conversion) steps = []
  /\ filter (@is_acknowledge Conversion) steps = [].
Proof.
  induction steps as [|c steps IH]; [split; reflexivity|]. simpl. intros H.
  apply andb_true_iff in H. destruct H as [Hc Hs].
  destruct c; simpl in *; try discriminate; auto.
Qed.

Lemma logs_ask_nothing (logs : list (Call Conversion)) :
  forallb (@is_logger Conversion) logs = true ->
  filter (@is_next Conversion) logs = []
  /\ filter (@is_acknowledge Conversion) logs = [].
Proof.
  induction logs as [|c logs IH]; [split; reflexivity|]. simpl. intros H.
  apply andb_true_iff in H. destruct H as [Hc Hs].
  destruct c; simpl in *; try discriminate; auto.
Qed.

Lemma inits_ask_nothing (inits : list (Call Conversion)) :
  forallb (@is_initialisation_step Conversion) inits = true ->
  filter (@is_next Conversion) inits = []
  /\ filter (@is_acknowledge Conversion) inits = []
  /\ filter (@is_send Conversion) inits = [].
Proof.
  induction inits as [|c inits IH]; [repeat split; reflexivity|]. simpl. intros H.
  apply andb_true_iff in H. destruct H as [Hc Hs].
  destruct c; simpl in *; try discriminate; auto.
Qed.

Lemma void_unit (r : result unit) : void r = r.
Proof. destruct r as [[]|e]; reflexivity. Qed.

Lemma mbind_lift_ok {A B : Type} (a : A) (k : A -> Step B) (w : W) :
  mbind (lift (Ok a)) k w = k a w.
Proof. reflexivity. Qed.

Lemma mbind_lift_throw {A B : Type} (e : JsError) (k : A -> Step B) (w : W) :
  mbind (lift (Throw e)) k w = (Throw e, w).
Proof. reflexivity. Qed.

Lemma mbind_marketIdOf {B : Type} (k : option Z -> Step B) (w : W) :
  mbind (marketIdOf (Conversion := Conversion) (NonceState := NonceState)) k w
  = k (Gateway.marketId (gateway w)) w.
Proof. reflexivity. Qed.

Lemma mbind_convert {B : Type} (now : Z) (params : CreateOrderParams)
      (k : Conversion -> Step B) (w : W) :
  mbind (convert mapCreateOrderParams now params) k w
  = match mapCreateOrderParams now w params with
    | Ok conversion => k conversion w
    | Throw e => (Throw e, w)
    end.
Proof. unfold mbind, convert. now destruct (mapCreateOrderParams now w params). Qed.

Ltac rejected := repeat split; try reflexivity; eexists; reflexivity.

Lemma quiet_submission {A : Type} (req : SignRequest Conversion) (now : Z)
      (rest : Step A) :
  quiet rest ->
  quiet (mbind (signer_sign sign req)
           (fun signed =>
              mbind (authToken now)
                (fun auth =>
                   mbind (http_sendTransaction sendTransaction signed auth)
                     (fun _ => rest)))).
Proof.
  intros Hr.
  apply quiet_bind; [apply quiet_signer_sign|]. intros signed.
  apply quiet_bind; [apply quiet_ensureAuthToken|]. intros auth.
  apply quiet_bind; [apply quiet_sendTransaction|]. intros _. exact Hr.
Qed.

Lemma createOrder_shape (now : Z) (params : CreateOrderParams) (w : W) :
  let out := createOrder_body nonce_next nonce_acknowledgeFailure
               mapCreateOrderParams sign createAuthToken sendTransaction
               lighterOrderToAster DEFAULT_AUTH_TOKEN_BUFFER_MS LIGHTER_DEBUG
               now params w in
  if is_ok (mapCreateOrderParams now w params)
  then nonce_refused nonce_next w (void (fst out)) (snd out)
       \/ nonce_used nonce_next w (void (fst out)) (snd out)
       \/ nonce_returned nonce_next nonce_acknowledgeFailure w (void (fst out)) (snd out)
  else rejected_before_nonce w (void (fst out)) (snd out).
Proof.
  unfold createOrder_body. rewrite mbind_convert.
  destruct (mapCreateOrderParams now w params) as [conversion|e]; cbn [is_ok];
    [|now rejected].
  refine (guarded_shape
            (fun kn =>
               mbind (signer_sign sign (SignCreateOrder conversion (fst kn) (snd kn)))
                 (fun signed =>
                    mbind (logPayloadOnce LIGHTER_DEBUG)
                      (fun _ =>
                         mbind (authToken now)
                           (fun auth =>
                              mbind (http_sendTransaction sendTransaction signed auth)
                                (fun _ =>
                                   mbind (logResponse LIGHTER_DEBUG)
                                     (fun _ => lift (lighterOrderToAster conversion now)))))))
            (fun k error =>
               mbind (nonceManager_acknowledgeFailure nonce_acknowledgeFailure k)
                 (fun _ => mbind (logger "createOrder") (fun _ => throw error)))
            w _ _).
  - intros kn. apply quiet_bind; [apply quiet_signer_sign|]. intros signed.
    apply quiet_bind; [apply quiet_logPayloadOnce|]. intros _.
    apply quiet_bind; [apply quiet_ensureAuthToken|]. intros auth.
    apply quiet_bind; [apply quiet_sendTransaction|]. intros _.
    apply quiet_bind; [apply quiet_logResponse|]. intros _.
    apply quiet_lift.
  - intros k. apply acks_logged.
Qed.

Lemma cancelOrder_shape (now : Z) (params : CancelOrderParams) (w : W) :
  let out := cancelOrder_body nonce_next nonce_acknowledgeFailure
               sign createAuthToken sendTransaction DEFAULT_AUTH_TOKEN_BUFFER_MS
               now params w in
  if (is_some (co_marketIndex params) || is_some (Gateway.marketId (gateway w)))
     && is_ok (orderIndexValue (co_orderId params))
  then nonce_refused nonce_next w (void (fst out)) (snd out)
       \/ nonce_used nonce_next w (void (fst out)) (snd out)
       \/ nonce_returned nonce_next nonce_acknowledgeFailure w (void (fst out)) (snd out)
  else rejected_before_nonce w (void (fst out)) (snd out).
Proof.
  unfold cancelOrder_body.
  rewrite mbind_marketIdOf.
  assert (Hgo : forall marketIndex indexValue,
             let out :=
               mbind (nonceManager_next nonce_next)
                 (fun kn =>
                    try_catch
                      (mbind (signer_sign sign
                                (SignCancelOrder Conversion marketIndex indexValue
                                   (snd kn) (fst kn)))
                         (fun signed =>
                            mbind (authToken now)
                              (fun auth =>
                                 mbind (http_sendTransaction sendTransaction signed auth)
                                   (fun _ =>
                                      removeOrderLocally
                                        (orderIdKey (co_orderId params))))))
                      (fun error =>
                         mbind (nonceManager_acknowledgeFailure
                                  nonce_acknowledgeFailure (fst kn))
                           (fun _ => throw error))) w in
             nonce_refused nonce_next w (void (fst out)) (snd out)
             \/ nonce_used nonce_next w (void (fst out)) (snd out)
             \/ nonce_returned nonce_next nonce_acknowledgeFailure w
                  (void (fst out)) (snd out)).
  { intros marketIndex indexValue.
    refine (guarded_shape _ (fun k error =>
              mbind (nonceManager_acknowledgeFailure nonce_acknowledgeFailure k)
                (fun _ => throw error)) w _ _).
    - intros kn. apply quiet_submission, quiet_removeOrderLocally.
    - intros k. apply acks_plain. }
  cbv zeta in Hgo.
  destruct (co_marketIndex params) as [i|]; cbn [is_some orb andb].
  - destruct (orderIndexValue (co_orderId params)) as [indexValue|e]; cbn [is_ok];
      [rewrite mbind_lift_ok; exact (Hgo i indexValue)
      | rewrite mbind_lift_throw; now rejected].
  - destruct (Gateway.marketId (gateway w)) as [i|]; cbn [is_some andb].
    + destruct (orderIndexValue (co_orderId params)) as [indexValue|e]; cbn [is_ok];
        [rewrite mbind_lift_ok; exact (Hgo i indexValue)
        | rewrite mbind_lift_throw; now rejected].
    + now rejected.
Qed.

Lemma cancelAllOrders_shape (now : Z) (params : option CancelAllParams) (w : W) :
  let out := cancelAllOrders_body nonce_next nonce_acknowledgeFailure
               sign createAuthToken sendTransaction
               DEFAULT_AUTH_TOKEN_BUFFER_MS now params w in
  if is_ok (scheduledTime params)
  then nonce_refused nonce_next w (void (fst out)) (snd out)
       \/ nonce_used nonce_next w (void (fst out)) (snd out)
       \/ nonce_returned nonce_next nonce_acknowledgeFailure w (void (fst out)) (snd out)
  else rejected_before_nonce w (void (fst out)) (snd out).
Proof.
  unfold cancelAllOrders_body. cbv zeta.
  destruct (scheduledTime params) as [time|e]; cbn [is_ok];
    [rewrite mbind_lift_ok | rewrite mbind_lift_throw; now rejected].
  refine (guarded_shape _ (fun k error =>
            mbind (nonceManager_acknowledgeFailure nonce_acknowledgeFailure k)
              (fun _ => throw error)) w _ _).
  - intros kn. apply quiet_submission, quiet_ret.
  - intros k. apply acks_plain.
Qed.

(** The three operations under their common name, once the gateway is
    initialised. *)
Lemma proceed_shape (now : Z) (op : Operation CreateOrderParams) (w : W) :
  let out := proceeded now op w in
  if takes_arguments mapCreateOrderParams now op w
  then nonce_refused nonce_next w (fst out) (snd out)
       \/ nonce_used nonce_next w (fst out) (snd out)
       \/ nonce_returned nonce_next nonce_acknowledgeFailure w (fst out) (snd out)
  else rejected_before_nonce w (fst out) (snd out).
Proof.
  unfold takes_arguments, proceed.
  destruct op as [params|params|params].
  - pose proof (createOrder_shape now params w) as H. cbv zeta in H.
    destruct (createOrder_body _ _ _ _ _ _ _ _ _ now params w) as [[a|e] w'];
      exact H.
  - pose proof (cancelOrder_shape now params w) as H. cbv zeta in H.
    rewrite void_unit in H. exact H.
  - pose proof (cancelAllOrders_shape now params w) as H. cbv zeta in H.
    rewrite void_unit in H. exact H.
Qed.

(** ** Initialisation *)

Lemma starts_up_bind {A B : Type} (m : Step A) (k : A -> Step B) :
  starts_up m -> (forall a, starts_up (k a)) -> starts_up (mbind m k).
Proof.
  intros Hm Hk w. unfold mbind.
  destruct (Hm w) as ((s1 & E1 & F1) & I1 & M1 & O1).
  destruct (m w) as [[a|e] w1]; cbn [fst snd] in *.
  - destruct (Hk a w1) as ((s2 & E2 & F2) & I2 & M2 & O2).
    split; [|now rewrite I2, M2, O2].
    exists (s1 ++ s2). rewrite E2, E1, app_assoc, forallb_app, F1, F2. auto.
  - split; [|auto]. exists s1. auto.
Qed.

Lemma starts_up_try_catch {A : Type} (body : Step A) (handler : JsError -> Step A) :
  starts_up body -> (forall e, starts_up (handler e)) -> starts_up (try_catch body handler).
Proof.
  intros Hb Hh w. unfold try_catch.
  destruct (Hb w) as ((s1 & E1 & F1) & I1 & M1 & O1).
  destruct (body w) as [[a|e] w1]; cbn [fst snd] in *.
  - split; [|auto]. exists s1. auto.
  - destruct (Hh e w1) as ((s2 & E2 & F2) & I2 & M2 & O2).
    split; [|now rewrite I2, M2, O2].
    exists (s1 ++ s2). rewrite E2, E1, app_assoc, forallb_app, F1, F2. auto.
Qed.

(** A step that makes no call, or one call of the initialisation. *)
Ltac plain_step :=
  cbn; split;
  [ first [ exists []; split; [symmetry; apply List.app_nil_r | reflexivity]
          | eexists [_]; split; reflexivity
          | eexists [_; _]; split; [rewrite <- app_assoc; reflexivity | reflexivity] ]
  | repeat split; reflexivity ].

Lemma starts_up_ret {A : Type} (a : A) :
  starts_up (ret (NonceState := NonceState) (Conversion := Conversion) a).
Proof. intros w. plain_step. Qed.

Lemma starts_up_throw {A : Type} (e : JsError) :
  starts_up (throw (A := A) (NonceState := NonceState) (Conversion := Conversion) e).
Proof. intros w. plain_step. Qed.

Lemma starts_up_logger (context : string) :
  starts_up (logger (NonceState := NonceState) (Conversion := Conversion) context).
Proof. intros w. plain_step. Qed.

Lemma starts_up_ensureAuthToken (now : Z) : starts_up (authToken now).
Proof.
  intros w. unfold ensureAuthToken.
  destruct (auth_token w) as [token|];
    [destruct (nonempty token && _)|];
    try destruct (createAuthToken _); plain_step.
Qed.

Lemma starts_up_init :
  starts_up (nonceManager_init (Conversion := Conversion) nonce_init).
Proof.
  intros w. unfold nonceManager_init. destruct (nonce_init (nonces w)) as [answer n].
  plain_step.
Qed.

Lemma starts_up_loadMetadata :
  starts_up (loadMetadata (Conversion := Conversion) (NonceState := NonceState)
               getOrderBooks toUpperCase marketSymbol).
Proof.
  intros w. unfold loadMetadata.
  destruct (metadataKnown w) eqn:Ek; [plain_step|].
  unfold mbind, http_getOrderBooks.
  destruct getOrderBooks as [books|e]; [|plain_step].
  destruct (findTarget toUpperCase marketSymbol books _) as [target|]; [plain_step|].
  destruct (metadataKnown _); plain_step.
Qed.

Lemma starts_up_getAccountDetails (byAddress : bool) (auth : string) :
  starts_up (http_getAccountDetails (Conversion := Conversion) (NonceState := NonceState)
               getAccountDetails byAddress auth).
Proof. intros w. plain_step. Qed.

Lemma starts_up_storeAccount (standIn : bool) :
  starts_up (storeAccount (Conversion := Conversion) (NonceState := NonceState) standIn).
Proof.
  intros w. unfold storeAccount. destruct standIn; plain_step.
Qed.

Lemma starts_up_refreshAccountSnapshot (now : Z) :
  starts_up (refreshAccountSnapshot (Conversion := Conversion) (NonceState := NonceState)
               getAccountDetails createAuthToken DEFAULT_AUTH_TOKEN_BUFFER_MS
               l1Address now).
Proof.
  unfold refreshAccountSnapshot.
  apply starts_up_try_catch; [|intros e; apply starts_up_logger].
  apply starts_up_bind; [apply starts_up_ensureAuthToken|]. intros auth.
  apply starts_up_bind.
  - destruct l1Address as [address|]; [|apply starts_up_ret].
    destruct (nonempty address);
      [apply starts_up_getAccountDetails | apply starts_up_ret].
  - intros byAddress. apply starts_up_bind.
    + destruct byAddress; [apply starts_up_ret | apply starts_up_getAccountDetails].
    + intros details. apply starts_up_storeAccount.
Qed.

Lemma starts_up_startHeartbeat :
  starts_up (startHeartbeat (Conversion := Conversion) (NonceState := NonceState)).
Proof. intros w. unfold startHeartbeat. destruct (heartbeatTimer w); plain_step. Qed.

Lemma starts_up_stopHeartbeat :
  starts_up (stopHeartbeat (Conversion := Conversion) (NonceState := NonceState)).
Proof. intros w. unfold stopHeartbeat. destruct (heartbeatTimer w); plain_step. Qed.

Lemma starts_up_cleanup :
  starts_up (cleanup (Conversion := Conversion) (NonceState := NonceState)).
Proof.
  unfold cleanup.
  apply starts_up_bind; [intros w; plain_step|]. intros _.
  apply starts_up_bind; [apply starts_up_stopHeartbeat|]. intros _.
  intros w. plain_step.
Qed.

Lemma starts_up_send (channel : Channel) (auth : option string) :
  starts_up (ws_send (Conversion := Conversion) (NonceState := NonceState) channel auth).
Proof. intros w. plain_step. Qed.

Lemma starts_up_subscribeChannels (now : Z) :
  starts_up (subscribeChannels (Conversion := Conversion) (NonceState := NonceState)
               createAuthToken DEFAULT_AUTH_TOKEN_BUFFER_MS now).
Proof.
  intros w. unfold subscribeChannels.
  destruct (ws w) as [[| | |]|]; try plain_step.
  destruct (Gateway.marketId (gateway w)) as [marketId|]; [|plain_step].
  revert w. 
  apply starts_up_bind; [apply starts_up_send|]. intros _.
  apply starts_up_bind; [apply starts_up_send|]. intros _.
  apply starts_up_bind; [apply starts_up_ensureAuthToken|]. intros auth.
  apply starts_up_bind; [apply starts_up_send|]. intros _.
  apply starts_up_send.
Qed.

(** A change of fields that the initialisation sets without a call. *)
Lemma starts_up_after {A : Type} (m : Step A) (change : W -> W) :
  starts_up m ->
  (forall w, calls (change w) = calls w
             /\ initialized (change w) = initialized w
             /\ gateway (change w) = gateway w) ->
  starts_up (fun w => m (change w)).
Proof.
  intros Hm Hc w. destruct (Hc w) as (Ec & Ei & Eg).
  destruct (Hm (change w)) as ((s & E & F) & I & Mo & O).
  rewrite Ec in E. rewrite Ei in I. rewrite Eg in Mo, O.
  split; [exists s; auto | auto].
Qed.

Lemma starts_up_openWebSocket (now : Z) :
  starts_up (openWebSocket (Conversion := Conversion) (NonceState := NonceState)
               connect createAuthToken DEFAULT_AUTH_TOKEN_BUFFER_MS now).
Proof.
  assert (Hnew : forall m : Step unit, starts_up m ->
            starts_up (fun w => m (with_ws (Some CONNECTING) (record (CallWebSocket Conversion) w)))).
  { intros m Hm w.
    destruct (Hm (with_ws (Some CONNECTING) (record (CallWebSocket Conversion) w)))
      as ((s & E & F) & I & Mo & O).
    cbn in E, I, Mo, O. split; [|auto].
    exists (CallWebSocket Conversion :: s). rewrite E, <- app_assoc. auto. }
  assert (Hgo : starts_up
            (fun w : W =>
               match connect with
               | Opens =>
                   try_catch
                     (mbind (@startHeartbeat Conversion NonceState)
                        (fun _ => subscribeChannels createAuthToken
                                    DEFAULT_AUTH_TOKEN_BUFFER_MS now))
                     (fun error => mbind (@cleanup Conversion NonceState) (fun _ => throw error))
                     (with_lastMessageAt now (with_ws (Some OPEN) w))
               | Errors error =>
                   mbind (logger "ws:error")
                     (fun _ => mbind (@cleanup Conversion NonceState) (fun _ => throw error)) w
               | ClosesEarly detail =>
                   mbind (@cleanup Conversion NonceState)
                     (fun _ => throw (ExternalFailure
                                        ("WebSocket closed before ready (" ++ detail ++ ")")%string)) w
               end)).
  { destruct connect as [|error|detail].
    - apply (starts_up_after
               (try_catch
                  (mbind (@startHeartbeat Conversion NonceState)
                     (fun _ => subscribeChannels createAuthToken
                                 DEFAULT_AUTH_TOKEN_BUFFER_MS now))
                  (fun error => mbind (@cleanup Conversion NonceState) (fun _ => throw error)))
               (fun w => with_lastMessageAt now (with_ws (Some OPEN) w))).
      + apply starts_up_try_catch.
        * apply starts_up_bind; [apply starts_up_startHeartbeat|]. intros _.
          apply starts_up_subscribeChannels.
        * intros e. apply starts_up_bind; [apply starts_up_cleanup|]. intros _.
          apply starts_up_throw.
      + intros w. repeat split.
    - apply starts_up_bind; [apply starts_up_logger|]. intros _.
      apply starts_up_bind; [apply starts_up_cleanup|]. intros _.
      apply starts_up_throw.
    - apply starts_up_bind; [apply starts_up_cleanup|]. intros _.
      apply starts_up_throw. }
  intros w. unfold openWebSocket.
  destruct (ws w) as [[| | |]|]; try plain_step; exact (Hnew _ Hgo w).
Qed.

Lemma starts_up_emitOrders :
  starts_up (emitOrders (Conversion := Conversion) (NonceState := NonceState)).
Proof. intros w. plain_step. Qed.

Lemma starts_up_startPolling :
  starts_up (startPolling (Conversion := Conversion) (NonceState := NonceState)).
Proof. intros w. unfold startPolling. destruct (tickerPoller w); plain_step. Qed.

Lemma starts_up_initialize (now : Z) :
  starts_up (initialize (Conversion := Conversion) nonce_init getOrderBooks
               getAccountDetails connect createAuthToken DEFAULT_AUTH_TOKEN_BUFFER_MS
               toUpperCase marketSymbol l1Address now).
Proof.
  unfold initialize.
  apply starts_up_bind; [apply starts_up_loadMetadata|]. intros _.
  apply starts_up_bind; [apply starts_up_init|]. intros _.
  apply starts_up_bind; [apply starts_up_refreshAccountSnapshot|]. intros _.
  apply starts_up_bind; [apply starts_up_openWebSocket|]. intros _.
  apply starts_up_bind; [apply starts_up_emitOrders|]. intros _.
  apply starts_up_startPolling.
Qed.

(** [ensureInitialized]: calls of the initialisation only; nothing on an
    initialised gateway; the flag set exactly when it returns; the orders
    as they were. *)
Lemma ensureInitialized_only (now : Z) (w : W) :
  initialisation_only w (initialised now w)
  /\ Gateway.orderMap (gateway (snd (initialised now w))) = Gateway.orderMap (gateway w)
  /\ Gateway.orders (gateway (snd (initialised now w))) = Gateway.orders (gateway w).
Proof.
  unfold initialisation_only, ensureInitialized.
  destruct (initialized w) eqn:Ei.
  - cbn. repeat split. exists []. split; [symmetry; apply List.app_nil_r | reflexivity].
  - destruct (connectPromise w) as [[[]|e]|].
    + cbn. repeat split. exists []. split; [symmetry; apply List.app_nil_r | reflexivity].
    + cbn. repeat split; auto. exists []. split; [symmetry; apply List.app_nil_r | reflexivity].
    + destruct (starts_up_initialize now w) as ((s & E & F) & I & Mo & O).
      destruct (initialize _ _ _ _ _ _ _ _ _ now w) as [[[]|e] w'];
        cbn in *; repeat split; auto; try congruence; exists s; auto.
Qed.

(** An invocation is the initialisation and, when that returns, the
    operation on the gateway as the initialisation has left it. *)
Lemma invoke_proceed (now : Z) (op : Operation CreateOrderParams) (w : W) :
  invoked now op w
  = match initialised now w with
    | (Ok _, w1) => proceeded now op w1
    | (Throw e, w1) => (Throw e, w1)
    end.
Proof.
  unfold invoke, proceed, createOrder, cancelOrder, cancelAllOrders.
  destruct op as [params|params|params]; unfold mbind at 1;
    destruct (initialised now w) as [[[]|e] w1]; reflexivity.
Qed.

Lemma acknowledged_count (w1 w' : W) (r : result unit) (inits : list (Call Conversion)) (w : W) :
  calls w1 = calls w ++ inits ->
  forallb (@is_initialisation_step Conversion) inits = true ->
  (nonce_refused nonce_next w1 r w'
   \/ nonce_used nonce_next w1 r w'
   \/ nonce_returned nonce_next nonce_acknowledgeFailure w1 r w') ->
  nonces_asked (new_calls w w') = 1%nat
  /\ failures_acknowledged (new_calls w w')
     = (if is_ok (fst (nonce_next (nonces w1))) && negb (is_ok r) then 1 else 0)%nat.
Proof.
  intros Ei Fi. destruct (inits_ask_nothing inits Fi) as (In & Ia & _).
  unfold nonces_asked, failures_acknowledged.
  intros [(e & En & E & R & _) | [(k & n & steps & En & F & E & R & _)
                                 | (k & n & steps & logs & e & En & F & L & E & R & _)]];
    rewrite Ei, <- app_assoc in E; rewrite (new_calls_app _ _ _ E), En, R;
    rewrite !filter_app, In, Ia; cbn [app filter is_next is_acknowledge is_ok negb andb].
  - split; reflexivity.
  - destruct (steps_ask_nothing steps F) as [Sn Sa]. rewrite Sn, Sa. split; reflexivity.
  - destruct (steps_ask_nothing steps F) as [Sn Sa].
    destruct (logs_ask_nothing logs L) as [Ln La].
    rewrite !filter_app, Sn, Sa. cbn [app filter is_next is_acknowledge].
    rewrite Ln, La. split; reflexivity.
Qed.

Lemma rejected_count (w1 w' : W) (r : result unit) (inits : list (Call Conversion)) (w : W) :
  calls w1 = calls w ++ inits ->
  forallb (@is_initialisation_step Conversion) inits = true ->
  rejected_before_nonce w1 r w' ->
  nonces_asked (new_calls w w') = 0%nat
  /\ failures_acknowledged (new_calls w w') = 0%nat.
Proof.
  intros Ei Fi (E & _). destruct (inits_ask_nothing inits Fi) as (In & Ia & _).
  unfold nonces_asked, failures_acknowledged.
  rewrite Ei in E. rewrite (new_calls_app _ _ _ E), In, Ia. split; reflexivity.
Qed.

(** C8 as amended.  An invocation of [createOrder], [cancelOrder] or
    [cancelAllOrders] first awaits [ensureInitialized], which on a gateway
    that is not yet initialised runs the initialisation and calls neither
    [nonceManager.next()] nor [acknowledgeFailure], and on an initialised
    gateway does nothing.  The invocation then calls [next()] exactly once
    when it passes its checks (the initialisation has returned; the order
    converts; the market index is given or known; the order id reads as a
    bigint; the schedule is an integer) and not at all when it throws on
    them.  When [next()] has given a nonce for key [k], the invocation
    either returns, having made steps of the guarded block only (signing,
    the auth token, the submission, debug output), or, when that block
    throws, throws after calling [acknowledgeFailure(k)], once, for the
    same key, followed at most by logging; the nonce manager is then in
    the state that [acknowledgeFailure(k)] leaves after [next()].  When
    [next()] itself throws, its error is thrown and nothing is
    acknowledged.  So [acknowledgeFailure] is called once in an invocation
    that got a nonce and throws, and in no other. *)
Theorem one_nonce_and_acknowledged_failure (now : Z)
        (op : Operation CreateOrderParams) (w : W) :
  let ready := initialised now w in
  let out := invoked now op w in
  let passes := passes_checks mapCreateOrderParams now op ready in
  initialisation_only w ready
  /\ nonces_asked (new_calls w (snd out)) = (if passes then 1 else 0)%nat
  /\ (if passes
      then nonce_refused nonce_next (snd ready) (fst out) (snd out)
           \/ nonce_used nonce_next (snd ready) (fst out) (snd out)
           \/ nonce_returned nonce_next nonce_acknowledgeFailure (snd ready)
                (fst out) (snd out)
      else rejected_before_nonce (snd ready) (fst out) (snd out))
  /\ failures_acknowledged (new_calls w (snd out))
     = (if passes && is_ok (fst (nonce_next (nonces (snd ready))))
           && negb (is_ok (fst out))
        then 1 else 0)%nat.
Proof.
  intros ready out passes.
  destruct (ensureInitialized_only now w) as [Hi _]. fold ready in Hi.
  split; [exact Hi|].
  destruct Hi as [(inits & Ei & Fi) _].
  assert (Hout : out = match ready with
                       | (Ok _, w1) => proceeded now op w1
                       | (Throw e, w1) => (Throw e, w1)
                       end) by apply invoke_proceed.
  unfold passes, passes_checks. clearbody out. subst out.
  destruct ready as [[[]|e] w1]; cbn [fst snd is_ok andb] in *.
  - pose proof (proceed_shape now op w1) as H. cbv zeta in H.
    destruct (takes_arguments mapCreateOrderParams now op w1).
    + destruct (@acknowledged_count w1 _ _ inits w Ei Fi H) as [Hn Ha].
      cbn [andb]. split; [exact Hn|]. split; [exact H | exact Ha].
    + destruct (@rejected_count w1 _ _ inits w Ei Fi H) as [Hn Ha].
      cbn [andb]. split; [exact Hn|]. split; [exact H | exact Ha].
  - assert (H : rejected_before_nonce w1 (Throw e) w1)
      by (repeat split; eexists; reflexivity).
    destruct (@rejected_count w1 _ _ inits w Ei Fi H) as [Hn Ha].
    split; [exact Hn|]. split; [exact H | exact Ha].
Qed.

End FacadeFacts.

(** C8, counterexample.  [cancelOrder] with the order id [abc] on an
    initialised gateway that knows its market: [BigInt] throws a syntax
    error before the nonce step, and the invocation has asked for no
    nonce. *)
Lemma rejected_invocation_takes_no_nonce :
  let op := Facade.OpCancelOrder unit
              {| Facade.co_marketIndex := None;
                 Facade.co_orderId := Facade.IdString "abc" |} in
  let out := Samples.invoke7 Samples.send_succeeds op Samples.world7 in
  fst out = Throw BigIntSyntaxError
  /\ Facade.calls (snd out) = []
  /\ FacadeProps.nonces_asked (Facade.new_calls Samples.world7 (snd out)) = 0%nat
  /\ Facade.nonces (snd out) = Samples.nonces7.
Proof. repeat split; vm_compute; reflexivity. Qed.

(** Scenario C, on the nonce manager as the specification describes it:
    key 0 stands at nonce 7; a [createOrder] whose submission fails takes
    nonce 7 and gives it back, so that the next [next()] answers 7 again;
    one whose submission succeeds keeps it, and the next answer is 8. *)
Example scenario_C :
  let op := Facade.OpCreateOrder tt in
  let failed := Samples.invoke7 Samples.send_fails op Samples.world7 in
  let sent := Samples.invoke7 Samples.send_succeeds op Samples.world7 in
  fst failed = Throw (ExternalFailure "network")
  /\ Facade.calls (snd failed)
     = [ Facade.CallNext unit (Ok (0, 7)%Z);
         Facade.CallSign (Facade.SignCreateOrder tt 0 7);
         Facade.CallCreateAuthToken unit 601000;
         Facade.CallSendTransaction unit Samples.signed7 "auth";
         Facade.CallAcknowledgeFailure unit 0;
         Facade.CallLogger unit "createOrder" ]
  /\ fst (NonceManager.next (Facade.nonces (snd failed))) = Ok (0, 7)%Z
  /\ fst sent = Ok tt
  /\ fst (NonceManager.next (Facade.nonces (snd sent))) = Ok (0, 8)%Z.
Proof. repeat split; vm_compute; reflexivity. Qed.

(** The first invocation, on the gateway as its constructor leaves it:
    the initialisation comes first (the market list, the nonce manager,
    the account, the socket and its subscriptions, the ticker poller) and
    hands the account and the orders to the listeners; the nonce is asked
    for after it, once. *)
Example first_invocation_initialises :
  let out := Samples.invoke7 Samples.send_succeeds (Facade.OpCreateOrder tt)
               Samples.fresh7 in
  fst out = Ok tt
  /\ Facade.calls (snd out)
     = [ Facade.CallGetOrderBooks unit;
         Facade.CallInit unit (Ok tt);
         Facade.CallCreateAuthToken unit 601000;
         Facade.CallGetAccountDetails unit false "auth";
         Facade.CallWebSocket unit;
         Facade.CallSetInterval unit Facade.HeartbeatTimer;
         Facade.CallSend unit (Facade.OrderBookChannel 1) None;
         Facade.CallSend unit Facade.AccountAllChannel None;
         Facade.CallSend unit (Facade.AccountMarketChannel 1) (Some "auth"%string);
         Facade.CallSend unit Facade.AccountAllOrdersChannel (Some "auth"%string);
         Facade.CallSetInterval unit Facade.TickerTimer;
         Facade.CallGetExchangeStats unit;
         Facade.CallNext unit (Ok (0, 7)%Z);
         Facade.CallSign (Facade.SignCreateOrder tt 0 7);
         Facade.CallSendTransaction unit Samples.signed7 "auth" ]
  /\ Facade.emitted (snd out) = [Gateway.EmitAccount []; Gateway.EmitOrders []]
  /\ Facade.initialized (snd out) = true
  /\ Gateway.marketId (Facade.gateway (snd out)) = Some 1%Z.
Proof. repeat split; vm_compute; reflexivity. Qed.

(** The checks before the nonce: the order id [-] is no bigint and the
    schedule [1.5] is no integer, so [cancelOrder] and [cancelAllOrders]
    throw before they ask for a nonce; the order id [0x10] is the bigint
    16, which is signed with the nonce 7. *)
Example checks_before_the_nonce :
  let cancel id := Samples.invoke7 Samples.send_succeeds
                     (Facade.OpCancelOrder unit
                        {| Facade.co_marketIndex := None;
                           Facade.co_orderId := Facade.IdString id |})
                     Samples.world7 in
  let cancelAll := Samples.invoke7 Samples.send_succeeds
                     (Facade.OpCancelAllOrders unit
                        (Some {| Facade.ca_timeInForce := None;
                                 Facade.ca_scheduleMs :=
                                   Some (JsNumber.Finite false 15 1) |}))
                     Samples.world7 in
  cancel "-"%string = (Throw BigIntSyntaxError, Samples.world7)
  /\ cancelAll = (Throw BigIntRangeError, Samples.world7)
  /\ fst (cancel "0x10"%string) = Ok tt
  /\ Facade.calls (snd (cancel "0x10"%string))
     = [ Facade.CallNext unit (Ok (0, 7)%Z);
         Facade.CallSign (Facade.SignCancelOrder unit 1 16 7 0);
         Facade.CallCreateAuthToken unit 601000;
         Facade.CallSendTransaction unit Samples.signed7 "auth" ].
Proof. repeat split; vm_compute; reflexivity. Qed.

(** * Further properties of the code

    ** The rate-limit controller *)

Section RateLimitMore.

Import RateLimit RateLimitProps.
Local Open Scope Z_scope.

Lemma coherent_make (base : Z) (p r : option Z) : coherent (make base p r).
Proof. unfold coherent, make; simpl. split; split; intros; congruence. Qed.

Lemma coherent_use (c : RateLimitController) (u : Use) :
  coherent c -> coherent (use c u).
Proof.
  unfold coherent. intros [Hp Hs]. destruct u as [now|now|now had]; simpl.
  - unfold beforeCycle, checkInterval, currentInterval.
    destruct (state c) eqn:Es; simpl;
      [ | | destruct (pausedUntil c) as [d|] eqn:Ed; simpl;
            [destruct (d <=? now); simpl|] ];
      try destruct (_ <? _); simpl; rewrite ?Es, ?Ed in *;
      intuition (try congruence; try discriminate).
  - unfold registerRateLimit, suppressEntries. simpl.
    destruct (state c) eqn:Es; simpl;
      destruct (entriesSuppressed c) eqn:Ee; simpl;
      intuition (try congruence; try discriminate).
  - unfold onCycleComplete, allowEntries.
    destruct had; [auto|].
    destruct (state c) eqn:Es; simpl; rewrite ?Es; simpl;
      try destruct (0 <? lastRateLimitAt c); simpl; rewrite ?Es; simpl;
      try destruct (recoveryMs c <=? now - lastRateLimitAt c); simpl;
      rewrite ?Es; simpl;
      destruct (entriesSuppressed c) eqn:Ee; simpl; rewrite ?Es, ?Ee; simpl;
      try destruct (lastRateLimitAt c =? 0); simpl; rewrite ?Es, ?Ee; simpl;
      intuition (try congruence; try discriminate).
Qed.

End RateLimitMore.

(** Whatever the engine calls and when, the controller's fields agree: it
    has a deadline exactly while it is paused, and it suppresses entries
    exactly while it is not in its normal state; so [shouldBlockEntries]
    answers whether the state differs from [normal]. *)
Theorem controller_stays_coherent (baseInterval : Z) (optPauseMs optRecoveryMs : option Z)
        (uses : list RateLimitProps.Use) :
  let c := RateLimitProps.after baseInterval optPauseMs optRecoveryMs uses in
  RateLimitProps.coherent c
  /\ RateLimit.shouldBlockEntries c = negb (RateLimit.is_normal (RateLimit.state c)).
Proof.
  intros c.
  assert (H : RateLimitProps.coherent c).
  { subst c. unfold RateLimitProps.after.
    generalize (coherent_make baseInterval optPauseMs optRecoveryMs).
    generalize (RateLimit.make baseInterval optPauseMs optRecoveryMs).
    induction uses as [|u uses IH]; intros c0 H0; simpl; [exact H0|].
    apply IH. now apply coherent_use. }
  split; [exact H|]. clearbody c.
  destruct H as [_ [Hs1 Hs2]]. unfold RateLimit.shouldBlockEntries.
  destruct (RateLimit.state c) eqn:Es; simpl.
  - destruct (RateLimit.entriesSuppressed c); [|reflexivity].
    exfalso. apply Hs1; reflexivity.
  - rewrite Hs2 by discriminate. reflexivity.
  - apply orb_true_r.
Qed.

(** Recovery.  In the state [degraded], with a rate limit registered at a
    positive time, a cycle that completes without rate limit brings the
    controller back to [normal] exactly when the recovery window has
    passed since that rate limit: entries are allowed again and the base
    interval is in force; before that the call changes nothing. *)
Theorem recovery_after_window (now : Z) (c : RateLimit.RateLimitController) :
  RateLimit.state c = RateLimit.degraded ->
  (0 < RateLimit.lastRateLimitAt c)%Z ->
  let c' := RateLimit.onCycleComplete now false c in
  if (RateLimit.recoveryMs c <=? now - RateLimit.lastRateLimitAt c)%Z
  then RateLimit.state c' = RateLimit.normal
       /\ RateLimit.shouldBlockEntries c' = false
       /\ RateLimit.lastRateLimitAt c' = 0%Z
       /\ RateLimit.currentInterval c' = RateLimit.baseInterval c
  else c' = c.
Proof.
  intros Hs Hl c'. subst c'.
  destruct c as [st pu lc lr pm rm es bi lg]. simpl in Hs, Hl. subst st.
  unfold RateLimit.onCycleComplete, RateLimit.allowEntries,
    RateLimit.shouldBlockEntries, RateLimit.currentInterval.
  cbn [RateLimit.state RateLimit.lastRateLimitAt RateLimit.recoveryMs
       RateLimit.is_degraded andb].
  replace (0 <? lr)%Z with true by (symmetry; now apply Z.ltb_lt).
  destruct (rm <=? now - lr)%Z; destruct es; simpl;
    repeat split; try reflexivity.
  all: destruct (lr =? 0)%Z; reflexivity.
Qed.

Lemma recovery_after_window_witness :
  let c := RateLimit.registerRateLimit 5000 (RateLimit.make 1000 None None) in
  RateLimit.state (RateLimit.onCycleComplete 65000 false c) = RateLimit.normal
  /\ RateLimit.onCycleComplete 64999 false c = c.
Proof.
  intros c. split.
  - exact (proj1 (recovery_after_window 65000 c eq_refl eq_refl)).
  - exact (recovery_after_window 64999 c eq_refl eq_refl).
Defined.

(** Pacing.  After a cycle that [beforeCycle] let run at time [t], every
    [beforeCycle] at a time less than the current interval later answers
    [skip] and leaves the controller as it is. *)
Theorem no_cycle_within_interval (t t' : Z) (c : RateLimit.RateLimitController) :
  fst (RateLimit.beforeCycle t c) = RateLimit.run ->
  let c1 := snd (RateLimit.beforeCycle t c) in
  (t' - t < RateLimit.currentInterval c1)%Z ->
  RateLimit.beforeCycle t' c1 = (RateLimit.skip, c1).
Proof.
  unfold RateLimit.beforeCycle, RateLimit.checkInterval, RateLimit.currentInterval.
  destruct (RateLimit.state c) eqn:Es; simpl.
  - destruct (_ <? _)%Z eqn:E1; simpl; [discriminate|]. intros _. rewrite Es. simpl.
    intros H. apply Z.ltb_lt in H. now rewrite H.
  - destruct (_ <? _)%Z eqn:E1; simpl; [discriminate|]. intros _. rewrite Es. simpl.
    intros H. apply Z.ltb_lt in H. now rewrite H.
  - destruct (RateLimit.pausedUntil c) as [d|]; simpl; [|discriminate].
    destruct (d <=? t)%Z; simpl; [|discriminate].
    destruct (_ <? _)%Z eqn:E1; simpl; [discriminate|]. intros _.
    intros H. apply Z.ltb_lt in H. now rewrite H.
Qed.

Lemma no_cycle_within_interval_witness :
  let c := RateLimit.registerRateLimit 5000 (RateLimit.make 1000 None None) in
  RateLimit.beforeCycle 8999 (snd (RateLimit.beforeCycle 7000 c))
  = (RateLimit.skip, snd (RateLimit.beforeCycle 7000 c)).
Proof.
  intros c.
  exact (no_cycle_within_interval 7000 8999 c eq_refl ltac:(vm_compute; reflexivity)).
Defined.

(** ** Scaled decimals *)

Section ScalingFacts.

Import JsString JsBigInt Decimal DecimalProps.
Local Open Scope char_scope.
Local Open Scope N_scope.

Lemma pow10_pos (k : N) : 0 < 10 ^ k.
Proof. apply N.neq_0_lt_0, N.pow_nonzero. lia. Qed.

(** The units of a text cut after [d] fractional digits, as a number:
    the value times [10^d], rounded towards zero. *)
Lemma truncated_units_value (ip fp : chars) (d : nat) :
  forallb is_digit fp = true ->
  truncated_units ip fp d
  = of_digits (ip ++ fp) * 10 ^ N.of_nat d / 10 ^ N.of_nat (List.length fp).
Proof.
  intros Hfp. unfold truncated_units, fraction_to.
  destruct (Nat.le_gt_cases (List.length fp) d) as [Hle|Hgt].
  - rewrite firstn_app, firstn_all2, firstn_repeat by lia.
    replace (Nat.min (d - List.length fp) d) with (d - List.length fp)%nat by lia.
    rewrite app_assoc, of_digits_app_value, of_digits_zeros, repeat_length, N.add_0_r.
    replace (N.of_nat d)
      with (N.of_nat (d - List.length fp) + N.of_nat (List.length fp)) by lia.
    rewrite N.pow_add_r, N.mul_assoc, N.div_mul; [reflexivity|].
    apply N.pow_nonzero. lia.
  - rewrite firstn_app. replace (d - List.length fp)%nat with 0%nat by lia.
    cbn [firstn]. rewrite List.app_nil_r.
    set (a := of_digits (ip ++ firstn d fp)).
    set (b := skipn d fp).
    set (p := 10 ^ N.of_nat d). set (q := 10 ^ N.of_nat (List.length b)).
    assert (Hb : of_digits b < q).
    { apply of_digits_bound. unfold b.
      rewrite <- (firstn_skipn d fp), forallb_app in Hfp.
      now apply andb_true_iff in Hfp. }
    assert (E : of_digits (ip ++ fp) = a * q + of_digits b).
    { unfold a, b, q. rewrite <- (firstn_skipn d fp) at 1.
      now rewrite app_assoc, of_digits_app_value. }
    assert (F : 10 ^ N.of_nat (List.length fp) = p * q).
    { unfold p, q, b. rewrite <- N.pow_add_r. f_equal. rewrite length_skipn. lia. }
    rewrite E, F.
    assert (Hp : 0 < p) by apply pow10_pos.
    assert (Hq : 0 < q) by apply pow10_pos.
    apply N.div_unique with (r := of_digits b * p).
    + rewrite (N.mul_comm p q). apply N.mul_lt_mono_pos_r; assumption.
    + lia.
Qed.

(** The digits [scaledToDecimalString] splits: the decimal digits of the
    magnitude, filled with zeros in front to more than [d] digits. *)
Lemma padded_digits (n : N) (d : nat) :
  let ds := toString n in
  let all := repeat "0" (S d - List.length ds) ++ ds in
  let ip := firstn (List.length all - d) all in
  let g := skipn (List.length all - d) all in
  forallb is_digit ip = true /\ forallb is_digit g = true
  /\ List.length g = d /\ of_digits (ip ++ g) = n.
Proof.
  intros ds all ip g.
  assert (Hall : forallb is_digit all = true).
  { unfold all. rewrite forallb_app. apply andb_true_iff. split.
    - apply all_zero_digits, repeat_all_zero.
    - apply toString_digits. }
  assert (Hlen : (d < List.length all)%nat).
  { unfold all. rewrite length_app, repeat_length.
    assert (ds <> []) by apply toString_nonempty.
    destruct ds; [congruence|]. simpl. lia. }
  pose proof Hall as Hsplit.
  rewrite <- (firstn_skipn (List.length all - d) all), forallb_app in Hsplit.
  apply andb_true_iff in Hsplit. destruct Hsplit as [Hi Hg].
  repeat split; auto.
  - unfold g. rewrite length_skipn. lia.
  - unfold ip, g. rewrite firstn_skipn. unfold all.
    rewrite of_digits_app_value, of_digits_zeros. unfold ds.
    now rewrite of_digits_toString.
Qed.

Lemma fraction_to_full (g : chars) : fraction_to (List.length g) g = g.
Proof.
  unfold fraction_to. rewrite firstn_app, Nat.sub_diag, firstn_all. cbn [firstn].
  apply List.app_nil_r.
Qed.

Lemma fraction_to_nil (g : chars) :
  forallb is_zero_char g = true -> fraction_to (List.length g) [] = g.
Proof.
  intros H. unfold fraction_to. cbn [app]. rewrite firstn_all2 by (rewrite repeat_length; lia).
  symmetry. now apply all_zero_repeat.
Qed.

End ScalingFacts.

(** [decimalToScaled] of a bigint and [d >= 0] decimals is the bigint
    times [10^d], exactly, whatever its size. *)
Theorem decimalToScaled_bigint_exact (z d : Z) :
  (0 <= d)%Z -> Decimal.decimalToScaled (Decimal.VBigint z) d = Ok (z * 10 ^ d)%Z.
Proof.
  intros Hd. unfold Decimal.decimalToScaled.
  replace (d <? 0)%Z with false by (symmetry; apply Z.ltb_ge; lia).
  cbn [Decimal.normalizeDecimalInput bind Decimal.digits Decimal.fractionLength
       Decimal.sign].
  replace (d <? 0)%Z with false by (symmetry; apply Z.ltb_ge; lia).
  unfold JsString.padEnd0.
  set (ds := JsBigInt.toString (Z.abs_N z)).
  replace (Z.to_nat (Z.of_nat (List.length ds) + (d - 0) - Z.of_nat (List.length ds)))
    with (Z.to_nat d) by lia.
  rewrite BigInt_digits
    by (rewrite forallb_app; unfold ds; rewrite toString_digits;
        apply all_zero_digits, repeat_all_zero).
  cbn [bind]. rewrite of_digits_app_value, of_digits_zeros, repeat_length. unfold ds.
  rewrite of_digits_toString, N.add_0_r. f_equal.
  unfold Decimal.signed.
  rewrite N2Z.inj_mul, N2Z.inj_pow, N2Z.inj_abs_N, nat_N_Z, Z2Nat.id by assumption.
  change (Z.of_N 10) with 10%Z.
  destruct (Z.ltb_spec z 0); simpl; lia.
Qed.

Lemma decimalToScaled_bigint_exact_witness :
  Decimal.decimalToScaled (Decimal.VBigint (-12345678901234567890123)) 3
  = Ok (-12345678901234567890123000)%Z.
Proof. exact (decimalToScaled_bigint_exact (-12345678901234567890123) 3 ltac:(lia)). Defined.

(** [decimalToScaled] truncates.  For a decimal text with sign, integer
    digits [ip] and fractional digits [fp], and [d >= 0] decimals, the
    result is the value times [10^d] rounded towards zero, with the sign of
    the text: digits beyond the [d]-th are dropped, never rounded up. *)
Theorem decimalToScaled_truncates (s : string) (d : Z) (neg : bool)
        (ip fp : JsString.chars) :
  (0 <= d)%Z ->
  DecimalProps.decimal_parts (JsString.of_string s) = Some (neg, ip, fp) ->
  Decimal.decimalToScaled (Decimal.VString s) d
  = Ok (DecimalProps.with_sign neg
          (JsBigInt.of_digits (ip ++ fp) * 10 ^ Z.to_N d
           / 10 ^ N.of_nat (List.length fp))%N).
Proof.
  intros Hd Hp. rewrite (decimalToScaled_string s neg ip fp d Hd Hp).
  destruct (normalizeText_parts _ _ _ _ Hp) as (_ & _ & Hfp).
  rewrite (truncated_units_value ip fp (Z.to_nat d) Hfp).
  now rewrite Z_nat_N.
Qed.

Lemma decimalToScaled_truncates_witness :
  Decimal.decimalToScaled (Decimal.VString " -12.3456 ") 2 = Ok (-1234)%Z
  /\ Decimal.decimalToScaled (Decimal.VString "0.999") 0 = Ok 0%Z.
Proof.
  split.
  - exact (decimalToScaled_truncates " -12.3456 " 2 true
             (JsString.of_string "12") (JsString.of_string "3456")
             ltac:(lia) eq_refl).
  - exact (decimalToScaled_truncates "0.999" 0 false
             (JsString.of_string "0") (JsString.of_string "999")
             ltac:(lia) eq_refl).
Defined.

(** The text [scaledToDecimalString] gives for a bigint and [d >= 0]
    decimals reads back, through [decimalToScaled] with the same [d], as
    that bigint. *)
Theorem scaled_text_reads_back (z d : Z) :
  (0 <= d)%Z ->
  (let* s := Decimal.scaledToDecimalString (Decimal.SBigint z) d in
   Decimal.decimalToScaled (Decimal.VString s) d) = Ok z.
Proof.
  intros Hd.
  set (n := Z.abs_N z). set (neg := (z <? 0)%Z). set (D := Z.to_nat d).
  pose proof (padded_digits n D) as H. cbv zeta in H.
  set (ip := firstn _ _) in H. set (g := skipn _ _) in H. clearbody ip g.
  destruct H as (Hi & Hg & Hlen & Hval).
  assert (Hz : z = DecimalProps.with_sign neg (JsBigInt.of_digits (ip ++ g))).
  { rewrite Hval. unfold DecimalProps.with_sign, neg, n.
    destruct (Z.ltb_spec z 0); rewrite N2Z.inj_abs_N; lia. }
  assert (Hd' : d = Z.of_nat (List.length g)) by (rewrite Hlen; unfold D; lia).
  clear Hval. clearbody neg n.
  set (neg' := neg && negb (forallb JsString.is_zero_char (ip ++ g))).
  set (pointed := negb (forallb JsString.is_zero_char g)).
  set (fp := if pointed then g else @nil ascii).
  assert (Hrender :
            Decimal.scaledToDecimalString (Decimal.SBigint z) d
            = Ok (JsString.to_string
                    ((if neg' then ["-"%char] else []) ++ DecimalProps.strip0 ip
                     ++ (if pointed then "."%char :: fp else []))%list)).
  { rewrite Hz, Hd'.
    rewrite (scaledToDecimalString_units neg ip g Hi Hg). cbv zeta.
    fold neg'. unfold pointed, fp.
    destruct (forallb JsString.is_zero_char g), neg'; cbn;
      rewrite ?List.app_nil_r; reflexivity. }
  rewrite Hrender. cbn [bind].
  assert (Hparts : DecimalProps.decimal_parts
                     (JsString.of_string
                        (JsString.to_string
                           ((if neg' then ["-"%char] else []) ++ DecimalProps.strip0 ip
                            ++ (if pointed then "."%char :: fp else []))%list))
                   = Some (neg', DecimalProps.strip0 ip, fp)).
  { unfold JsString.of_string, JsString.to_string.
    rewrite list_ascii_of_string_of_list_ascii.
    apply decimal_parts_plain.
    - apply strip0_nonempty.
    - now apply strip0_digits.
    - unfold fp, pointed. destruct (forallb JsString.is_zero_char g) eqn:Ez; cbn; [reflexivity|].
      intros ->. discriminate.
    - unfold fp. destruct pointed; [assumption | reflexivity]. }
  rewrite (decimalToScaled_string _ neg' (DecimalProps.strip0 ip) fp d Hd Hparts).
  f_equal. unfold DecimalProps.truncated_units. fold D. rewrite <- Hlen.
  assert (Hfrac : DecimalProps.fraction_to (List.length g) fp = g).
  { unfold fp, pointed. destruct (forallb JsString.is_zero_char g) eqn:Ez; cbn.
    - now apply fraction_to_nil.
    - apply fraction_to_full. }
  rewrite Hfrac, (of_digits_app_strip0 ip g Hi).
  rewrite Hz. unfold neg'.
  rewrite <- (of_digits_eqb_zero (ip ++ g))
    by (rewrite forallb_app, Hi, Hg; reflexivity).
  destruct (N.eqb_spec (JsBigInt.of_digits (ip ++ g)) 0) as [E|E].
  - rewrite E, andb_false_r. rewrite !with_sign_zero. reflexivity.
  - now rewrite andb_true_r.
Qed.

Lemma scaled_text_reads_back_witness :
  (let* s := Decimal.scaledToDecimalString (Decimal.SBigint (-150)) 4 in
   Decimal.decimalToScaled (Decimal.VString s) 4) = Ok (-150)%Z.
Proof. exact (scaled_text_reads_back (-150) 4 ltac:(lia)). Defined.

(** ** The order book *)

Section BestPriceFacts.

Import Gateway GatewayProps.

Variable Number : string -> JsValue.num.

Lemma maxOf_spec (xs : list Q) (x : Q) :
  In (maxOf x xs) (x :: xs)
  /\ forall y, In y (x :: xs) -> (y <= maxOf x xs)%Q.
Proof.
  revert x. induction xs as [|a xs IH]; intros x; cbn [maxOf fold_left].
  - split; [now left|]. intros y [<-|[]]. apply Qle_refl.
  - fold (maxOf (if Qle_bool x a then a else x) xs).
    destruct (IH (if Qle_bool x a then a else x)) as [Hin Hle].
    split.
    + destruct Hin as [E|Hin]; [|right; right; exact Hin].
      rewrite <- E. destruct (Qle_bool x a); [right; now left | now left].
    + intros y Hy.
      assert (Hstep : (y <= (if Qle_bool x a then a else x))%Q
                      \/ In y xs).
      { destruct Hy as [Ey|[Ey|Hy]]; [| |now right]; left; subst y.
        - destruct (Qle_bool x a) eqn:E; [now apply Qle_bool_iff | apply Qle_refl].
        - destruct (Qle_bool x a) eqn:E; [apply Qle_refl|].
          apply Qlt_le_weak, Qnot_le_lt. intros H. apply Qle_bool_iff in H. congruence. }
      destruct Hstep as [H|H].
      * eapply Qle_trans; [exact H|]. apply Hle. now left.
      * apply Hle. now right.
Qed.

Lemma minOf_spec (xs : list Q) (x : Q) :
  In (minOf x xs) (x :: xs)
  /\ forall y, In y (x :: xs) -> (minOf x xs <= y)%Q.
Proof.
  revert x. induction xs as [|a xs IH]; intros x; cbn [minOf fold_left].
  - split; [now left|]. intros y [<-|[]]. apply Qle_refl.
  - fold (minOf (if Qle_bool a x then a else x) xs).
    destruct (IH (if Qle_bool a x then a else x)) as [Hin Hle].
    split.
    + destruct Hin as [E|Hin]; [|right; right; exact Hin].
      rewrite <- E. destruct (Qle_bool a x); [right; now left | now left].
    + intros y Hy.
      assert (Hstep : ((if Qle_bool a x then a else x) <= y)%Q
                      \/ In y xs).
      { destruct Hy as [Ey|[Ey|Hy]]; [| |now right]; left; subst y.
        - destruct (Qle_bool a x) eqn:E; [|apply Qle_refl].
          now apply Qle_bool_iff.
        - destruct (Qle_bool a x) eqn:E; [apply Qle_refl|].
          apply Qlt_le_weak, Qnot_le_lt. intros H. apply Qle_bool_iff in H. congruence. }
      destruct Hstep as [H|H].
      * eapply Qle_trans; [|exact H]. apply Hle. now left.
      * apply Hle. now right.
Qed.

Lemma finiteOnly_In (xs : list JsValue.num) (q : Q) :
  In q (finiteOnly xs) <-> In (JsValue.VFin q) xs.
Proof.
  unfold finiteOnly. rewrite in_flat_map. split.
  - intros [x [Hx Hq]]. destruct x; simpl in Hq; try contradiction.
    destruct Hq as [->|[]]. exact Hx.
  - intros H. exists (JsValue.VFin q). split; [exact H | now left].
Qed.

Lemma finiteOnly_nil (xs : list JsValue.num) :
  finiteOnly xs = [] <-> forall x, In x xs -> JsValue.isFinite x = false.
Proof.
  split.
  - intros E x Hx. destruct x as [| |q]; try reflexivity.
    apply finiteOnly_In in Hx. rewrite E in Hx. contradiction.
  - intros H. destruct (finiteOnly xs) as [|q r] eqn:E; [reflexivity|].
    assert (Hq : In q (finiteOnly xs)) by (rewrite E; now left).
    apply finiteOnly_In in Hq. apply H in Hq. discriminate.
Qed.

End BestPriceFacts.

Lemma getBestPrice_spec (Number : string -> JsValue.num)
        (levels : option (list Gateway.PricedEntry)) (side : Gateway.Side) :
  let entries := match levels with Some es => es | None => [] end in
  match Gateway.getBestPrice Number levels side with
  | None =>
      forall e, In e entries ->
                JsValue.isFinite (Gateway.entryPrice Number e) = false
  | Some best =>
      (exists e, In e entries /\ Gateway.entryPrice Number e = JsValue.VFin best)
      /\ forall e q, In e entries ->
                     Gateway.entryPrice Number e = JsValue.VFin q ->
                     match side with
                     | Gateway.bid => (q <= best)%Q
                     | Gateway.ask => (best <= q)%Q
                     end
  end.
Proof.
  intros entries. unfold Gateway.getBestPrice.
  destruct levels as [[|e0 es]|]; subst entries; try (intros e []).
  set (all := e0 :: es).
  destruct (Gateway.finiteOnly (map (Gateway.entryPrice Number) all)) as [|x xs] eqn:E.
  - intros e He. apply (proj1 (finiteOnly_nil _) E). now apply in_map.
  - assert (Hmem : forall q, In q (x :: xs)
                             <-> exists e, In e all
                                           /\ Gateway.entryPrice Number e = JsValue.VFin q).
    { intros q. rewrite <- E, finiteOnly_In, in_map_iff. split.
      - intros [e [He Hin]]. exists e. auto.
      - intros [e [Hin He]]. exists e. auto. }
    destruct side.
    + destruct (maxOf_spec xs x) as [Hin Hle]. split.
      * now apply Hmem.
      * intros e q He Hq. apply Hle, Hmem. exists e. auto.
    + destruct (minOf_spec xs x) as [Hin Hle]. split.
      * now apply Hmem.
      * intros e q He Hq. apply Hle, Hmem. exists e. auto.
Qed.


(** [getBestPrice] answers [null] exactly when no element has a finite
    price (in particular for an absent or empty array); otherwise its
    answer is the price of one of the elements, and no finite price among
    them is higher (for bids) or lower (for asks). *)
Theorem getBestPrice_is_best (Number : string -> JsValue.num)
        (levels : option (list Gateway.PricedEntry)) (side : Gateway.Side) :
  let entries := match levels with Some es => es | None => [] end in
  match Gateway.getBestPrice Number levels side with
  | None =>
      forall e, In e entries ->
                JsValue.isFinite (Gateway.entryPrice Number e) = false
  | Some best =>
      (exists e, In e entries /\ Gateway.entryPrice Number e = JsValue.VFin best)
      /\ forall e q, In e entries ->
                     Gateway.entryPrice Number e = JsValue.VFin q ->
                     match side with
                     | Gateway.bid => (q <= best)%Q
                     | Gateway.ask => (best <= q)%Q
                     end
  end.
Proof. apply getBestPrice_spec. Qed.

Section TopOfBook.

Import Gateway GatewayProps.

Variable Number : string -> JsValue.num.

Lemma head_is_best (side : Side) (b : LighterOrderBookLevel)
      (rest : list LighterOrderBookLevel) :
  side_sorted Number side (b :: rest) ->
  finite_prices Number (b :: rest) ->
  exists q best,
    Number (price b) = JsValue.VFin q
    /\ getBestPrice Number (Some (map EntryLevel (b :: rest))) side = Some best
    /\ (best == q)%Q.
Proof.
  intros Hs Hf.
  inversion Hf as [|? ? Hb Hrest]; subst.
  destruct (Number (price b)) as [| |q] eqn:Eb; try discriminate.
  pose proof (getBestPrice_spec Number (Some (map EntryLevel (b :: rest))) side) as H.
  cbv zeta in H.
  destruct (getBestPrice Number (Some (map EntryLevel (b :: rest))) side) as [best|].
  - exists q, best. repeat split.
    destruct H as [[e [He Hbest]] Hmax].
    apply in_map_iff in He. destruct He as [l [<- Hl]]. simpl in Hbest.
    assert (Hq : match side with bid => (q <= best)%Q | ask => (best <= q)%Q end).
    { apply (Hmax (EntryLevel b) q); [now left | exact Eb]. }
    assert (Hl' : match side with bid => (best <= q)%Q | ask => (q <= best)%Q end).
    { destruct Hl as [<-|Hl].
      - rewrite Eb in Hbest. inversion Hbest; subst. destruct side; apply Qle_refl.
      - inversion Hs as [|? ? _ Hall]; subst. rewrite Forall_forall in Hall.
        specialize (Hall l Hl). unfold stands_before in Hall.
        rewrite Eb, Hbest in Hall. exact Hall. }
    destruct side; apply Qle_antisym; assumption.
  - exfalso. specialize (H (EntryLevel b) (or_introl eq_refl)). simpl in H.
    rewrite Eb in H. discriminate.
Qed.

End TopOfBook.

(** The best prices are the top of the book.  From the state the
    constructor leaves, after every run of stream messages whose prices
    read as finite numbers, the best bid that [emitSyntheticTicker] takes
    with [getBestPrice] is the price of the first bid of the stored book
    and its best ask the price of the first ask; for an empty side it is
    [null]. *)
Theorem best_prices_are_top_of_book (Number : string -> JsValue.num)
        (marketId : option Z) (inbox : list (Z * Gateway.Message)) :
  Forall (fun nm => GatewayProps.finite_message Number (snd nm)) inbox ->
  let g := Gateway.receive Number (Gateway.initial marketId) inbox in
  forall book, Gateway.orderBook g = Some book ->
    exists bestBid bestAsk,
      Gateway.bestPrices Number g = Some (bestBid, bestAsk)
      /\ match Gateway.bids book with
         | [] => bestBid = None
         | b :: _ => exists q best, Number (Gateway.price b) = JsValue.VFin q
                                    /\ bestBid = Some best /\ (best == q)%Q
         end
      /\ match Gateway.asks book with
         | [] => bestAsk = None
         | a :: _ => exists q best, Number (Gateway.price a) = JsValue.VFin q
                                    /\ bestAsk = Some best /\ (best == q)%Q
         end.
Proof.
  intros Hin g book Hbook.
  destruct (receive_sorted Number inbox (Gateway.initial marketId) Hin) as [Hs Hf];
    [split; exact I|].
  fold g in Hs, Hf. unfold GatewayProps.book_sorted in Hs.
  unfold GatewayProps.book_finite in Hf. unfold Gateway.bestPrices.
  rewrite Hbook in *. destruct Hs as [Hsb Hsa]. destruct Hf as [Hfb Hfa].
  eexists _, _. split; [reflexivity|]. split.
  - destruct (Gateway.bids book) as [|b rest]; [reflexivity|].
    destruct (head_is_best Number Gateway.bid b rest Hsb Hfb) as (q & best & E1 & E2 & E3).
    exists q, best. auto.
  - destruct (Gateway.asks book) as [|a rest]; [reflexivity|].
    destruct (head_is_best Number Gateway.ask a rest Hsa Hfa) as (q & best & E1 & E2 & E3).
    exists q, best. auto.
Qed.

Lemma best_prices_are_top_of_book_witness :
  exists best bestAsk,
    Gateway.bestPrices Samples.Number Samples.after_snapshot5
    = Some (Some best, bestAsk)
    /\ (best == 100)%Q.
Proof.
  pose proof (best_prices_are_top_of_book Samples.Number (Some 1%Z)
                [(1000%Z, Gateway.SubscribedOrderBook Samples.snapshot5)]
                ltac:(repeat constructor)) as H.
  cbv zeta in H.
  destruct (H _ eq_refl) as (bb & ba & E & Hb & _).
  cbn in Hb. destruct Hb as (q & best & Eq & -> & Hq).
  exists best, ba. split; [exact E|].
  vm_compute in Eq. inversion Eq; subst q. exact Hq.
Defined.

(** The levels [sortAndTrimLevels] drops are the worst ones: for prices
    that read as finite numbers, the levels kept and the levels dropped
    are together the levels given, as many are kept as the limit (at
    least 1) allows, and every level kept has a price at least as good as
    every level dropped. *)
Theorem trimming_drops_the_worst (Number : string -> JsValue.num)
        (side : Gateway.Side) (limit : Z) (levels : list Gateway.LighterOrderBookLevel) :
  GatewayProps.finite_prices Number levels ->
  let kept := Gateway.sortAndTrimLevels Number levels side limit in
  exists dropped,
    Permutation levels (kept ++ dropped)
    /\ List.length kept = Nat.min (Z.to_nat (Z.max 1 limit)) (List.length levels)
    /\ forall a b, In a kept -> In b dropped ->
                   GatewayProps.stands_before Number side a b.
Proof.
  intros Hf kept. subst kept. unfold Gateway.sortAndTrimLevels.
  set (n := Z.to_nat (Z.max 1 limit)).
  set (sorted := Gateway.sort (Gateway.compareLevels Number side) levels).
  exists (skipn n sorted). repeat split.
  - rewrite firstn_skipn. symmetry. apply sort_perm.
  - rewrite length_firstn. f_equal. unfold sorted.
    apply Permutation_length, sort_perm.
  - apply StronglySorted_cross. rewrite firstn_skipn. now apply sort_sorted.
Qed.

Lemma trimming_drops_the_worst_witness :
  let levels := [Samples.level "101" "1"; Samples.level "103" "2";
                 Samples.level "102" "3"] in
  exists dropped,
    Permutation levels
      (Gateway.sortAndTrimLevels Samples.Number levels Gateway.bid 2 ++ dropped)
    /\ List.length (Gateway.sortAndTrimLevels Samples.Number levels Gateway.bid 2)
       = Nat.min (Z.to_nat (Z.max 1 2)) (List.length levels)
    /\ forall a b,
         In a (Gateway.sortAndTrimLevels Samples.Number levels Gateway.bid 2) ->
         In b dropped ->
         GatewayProps.stands_before Samples.Number Gateway.bid a b.
Proof.
  intros levels.
  apply (trimming_drops_the_worst Samples.Number Gateway.bid 2 levels).
  repeat constructor.
Defined.

(** ** Runs of stream messages *)

Section RunFacts.

Import Gateway GatewayProps FacadeProps.

Variable Number : string -> JsValue.num.

Ltac handlers :=
  unfold handleOrderBookSnapshot, handleOrderBookUpdate, handleAccountAll,
    handleAccountMarket, handleAccountOrders, emitDepth, emitAccount, emitOrders.

(** The handlers leave the market id and the account details alone. *)
Lemma handleMessage_metadata (now : Z) (msg : Message) (g : State) :
  marketId (fst (handleMessage Number now msg g)) = marketId g
  /\ accountDetails (fst (handleMessage Number now msg g)) = accountDetails g.
Proof.
  destruct msg as [|m|m|m|m|m|]; cbn [handleMessage]; handlers; auto.
  - destruct (m_order_book m); auto.
    destruct (staleOffset g m); auto. destruct (staleTimestamp g m); auto.
  - destruct (orderBook g); auto.
    destruct (staleOffset g m); auto. destruct (staleTimestamp g m); auto.
    destruct (m_order_book m); auto.
  - destruct (a_positions m); auto.
  - destruct (am_position m) as [p|]; auto. destruct (p_market_id p); auto.
  - destruct (unreadable m); auto.
Qed.

Lemma handleMessage_gated (now : Z) (msg : Message) (g : State) (e : Emitted) :
  In e (snd (handleMessage Number now msg g)) ->
  (negb (is_depth e) || is_some (marketId g))
  && (negb (is_account e) || accountDetails g) = true.
Proof.
  assert (Hdepth : forall g', marketId g' = marketId g ->
                     In e (emitDepth g') ->
                     (negb (is_depth e) || is_some (marketId g))
                     && (negb (is_account e) || accountDetails g) = true).
  { intros g' Hm. unfold emitDepth. rewrite Hm.
    destruct (orderBook g'); [|intros []].
    destruct (marketId g); [|intros []]. intros [<-|[]]. reflexivity. }
  assert (Hacc : forall g', accountDetails g' = accountDetails g ->
                   In e (emitAccount g') ->
                   (negb (is_depth e) || is_some (marketId g))
                   && (negb (is_account e) || accountDetails g) = true).
  { intros g' Ha. unfold emitAccount. rewrite Ha.
    destruct (accountDetails g); [|intros []]. intros [<-|[]]. reflexivity. }
  destruct msg as [|m|m|m|m|m|]; cbn [handleMessage];
    unfold handleOrderBookSnapshot, handleOrderBookUpdate, handleAccountAll,
      handleAccountMarket, handleAccountOrders.
  - intros [].
  - destruct (m_order_book m); try (intros []).
    destruct (staleOffset g m); try (intros []).
    destruct (staleTimestamp g m); try (intros []).
    cbn [snd]. now apply Hdepth.
  - destruct (orderBook g); try (intros []).
    destruct (staleOffset g m); try (intros []).
    destruct (staleTimestamp g m); try (intros []).
    destruct (m_order_book m); try (intros []).
    cbn [snd]. now apply Hdepth.
  - cbn [snd]. apply Hacc. destruct (a_positions m); reflexivity.
  - destruct (am_position m) as [p|]; try (intros []).
    destruct (p_market_id p); try (intros []).
    cbn [snd]. now apply Hacc.
  - destruct (unreadable m); cbn [snd]; [intros []|]. intros [<-|[]]. reflexivity.
  - intros [].
Qed.

Lemma emissions_gated (inbox : list (Z * Message)) (g : State) :
  forallb (fun e => (negb (is_depth e) || is_some (marketId g))
                    && (negb (is_account e) || accountDetails g))
          (emissions Number g inbox) = true.
Proof.
  revert g. induction inbox as [|[now msg] inbox IH]; intros g; [reflexivity|].
  cbn [emissions]. rewrite forallb_app. apply andb_true_iff. split.
  - apply forallb_forall. intros e He. now apply handleMessage_gated in He.
  - destruct (handleMessage_metadata now msg g) as [Hm Ha].
    specialize (IH (fst (handleMessage Number now msg g))).
    now rewrite Hm, Ha in IH.
Qed.

(** Without a stored book, a message that is no snapshot with a book
    stores none and hands no depth to the listeners. *)
Lemma handleMessage_no_book (now : Z) (msg : Message) (g : State) :
  orderBook g = None -> carries_snapshot msg = false ->
  orderBook (fst (handleMessage Number now msg g)) = None
  /\ forallb (fun e => negb (is_depth e)) (snd (handleMessage Number now msg g)) = true.
Proof.
  intros Hg Hm.
  destruct msg as [|m|m|m|m|m|]; cbn [handleMessage]; handlers; auto.
  - simpl in Hm. destruct (m_order_book m); [discriminate|]. auto.
  - rewrite Hg. auto.
  - destruct (a_positions m); cbn; rewrite Hg; destruct (accountDetails g); auto.
  - destruct (am_position m) as [p|]; auto. destruct (p_market_id p); auto.
    cbn. rewrite Hg. destruct (accountDetails g); auto.
  - destruct (unreadable m); cbn; rewrite Hg; auto.
Qed.

Lemma run_no_book (inbox : list (Z * Message)) (g : State) :
  orderBook g = None ->
  forallb (fun nm => negb (carries_snapshot (snd nm))) inbox = true ->
  orderBook (receive Number g inbox) = None
  /\ forallb (fun e => negb (is_depth e)) (emissions Number g inbox) = true.
Proof.
  revert g. induction inbox as [|[now msg] inbox IH]; intros g Hg Hin; [auto|].
  cbn [forallb] in Hin. apply andb_true_iff in Hin. destruct Hin as [Hm Hin].
  apply negb_true_iff in Hm. cbn [snd] in Hm.
  destruct (handleMessage_no_book now msg g Hg Hm) as [Hb He].
  destruct (IH _ Hb Hin) as [IH1 IH2]. split.
  - exact IH1.
  - cbn [emissions]. rewrite forallb_app, He. exact IH2.
Qed.

End RunFacts.

(** During every run of stream messages a depth event is handed to the
    listeners only if the market id is known, and an account event only
    if the account details have been loaded: the handlers store what the
    stream sends, but as long as the metadata is missing they stay
    silent. *)
Theorem events_wait_for_metadata (Number : string -> JsValue.num)
        (g : Gateway.State) (inbox : list (Z * Gateway.Message)) :
  forallb (fun e => (negb (GatewayProps.is_depth e)
                     || FacadeProps.is_some (Gateway.marketId g))
                    && (negb (GatewayProps.is_account e) || Gateway.accountDetails g))
          (GatewayProps.emissions Number g inbox) = true.
Proof. apply emissions_gated. Qed.

(** A delta without a snapshot before it is ignored.  As long as no
    snapshot message with an order book has arrived, no message makes the
    gateway store a book, and no depth is handed to the listeners. *)
Theorem no_book_before_the_snapshot (Number : string -> JsValue.num)
        (marketId : option Z) (inbox : list (Z * Gateway.Message)) :
  forallb (fun nm => negb (GatewayProps.carries_snapshot (snd nm))) inbox = true ->
  Gateway.orderBook (Gateway.receive Number (Gateway.initial marketId) inbox) = None
  /\ forallb (fun e => negb (GatewayProps.is_depth e))
             (GatewayProps.emissions Number (Gateway.initial marketId) inbox) = true.
Proof. intros H. now apply run_no_book. Qed.

Lemma no_book_before_the_snapshot_witness :
  Gateway.orderBook
    (Gateway.receive Samples.Number (Gateway.initial (Some 1%Z))
       [(1000%Z, Gateway.UpdateOrderBook Samples.snapshot5);
        (1001%Z, Gateway.Connected)]) = None.
Proof.
  exact (proj1 (no_book_before_the_snapshot Samples.Number (Some 1%Z)
                  [(1000%Z, Gateway.UpdateOrderBook Samples.snapshot5);
                   (1001%Z, Gateway.Connected)] eq_refl)).
Defined.

(** ** Live orders and positions *)

Section LiveOrderFacts.

Import Gateway GatewayProps.

Variable Number : string -> JsValue.num.

Lemma mergeOrder_in_order (acc : OrderMap) (order : LighterOrder) :
  entries_in_order acc -> entries_in_order (mergeOrder acc order).
Proof.
  intros [Hnd Hall]. unfold mergeOrder.
  destruct (string_eqb_spec (order_key order) EmptyString) as [E|Hne]; [split; assumption|].
  destruct (set_has terminalStatuses (order_status order)) eqn:Et.
  - split; [now apply NoDup_delete|].
    intros k o Hin. apply (In_delete _ _ String.eqb string_eqb_spec) in Hin.
    apply Hall, Hin.
  - split; [now apply (NoDup_set _ _ String.eqb string_eqb_spec)|].
    intros k o Hin. apply (In_set _ _ String.eqb string_eqb_spec) in Hin.
    destruct Hin as [[-> ->]|Hin]; [|now apply Hall].
    repeat split; auto.
Qed.

Lemma fold_mergeOrder_in_order (os : list LighterOrder) (acc : OrderMap) :
  entries_in_order acc -> entries_in_order (fold_left mergeOrder os acc).
Proof.
  revert acc. induction os as [|o os IH]; intros acc H; simpl; auto.
  apply IH. now apply mergeOrder_in_order.
Qed.

Lemma handleMessage_live_orders (now : Z) (msg : Message) (g : State) :
  readable msg ->
  live_orders_in_order g ->
  live_orders_in_order (fst (handleMessage Number now msg g)).
Proof.
  intros Hr Hg.
  destruct msg as [|m|m|m|m|m|]; cbn [handleMessage]; auto.
  - unfold handleOrderBookSnapshot.
    destruct (m_order_book m); auto.
    destruct (staleOffset g m); auto. destruct (staleTimestamp g m); auto.
  - unfold handleOrderBookUpdate.
    destruct (orderBook g); auto.
    destruct (staleOffset g m); auto. destruct (staleTimestamp g m); auto.
    destruct (m_order_book m); auto.
  - unfold handleAccountAll. destruct (a_positions m); auto.
  - unfold handleAccountMarket.
    destruct (am_position m) as [p|]; auto. destruct (p_market_id p); auto.
  - unfold handleAccountOrders, live_orders_in_order. cbn [readable] in Hr. rewrite Hr. cbn.
    destruct Hg as (_ & Hnd & Hall).
    destruct (fold_mergeOrder_in_order (allOrders m) (orderMap g) (conj Hnd Hall))
      as [H1 H2].
    auto.
Qed.

Lemma receive_live_orders (inbox : list (Z * Message)) (g : State) :
  Forall (fun nm => readable (snd nm)) inbox ->
  live_orders_in_order g -> live_orders_in_order (receive Number g inbox).
Proof.
  revert g. induction inbox as [|[now msg] inbox IH]; intros g Hr Hg; auto.
  inversion Hr; subst. apply IH; auto. now apply handleMessage_live_orders.
Qed.

(** Whether or not the messages can be read: the map stays in order, and
    the list shows a state of the map. *)
Lemma handleMessage_orders_kept (now : Z) (msg : Message) (g : State) :
  entries_in_order (orderMap g) /\ orders_shown_in_order g ->
  entries_in_order (orderMap (fst (handleMessage Number now msg g)))
  /\ orders_shown_in_order (fst (handleMessage Number now msg g)).
Proof.
  intros Hg.
  destruct msg as [|m|m|m|m|m|]; cbn [handleMessage]; auto.
  - unfold handleOrderBookSnapshot.
    destruct (m_order_book m); auto.
    destruct (staleOffset g m); auto. destruct (staleTimestamp g m); auto.
  - unfold handleOrderBookUpdate.
    destruct (orderBook g); auto.
    destruct (staleOffset g m); auto. destruct (staleTimestamp g m); auto.
    destruct (m_order_book m); auto.
  - unfold handleAccountAll. destruct (a_positions m); auto.
  - unfold handleAccountMarket.
    destruct (am_position m) as [p|]; auto. destruct (p_market_id p); auto.
  - destruct Hg as [Hm Hs].
    pose proof (fold_mergeOrder_in_order (allOrders m) (orderMap g) Hm) as Hm'.
    unfold handleAccountOrders. destruct (unreadable m); cbn.
    + split; [exact Hm' | exact Hs].
    + split; [exact Hm'|]. eexists. split; [exact Hm' | reflexivity].
Qed.

Lemma receive_orders_kept (inbox : list (Z * Message)) (g : State) :
  entries_in_order (orderMap g) /\ orders_shown_in_order g ->
  entries_in_order (orderMap (receive Number g inbox))
  /\ orders_shown_in_order (receive Number g inbox).
Proof.
  revert g. induction inbox as [|[now msg] inbox IH]; intros g Hg; auto.
  apply IH. now apply handleMessage_orders_kept.
Qed.

End LiveOrderFacts.

(** The live orders stay in order.  From the state the constructor
    leaves, after every run of stream messages every order of the order
    map sits under its own key (its order index, else its order id, else
    its client order index), no key is empty or held twice, and no order
    in the map has the status filled, canceled, cancelled or expired, in
    whatever case it is written; the order list holds the values of such a
    map.  When every orders message of the run could be read to its end
    (no entry is [null] and every status is a string or missing), the
    order list is the list of the values of the order map itself. *)
Theorem live_orders_stay_in_order (Number : string -> JsValue.num)
        (marketId : option Z) (inbox : list (Z * Gateway.Message)) :
  let g := Gateway.receive Number (Gateway.initial marketId) inbox in
  GatewayProps.entries_in_order (Gateway.orderMap g)
  /\ GatewayProps.orders_shown_in_order g
  /\ (Forall (fun nm => GatewayProps.readable (snd nm)) inbox ->
      Gateway.orders g = JsMap.values (Gateway.orderMap g)).
Proof.
  assert (H0 : GatewayProps.entries_in_order (Gateway.orderMap (Gateway.initial marketId))).
  { split; [constructor | intros k o []]. }
  intros g. split; [|split].
  - apply receive_orders_kept. split; [exact H0|]. eexists. split; [exact H0 | reflexivity].
  - apply receive_orders_kept. split; [exact H0|]. eexists. split; [exact H0 | reflexivity].
  - intros Hr. apply (receive_live_orders Number inbox (Gateway.initial marketId) Hr).
    unfold GatewayProps.live_orders_in_order. cbn.
    repeat split; try constructor; contradiction.
Qed.

Lemma live_orders_stay_in_order_witness :
  let order := {| Gateway.order_index := Some "7"%string; Gateway.order_id := None;
                  Gateway.client_order_index := None;
                  Gateway.status := Some "open"%string; Gateway.o_rest := EmptyString |} in
  let g := Gateway.receive Samples.Number (Gateway.initial (Some 1%Z))
             [(1000%Z, Gateway.AccountOrders
                         {| Gateway.ao_orders := [Gateway.OrderArray [order]] |})] in
  Gateway.orders g = JsMap.values (Gateway.orderMap g).
Proof.
  intros order g.
  apply (live_orders_stay_in_order Samples.Number (Some 1%Z)
           [(1000%Z, Gateway.AccountOrders
                       {| Gateway.ao_orders := [Gateway.OrderArray [order]] |})]).
  repeat constructor.
Defined.

(** An orders message with an entry that cannot be read: the order before
    it is in the map, the order list is left as it was and nothing is
    handed to the listeners. *)
Example unreadable_entry_leaves_the_list_stale :
  let order := {| Gateway.order_index := Some "7"%string; Gateway.order_id := None;
                  Gateway.client_order_index := None;
                  Gateway.status := Some "open"%string; Gateway.o_rest := EmptyString |} in
  let out := Gateway.handleAccountOrders
               {| Gateway.ao_orders := [Gateway.UnreadableAfter [order]] |}
               (Gateway.initial (Some 1%Z)) in
  JsMap.values (Gateway.orderMap (fst out)) = [order]
  /\ Gateway.orders (fst out) = []
  /\ snd out = [].
Proof. vm_compute. repeat split; reflexivity. Qed.

Section PositionSetFacts.

Import Gateway GatewayProps.


Lemma NoDup_map_Some (A : Type) (l : list A) : NoDup l -> NoDup (map Some l).
Proof.
  induction 1 as [|a l Ha Hl IH]; cbn; constructor; auto.
  intros Hin. apply in_map_iff in Hin. destruct Hin as [x [E Hx]].
  inversion E; subst. contradiction.
Qed.

Lemma NoDup_map_filter (A B : Type) (f : A -> B) (keep : A -> bool) (l : list A) :
  NoDup (map f l) -> NoDup (map f (filter keep l)).
Proof.
  induction l as [|a l IH]; cbn; intros H; [constructor|].
  inversion H as [|? ? Ha Hl]; subst.
  destruct (keep a); cbn; auto. constructor; auto.
  intros Hin. apply Ha. apply in_map_iff in Hin. destruct Hin as [x [E Hx]].
  apply filter_In in Hx. apply in_map_iff. exists x. tauto.
Qed.

Lemma values_one_per_market (m : PositionMap) :
  well_keyed m -> one_per_market (JsMap.values m).
Proof.
  intros [Hnd Hkey]. unfold one_per_market, JsMap.values.
  assert (E : map p_market_id (map snd m) = map Some (JsMap.keys m)).
  { unfold JsMap.keys. rewrite !map_map. apply map_ext_in.
    intros [k p] Hin. cbn. now apply Hkey. }
  split.
  - rewrite E. now apply NoDup_map_Some.
  - apply Forall_forall. intros p Hin. apply in_map_iff in Hin.
    destruct Hin as [[k q] [<- Hin]]. cbn. rewrite (Hkey k q Hin). discriminate.
Qed.


Lemma handleAccountMarket_one_per_market (p : LighterPosition) (k : Z)
      (ps : list LighterPosition) :
  p_market_id p = Some k -> one_per_market ps ->
  one_per_market
    (if shouldRemove p then filter (fun q => negb (same_market k q)) ps
     else if existsb (same_market k) ps
          then map (fun q => if same_market k q then p else q) ps
          else map (fun q => if same_market k q then p else q) ps ++ [p]).
Proof.
  intros Hk [Hnd Hall].
  assert (Hmap : map p_market_id (map (fun q => if same_market k q then p else q) ps)
                 = map p_market_id ps).
  { rewrite map_map. apply map_ext. intros q.
    destruct (same_market k q) eqn:E; [|reflexivity].
    apply same_market_iff in E. congruence. }
  destruct (shouldRemove p).
  - split.
    + now apply NoDup_map_filter.
    + apply Forall_forall. intros q Hq. apply filter_In in Hq.
      rewrite Forall_forall in Hall. now apply Hall.
  - destruct (existsb (same_market k) ps) eqn:Ex.
    + split; [now rewrite Hmap|].
      apply Forall_forall. intros q Hq. apply in_map_iff in Hq.
      destruct Hq as [x [<- Hx]]. rewrite Forall_forall in Hall.
      destruct (same_market k x); [congruence | now apply Hall].
    + assert (Hn : ~ In (Some k) (map p_market_id ps)).
      { intros Hin. apply in_map_iff in Hin. destruct Hin as [x [Ex' Hx]].
        apply same_market_iff in Ex'.
        assert (existsb (same_market k) ps = true)
          by (apply existsb_exists; exists x; auto).
        congruence. }
      split.
      * rewrite map_app, Hmap. cbn [map]. rewrite Hk.
        apply NoDup_app; [exact Hnd | repeat constructor; intros [] |].
        intros x Hx [<-|[]]. contradiction.
      * apply Forall_app. split.
        -- apply Forall_forall. intros q Hq. apply in_map_iff in Hq.
           destruct Hq as [x [<- Hx]]. rewrite Forall_forall in Hall.
           destruct (same_market k x); [congruence | now apply Hall].
        -- constructor; [congruence | constructor].
Qed.

Lemma handleMessage_one_per_market (Number : string -> JsValue.num) (now : Z)
      (msg : Message) (g : State) :
  one_per_market (positions g) ->
  one_per_market (positions (fst (handleMessage Number now msg g))).
Proof.
  intros Hg. destruct msg as [|m|m|m|m|m|]; cbn [handleMessage]; auto.
  - unfold handleOrderBookSnapshot.
    destruct (m_order_book m); auto.
    destruct (staleOffset g m); auto. destruct (staleTimestamp g m); auto.
  - unfold handleOrderBookUpdate.
    destruct (orderBook g); auto.
    destruct (staleOffset g m); auto. destruct (staleTimestamp g m); auto.
    destruct (m_order_book m); auto.
  - unfold handleAccountAll. destruct (a_positions m) as [incoming|]; auto.
    cbn. apply values_one_per_market, well_keyed_merge, well_keyed_index, well_keyed_empty.
  - unfold handleAccountMarket.
    destruct (am_position m) as [p|]; auto.
    destruct (p_market_id p) as [k|] eqn:Ek; auto.
    cbn. now apply handleAccountMarket_one_per_market.
  - unfold handleAccountOrders. destruct (unreadable m); exact Hg.
Qed.

Lemma receive_one_per_market (Number : string -> JsValue.num)
      (inbox : list (Z * Message)) (g : State) :
  one_per_market (positions g) ->
  one_per_market (positions (receive Number g inbox)).
Proof.
  revert g. induction inbox as [|[now msg] inbox IH]; intros g Hg; auto.
  apply IH. now apply handleMessage_one_per_market.
Qed.



End PositionSetFacts.

(** At most one position per market.  From the state the constructor
    leaves, after every run of stream messages no two positions of the
    set have the same market id, and each has one. *)
Theorem one_position_per_market (Number : string -> JsValue.num)
        (marketId : option Z) (inbox : list (Z * Gateway.Message)) :
  GatewayProps.one_per_market
    (Gateway.positions (Gateway.receive Number (Gateway.initial marketId) inbox)).
Proof.
  apply receive_one_per_market. split; constructor.
Qed.



(** ** Submission *)

Section SubmissionFacts.

Import Facade FacadeProps.

Variables (CreateOrderParams Conversion AsterOrder NonceState : Type).
Variable nonce_next : NonceState -> result (Z * Z) * NonceState.
Variable nonce_acknowledgeFailure : Z -> NonceState -> NonceState.
Variable nonce_init : NonceState -> result unit * NonceState.
Variable getOrderBooks : result (list OrderBookMetadata).
Variable getAccountDetails : bool -> string -> result bool.
Variable connect : SocketFate.
Variable mapCreateOrderParams :
  Z -> World Conversion NonceState -> CreateOrderParams -> result Conversion.
Variable sign : SignRequest Conversion -> result SignedTx.
Variable createAuthToken : Z -> result string.
Variable sendTransaction : SignedTx -> string -> result string.
Variable lighterOrderToAster : Conversion -> Z -> result AsterOrder.
Variable DEFAULT_AUTH_TOKEN_BUFFER_MS : Z.
Variable toUpperCase : string -> string.
Variable marketSymbol : string.
Variable l1Address : option string.
Variable LIGHTER_DEBUG : bool.

Local Abbreviation W := (World Conversion NonceState).
Local Abbreviation initialised :=
  (ensureInitialized (Conversion := Conversion) (NonceState := NonceState)
     nonce_init getOrderBooks getAccountDetails connect createAuthToken
     DEFAULT_AUTH_TOKEN_BUFFER_MS toUpperCase marketSymbol l1Address).
Local Abbreviation invoked :=
  (invoke nonce_next nonce_acknowledgeFailure nonce_init getOrderBooks
     getAccountDetails connect mapCreateOrderParams sign createAuthToken
     sendTransaction lighterOrderToAster DEFAULT_AUTH_TOKEN_BUFFER_MS toUpperCase
     marketSymbol l1Address LIGHTER_DEBUG).
Local Abbreviation proceeded :=
  (proceed nonce_next nonce_acknowledgeFailure mapCreateOrderParams sign
     createAuthToken sendTransaction lighterOrderToAster
     DEFAULT_AUTH_TOKEN_BUFFER_MS LIGHTER_DEBUG).

Ltac unfold_all :=
  unfold proceed, createOrder_body, cancelOrder_body, cancelAllOrders_body,
    mbind, try_catch, convert, marketIdOf, nonceManager_next,
    nonceManager_acknowledgeFailure, signer_sign, http_sendTransaction,
    logPayloadOnce, logResponse, ensureAuthToken, removeOrderLocally;
  unfold logger, lift, ret, throw.

Ltac split_step :=
  match goal with
  | |- context [match ?x with _ => _ end] =>
      lazymatch x with
      | context [match _ with _ => _ end] => fail
      | _ => destruct x eqn:?
      end
  end.

Ltac split_cases := cbv beta iota zeta; repeat (split_step; cbv beta iota zeta).

Lemma proceed_gateway (now : Z) (op : Operation CreateOrderParams) (w : W) :
  let out := proceeded now op w in
  match op, fst out with
  | OpCancelOrder _ params, Ok _ =>
      let left := JsMap.delete String.eqb (orderIdKey (co_orderId params))
                               (Gateway.orderMap (gateway w)) in
      gateway (snd out) = Gateway.set_orders (gateway w) left
      /\ emitted (snd out) = emitted w ++ [Gateway.EmitOrders (JsMap.values left)]
  | _, _ => gateway (snd out) = gateway w /\ emitted (snd out) = emitted w
  end.
Proof.
  destruct op as [params|params|params]; cbv zeta; unfold_all.
  - split_cases; cbn; auto.
  - split_cases; cbn in *; try discriminate; auto.
  - split_cases; cbn in *; try discriminate; auto.
Qed.

Ltac trace_step :=
  match goal with
  | H : In _ [] |- _ => destruct H
  | H : In _ (_ :: _) |- _ => destruct H as [H|H]
  | H : @eq (Call _) _ _ |- _ => first [discriminate H | inversion H; subst; clear H]
  end.

Lemma proceed_sends_signed (now : Z) (op : Operation CreateOrderParams) (w : W) :
  let out := proceeded now op w in
  exists cs,
    calls (snd out) = calls w ++ cs
    /\ (List.length (filter (@is_send Conversion) cs) <= 1)%nat
    /\ forall tx auth,
         In (CallSendTransaction Conversion tx auth) cs ->
         exists k n req rest,
           fst (nonce_next (nonces w)) = Ok (k, n)
           /\ cs = CallNext Conversion (Ok (k, n)) :: CallSign req :: rest
           /\ signed_with k n req
           /\ sign req = Ok tx.
Proof.
  destruct op as [params|params|params]; cbv zeta; unfold_all.
  all: split_cases; cbn [fst snd calls record with_nonces with_auth with_gateway
                         with_logged];
    rewrite <- ?app_assoc; cbn [app];
    (eexists; split; [first [reflexivity | symmetry; apply List.app_nil_r] |]);
    (split; [cbn; lia|]);
    intros tx auth Hin; repeat trace_step;
    match goal with
    | a : (Z * Z)%type |- _ =>
        destruct a as [k0 n0]; cbn [fst snd] in *; exists k0, n0; do 2 eexists;
        (split; [reflexivity|]); (split; [reflexivity|]);
        (split; [cbn; auto | assumption])
    end.
Qed.

(** The local orders change only on a cancel that went through.  The
    initialisation that an invocation of [createOrder], [cancelOrder] or
    [cancelAllOrders] runs on a gateway that is not yet initialised leaves
    the order map and the order list as they are, and on an initialised
    gateway it changes nothing at all.  After it, an invocation of
    [createOrder] or [cancelAllOrders], and an invocation of [cancelOrder]
    that throws, leave the gateway's order-book, position and order state
    as it is and hand nothing to the listeners; a [cancelOrder] that
    returns has removed the order under [String(orderId)] from the order
    map and nothing else, and has handed the remaining orders to the order
    listeners once. *)
Theorem orders_change_only_on_cancel (now : Z) (op : Operation CreateOrderParams)
        (w : W) :
  let w1 := snd (initialised now w) in
  let out := invoked now op w in
  Gateway.orderMap (gateway w1) = Gateway.orderMap (gateway w)
  /\ Gateway.orders (gateway w1) = Gateway.orders (gateway w)
  /\ (if initialized w then w1 = w else True)
  /\ match op, fst out with
     | OpCancelOrder _ params, Ok _ =>
         let key := orderIdKey (co_orderId params) in
         let left := JsMap.delete String.eqb key (Gateway.orderMap (gateway w)) in
         gateway (snd out) = Gateway.set_orders (gateway w1) left
         /\ emitted (snd out) = emitted w1 ++ [Gateway.EmitOrders (JsMap.values left)]
         /\ JsMap.get String.eqb key (Gateway.orderMap (gateway (snd out))) = None
         /\ forall other, other <> key ->
              JsMap.get String.eqb other (Gateway.orderMap (gateway (snd out)))
              = JsMap.get String.eqb other (Gateway.orderMap (gateway w))
     | _, _ =>
         gateway (snd out) = gateway w1 /\ emitted (snd out) = emitted w1
     end.
Proof.
  intros w1 out.
  destruct (@ensureInitialized_only Conversion NonceState nonce_init getOrderBooks getAccountDetails connect
              createAuthToken DEFAULT_AUTH_TOKEN_BUFFER_MS toUpperCase marketSymbol
              l1Address now w) as [[_ Hi] [Hm Ho]].
  fold w1 in Hm, Ho.
  split; [exact Hm|]. split; [exact Ho|]. split.
  { destruct (initialized w); [|exact I]. unfold w1. now rewrite Hi. }
  assert (Hout : out = match initialised now w with
                       | (Ok _, w') => proceeded now op w'
                       | (Throw e, w') => (Throw e, w')
                       end) by apply invoke_proceed.
  clearbody out. subst out. unfold w1 in *. clear w1 Hi.
  destruct (initialised now w) as [[[]|e] w1]; cbn [fst snd] in *.
  - pose proof (proceed_gateway now op w1) as H. cbv zeta in H.
    destruct op as [params|params|params]; try exact H.
    destruct (fst (proceeded now (OpCancelOrder CreateOrderParams params) w1));
      [|exact H].
    destruct H as [Hg He]. cbv zeta. rewrite Hg, <- Hm.
    cbn [Gateway.orderMap Gateway.set_orders].
    repeat split; auto.
    + apply (get_delete_same _ _ String.eqb string_eqb_spec).
    + intros other Hn. now apply (get_delete_other _ _ String.eqb string_eqb_spec).
  - destruct op; split; reflexivity.
Qed.

(** Only signed transactions are sent.  The initialisation an invocation
    may run sends no transaction.  After it, in an invocation of
    [createOrder], [cancelOrder] or [cancelAllOrders] at most one
    transaction is sent, and a transaction that is sent is the one the
    signer returned, in this invocation and right after the nonce step,
    for a request that carries the key and the nonce [next()] has just
    given. *)
Theorem sent_transactions_are_signed (now : Z) (op : Operation CreateOrderParams)
        (w : W) :
  let w1 := snd (initialised now w) in
  let out := invoked now op w in
  exists inits cs,
    calls w1 = calls w ++ inits
    /\ forallb (@is_initialisation_step Conversion) inits = true
    /\ calls (snd out) = calls w1 ++ cs
    /\ (List.length (filter (@is_send Conversion) (inits ++ cs)) <= 1)%nat
    /\ forall tx auth,
         In (CallSendTransaction Conversion tx auth) (inits ++ cs) ->
         exists k n req rest,
           fst (nonce_next (nonces w1)) = Ok (k, n)
           /\ cs = CallNext Conversion (Ok (k, n)) :: CallSign req :: rest
           /\ signed_with k n req
           /\ sign req = Ok tx.
Proof.
  intros w1 out.
  destruct (@ensureInitialized_only Conversion NonceState nonce_init getOrderBooks getAccountDetails connect
              createAuthToken DEFAULT_AUTH_TOKEN_BUFFER_MS toUpperCase marketSymbol
              l1Address now w) as [[(inits & Ei & Fi) _] _].
  fold w1 in Ei.
  destruct (@inits_ask_nothing Conversion inits Fi) as (_ & _ & Is).
  assert (Hno : forall tx auth, ~ In (CallSendTransaction Conversion tx auth) inits).
  { intros tx auth Hin.
    assert (Hf : In (CallSendTransaction Conversion tx auth)
                    (filter (@is_send Conversion) inits))
      by (apply filter_In; split; [exact Hin | reflexivity]).
    rewrite Is in Hf. exact Hf. }
  assert (Hout : out = match initialised now w with
                       | (Ok _, w') => proceeded now op w'
                       | (Throw e, w') => (Throw e, w')
                       end) by apply invoke_proceed.
  clearbody out. subst out. unfold w1 in *. clear w1.
  destruct (initialised now w) as [[[]|e] w1]; cbn [fst snd] in *.
  - destruct (proceed_sends_signed now op w1) as (cs & Ec & Hl & Hs).
    exists inits, cs. rewrite filter_app, Is. cbn [app].
    repeat split; auto.
    intros tx auth Hin. apply in_app_or in Hin. destruct Hin as [Hin|Hin].
    + exfalso. exact (Hno tx auth Hin).
    + exact (Hs tx auth Hin).
  - exists inits, []. rewrite !List.app_nil_r, Is. repeat split; auto.
    intros tx auth Hin. exfalso. exact (Hno tx auth Hin).
Qed.

End SubmissionFacts.


(** The auth token is reused.  After an [ensureAuthToken] that returned a
    non-empty token, every further call before the token's expiry less the
    buffer returns that token without asking the signer and changes
    nothing; the first call either made no call itself or asked the
    signer once, for a token that expires ten minutes after the call. *)
Theorem auth_token_is_reused (Conversion NonceState : Type)
        (createAuthToken : Z -> result string) (DEFAULT_AUTH_TOKEN_BUFFER_MS : Z)
        (now now' : Z) (w : Facade.World Conversion NonceState) (token : string) :
  let first := Facade.ensureAuthToken createAuthToken DEFAULT_AUTH_TOKEN_BUFFER_MS now w in
  fst first = Ok token ->
  Facade.nonempty token = true ->
  (now' < Facade.auth_expiresAt (snd first) - DEFAULT_AUTH_TOKEN_BUFFER_MS)%Z ->
  Facade.ensureAuthToken createAuthToken DEFAULT_AUTH_TOKEN_BUFFER_MS now' (snd first)
  = (Ok token, snd first)
  /\ (snd first = w
      \/ (Facade.calls (snd first)
          = Facade.calls w ++ [Facade.CallCreateAuthToken Conversion (now + 600000)%Z]
          /\ Facade.auth_expiresAt (snd first) = (now + 600000)%Z)).
Proof.
  intros first Hok Hne Hlt. subst first. revert Hok Hlt.
  unfold Facade.ensureAuthToken.
  destruct (Facade.auth_token w) as [t0|] eqn:Et.
  - destruct (Facade.nonempty t0 && (now <? _)%Z) eqn:Ev; cbn [fst snd].
    + intros Hok Hlt. inversion Hok; subst t0. rewrite Et, Hne.
      apply Z.ltb_lt in Hlt. rewrite Hlt. cbn. auto.
    + change (now + 10 * 60 * 1000)%Z with (now + 600000)%Z.
      destruct (createAuthToken (now + 600000)%Z) as [t1|e] eqn:Ec; cbn [fst snd];
        [|discriminate].
      intros Hok Hlt. inversion Hok; subst t1. cbn in Hlt |- *. rewrite Hne.
      apply Z.ltb_lt in Hlt. rewrite Hlt. cbn. auto.
  - change (now + 10 * 60 * 1000)%Z with (now + 600000)%Z.
    destruct (createAuthToken (now + 600000)%Z) as [t1|e] eqn:Ec; cbn [fst snd];
      [|discriminate].
    intros Hok Hlt. inversion Hok; subst t1. cbn in Hlt |- *. rewrite Hne.
    apply Z.ltb_lt in Hlt. rewrite Hlt. cbn. auto.
Qed.

Lemma auth_token_is_reused_witness :
  let w1 := snd (Facade.ensureAuthToken (fun _ => Ok "auth"%string) 60000 1000
                   Samples.world7) in
  Facade.ensureAuthToken (fun _ => Ok "auth"%string) 60000 500000 w1
  = (Ok "auth"%string, w1).
Proof.
  intros w1.
  exact (proj1 (auth_token_is_reused unit NonceManager.NonceState
                  (fun _ => Ok "auth"%string) 60000 1000 500000 Samples.world7
                  "auth" eq_refl eq_refl eq_refl)).
Defined.


(** ** Offsets *)

Section OffsetFacts.

Import Gateway GatewayProps.
Local Open Scope Z_scope.

Variable Number : string -> JsValue.num.

Lemma handleMessage_offset (now : Z) (msg : Message) (g : State) :
  states_book_offset msg ->
  0 <= lastOrderBookOffset g ->
  lastOrderBookOffset g <= lastOrderBookOffset (fst (handleMessage Number now msg g)).
Proof.
  intros Hm Hg.
  destruct msg as [|m|m|m|m|m|]; cbn [handleMessage]; try (cbn; lia).
  - unfold handleOrderBookSnapshot. destruct Hm as [Hoff Hob].
    destruct (m_order_book m) as [ob|] eqn:Eb; [|cbn; lia].
    destruct Hob as [o [Ho Hpos]].
    unfold staleOffset, staleTimestamp, incomingOffset, truthy.
    rewrite Hoff, Eb, Ho. cbn [or_else].
    destruct (Z.eqb_spec (lastOrderBookOffset g) 0) as [E0|N0]; cbn [negb andb].
    + destruct (_ && _); cbn; rewrite ?Ho; cbn; lia.
    + destruct (Z.eqb_spec o 0); [lia|]. cbn [negb andb].
      destruct (Z.ltb_spec o (lastOrderBookOffset g)); [cbn; lia|].
      destruct (_ && _); cbn; rewrite ?Ho; cbn; lia.
  - unfold handleOrderBookUpdate. destruct Hm as [Hoff Hob].
    destruct (orderBook g) as [book|]; [|cbn; lia].
    destruct (m_order_book m) as [ob|] eqn:Eb.
    + destruct Hob as [o [Ho Hpos]].
      unfold staleOffset, staleTimestamp, incomingOffset, truthy.
      rewrite Hoff, Eb, Ho. cbn [or_else].
      destruct (Z.eqb_spec (lastOrderBookOffset g) 0) as [E0|N0]; cbn [negb andb].
      * destruct (_ && _); cbn; rewrite ?Ho; cbn; lia.
      * destruct (Z.eqb_spec o 0); [lia|]. cbn [negb andb].
        destruct (Z.ltb_spec o (lastOrderBookOffset g)); [cbn; lia|].
        destruct (_ && _); cbn; rewrite ?Ho; cbn; lia.
    + destruct (staleOffset g m); [cbn; lia|].
      destruct (staleTimestamp g m); cbn; lia.
  - unfold handleAccountAll. destruct (a_positions m); cbn; lia.
  - unfold handleAccountMarket. destruct (am_position m) as [p|]; [|cbn; lia].
    destruct (p_market_id p); cbn; lia.
  - unfold handleAccountOrders. destruct (unreadable m); cbn; lia.
Qed.

Lemma receive_offset (inbox : list (Z * Message)) (g : State) :
  Forall (fun nm => states_book_offset (snd nm)) inbox ->
  0 <= lastOrderBookOffset g ->
  lastOrderBookOffset g <= lastOrderBookOffset (receive Number g inbox).
Proof.
  revert g. induction inbox as [|[now msg] inbox IH]; intros g Hin Hg; [cbn; lia|].
  inversion Hin as [|? ? Hm Hrest]; subst. cbn [snd] in Hm.
  pose proof (handleMessage_offset now msg g Hm Hg) as H1.
  specialize (IH (fst (handleMessage Number now msg g)) Hrest ltac:(lia)).
  change (receive Number g ((now, msg) :: inbox))
    with (receive Number (fst (handleMessage Number now msg g)) inbox).
  lia.
Qed.

End OffsetFacts.

(** The applied offset never goes back.  When every order-book message
    states its offset in the book it carries, as a positive number, and
    nowhere else, the last applied offset after a run of messages is not
    below the one after any part of the run that came first. *)
Theorem applied_offset_never_goes_back (Number : string -> JsValue.num)
        (marketId : option Z) (earlier later : list (Z * Gateway.Message)) :
  Forall (fun nm => GatewayProps.states_book_offset (snd nm)) (earlier ++ later) ->
  (Gateway.lastOrderBookOffset
     (Gateway.receive Number (Gateway.initial marketId) earlier)
   <= Gateway.lastOrderBookOffset
        (Gateway.receive Number (Gateway.initial marketId) (earlier ++ later)))%Z.
Proof.
  intros H. apply Forall_app in H. destruct H as [He Hl].
  rewrite receive_app. apply receive_offset; [exact Hl|].
  pose proof (receive_offset Number earlier (Gateway.initial marketId) He) as H0.
  cbn in H0. apply H0. lia.
Qed.

Lemma applied_offset_never_goes_back_witness :
  (Gateway.lastOrderBookOffset
     (Gateway.receive Samples.Number (Gateway.initial (Some 1%Z))
        [(1000, Gateway.SubscribedOrderBook Samples.snapshot5)])
   <= Gateway.lastOrderBookOffset
        (Gateway.receive Samples.Number (Gateway.initial (Some 1%Z))
           ([(1000, Gateway.SubscribedOrderBook Samples.snapshot5)]
            ++ [(2000, Gateway.UpdateOrderBook Samples.snapshot5)])))%Z.
Proof.
  apply (applied_offset_never_goes_back Samples.Number (Some 1%Z)
           [(1000%Z, Gateway.SubscribedOrderBook Samples.snapshot5)]
           [(2000%Z, Gateway.UpdateOrderBook Samples.snapshot5)]).
  repeat constructor; cbn; eexists; split; try reflexivity; lia.
Defined.

(** Without that: a message whose own offset passes the guard while the
    book it carries states a lower one moves the applied offset back. *)
Example offset_of_the_book_is_stored :
  let m := {| Gateway.m_offset := Some 10%Z; Gateway.m_timestamp := Some 500%Z;
              Gateway.m_order_book :=
                Some {| Gateway.ob_offset := Some 3%Z; Gateway.ob_bids := Some [];
                        Gateway.ob_asks := Some [] |} |} in
  Gateway.lastOrderBookOffset Samples.after_snapshot5 = 5%Z
  /\ Gateway.lastOrderBookOffset
       (fst (Gateway.handleOrderBookUpdate Samples.Number 2000 m Samples.after_snapshot5))
     = 3%Z.
Proof. vm_compute. split; reflexivity. Qed.

(** ** Bigints and numbers *)

Section RoundingFacts.

Import Integers.
Local Open Scope N_scope.

Lemma round53_small (n : N) : n < 2 ^ 53 -> round53 n = n.
Proof. intros H. unfold round53. apply N.ltb_lt in H. now rewrite H. Qed.

(** Above [2^53] the rounded magnitude is a multiple of the spacing
    [2^e], at most half a spacing away, and not below [2^53]. *)
Lemma round53_large (n : N) :
  2 ^ 53 <= n ->
  let e := N.log2 n - 52 in
  1 <= e
  /\ 2 ^ 53 <= round53 n
  /\ round53 n <= n + 2 ^ (e - 1)
  /\ n <= round53 n + 2 ^ (e - 1).
Proof.
  intros Hn e.
  assert (Hpos : 0 < n) by (assert (0 < 2 ^ 53) by (apply N.neq_0_lt_0, N.pow_nonzero; lia); lia).
  assert (HL : 53 <= N.log2 n) by (apply N.log2_le_pow2; assumption).
  destruct (N.log2_spec n Hpos) as [Hlo Hhi].
  assert (He : 1 <= e) by (unfold e; lia).
  split; [exact He|].
  unfold round53. replace (n <? 2 ^ 53) with false by (symmetry; apply N.ltb_ge; exact Hn).
  fold e. cbv zeta.
  set (p := 2 ^ e). set (half := 2 ^ (e - 1)).
  assert (Hp : p = 2 * half).
  { unfold p, half. replace e with (N.succ (e - 1)) at 1 by lia. apply N.pow_succ_r'. }
  assert (Hhalf : 0 < half) by (apply N.neq_0_lt_0, N.pow_nonzero; lia).
  assert (HpL : 2 ^ N.log2 n = 2 ^ 52 * p).
  { unfold p. rewrite <- N.pow_add_r. f_equal. unfold e. lia. }
  pose proof (N.div_mod n p ltac:(lia)) as Hdm.
  pose proof (N.mod_lt n p ltac:(lia)) as Hr.
  set (q := n / p) in *. set (r := n mod p) in *.
  assert (Hq : 2 ^ 52 <= q).
  { unfold q. apply N.div_le_lower_bound; [lia|]. rewrite N.mul_comm, <- HpL. exact Hlo. }
  assert (H52 : (2 ^ 52 = 4503599627370496)%N) by reflexivity.
  assert (H53 : (2 ^ 53 = 9007199254740992)%N) by reflexivity.
  rewrite H52 in *. rewrite H53 in *. clear H52 H53.
  destruct (N.ltb_spec r half) as [Hlt|Hge].
  - repeat split; nia.
  - destruct (N.ltb_spec half r) as [Hgt|Hle].
    + repeat split; nia.
    + destruct (N.even q); repeat split; nia.
Qed.

Lemma round53_ge (n : N) : 2 ^ 53 <= n -> 2 ^ 53 <= round53 n.
Proof. intros H. now destruct (round53_large n H) as (_ & H1 & _). Qed.

(** Up to [2^63] the rounding moves a magnitude by at most 512. *)
Lemma round53_int64 (n : N) :
  n <= 2 ^ 63 -> round53 n <= n + 512 /\ n <= round53 n + 512.
Proof.
  intros Hn. destruct (N.lt_ge_cases n (2 ^ 53)) as [Hs|Hl].
  - rewrite round53_small by exact Hs. lia.
  - destruct (N.eq_dec n (2 ^ 63)) as [->|Hne].
    + vm_compute. split; discriminate.
    + destruct (round53_large n Hl) as (He & _ & H1 & H2). cbv zeta in *.
      assert (Hpos : 0 < n).
      { assert (0 < 2 ^ 53) by (apply N.neq_0_lt_0, N.pow_nonzero; lia). lia. }
      assert (HL : N.log2 n < 63) by (apply N.log2_lt_pow2; [exact Hpos | lia]).
      assert (Hh : 2 ^ (N.log2 n - 52 - 1) <= 2 ^ 9)
        by (apply N.pow_le_mono_r; lia).
      change (2 ^ 9) with 512 in Hh. lia.
Qed.

End RoundingFacts.

Section ConversionFacts.

Import Integers.
Local Open Scope Z_scope.

Lemma Qle_bool_inject (a b : Z) : Qle_bool (inject_Z a) (inject_Z b) = (a <=? b).
Proof. unfold Qle_bool, inject_Z. cbn. now rewrite !Z.mul_1_r. Qed.

Lemma isSafeInteger_inject (k : Z) :
  isSafeInteger (JsValue.VFin (inject_Z k)) = (Z.abs k <=? 2 ^ 53 - 1).
Proof.
  unfold isSafeInteger.
  change (Qnum (inject_Z k)) with k. change (Qden (inject_Z k)) with 1%positive.
  rewrite Z.rem_1_r.
  change (Qabs (inject_Z k)) with (inject_Z (Z.abs k)). now rewrite Qle_bool_inject.
Qed.

Lemma Number_of_bigint_small (z : Z) :
  Z.abs z < 2 ^ 53 -> Number_of_bigint z = JsValue.VFin (inject_Z z).
Proof.
  intros H. unfold Number_of_bigint.
  rewrite round53_small by (change (2 ^ 53)%N with (Z.to_N (2 ^ 53)); lia).
  replace (2 ^ 1024 <=? Z.abs_N z)%N with false.
  - do 2 f_equal. destruct (Z.ltb_spec z 0); lia.
  - symmetry. apply N.leb_gt.
    apply N.lt_trans with (2 ^ 53)%N; [|reflexivity].
    change (2 ^ 53)%N with (Z.to_N (2 ^ 53)). lia.
Qed.

(** Beyond [2^53] the number is an infinity or an integer of magnitude at
    least [2^53]. *)
Lemma Number_of_bigint_large (z : Z) :
  2 ^ 53 <= Z.abs z ->
  (exists neg, Number_of_bigint z = JsValue.VInf neg /\ neg = (z <? 0))
  \/ exists k, Number_of_bigint z = JsValue.VFin (inject_Z k)
               /\ 2 ^ 53 <= Z.abs k /\ (k < 0 <-> z < 0).
Proof.
  intros H. unfold Number_of_bigint.
  assert (Hr : (2 ^ 53 <= round53 (Z.abs_N z))%N).
  { apply round53_ge. change (2 ^ 53)%N with (Z.to_N (2 ^ 53)). lia. }
  destruct (2 ^ 1024 <=? round53 (Z.abs_N z))%N.
  - left. eauto.
  - right. eexists. split; [reflexivity|].
    assert (Hz : 2 ^ 53 <= Z.of_N (round53 (Z.abs_N z))).
    { change (2 ^ 53) with (Z.of_N (2 ^ 53)). lia. }
    destruct (Z.ltb_spec z 0); lia.
Qed.

End ConversionFacts.

(** [toSafeNumber] of a bigint never loses precision: it returns the
    bigint itself, as a number, when its magnitude is at most [2^53 - 1],
    and throws otherwise. *)
Theorem toSafeNumber_is_exact (z : Z) :
  Integers.toSafeNumber (Integers.OfBigint z)
  = if (Z.abs z <=? 2 ^ 53 - 1)%Z
    then Integers.Returned (JsValue.VFin (inject_Z z))
    else Integers.Thrown Integers.ExceedsSafeInteger.
Proof.
  unfold Integers.toSafeNumber. cbn [Integers.toNumber].
  destruct (Z.leb_spec (Z.abs z) (2 ^ 53 - 1)) as [Hs|Hl].
  - rewrite Number_of_bigint_small by lia.
    rewrite isSafeInteger_inject.
    replace (Z.abs z <=? 2 ^ 53 - 1)%Z with true by (symmetry; apply Z.leb_le; lia).
    reflexivity.
  - destruct (Number_of_bigint_large z ltac:(lia)) as [[neg [-> _]]|[k [-> [Hk _]]]].
    + reflexivity.
    + rewrite isSafeInteger_inject.
      replace (Z.abs k <=? 2 ^ 53 - 1)%Z with false by (symmetry; apply Z.leb_gt; lia).
      reflexivity.
Qed.

(** [safeNumberToUint32] returns only integers from 0 to [2^32 - 1]; of a
    bigint in that range it returns the bigint itself, and for every other
    bigint it throws. *)
Theorem safeNumberToUint32_range :
  (forall value x,
      Integers.safeNumberToUint32 value = Integers.Returned x ->
      exists k, x = JsValue.VFin (inject_Z k) /\ (0 <= k <= 4294967295)%Z)
  /\ forall z,
       Integers.safeNumberToUint32 (Integers.OfBigint z)
       = if ((0 <=? z) && (z <=? 4294967295))%Z
         then Integers.Returned (JsValue.VFin (inject_Z z))
         else Integers.Thrown Integers.OutOfUint32.
Proof.
  split.
  - intros value x. unfold Integers.safeNumberToUint32.
    destruct (Integers.toNumber value) as [|neg|q]; cbn [JsValue.isFinite negb orb];
      try discriminate.
    unfold Integers.negative, Integers.above.
    destruct (Qle_bool 0 q) eqn:E0; cbn [negb orb]; [|discriminate].
    destruct (Qle_bool q (inject_Z 4294967295)) eqn:E1; cbn [negb]; [|discriminate].
    intros H. inversion H; subst x. eexists. split; [reflexivity|].
    apply Qle_bool_iff in E0, E1. unfold Qle in E0, E1. cbn in E0, E1.
    destruct q as [a b]. cbn [Qnum Qden] in *.
    assert (Hb : (0 < Z.pos b)%Z) by lia.
    split.
    + apply Z.quot_pos; lia.
    + apply Z.quot_le_upper_bound; lia.
  - intros z. unfold Integers.safeNumberToUint32. cbn [Integers.toNumber].
    destruct (Z.lt_ge_cases (Z.abs z) (2 ^ 53)) as [Hs|Hl].
    + rewrite Number_of_bigint_small by exact Hs.
      cbn [JsValue.isFinite negb orb Integers.negative Integers.above Integers.trunc].
      change (Qle_bool 0 (inject_Z z)) with (Qle_bool (inject_Z 0) (inject_Z z)).
      rewrite !Qle_bool_inject.
      change (Qnum (inject_Z z)) with z. change (Qden (inject_Z z)) with 1%positive.
      rewrite Z.quot_1_r.
      destruct (0 <=? z)%Z; cbn; [|reflexivity].
      destruct (z <=? 4294967295)%Z; reflexivity.
    + destruct (Number_of_bigint_large z Hl) as [[neg [-> _]]|[k [-> [Hk Hsg]]]].
      * cbn. replace ((0 <=? z) && (z <=? 4294967295))%Z with false; [reflexivity|].
        symmetry. apply andb_false_iff.
        destruct (Z.leb_spec z 4294967295); [|now right].
        left. apply Z.leb_gt. lia.
      * cbn [JsValue.isFinite negb orb Integers.negative Integers.above].
        change (Qle_bool 0 (inject_Z k)) with (Qle_bool (inject_Z 0) (inject_Z k)).
        rewrite !Qle_bool_inject.
        replace ((0 <=? z) && (z <=? 4294967295))%Z with false
          by (symmetry; apply andb_false_iff;
              destruct (Z.leb_spec 0 z); [right; apply Z.leb_gt; lia | now left]).
        destruct (Z.leb_spec 0 k); cbn; [|reflexivity].
        replace (k <=? 4294967295)%Z with false by (symmetry; apply Z.leb_gt; lia).
        reflexivity.
Qed.

(** [toInt64] throws exactly outside [-2^63, 2^63 - 1]; inside, it
    returns an integer that differs from the bigint by at most 512, and
    not at all up to magnitude [2^53]. *)
Theorem toInt64_rounds_within_512 (z : Z) :
  match Integers.toInt64 z with
  | Integers.Returned x =>
      (- 2 ^ 63 <= z <= 2 ^ 63 - 1)%Z
      /\ exists k, x = JsValue.VFin (inject_Z k)
                   /\ (Z.abs (k - z) <= 512)%Z
                   /\ ((Z.abs z <= 2 ^ 53)%Z -> k = z)
  | Integers.Thrown e =>
      e = Integers.ExceedsInt64 /\ (z < - 2 ^ 63 \/ 2 ^ 63 - 1 < z)%Z
  end.
Proof.
  unfold Integers.toInt64, Integers.clampToInt64.
  change (Z.shiftl 1 63) with (2 ^ 63)%Z. cbv zeta.
  destruct (Z.ltb_spec (2 ^ 63 - 1) z) as [Hhi|Hhi]; cbn [orb].
  - split; [reflexivity | now right].
  - destruct (Z.ltb_spec z (- 2 ^ 63)) as [Hlo|Hlo].
    + split; [reflexivity | now left].
    + split; [lia|].
      assert (Hn : (Z.abs_N z <= 2 ^ 63)%N).
      { change (2 ^ 63)%N with (Z.to_N (2 ^ 63)). lia. }
      destruct (round53_int64 _ Hn) as [H1 H2].
      unfold Integers.Number_of_bigint.
      replace (2 ^ 1024 <=? Integers.round53 (Z.abs_N z))%N with false.
      * eexists. split; [reflexivity|]. split.
        -- destruct (Z.ltb_spec z 0); lia.
        -- intros Hs. destruct (Z.eq_dec (Z.abs z) (2 ^ 53)) as [E|E].
           ++ assert (En : Z.abs_N z = (2 ^ 53)%N).
              { change (2 ^ 53)%N with (Z.to_N (2 ^ 53)). lia. }
              rewrite En. change (Integers.round53 (2 ^ 53)) with (2 ^ 53)%N.
              change (Z.of_N (2 ^ 53)) with (2 ^ 53)%Z.
              destruct (Z.ltb_spec z 0); lia.
           ++ rewrite round53_small
                by (change (2 ^ 53)%N with (Z.to_N (2 ^ 53)); lia).
              destruct (Z.ltb_spec z 0); lia.
      * symmetry. apply N.leb_gt.
        apply N.le_lt_trans with (2 ^ 63 + 512)%N; [lia|]. reflexivity.
Qed.

(** ** Events *)

Section EventFacts.

Import Event EventProps.

Variables (Handler Value Store : Type).
Variable same : Handler -> Handler -> bool.
Hypothesis same_spec : forall a b, reflect (a = b) (same a b).
Variable call : Handler -> Value -> list Handler * Store
                -> result unit * (list Handler * Store).

Lemma deliver_to (snapshot : list Handler) (value : Value)
      (st : list Handler * Store) :
  map (@to Handler) (fst (deliver call snapshot value st)) = snapshot.
Proof.
  revert st. induction snapshot as [|h rest IH]; intros st; [reflexivity|].
  cbn [deliver]. destruct (call h value st) as [outcome st'].
  specialize (IH st'). destruct (deliver call rest value st') as [ds st''].
  cbn in *. now rewrite IH.
Qed.

Lemma add_In (h x : Handler) (ls : list Handler) :
  In x (add same h ls) <-> x = h \/ In x ls.
Proof.
  unfold add. destruct (existsb (same h) ls) eqn:E.
  - split; [now right|]. intros [->|H]; [|exact H].
    apply existsb_exists in E. destruct E as [y [Hy Hs]].
    destruct (same_spec h y); [now subst | discriminate].
  - rewrite in_app_iff. cbn. intuition congruence.
Qed.

Lemma remove_In (h x : Handler) (ls : list Handler) :
  In x (remove same h ls) <-> x <> h /\ In x ls.
Proof.
  unfold remove. rewrite filter_In, negb_true_iff.
  destruct (same_spec h x); split; intros [A B]; split; auto; congruence.
Qed.

Lemma add_NoDup (h : Handler) (ls : list Handler) : NoDup ls -> NoDup (add same h ls).
Proof.
  intros H. unfold add. destruct (existsb (same h) ls) eqn:E; [exact H|].
  apply NoDup_app; [exact H | repeat constructor; intros [] |].
  intros x Hx [E'|[]]. subst x.
  assert (existsb (same h) ls = true).
  { apply existsb_exists. exists h. split; [exact Hx|]. now destruct (same_spec h h). }
  congruence.
Qed.

Lemma remove_NoDup (h : Handler) (ls : list Handler) : NoDup ls -> NoDup (remove same h ls).
Proof. intros H. unfold remove. now apply NoDup_filter. Qed.

Lemma changes_NoDup (changes : list (Change Handler)) (ls : list Handler) :
  NoDup ls -> NoDup (fold_left (change same) changes ls).
Proof.
  revert ls. induction changes as [|c cs IH]; intros ls Hnd; [exact Hnd|].
  cbn [fold_left]. apply IH.
  destruct c; [now apply add_NoDup | now apply remove_NoDup].
Qed.

Lemma changes_registered (changes : list (Change Handler)) (ls : list Handler)
      (was : bool) (h : Handler) :
  (In h ls <-> was = true) ->
  (In h (fold_left (change same) changes ls)
   <-> fold_left (fun was c =>
                    match c with
                    | Add x => if same h x then true else was
                    | Remove x => if same h x then false else was
                    end) changes was = true).
Proof.
  revert ls was. induction changes as [|c cs IH]; intros ls was Hw; [exact Hw|].
  cbn [fold_left]. apply IH.
  destruct c as [x|x]; cbn [change].
  - rewrite add_In. destruct (same_spec h x) as [->|Hne]; [tauto|].
    rewrite <- Hw. split; [intros [E|H]; [congruence | exact H] | now right].
  - rewrite remove_In. destruct (same_spec h x) as [->|Hne].
    + split; [intros [A _]; congruence | discriminate].
    + rewrite <- Hw. tauto.
Qed.

End EventFacts.

(** [emit] reaches every registered listener once.  After any run of
    [add] and [remove] on a new event, [emit] calls exactly the listeners
    whose last change was an [add], each once and in the order in which
    they stand in the set, whatever a listener throws and whatever it
    changes, the set of listeners included, while the others wait. *)
Theorem emit_reaches_every_listener (Handler Value Store : Type)
        (same : Handler -> Handler -> bool)
        (same_spec : forall a b, reflect (a = b) (same a b))
        (call : Handler -> Value -> list Handler * Store
                -> result unit * (list Handler * Store))
        (changes : list (Event.Change Handler)) (value : Value) (store : Store) :
  let listeners := fold_left (Event.change same) changes [] in
  let called := map (@Event.to Handler)
                    (fst (Event.emit call value (listeners, store))) in
  called = listeners
  /\ NoDup called
  /\ forall h, In h called <-> EventProps.registered same h changes = true.
Proof.
  intros listeners called.
  assert (E : called = listeners) by apply deliver_to.
  split; [exact E|]. rewrite E. split.
  - apply changes_NoDup; [exact same_spec | constructor].
  - intros h. apply (changes_registered Handler Value Store same same_spec call).
    split; [intros [] | discriminate].
Qed.

Lemma emit_reaches_every_listener_witness :
  let call := fun (h : nat) (_ : unit) (st : list nat * unit) =>
                (if Nat.eqb h 1 then Throw (ExternalFailure "listener") else Ok tt, st) in
  let changes := [Event.Add 1; Event.Add 2; Event.Add 1; Event.Remove 2; Event.Add 3] in
  map (@Event.to nat)
      (fst (Event.emit call tt (fold_left (Event.change Nat.eqb) changes [], tt)))
  = [1; 3].
Proof.
  intros call changes.
  exact (proj1 (emit_reaches_every_listener nat unit unit Nat.eqb Nat.eqb_spec call
                  changes tt tt)).
Defined.

Section EstimateFacts.

Import Gateway GatewayProps.

Variable Number : string -> JsValue.num.

Lemma comparePrices_finite (side : OrderSide) (a b : LighterOrderBookLevel) :
  JsValue.isFinite (Number (price a)) = true ->
  JsValue.isFinite (Number (price b)) = true ->
  comparePrices Number side a b = compareLevels Number (GatewayProps.bookSide side) a b.
Proof.
  unfold comparePrices, compareLevels.
  destruct (Number (price a)), (Number (price b)); try discriminate.
  now destruct side.
Qed.

Lemma insert_ext (c1 c2 : LighterOrderBookLevel -> LighterOrderBookLevel -> comparison)
      (a : LighterOrderBookLevel) (l : list LighterOrderBookLevel) :
  (forall y, In y l -> c1 a y = c2 a y) -> insert c1 a l = insert c2 a l.
Proof.
  induction l as [|y l IH]; intros H; simpl; [reflexivity|].
  rewrite (H y (or_introl eq_refl)). destruct (c2 a y); try reflexivity.
  f_equal. apply IH. intros z Hz. apply H. now right.
Qed.

Lemma sort_comparePrices (side : OrderSide) (l : list LighterOrderBookLevel) :
  finite_prices Number l ->
  sort (comparePrices Number side) l = sort (compareLevels Number (GatewayProps.bookSide side)) l.
Proof.
  induction l as [|a l IH]; intros Hf; simpl; [reflexivity|].
  inversion Hf as [|? ? Ha Hl]; subst. rewrite (IH Hl).
  apply insert_ext. intros y Hy. apply comparePrices_finite; [exact Ha|].
  apply sort_In in Hy. unfold finite_prices in Hl. rewrite Forall_forall in Hl. now apply Hl.
Qed.

End EstimateFacts.

(** A market order is priced at the best price of the book.  When the
    side of the stored book that the order trades against (the bids for a
    sell, the asks for a buy) has levels, all with prices that read as
    finite numbers, [estimateMarketPrice] returns the price of one of
    these levels, and none of them has a higher (sell) or lower (buy)
    price.  When that side is empty it returns the last trade price of
    the ticker, and fails when there is no ticker. *)
Theorem estimate_is_the_best_price (Number : string -> JsValue.num)
        (side : Gateway.OrderSide) (book : Gateway.LighterOrderBookSnapshot)
        (ticker : option string) :
  let levels := match side with
                | Gateway.SELL => Gateway.bids book
                | Gateway.BUY => Gateway.asks book
                end in
  GatewayProps.finite_prices Number levels ->
  match levels with
  | [] =>
      Gateway.estimateMarketPrice Number side (Some book) ticker
      = match ticker with
        | Some last_trade_price => Gateway.Estimated (Number last_trade_price)
        | None => Gateway.NoMarketPrice
        end
  | _ :: _ =>
      exists level q,
        In level levels
        /\ Number (Gateway.price level) = JsValue.VFin q
        /\ Gateway.estimateMarketPrice Number side (Some book) ticker
           = Gateway.Estimated (JsValue.VFin q)
        /\ forall other p, In other levels ->
             Number (Gateway.price other) = JsValue.VFin p ->
             match side with
             | Gateway.SELL => (p <= q)%Q
             | Gateway.BUY => (q <= p)%Q
             end
  end.
Proof.
  intros levels Hf. unfold Gateway.estimateMarketPrice. cbv zeta.
  change (match side with
          | Gateway.BUY => Gateway.asks book
          | Gateway.SELL => Gateway.bids book
          end) with levels.
  clearbody levels.
  destruct levels as [|l0 rest]; [reflexivity|].
  set (levels := l0 :: rest) in *.
  rewrite (sort_comparePrices Number side levels Hf).
  pose proof (sort_sorted Number (GatewayProps.bookSide side) levels Hf) as Hs.
  pose proof (sort_In Number (GatewayProps.bookSide side)) as Hin.
  destruct (Gateway.sort (Gateway.compareLevels Number (GatewayProps.bookSide side)) levels)
    as [|level sorted] eqn:E.
  - exfalso. pose proof (proj2 (Hin l0 levels) (or_introl eq_refl)) as H.
    rewrite E in H. exact H.
  - assert (Hl : In level levels) by (apply Hin; rewrite E; now left).
    unfold GatewayProps.finite_prices in Hf. rewrite Forall_forall in Hf.
    destruct (Number (Gateway.price level)) as [| |q] eqn:Eq;
      try (specialize (Hf level Hl); rewrite Eq in Hf; discriminate).
    exists level, q. repeat split; auto.
    intros other p Ho Ep. apply Hin in Ho. rewrite E in Ho. destruct Ho as [<-|Ho].
    + rewrite Eq in Ep. inversion Ep; subst. destruct side; apply Qle_refl.
    + inversion Hs as [|? ? _ Hall]; subst. rewrite Forall_forall in Hall.
      specialize (Hall other Ho). unfold GatewayProps.stands_before in Hall.
      rewrite Eq, Ep in Hall. destruct side; exact Hall.
Qed.

Lemma estimate_is_the_best_price_witness :
  let book := {| Gateway.market_id := 1; Gateway.offset := 5;
                 Gateway.bids := [Samples.level "99" "1"; Samples.level "101" "2"];
                 Gateway.asks := [] |} in
  exists q,
    Gateway.estimateMarketPrice Samples.Number Gateway.SELL (Some book) None
    = Gateway.Estimated (JsValue.VFin q)
    /\ (101 <= q)%Q.
Proof.
  intros book.
  pose proof (estimate_is_the_best_price Samples.Number Gateway.SELL book None
                ltac:(repeat constructor)) as H.
  destruct H as (level & q & Hl & Eq & E & Hbest).
  exists q. split; [exact E|].
  apply (Hbest (Samples.level "101" "2")); [right; now left | reflexivity].
Defined.

Section PollingFacts.

Import Polling PollingProps.

Variables (Handler Kline : Type).
Variable same : Handler -> Handler -> bool.
Variable call : Handler -> list Kline -> result unit.

Lemma one_per_target_initial : one_per_target (initial Handler Kline).
Proof.
  unfold one_per_target, initial; cbn. repeat split; try constructor;
    try discriminate; try contradiction.
Qed.

Lemma NoDup_snoc (A : Type) (l : list A) (x : A) :
  NoDup l -> ~ In x l -> NoDup (l ++ [x]).
Proof.
  intros Hl Hx. apply NoDup_app; [exact Hl | repeat constructor; intros [] |].
  intros y Hy [<-|[]]. now apply Hx.
Qed.

Lemma target_In (ts : list (nat * Target)) (t : Target) :
  In t (map snd ts) <-> exists h, In (h, t) ts.
Proof.
  rewrite in_map_iff. split.
  - intros [[h t'] [E H]]. simpl in E. subst t'. eauto.
  - intros [h H]. exists (h, t). auto.
Qed.

Lemma one_per_target_step (w : World Handler Kline) (c : Call Handler Kline) :
  one_per_target w -> one_per_target (step same call w c).
Proof.
  intros Hw. pose proof Hw as (Hnd & Hp & Ht & Hk). destruct c as [|interval handler|interval mapped]; cbn [step].
  - unfold startPolling. destruct (ticker (pollers w)) as [h|] eqn:E.
    + exact Hw.
    + unfold one_per_target. cbn. rewrite map_app. cbn.
      split; [|split; [|split]].
      * apply NoDup_snoc; [exact Hnd|]. intros Hin. apply target_In in Hin.
        destruct Hin as [h Hin]. apply Ht in Hin. congruence.
      * now rewrite Hp.
      * intros timer. split; intros H.
        -- inversion H; subst. apply in_or_app. right. now left.
        -- apply in_app_or in H. destruct H as [H|[H|[]]].
           ++ apply Ht in H. congruence.
           ++ now inversion H.
      * intros i timer. split; intros H.
        -- apply in_or_app. left. now apply Hk.
        -- apply in_app_or in H. destruct H as [H|[H|[]]];
             [now apply Hk | discriminate].
  - unfold watchKlines. cbv zeta. cbn [klineCache pollers].
    destruct (match JsMap.get String.eqb interval (klineCache w) with
              | Some cached => call handler cached
              | None => Ok tt
              end) as [u|e]; [|exact Hw].
    destruct (JsMap.get String.eqb interval (klines (pollers w))) as [h|] eqn:E;
      [exact Hw|].
    unfold one_per_target. cbn. rewrite map_app. cbn.
    split; [|split; [|split]].
    + apply NoDup_snoc; [exact Hnd|]. intros Hin. apply target_In in Hin.
      destruct Hin as [h Hin]. apply Hk in Hin. congruence.
    + now rewrite Hp.
    + intros timer. split; intros H.
      * apply in_or_app. left. now apply Ht.
      * apply in_app_or in H. destruct H as [H|[H|[]]]; [now apply Ht | discriminate].
    + intros i timer. split; intros H.
      * apply in_or_app. destruct (String.eqb_spec i interval) as [->|Hn].
        -- rewrite (get_set_same _ _ String.eqb string_eqb_spec) in H. inversion H; subst.
           right. now left.
        -- rewrite (get_set_other _ _ String.eqb string_eqb_spec) in H by exact Hn.
           left. now apply Hk.
      * apply in_app_or in H. destruct H as [H|[H|[]]].
        -- destruct (String.eqb_spec i interval) as [->|Hn].
           ++ apply Hk in H. congruence.
           ++ rewrite (get_set_other _ _ String.eqb string_eqb_spec) by exact Hn. now apply Hk.
        -- inversion H; subst. apply (get_set_same _ _ String.eqb string_eqb_spec).
  - exact Hw.
Qed.

Lemma one_per_target_run (calls : list (Call Handler Kline)) (w : World Handler Kline) :
  one_per_target w -> one_per_target (run same call w calls).
Proof.
  revert w. induction calls as [|c calls IH]; intros w H; cbn; [exact H|].
  apply IH. now apply one_per_target_step.
Qed.

End PollingFacts.

(** Polling starts once.  Whatever calls of [startPolling] and
    [watchKlines] are made and whatever klines are cached in between, and
    whatever the kline listeners throw, no two interval timers poll the
    same thing: there is at most one timer for the ticker and at most one
    for each kline interval, the pollers hold exactly the handles of these
    timers, and each timer was started together with one poll made at
    once. *)
Theorem polling_starts_once (Handler Kline : Type) (same : Handler -> Handler -> bool)
        (call : Handler -> list Kline -> result unit)
        (calls : list (Polling.Call Handler Kline)) :
  PollingProps.one_per_target
    (Polling.run same call (Polling.initial Handler Kline) calls).
Proof. apply one_per_target_run, one_per_target_initial. Qed.
